(* ===== verification/_CoqProject ===== *)
-Q . S2P
Prelude.v
Text.v
JsLexer.v
Externs.v
Consts.v
Context.v
Helpers.v
Idents.v
Let.v
Node.v
Translate.v
Main.v
Tree.v
Lazyness.v
JsAst.v
Compile.v
Keeps.v
Traversal.v
Brackets.v
Wasm.v
Names.v
Bindings.v
Refine.v
RefineTree.v
RefineNode.v
JsScope.v
JsScopeNode.v
Accept.v
Awaited.v
Errors.v
Termination.v
Safety.v
LetForms.v
Scope.v
Progress.v
SourceMap.v
MapDecode.v
Concrete.v
Samples.v
Findings.v
