(* ===== verification/Prelude.v ===== *)
(** * nix2js: a verified model of the Nix to JavaScript translator

    The program (Rust, src/src and src/wasm) reads a Nix expression and prints one
    JavaScript expression that evaluates it with the help of a runtime, together
    with a source map.  This library models all of its Rust code and proves what
    makes it correct.

    ** The parts of the program and where they are modelled

    - src/src/consts.rs, the identifier categories, the names of the runtime and
      the table of global names: Consts.v.
    - src/src/lib.rs, [struct Context]: Context.v.  The buffers behind the [&mut]
      fields are fields of the record.  The methods run in the monad
      [M A = Context -> outcome string A * Context]: [Ok] and [Err] are the two
      sides of a [Result], [Panic] is a failed [unwrap], [assert!] or conversion
      and an [unreachable!], and the state is kept in every case.
    - src/src/helpers.rs: Helpers.v.  [push], [lazyness_incoming], [snapshot_pos],
      [snapshot_ident] (split where the names are recorded), [txtrng_to_lineno],
      [rtv], [attrelem_raw_safe], [escape_str].
    - src/src/lib.rs, identifiers and attribute paths: Idents.v; key-value pairs,
      [inherit] and the three forms of [translate_let]: Let.v; [translate_node],
      one definition per kind of node: Node.v; [translate]: Translate.v.
    - src/src/main.rs: Main.v, on a world with files and streams.
    - src/wasm/src/lib.rs: Wasm.v.

    Strings are byte strings; Text.v defines the operations on characters the code
    uses by UTF-8 decoding.  Integers that are converted to a machine width are
    checked against it where the code checks them ([try_i64], [try_u32],
    [i64_sub]).

    ** What is a parameter

    Externs.v has a class for each crate the code calls: rnix (a syntax node, its
    range, its text and its typed view), linetrack (line and column of an offset,
    advance of the generated text), vlq, serde_json, base64 and the unstable sort
    of the standard library.  The [..Laws] classes name the documented behaviour a
    theorem needs.  Concrete.v implements all of them and proves the laws, and
    Samples.v runs the translator on small programs with these functions.

    ** Recursion

    [translate_node] recurses over the syntax tree and takes fuel.  A tree is
    finite, [RnixLaws] gives a size that decreases towards the children;
    Termination.v proves that more fuel than the size of the root is enough.

    ** What is proved

    - Tree.v says which nodes and identifiers a translation reaches.  Keeps.v and
      Traversal.v prove once, for every method, that it keeps an invariant of the
      primitive steps and restores the scope; the interface is the class [Steps].
      Termination.v, Safety.v, Scope.v and SourceMap.v are instances of it.
    - Safety.v (C1): [translate] does not panic on well-formed trees.
      Termination.v (C12): it terminates.  Scope.v (C5): a call only appends to
      the buffers and leaves the scope as it was.
    - The abstract specification.  JsAst.v has a syntax tree of the JavaScript that
      is generated, and its printer; Compile.v a reference compiler, a pure
      function from Nix trees to these trees, in which the scope is an argument
      and there are no buffers, positions and no undoing.  Refine.v (the judgement
      [prints], its rules, and identifiers), RefineTree.v (paths, bindings, [let])
      and RefineNode.v (nodes; C2, C11) prove that the translator prints what the
      compiler returns and fails with its errors.
    - What follows for the generated code.  JsScope.v and JsScopeNode.v (C4): it
      is well formed, for programs whose names stay apart when they are printed as
      variables.  Awaited.v (C8): where a value is wanted, which nodes print a
      promise.  Accept.v and Progress.v (C3): which programs are translated, by a
      static semantics, and Errors.v (C10) which errors are left on complete
      programs.  LetForms.v (C9): the short forms of [let] are optimisations, which
      return and succeed exactly when the general form does.
    - SourceMap.v and MapDecode.v (C6): the mappings decode to well-formed
      segments which refer to positions of the source and to listed names, when the
      name field is read as an absolute index.  Progress.v (C23): where the machine
      integers of a snapshot overflow.
    - JsLexer.v and Brackets.v (C7): the generated code is lexically well formed,
      but for [__foldl'], by a second traversal that follows the open brackets.
    - Lazyness.v (C13 to C15): the contract of [lazyness_incoming], a plan of what
      is printed, and what becomes of the await and promise obligations.
    - Names.v (C16 to C20): resolution, the printed text, mangling, line numbers.
      Bindings.v (C21, C22): the names a scope declares, the global names.
    - Main.v (C24 to C26) and Wasm.v (C27): the two front ends.
    - Findings.v: programs on which the output is not what it should be.
    - Samples.v: an instance of every theorem that has hypotheses.

    The fuel of [compile], [accepts], [starts_sync] and [leaves_promise] is that of
    [translate_node]: all of them recurse over the same nodes.

    ** What is not modelled

    The parser and the other crates (parameters), the runtime in TypeScript, and
    what the generated code evaluates to: the trees of JsAst.v have no semantics
    here, only the static checks.  Capacity hints of buffers, and errors of writes
    to the standard streams, are left out. *)
From stdpp Require Export base list strings gmap pretty.
From Stdlib Require Export Lia.

(** * The outcome of a fallible computation

    [Err] is the error value a Rust function returns, [Panic] is a call of
    [panic!], [unreachable!], [assert!] or [unwrap] that aborts, and
    [OutOfFuel] is the model's own answer when the recursion bound is too small. *)
Inductive outcome (E A : Type) : Type :=
  | Ok (a : A)
  | Err (e : E)
  | Panic (msg : string)
  | OutOfFuel.
Arguments Ok {E A} a.
Arguments Err {E A} e.
Arguments Panic {E A} msg.
Arguments OutOfFuel {E A}.

(** * State passing with errors

    [ST S E A] threads a mutable state of type [S].  The state is kept when the
    computation ends in an error, as a [&mut] borrow would leave it. *)
Definition ST (S E A : Type) : Type := S → outcome E A * S.

Section st_monad.
Context {S E : Type}.

Definition ret {A} (a : A) : ST S E A := λ s, (Ok a, s).

Definition bind {A B} (m : ST S E A) (k : A → ST S E B) : ST S E B := λ s,
  match m s with
  | (Ok a, s') => k a s'
  | (Err e, s') => (Err e, s')
  | (Panic p, s') => (Panic p, s')
  | (OutOfFuel, s') => (OutOfFuel, s')
  end.

Definition throw {A} (e : E) : ST S E A := λ s, (Err e, s).
Definition panic {A} (msg : string) : ST S E A := λ s, (Panic msg, s).
Definition out_of_fuel {A} : ST S E A := λ s, (OutOfFuel, s).
Definition gets {A} (f : S → A) : ST S E A := λ s, (Ok (f s), s).
Definition modify (f : S → S) : ST S E unit := λ s, (Ok tt, f s).

(** Run [m] and hand its [Result] to the caller as a value. *)
Definition attempt {A} (m : ST S E A) : ST S E (A + E) := λ s,
  match m s with
  | (Ok a, s') => (Ok (inl a), s')
  | (Err e, s') => (Ok (inr e), s')
  | (Panic p, s') => (Panic p, s')
  | (OutOfFuel, s') => (OutOfFuel, s')
  end.

(** Return a [Result] value that was obtained before. *)
Definition of_result {A} (r : A + E) : ST S E A :=
  match r with inl a => ret a | inr e => throw e end.

(** [Option::unwrap] and [Option::ok_or_else]. *)
Definition unwrap {A} (msg : string) (o : option A) : ST S E A :=
  match o with Some a => ret a | None => panic msg end.
Definition ok_or {A} (e : E) (o : option A) : ST S E A :=
  match o with Some a => ret a | None => throw e end.

(** [assert!]. *)
Definition assert_ (b : bool) (msg : string) : ST S E unit :=
  if b then ret tt else panic msg.

(** [for x in l { f(x)?; }]. *)
Fixpoint for_each {A} (l : list A) (f : A → ST S E unit) : ST S E unit :=
  match l with
  | [] => ret tt
  | x :: l' => bind (f x) (λ _, for_each l' f)
  end.
End st_monad.
Arguments bind : simpl never.

Declare Scope nix2js_scope.
Delimit Scope nix2js_scope with nix2js.
Notation "x ← m ; k" := (bind m (λ x, k))
  (at level 20, m at level 100, k at level 200, only parsing) : nix2js_scope.
Notation "' p ← m ; k" := (bind m (λ p, k))
  (at level 20, p pattern, m at level 100, k at level 200, only parsing) : nix2js_scope.
Notation "m ;; k" := (bind m (λ _, k))
  (at level 100, k at level 200, right associativity) : nix2js_scope.

(** * Partial-correctness triples with a postcondition per kind of exit *)

(** What must hold when a computation leaves through each of the three
    exceptional exits. *)
Record exits (S : Type) := mkExits {
  on_err : S → Prop;
  on_panic : S → Prop;
  on_fuel : S → Prop
}.
Arguments mkExits {S}.
Arguments on_err {S}.
Arguments on_panic {S}.
Arguments on_fuel {S}.

Section triples.
Context {S Er : Type}.

Definition triple {A} (E : exits S) (P : S → Prop) (m : ST S Er A) (Q : A → S → Prop) : Prop :=
  ∀ s, P s →
    match m s with
    | (Ok a, s') => Q a s'
    | (Err _, s') => on_err E s'
    | (Panic _, s') => on_panic E s'
    | (OutOfFuel, s') => on_fuel E s'
    end.

Lemma triple_ret {A} E P (a : A) (Q : A → S → Prop) :
  (∀ s, P s → Q a s) → triple E P (ret a) Q.
Proof. intros H s Hs. by apply H. Qed.

Lemma triple_bind {A B} E P R Q (m : ST S Er A) (k : A → ST S Er B) :
  triple E P m R → (∀ a, triple E (R a) (k a) Q) → triple E P (bind m k) Q.
Proof.
  intros Hm Hk s Hs. specialize (Hm s Hs). unfold bind.
  destruct (m s) as [[a|e|p|] s']; [by apply Hk|done..].
Qed.

Lemma triple_consequence {A} E P P' (Q Q' : A → S → Prop) (m : ST S Er A) :
  triple E P' m Q' → (∀ s, P s → P' s) → (∀ a s, Q' a s → Q a s) → triple E P m Q.
Proof.
  intros Hm HP HQ s Hs. specialize (Hm s (HP s Hs)).
  destruct (m s) as [[a|e|p|] s']; [by apply HQ|done..].
Qed.

Lemma triple_pre {A} E P P' (Q : A → S → Prop) (m : ST S Er A) :
  triple E P' m Q → (∀ s, P s → P' s) → triple E P m Q.
Proof. intros. by eapply triple_consequence. Qed.

(** Move an assertion on the state out of the precondition. *)
Lemma triple_exists {A X} E (P : X → S → Prop) (Q : A → S → Prop) (m : ST S Er A) :
  (∀ x, triple E (P x) m Q) → triple E (λ s, ∃ x, P x s) m Q.
Proof. intros Hm s [x Hs]. by apply (Hm x). Qed.

Lemma triple_pure {A} E (φ : Prop) P (Q : A → S → Prop) (m : ST S Er A) :
  (φ → triple E P m Q) → triple E (λ s, φ ∧ P s) m Q.
Proof. intros Hm s [Hφ Hs]. by apply Hm. Qed.

Lemma triple_throw {A} E P (e : Er) (Q : A → S → Prop) :
  (∀ s, P s → on_err E s) → triple E P (throw e) Q.
Proof. intros H s Hs. by apply H. Qed.

Lemma triple_panic {A} E P msg (Q : A → S → Prop) :
  (∀ s, P s → on_panic E s) → triple E P (panic (E := Er) msg) Q.
Proof. intros H s Hs. by apply H. Qed.

Lemma triple_out_of_fuel {A} E P (Q : A → S → Prop) :
  (∀ s, P s → on_fuel E s) → triple E P (out_of_fuel (E := Er)) Q.
Proof. intros H s Hs. by apply H. Qed.

Lemma triple_gets {A} E P (f : S → A) (Q : A → S → Prop) :
  (∀ s, P s → Q (f s) s) → triple E P (gets (E := Er) f) Q.
Proof. intros H s Hs. by apply H. Qed.

Lemma triple_modify E P f (Q : unit → S → Prop) :
  (∀ s, P s → Q tt (f s)) → triple E P (modify (E := Er) f) Q.
Proof. intros H s Hs. by apply H. Qed.

(** [for_each] keeps an invariant that each iteration keeps. *)
Lemma triple_for_each {A} E (I : S → Prop) (l : list A) (f : A → ST S Er unit) :
  (∀ x, x ∈ l → triple E I (f x) (λ _, I)) → triple E I (for_each l f) (λ _, I).
Proof.
  induction l as [|x l IH]; intros Hf; simpl.
  - by apply triple_ret.
  - eapply triple_bind; [by apply Hf; left|intros []].
    apply IH. intros y Hy. apply Hf. by right.
Qed.
End triples.

(** * The automation database of the development *)
Create HintDb nix2js.

(** Break a conjunction, an existential and a pair in the hypotheses. *)
Ltac dsimp := repeat match goal with
  | H : _ ∧ _ |- _ => destruct H
  | H : ∃ _, _ |- _ => destruct H
  | H : False |- _ => destruct H
  | p : _ * _ |- _ => destruct p
  end; simplify_eq/=.

(** * Generic lemmas on lists and options *)

(** The position of the first element that satisfies [P]
    ([iter().enumerate().find(..)]). *)
Fixpoint position {A} (P : A → bool) (l : list A) : option nat :=
  match l with
  | [] => None
  | x :: l' => if P x then Some 0 else S <$> position P l'
  end.

Lemma position_Some {A} (P : A → bool) l n :
  position P l = Some n → ∃ x, l !! n = Some x ∧ P x = true.
Proof.
  revert n. induction l as [|y l IH]; intros n; simpl; [done|].
  destruct (P y) eqn:E; [intros [= <-]; eauto|].
  destruct (position P l) as [m|]; simpl; [|done].
  intros [= <-]. by apply IH.
Qed.

Lemma position_None {A} (P : A → bool) l x : position P l = None → x ∈ l → P x = false.
Proof.
  induction l as [|y l IH]; simpl; [by intros _ ?%elem_of_nil|].
  destruct (P y) eqn:E; [done|].
  destruct (position P l); [done|].
  intros _ [->|?]%elem_of_cons; auto.
Qed.

Lemma mjoin_cons {A} (x : list A) l : mjoin (x :: l) = x ++ mjoin l.
Proof. done. Qed.

Lemma mjoin_singletons {A B} (f : A → B) l : mjoin ((λ x, [f x]) <$> l) = f <$> l.
Proof. induction l as [|x l IH]; [done|]. rewrite !fmap_cons, mjoin_cons, IH. done. Qed.

Lemma forallb_ext_in {A} (P Q : A → bool) l : (∀ x, x ∈ l → P x = Q x) → forallb P l = forallb Q l.
Proof.
  induction l as [|x l IH]; intros Hl; [done|]. simpl. rewrite (Hl x) by left. f_equal.
  apply IH. intros y Hy. apply Hl. by right.
Qed.

Lemma forallb_andb {A} (P Q : A → bool) l :
  forallb (λ x, P x && Q x) l = forallb P l && forallb Q l.
Proof.
  induction l as [|x l IH]; [done|]. simpl. rewrite IH.
  by destruct (P x), (Q x), (forallb P l), (forallb Q l).
Qed.

Lemma forallb_mjoin {A} (P : A → bool) l : forallb P (mjoin l) = forallb (forallb P) l.
Proof. induction l as [|x l IH]; [done|]. simpl. rewrite forallb_app. by f_equal. Qed.

Lemma forallb_fmap {A B} (f : A → B) P l : forallb P (f <$> l) = forallb (λ x, P (f x)) l.
Proof. induction l as [|x l IH]; [done|]. simpl. by rewrite <- IH. Qed.

Lemma forallb_app_true {A} (P : A → bool) l k :
  forallb P l = true → forallb P k = true → forallb P (l ++ k) = true.
Proof. rewrite forallb_app. by intros -> ->. Qed.

Lemma prefix_of_take {A} (l k : list A) : l `prefix_of` k → take (length l) k = l.
Proof. intros [k' ->]. by rewrite take_app_length. Qed.

Lemma string_app_assoc (s t u : string) : (s +:+ t) +:+ u = s +:+ (t +:+ u).
Proof. induction s as [|a s IH]; [done|exact (f_equal (String a) IH)]. Qed.

Lemma string_app_nil_r (s : string) : s +:+ EmptyString = s.
Proof. induction s as [|a s IH]; [done|exact (f_equal (String a) IH)]. Qed.

Lemma string_length_app (s t : string) :
  String.length (s +:+ t) = String.length s + String.length t.
Proof. induction s as [|a s IH]; [done|exact (f_equal S IH)]. Qed.

Create Rewrite HintDb nix2js_str.
#[export] Hint Rewrite string_app_assoc string_app_nil_r string_length_app : nix2js_str.
