(* ===== verification/Text.v ===== *)
(** Rust strings as byte strings: characters, UTF-8 validity, and the methods of
    [str] the translator calls ([chars], [char_indices], [replace],
    [strip_prefix], slicing), with the lemmas that reduce them to bytes. *)
From S2P Require Import Prelude.
From Stdlib Require Import Ascii.

(** * Bytes *)

Definition byte_val (a : ascii) : N := N_of_ascii a.

Definition newline : ascii := "010"%char.
Definition dquote : ascii := "034"%char.
Definition backslash : ascii := "092"%char.

Definition in_range (lo hi : N) (a : ascii) : bool :=
  (lo <=? byte_val a)%N && (byte_val a <=? hi)%N.

Definition is_upper (a : ascii) : bool := in_range 65 90 a.
Definition is_lower (a : ascii) : bool := in_range 97 122 a.
Definition is_digit (a : ascii) : bool := in_range 48 57 a.
Definition is_alpha (a : ascii) : bool := is_upper a || is_lower a.
Definition is_alnum (a : ascii) : bool := is_alpha a || is_digit a.
(** The continuation bytes of UTF-8, [10xxxxxx]. *)
Definition is_cont (a : ascii) : bool := in_range 128 191 a.

Fixpoint str_forall (f : ascii → bool) (s : string) : bool :=
  match s with
  | EmptyString => true
  | String a s' => f a && str_forall f s'
  end.

Fixpoint str_count (f : ascii → bool) (s : string) : nat :=
  match s with
  | EmptyString => 0
  | String a s' => (if f a then 1 else 0) + str_count f s'
  end.

Fixpoint str_take (n : nat) (s : string) : string :=
  match n, s with
  | S n', String a s' => String a (str_take n' s')
  | _, _ => EmptyString
  end.

Fixpoint str_drop (n : nat) (s : string) : string :=
  match n, s with
  | S n', String _ s' => str_drop n' s'
  | _, _ => s
  end.

Fixpoint str_repeat (n : nat) (s : string) : string :=
  match n with O => EmptyString | S n' => s +:+ str_repeat n' s end.

(** * Characters

    A [char] of a Rust string is the group of a leading byte and the
    continuation bytes that follow it. *)

(** [str::char_indices]: every character with the byte offset it starts at. *)
Fixpoint char_indices_from (i : nat) (s : string) : list (nat * string) :=
  match s with
  | EmptyString => []
  | String a s' =>
      let rest := char_indices_from (S i) s' in
      match s' with
      | String b _ =>
          if is_cont b then
            match rest with
            | (_, t) :: r => (i, String a t) :: r
            | [] => [(i, String a EmptyString)]
            end
          else (i, String a EmptyString) :: rest
      | EmptyString => [(i, String a EmptyString)]
      end
  end.

Definition char_indices (s : string) : list (nat * string) := char_indices_from 0 s.

(** [str::chars]. *)
Definition chars (s : string) : list string := (char_indices s).*2.

(** [char::is_ascii_alphabetic], [char::is_ascii_alphanumeric]. *)
Definition is_ascii_alphabetic (c : string) : bool :=
  match c with String a EmptyString => is_alpha a | _ => false end.
Definition is_ascii_alphanumeric (c : string) : bool :=
  match c with String a EmptyString => is_alnum a | _ => false end.

(** [Iterator::take_while]. *)
Fixpoint take_while {A} (f : A → bool) (l : list A) : list A :=
  match l with
  | [] => []
  | x :: l' => if f x then x :: take_while f l' else []
  end.

(** UTF-8 validity, the invariant of [str] and the test of [String::from_utf8]
    (Table 3-7 of the Unicode standard). *)
Fixpoint is_utf8 (s : string) : bool :=
  match s with
  | EmptyString => true
  | String a s1 =>
      if in_range 0 127 a then is_utf8 s1 else
      match s1 with
      | EmptyString => false
      | String b s2 =>
          if in_range 194 223 a then is_cont b && is_utf8 s2 else
          match s2 with
          | EmptyString => false
          | String c s3 =>
              if in_range 224 239 a then
                (if (byte_val a =? 224)%N then in_range 160 191 b
                 else if (byte_val a =? 237)%N then in_range 128 159 b
                 else is_cont b) && is_cont c && is_utf8 s3
              else
              match s3 with
              | EmptyString => false
              | String d s4 =>
                  if in_range 240 244 a then
                    (if (byte_val a =? 240)%N then in_range 144 191 b
                     else if (byte_val a =? 244)%N then in_range 128 143 b
                     else is_cont b) && is_cont c && is_cont d && is_utf8 s4
                  else false
              end
          end
      end
  end.

(** [str::is_char_boundary]. *)
Definition is_char_boundary (s : string) (i : nat) : bool :=
  match str_drop i s with
  | EmptyString => Nat.eqb i (String.length s)
  | String a _ => negb (is_cont a)
  end.

(** [&s[lo..hi]]; [None] where the indexing panics. *)
Definition str_slice (s : string) (lo hi : nat) : option string :=
  if (lo <=? hi) && (hi <=? String.length s)
     && is_char_boundary s lo && is_char_boundary s hi
  then Some (str_take (hi - lo) (str_drop lo s)) else None.

(** [str::replace] with a pattern of one ASCII character. *)
Fixpoint str_replace (pat : ascii) (to s : string) : string :=
  match s with
  | EmptyString => EmptyString
  | String a s' =>
      (if Ascii.eqb a pat then to else String a EmptyString) +:+ str_replace pat to s'
  end.

(** [str::strip_prefix]. *)
Fixpoint strip_prefix (p s : string) : option string :=
  match p, s with
  | EmptyString, _ => Some s
  | String a p', String b s' => if Ascii.eqb a b then strip_prefix p' s' else None
  | _, EmptyString => None
  end.

(** [[String]::join]. *)
Fixpoint str_join (sep : string) (l : list string) : string :=
  match l with
  | [] => EmptyString
  | [s] => s
  | s :: l' => s +:+ sep +:+ str_join sep l'
  end.

(** The byte-wise order of Rust strings. *)
Fixpoint str_leb (s t : string) : bool :=
  match s, t with
  | EmptyString, _ => true
  | String _ _, EmptyString => false
  | String a s', String b t' =>
      if Ascii.eqb a b then str_leb s' t' else (byte_val a <=? byte_val b)%N
  end.

(** * Lemmas *)

Lemma string_app_cons a s t : String a s +:+ t = String a (s +:+ t).
Proof. done. Qed.

Lemma str_forall_app f s t : str_forall f (s +:+ t) = str_forall f s && str_forall f t.
Proof.
  induction s as [|a s IH]; [done|].
  rewrite string_app_cons; simpl. by rewrite IH, andb_assoc.
Qed.

Lemma str_forall_impl (f g : ascii → bool) s :
  (∀ a, f a = true → g a = true) → str_forall f s = true → str_forall g s = true.
Proof.
  intros Hfg. induction s as [|a s IH]; simpl; [done|].
  rewrite !andb_true_iff. intros [? ?]; auto.
Qed.

Lemma str_count_app f s t : str_count f (s +:+ t) = str_count f s + str_count f t.
Proof.
  induction s as [|a s IH]; [done|]. rewrite string_app_cons; simpl. lia.
Qed.

Lemma str_drop_app s t : str_drop (String.length s) (s +:+ t) = t.
Proof. by induction s as [|a s IH]. Qed.

Lemma str_forall_repeat f n s : str_forall f s = true → str_forall f (str_repeat n s) = true.
Proof. intros H. induction n; simpl; [done|]. by rewrite str_forall_app, H. Qed.

Lemma str_forall_replace (f : ascii → bool) pat to s :
  str_forall f to = true →
  str_forall (λ a, f a || Ascii.eqb a pat) s = true →
  str_forall f (str_replace pat to s) = true.
Proof.
  intros Hto. induction s as [|a s IH]; simpl; [done|].
  rewrite andb_true_iff. intros [Ha Hs]. rewrite str_forall_app, IH by done.
  destruct (Ascii.eqb a pat); simpl; [by rewrite Hto|].
  rewrite orb_false_r in Ha. by rewrite Ha.
Qed.

Lemma strip_prefix_Some p s t : strip_prefix p s = Some t → s = p +:+ t.
Proof.
  revert s. induction p as [|a p IH]; intros [|b s]; simpl; [by intros [= <-]..|done|].
  destruct (Ascii.eqb_spec a b) as [->|]; [|done].
  intros H%IH. by rewrite H, string_app_cons.
Qed.

(** The first character of a text starts with its first byte. *)
Lemma char_indices_from_cons i a s :
  ∃ t r, char_indices_from i (String a s) = (i, String a t) :: r.
Proof.
  cbn [char_indices_from]. destruct s as [|b s]; [by eauto|].
  destruct (is_cont b); [|by eauto]. destruct (char_indices_from _ _) as [|[j t] r]; eauto.
Qed.

Lemma char_indices_from_step i a b s :
  char_indices_from i (String a (String b s)) =
  if is_cont b then
    match char_indices_from (S i) (String b s) with
    | (_, t) :: r => (i, String a t) :: r
    | [] => [(i, String a EmptyString)]
    end
  else (i, String a EmptyString) :: char_indices_from (S i) (String b s).
Proof. done. Qed.

(** A text whose characters are all alphanumeric consists of such bytes. *)
Lemma chars_alnum s :
  forallb is_ascii_alphanumeric (chars s) = true → str_forall is_alnum s = true.
Proof.
  unfold chars, char_indices. generalize 0. induction s as [|a s IH]; intros i; [done|].
  specialize (IH (S i)). destruct s as [|b s]; [simpl; by rewrite !andb_true_r|].
  destruct (char_indices_from_cons (S i) b s) as (t & r & E).
  rewrite char_indices_from_step. rewrite E in *. destruct (is_cont b); [done|].
  rewrite !fmap_cons. cbn [forallb]. rewrite andb_true_iff. intros [Ha Hr].
  cbn [str_forall]. apply andb_true_iff. split; [exact Ha|]. by apply IH.
Qed.
