(* ===== verification/JsLexer.v ===== *)
(** A lexer for the generated code: brackets, string literals and the bytes that
    may stand outside of them.  It is a specification, the translator has no
    counterpart of it. *)
From S2P Require Import Prelude Text.
From Stdlib Require Import Ascii.

(** * The automaton *)

Inductive lex_mode := Code | InStr | InEsc.

(** Inside code, a mode, and the brackets that are open, innermost first. *)
Definition lex_state : Type := lex_mode * list ascii.

Definition opening (a : ascii) : bool :=
  Ascii.eqb a "(" || Ascii.eqb a "[" || Ascii.eqb a "{".

(** The opening bracket of a closing one. *)
Definition partner (a : ascii) : option ascii :=
  if Ascii.eqb a ")" then Some "("%char
  else if Ascii.eqb a "]" then Some "["%char
  else if Ascii.eqb a "}" then Some "{"%char
  else None.

(** The bytes of the generated code outside of literals, brackets apart: no
    other quotes, no comments, no line breaks, no control bytes. *)
Definition code_byte (a : ascii) : bool :=
  is_alnum a
  || existsb (Ascii.eqb a) [" "; "_"; "$"; "."; ","; ";"; ":"; "="; ">"; "?"; "!"; "+"; "-"]%char.

Definition lex_byte (st : lex_state) (a : ascii) : option lex_state :=
  match st with
  | (Code, stk) =>
      if Ascii.eqb a dquote then Some (InStr, stk)
      else if opening a then Some (Code, a :: stk)
      else match partner a with
           | Some b =>
               match stk with
               | c :: stk' => if Ascii.eqb b c then Some (Code, stk') else None
               | [] => None
               end
           | None => if code_byte a then Some (Code, stk) else None
           end
  | (InStr, stk) =>
      if Ascii.eqb a dquote then Some (Code, stk)
      else if Ascii.eqb a backslash then Some (InEsc, stk)
      else if (byte_val a <? 32)%N then None
      else Some (InStr, stk)
  | (InEsc, stk) => if (byte_val a <? 32)%N then None else Some (InStr, stk)
  end.

Fixpoint lex (st : lex_state) (s : string) : option lex_state :=
  match s with
  | EmptyString => Some st
  | String a s' => match lex_byte st a with Some st' => lex st' s' | None => None end
  end.

(** The text takes code with the open brackets [stk] to code with [stk']. *)
Definition lexes (stk : list ascii) (s : string) (stk' : list ascii) : Prop :=
  lex (Code, stk) s = Some (Code, stk').

(** A text that can stand anywhere in code: literals are closed, and it closes
    exactly the brackets it opens. *)
Definition balanced (s : string) : Prop := ∀ stk, lexes stk s stk.

(** A whole program. *)
Definition well_lexed (s : string) : bool :=
  match lex (Code, []) s with Some (Code, []) => true | _ => false end.

(** * Lemmas *)

Lemma lex_app st s t :
  lex st (s +:+ t) = match lex st s with Some st' => lex st' t | None => None end.
Proof.
  revert st. induction s as [|a s IH]; intros st; [done|].
  rewrite string_app_cons; simpl. by destruct (lex_byte st a).
Qed.

Lemma lexes_app stk1 stk2 stk3 s t :
  lexes stk1 s stk2 → lexes stk2 t stk3 → lexes stk1 (s +:+ t) stk3.
Proof. unfold lexes. intros Hs Ht. by rewrite lex_app, Hs. Qed.

Lemma balanced_app s t : balanced s → balanced t → balanced (s +:+ t).
Proof. intros Hs Ht stk. by eapply lexes_app. Qed.

Lemma balanced_empty : balanced EmptyString.
Proof. done. Qed.

Lemma lex_byte_code stk a : code_byte a = true → lex_byte (Code, stk) a = Some (Code, stk).
Proof.
  intros Ha. unfold lex_byte.
  assert (Ascii.eqb a dquote = false ∧ opening a = false ∧ partner a = None) as (-> & -> & ->);
    [|by rewrite Ha].
  revert Ha. destruct a as [[] [] [] [] [] [] [] []]; vm_compute; done.
Qed.

Lemma balanced_code s : str_forall code_byte s = true → balanced s.
Proof.
  intros Hs stk. unfold lexes. revert Hs. induction s as [|a s IH]; cbn [str_forall lex]; [done|].
  rewrite andb_true_iff. intros [Ha Hs]. rewrite lex_byte_code by done. by apply IH.
Qed.

(** No line break survives the lexer. *)
Lemma lex_byte_newline st : lex_byte st newline = None.
Proof. by destruct st as [[] stk]. Qed.

Lemma lex_single_line st s st' :
  lex st s = Some st' → str_forall (λ a, negb (Ascii.eqb a newline)) s = true.
Proof.
  revert st. induction s as [|a s IH]; intros st; cbn [str_forall lex]; [done|].
  destruct (Ascii.eqb_spec a newline) as [->|]; [by rewrite lex_byte_newline|].
  destruct (lex_byte st a) as [st1|]; [|done]. apply IH.
Qed.

(** ** Literals *)

Definition is_json_escape (a : ascii) : bool :=
  existsb (Ascii.eqb a) [dquote; backslash; "/"; "b"; "f"; "n"; "r"; "t"; "u"]%char.

(** What stands between the quotes of a JSON string (the four digits after a [u]
    are ordinary characters). *)
Fixpoint json_body (s : string) : bool :=
  match s with
  | EmptyString => true
  | String a s' =>
      if Ascii.eqb a backslash then
        match s' with
        | String b s'' => is_json_escape b && json_body s''
        | EmptyString => false
        end
      else negb (Ascii.eqb a dquote) && (32 <=? byte_val a)%N && json_body s'
  end.

Definition json_literal (s : string) : Prop :=
  ∃ body, s = String dquote (body +:+ String dquote EmptyString) ∧ json_body body = true.

Lemma json_escape_not_control a : is_json_escape a = true → (byte_val a <? 32)%N = false.
Proof. destruct a as [[] [] [] [] [] [] [] []]; vm_compute; done. Qed.

Lemma lex_json_body stk body :
  json_body body = true → lex (InStr, stk) body = Some (InStr, stk).
Proof.
  remember (String.length body) as n eqn:Hn. revert body Hn.
  induction (lt_wf n) as [n _ IH]. intros [|a s] ->; [done|].
  cbn [json_body lex lex_byte]. destruct (Ascii.eqb_spec a backslash) as [->|Ha].
  - destruct s as [|b s]; [done|]. rewrite andb_true_iff. intros [Hb Hs].
    change (Ascii.eqb backslash dquote) with false. cbn [lex lex_byte]. rewrite json_escape_not_control by done. eapply IH; [|done|done]. simpl; lia.
  - rewrite !andb_true_iff, N.leb_le, negb_true_iff. intros [[-> Hc] Hs].
    rewrite (proj2 (N.ltb_ge _ _)) by done. eapply IH; [|done|done]. simpl; lia.
Qed.

Lemma balanced_json s : json_literal s → balanced s.
Proof.
  intros (body & -> & Hb) stk. unfold lexes. cbn [lex]. change (lex_byte (Code, stk) dquote) with (Some (InStr, stk)).
  cbv iota beta. by rewrite lex_app, lex_json_body.
Qed.

(** ** Decimal numbers *)

Lemma pretty_N_digit n : is_digit (pretty_N_char n) = true.
Proof.
  unfold pretty_N_char. by repeat case_match.
Qed.

Lemma pretty_N_go_forall f n s :
  (∀ m, f (pretty_N_char m) = true) → str_forall f s = true → str_forall f (pretty_N_go n s) = true.
Proof.
  intros Hf. revert s. induction (N.lt_wf_0 n) as [n _ IH]. intros s Hs.
  destruct (decide (0 < n)%N) as [Hn|Hn].
  - rewrite pretty_N_go_step by done. apply IH; [by apply N.div_lt|]. simpl. by rewrite Hf.
  - replace n with 0%N by lia. by rewrite pretty_N_go_0.
Qed.

Lemma pretty_nat_digits (n : nat) : str_forall is_digit (pretty n) = true.
Proof.
  unfold pretty, pretty_nat, pretty, pretty_N. destruct (decide _); [done|].
  by apply pretty_N_go_forall; [apply pretty_N_digit|].
Qed.
