(* ===== verification/Externs.v ===== *)
(** The third-party crates the translator calls, as interfaces.

    Nothing here is a definition of their code.  A value of one of rnix's typed
    nodes is represented by what the translator can observe of it, the results
    of the accessors it calls; everything else is an operation of a class that
    the rest of the development is parametric in.  The [..Laws] classes state
    the documented behaviour some theorems rely on. *)
From S2P Require Import Prelude Text JsLexer.
From Stdlib Require Import Ascii ZArith SpecFloat Sorted.

(** * rnix: the syntax tree *)

(** [rnix::TextRange], byte offsets into the source. *)
Record TextRange := mkTextRange { range_start : nat; range_end : nat }.

Section typed_nodes.
Context (N : Type).

Record Ident := mkIdent { ident_node : N; ident_as_str : string }.
Record Key := mkKey { key_path : list N }.
Record KeyValue := mkKeyValue
  { kv_node : N; kv_key : option Key; kv_value : option N }.
Record InheritFrom := mkInheritFrom { inhf_node : N; inhf_inner : option N }.
Record Inherit := mkInherit
  { inh_from : option InheritFrom; inh_idents : list Ident }.

(** The trait [EntryHolder]. *)
Record EntryHolder := mkEntryHolder
  { entries : list KeyValue; inherits : list Inherit }.

Record Apply := mkApply { app_lambda : option N; app_value : option N }.
Record Assert := mkAssert { art_condition : option N; art_body : option N }.
Record AttrSet := mkAttrSet { ars_holder : EntryHolder; ars_recursive : bool }.

(** [BinOpKind]: the translator names one of the operators and prints the
    others with their [Debug] text. *)
Inductive BinOpKind := IsSet | OtherOp (debug : string).
Record BinOp := mkBinOp
  { bo_operator : option BinOpKind; bo_lhs : option N; bo_rhs : option N }.

Record Dynamic := mkDynamic { d_inner : option N }.
Record IfElse := mkIfElse
  { ie_condition : option N; ie_body : option N; ie_else_body : option N }.
Record Lambda := mkLambda
  { lam_arg : option N; lam_body : option N; lam_debug : string }.
Record PatEntry := mkPatEntry { pe_name : option Ident; pe_default : option N }.
Record Pattern := mkPattern
  { pat_at : option Ident; pat_entries : list PatEntry; pat_debug : string }.
Record LegacyLet := mkLegacyLet { ll_node : N; ll_holder : EntryHolder }.
Record LetIn := mkLetIn
  { li_node : N; li_holder : EntryHolder; li_body : option N }.
Record List_ := mkList { l_items : list N }.
Record Select := mkSelect
  { sel_node : N; sel_set : option N; sel_index : option N }.
Record OrDefault := mkOrDefault
  { od_index : option Select; od_default : option N }.
Record Paren := mkParen { p_inner : option N }.
Record Root := mkRoot { r_inner : option N }.
Record StrInterpol := mkStrInterpol { si_node : N; si_inner : option N }.
(** [rnix::value::StrPart]. *)
Inductive StrPart := SpLiteral (lit : string) | SpAst (ast : StrInterpol).
Record Str := mkStr { s_parts : list StrPart }.
Inductive UnaryOpKind := Invert | Negate.
Record UnaryOp := mkUnaryOp { uo_operator : UnaryOpKind; uo_value : option N }.
(** [rnix::value::Value]; an anchor is observed through its [Debug] text. *)
Inductive NixVal :=
  | NvFloat (flt : spec_float)
  | NvInteger (int : Z)
  | NvString (s : string)
  | NvPath (anchor_debug path : string).
(** [v.to_value()]; an error is observed through its [Display] text. *)
Record Value := mkValue { v_to_value : NixVal + string }.
Record With := mkWith { with_namespace : option N; with_body : option N }.

(** [rnix::types::ParsedType].  The kinds the translator never enters are
    observed through their [Debug] text. *)
Inductive ParsedType :=
  | PtApply (app : Apply)
  | PtAssert (art : Assert)
  | PtAttrSet (ars : AttrSet)
  | PtBinOp (bo : BinOp)
  | PtDynamic (d : Dynamic)
  | PtError
  | PtIdent (id : Ident)
  | PtIfElse (ie : IfElse)
  | PtInherit (inh : Inherit)
  | PtInheritFrom (inhf : InheritFrom)
  | PtKey (key_debug : string)
  | PtKeyValue (kv_debug : string)
  | PtLambda (lam : Lambda)
  | PtLegacyLet (l : LegacyLet)
  | PtLetIn (l : LetIn)
  | PtList (l : List_)
  | PtOrDefault (od : OrDefault)
  | PtParen (p : Paren)
  | PtPathWithInterpol (p_debug : string)
  | PtPattern (p_debug : string)
  | PtPatBind (p_debug : string)
  | PtPatEntry (p_debug : string)
  | PtRoot (r : Root)
  | PtSelect (sel : Select)
  | PtStr (s : Str)
  | PtStrInterpol (si : StrInterpol)
  | PtUnaryOp (uo : UnaryOp)
  | PtValue (v : Value)
  | PtWith (w : With).
End typed_nodes.
Arguments mkIdent {N}. Arguments ident_node {N}. Arguments ident_as_str {N}.
Arguments mkKey {N}. Arguments key_path {N}.
Arguments mkKeyValue {N}. Arguments kv_node {N}. Arguments kv_key {N}. Arguments kv_value {N}.
Arguments mkInheritFrom {N}. Arguments inhf_node {N}. Arguments inhf_inner {N}.
Arguments mkInherit {N}. Arguments inh_from {N}. Arguments inh_idents {N}.
Arguments mkEntryHolder {N}. Arguments entries {N}. Arguments inherits {N}.
Arguments mkApply {N}. Arguments app_lambda {N}. Arguments app_value {N}.
Arguments mkAssert {N}. Arguments art_condition {N}. Arguments art_body {N}.
Arguments mkAttrSet {N}. Arguments ars_holder {N}. Arguments ars_recursive {N}.
Arguments mkBinOp {N}. Arguments bo_operator {N}. Arguments bo_lhs {N}. Arguments bo_rhs {N}.
Arguments mkDynamic {N}. Arguments d_inner {N}.
Arguments mkIfElse {N}. Arguments ie_condition {N}. Arguments ie_body {N}. Arguments ie_else_body {N}.
Arguments mkLambda {N}. Arguments lam_arg {N}. Arguments lam_body {N}. Arguments lam_debug {N}.
Arguments mkPatEntry {N}. Arguments pe_name {N}. Arguments pe_default {N}.
Arguments mkPattern {N}. Arguments pat_at {N}. Arguments pat_entries {N}. Arguments pat_debug {N}.
Arguments mkLegacyLet {N}. Arguments ll_node {N}. Arguments ll_holder {N}.
Arguments mkLetIn {N}. Arguments li_node {N}. Arguments li_holder {N}. Arguments li_body {N}.
Arguments mkList {N}. Arguments l_items {N}.
Arguments mkSelect {N}. Arguments sel_node {N}. Arguments sel_set {N}. Arguments sel_index {N}.
Arguments mkOrDefault {N}. Arguments od_index {N}. Arguments od_default {N}.
Arguments mkParen {N}. Arguments p_inner {N}.
Arguments mkRoot {N}. Arguments r_inner {N}.
Arguments mkStrInterpol {N}. Arguments si_node {N}. Arguments si_inner {N}.
Arguments SpLiteral {N}. Arguments SpAst {N}.
Arguments mkStr {N}. Arguments s_parts {N}.
Arguments mkUnaryOp {N}. Arguments uo_operator {N}. Arguments uo_value {N}.
Arguments mkWith {N}. Arguments with_namespace {N}. Arguments with_body {N}.
Arguments PtApply {N}. Arguments PtAssert {N}. Arguments PtAttrSet {N}.
Arguments PtBinOp {N}. Arguments PtDynamic {N}. Arguments PtError {N}.
Arguments PtIdent {N}. Arguments PtIfElse {N}. Arguments PtInherit {N}.
Arguments PtInheritFrom {N}. Arguments PtKey {N}. Arguments PtKeyValue {N}.
Arguments PtLambda {N}. Arguments PtLegacyLet {N}. Arguments PtLetIn {N}.
Arguments PtList {N}. Arguments PtOrDefault {N}. Arguments PtParen {N}.
Arguments PtPathWithInterpol {N}. Arguments PtPattern {N}. Arguments PtPatBind {N}.
Arguments PtPatEntry {N}. Arguments PtRoot {N}. Arguments PtSelect {N}.
Arguments PtStr {N}. Arguments PtStrInterpol {N}. Arguments PtUnaryOp {N}.
Arguments PtValue {N}. Arguments PtWith {N}.

(** The operations of rnix on untyped nodes. *)
Class Rnix := {
  NixNode : Type;
  (** [node.text_range()] *)
  node_text_range : NixNode → TextRange;
  (** [node.kind().is_trivia()] *)
  node_is_trivia : NixNode → bool;
  (** [node.text()], displayed *)
  node_text : NixNode → string;
  (** [Ident::cast], [Pattern::cast] *)
  Ident_cast : NixNode → option (Ident NixNode);
  Pattern_cast : NixNode → option (Pattern NixNode);
  (** [ParsedType::try_from]; an error is observed through the [Debug] text of
      the kind it holds *)
  ParsedType_try_from : NixNode → ParsedType NixNode + string;
  (** the [Debug] text of a range *)
  TextRange_debug : TextRange → string;
  (** [rnix::parse]: [errors()], displayed, and [node()] *)
  rnix_parse : string → list string * NixNode
}.

(** * linetrack: positions *)

Class Linetrack := {
  (** [LineCache]: line and column of a byte offset of the source *)
  LineCache : Type;
  LineCache_new : string → LineCache;
  LineCache_run : LineCache → nat → (nat * nat) * LineCache;
  (** [PosTrackerExtern]: [update] gives the line and column advance since the
      position it remembers *)
  PosTracker : Type;
  PosTracker_default : PosTracker;
  PosTracker_update : PosTracker → string → nat → option (Z * Z) * PosTracker
}.

(** A line cache answers with the position of the offset in the text it was made
    for, distinct offsets have distinct positions, and a tracker reports an
    advance within the text it was given. *)
Class LinetrackLaws `{Linetrack} := {
  cache_of : string → LineCache → Prop;
  position_of : string → nat → nat * nat;
  LineCache_new_of s : cache_of s (LineCache_new s);
  LineCache_run_of s lc off :
    cache_of s lc → off ≤ String.length s → cache_of s (snd (LineCache_run lc off));
  LineCache_run_position s lc off :
    cache_of s lc → off ≤ String.length s → fst (LineCache_run lc off) = position_of s off;
  position_of_bound s off :
    off ≤ String.length s →
    fst (position_of s off) ≤ S (String.length s) ∧ snd (position_of s off) ≤ S (String.length s);
  position_of_inj s off off' :
    off ≤ String.length s → off' ≤ String.length s →
    position_of s off = position_of s off' → off = off';
  PosTracker_update_bound t dat n l c :
    n ≤ String.length dat → fst (PosTracker_update t dat n) = Some (l, c) →
    (0 ≤ l ≤ Z.of_nat n ∧ 0 ≤ c ≤ Z.of_nat n)%Z
}.

(** * vlq, serde_json, base64 *)

(** [vlq::encode]: the bytes it writes. *)
Class Vlq := { vlq_encode : Z → string }.

(** The digits of base64. *)
Definition is_base64 (a : ascii) : bool :=
  is_alnum a || Ascii.eqb a "+" || Ascii.eqb a "/".

(** Base64 VLQ is a prefix code for the 64-bit integers over the base64 digits. *)
Class VlqLaws `{Vlq} := {
  vlq_base64 n : str_forall is_base64 (vlq_encode n) = true;
  vlq_decode : string → option (Z * string);
  vlq_decode_encode n rest :
    (- 2 ^ 63 < n < 2 ^ 63)%Z → vlq_decode (vlq_encode n +:+ rest) = Some (n, rest)
}.

(** [serde_json::Value], as far as it is used. *)
#[warnings="-register-all"]
Inductive JsVal (JsNumber : Type) :=
  | JsNum (n : JsNumber)
  | JsString (s : string)
  | JsArray (l : list (JsVal JsNumber))
  | JsObject (l : list (string * JsVal JsNumber)).
Arguments JsNum {JsNumber}. Arguments JsString {JsNumber}.
Arguments JsArray {JsNumber}. Arguments JsObject {JsNumber}.

Class SerdeJson := {
  JsNumber : Type;
  JsNumber_from_f64 : spec_float → option JsNumber;
  JsNumber_from_i64 : Z → JsNumber;
  JsVal_to_string : JsVal JsNumber → string
}.

(** A string prints as a JSON string literal, a number without spaces. *)
Class SerdeLaws `{SerdeJson} : Prop := {
  JsVal_string_literal s : json_literal (JsVal_to_string (JsString s));
  JsVal_i64_code n :
    str_forall code_byte (JsVal_to_string (JsNum (JsNumber_from_i64 n))) = true;
  JsVal_f64_code f n :
    JsNumber_from_f64 f = Some n → str_forall code_byte (JsVal_to_string (JsNum n)) = true
}.

Class Base64 := { base64_encode : string → string }.

(** Base64 can be decoded, and its output has no line break. *)
Class Base64Laws `{Base64} := {
  base64_decode : string → option string;
  base64_decode_encode s : base64_decode (base64_encode s) = Some s;
  base64_one_line s : str_forall (λ a, negb (Ascii.eqb a newline)) (base64_encode s) = true
}.

(** * The unstable sort of the standard library

    [sort_unstable_by_key] leaves the order of elements with equal keys open, so
    it is a parameter too, with its contract. *)
Class StdSort := {
  sort_unstable_by_key : ∀ {A : Type}, (A → string) → list A → list A
}.

Class StdSortLaws `{StdSort} : Prop := {
  sort_unstable_perm : ∀ {A} (key : A → string) l, sort_unstable_by_key key l ≡ₚ l;
  sort_unstable_sorted : ∀ {A} (key : A → string) l,
    Sorted (λ x y, str_leb (key x) (key y) = true) (sort_unstable_by_key key l)
}.
