(* ===== verification/Context.v ===== *)
(** src/lib.rs: the translator's state, the monad its methods run in, and the
    primitive accesses to the state. *)
From S2P Require Import Prelude Text Externs Consts.
Local Open Scope nix2js_scope.

Section context.
Context `{Linetrack}.

(** [struct Context].  [acc], [names] and [mappings] are the buffers borrowed
    from [translate]; [mappings] holds bytes. *)
Record Context := mkContext {
  inp : string;
  acc : string;
  vars : list (string * IdentCateg);
  with_stack : nat;
  names : list string;
  mappings : string;
  line_cache : LineCache;
  lp_src : nat * nat;
  lp_dst : PosTracker
}.

Definition set_acc (f : string → string) (c : Context) : Context :=
  mkContext (inp c) (f (acc c)) (vars c) (with_stack c) (names c) (mappings c)
    (line_cache c) (lp_src c) (lp_dst c).
Definition set_vars (f : list (string * IdentCateg) → list (string * IdentCateg))
    (c : Context) : Context :=
  mkContext (inp c) (acc c) (f (vars c)) (with_stack c) (names c) (mappings c)
    (line_cache c) (lp_src c) (lp_dst c).
Definition set_with (f : nat → nat) (c : Context) : Context :=
  mkContext (inp c) (acc c) (vars c) (f (with_stack c)) (names c) (mappings c)
    (line_cache c) (lp_src c) (lp_dst c).
Definition set_names (f : list string → list string) (c : Context) : Context :=
  mkContext (inp c) (acc c) (vars c) (with_stack c) (f (names c)) (mappings c)
    (line_cache c) (lp_src c) (lp_dst c).
Definition set_mappings (f : string → string) (c : Context) : Context :=
  mkContext (inp c) (acc c) (vars c) (with_stack c) (names c) (f (mappings c))
    (line_cache c) (lp_src c) (lp_dst c).
Definition set_line_cache (l : LineCache) (c : Context) : Context :=
  mkContext (inp c) (acc c) (vars c) (with_stack c) (names c) (mappings c)
    l (lp_src c) (lp_dst c).
Definition set_lp (src : nat * nat) (dst : PosTracker) (c : Context) : Context :=
  mkContext (inp c) (acc c) (vars c) (with_stack c) (names c) (mappings c)
    (line_cache c) src dst.

(** The methods of [Context] return [Result<_, String>] or a plain value; both
    run in this monad. *)
Definition M (A : Type) : Type := ST Context string A.

(** [self.acc.len()], [self.acc[startpos..].to_string()]. *)
Definition acc_len : M nat := gets (λ c, String.length (acc c)).
Definition acc_from (startpos : nat) : M string := gets (λ c, str_drop startpos (acc c)).

(** [self.vars.push((name, categ))], [self.vars.len()]. *)
Definition vars_push (name : string) (categ : IdentCateg) : M unit :=
  modify (set_vars (λ v, v ++ [(name, categ)])).
Definition vars_len : M nat := gets (λ c, length (vars c)).

(** [assert!(self.vars.len() >= n); self.vars.truncate(n);] *)
Definition vars_restore (n : nat) : M unit :=
  l ← vars_len;
  assert_ (n <=? l) "assertion failed: vars.len() >= orig_vstkl";;
  modify (set_vars (take n)).

(** [self.mappings.push(..)] and the writes of [vlq::encode]. *)
Definition mappings_push (s : string) : M unit := modify (set_mappings (λ m, m +:+ s)).

(** [format!] of an unsigned number. *)
Definition fmt_usize (n : nat) : string := pretty n.

(** [T::try_from(n).unwrap()] into an [i64] and a [u32]; the difference of two
    [i64]s with its overflow check. *)
Definition i64_min : Z := (- 2 ^ 63)%Z.
Definition i64_max : Z := (2 ^ 63 - 1)%Z.
Definition u32_max : Z := (2 ^ 32 - 1)%Z.
Definition try_i64 (n : Z) : M Z :=
  if (i64_min <=? n)%Z && (n <=? i64_max)%Z then ret n
  else panic "out of range integral type conversion attempted: i64".
Definition try_u32 (n : Z) : M Z :=
  if (0 <=? n)%Z && (n <=? u32_max)%Z then ret n
  else panic "out of range integral type conversion attempted: u32".
Definition i64_sub (a b : Z) : M Z :=
  if (i64_min <=? a - b)%Z && (a - b <=? i64_max)%Z then ret (a - b)%Z
  else panic "attempt to subtract with overflow".
End context.
Arguments Context {_}.
Arguments M {_}.

(** The new value of a field is the old one with the text appended; the other
    fields are unchanged. *)
Ltac ctx_unfold :=
  unfold set_acc, set_vars, set_with, set_names, set_mappings, set_line_cache, set_lp in *;
  simpl in *.
