(* ===== verification/Helpers.v ===== *)
(** src/helpers.rs: string helpers, the lazyness bookkeeping, and the source-map
    snapshots. *)
From S2P Require Import Prelude Text Externs Consts Context.
From Stdlib Require Import Ascii.
Local Open Scope nix2js_scope.

Definition attrelem_raw_safe (s : string) : bool :=
  match chars s with
  | [] => false
  | c :: _ => is_ascii_alphabetic c && negb (existsb (λ i, negb (is_ascii_alphanumeric i)) (chars s))
  end.

Definition escape_str `{SerdeJson} (s : string) : string := JsVal_to_string (JsString s).

(** * Lazyness *)

Inductive St := Did | Want | Nothing.
Inductive Tr := Need | Forward | Flush | Force.
Inductive Ladj := Front | Back.

#[export] Instance St_eq_dec : EqDecision St.
Proof. solve_decision. Defined.
#[export] Instance Tr_eq_dec : EqDecision Tr.
Proof. solve_decision. Defined.
#[export] Instance Ladj_eq_dec : EqDecision Ladj.
Proof. solve_decision. Defined.

Record StackCtx := mksctx { await_st : St; lazy_st : St }.

Definition merge_sttr (st : St) (tr : Tr) : St * bool :=
  let tmp :=
    match tr with
    | Forward => Some st
    | Flush => match st with Did | Nothing => Some st | Want => None end
    | Force => match st with Did => Some Did | Want | Nothing => None end
    | Need => match st with Did => Some Did | Want => None | Nothing => Some Want end
    end in
  (default Did tmp, bool_decide (tmp = None)).

Definition txtrng_to_lineno (inp : string) (txtrng : TextRange) : nat :=
  let bytepos := range_start txtrng in
  length (List.filter (λ '(_, c), bool_decide (c = String newline EmptyString))
            (take_while (λ '(idx, _), idx <=? bytepos) (char_indices inp))).

Section helpers.
Context `{Linetrack, Vlq}.

Definition push (x : string) : M unit := modify (set_acc (λ a, a +:+ x)).

Definition lazyness_incoming {R} (sctx : StackCtx) (await_tr lazy_tr : Tr) (adj : Ladj)
    (inner : StackCtx → M R) : M R :=
  let '(await_st', do_await) := merge_sttr (await_st sctx) await_tr in
  let '(lazy_st', do_lazy) := merge_sttr (lazy_st sctx) lazy_tr in
  let sctx := mksctx await_st' lazy_st' in
  finisher ← (if do_await then push "(await ";; ret [")"] else ret []);
  let lta := bool_decide (await_tr = Forward)
             || (bool_decide (await_tr = Flush) && bool_decide (adj = Front)) in
  '(sctx, finisher) ←
    (if do_lazy && ((negb do_await && negb (bool_decide (adj = Back))) || lta) then
       push "nixBlti.PLazy.from(async ()=>";;
       let finisher := finisher ++ [")"] in
       let sctx := mksctx Want Nothing in
       if negb lta then
         push "(await ";;
         ret (mksctx Did (lazy_st sctx), finisher ++ [")"])
       else ret (sctx, finisher)
     else ret (sctx, finisher));
  res ← attempt (inner sctx);
  for_each (rev finisher) push;;
  of_result res.

(** * Source map *)

(** The position of byte [inpos] of the source, through the line cache. *)
Definition line_cache_run (inpos : nat) : M (nat * nat) :=
  '(pos, lc) ← gets (λ c, LineCache_run (line_cache c) inpos);
  modify (set_line_cache lc);;
  ret pos.

Definition snapshot_pos (inpos : nat) : M (option unit) :=
  lp_dst ← gets lp_dst;
  '(src_line, src_col) ← line_cache_run inpos;
  lp_src ← gets lp_src;
  sl ← try_i64 (Z.of_nat src_line);
  pl ← try_i64 (Z.of_nat lp_src.1);
  src_oline ← i64_sub sl pl;
  sc ← try_i64 (Z.of_nat src_col);
  pc ← try_i64 (Z.of_nat lp_src.2);
  src_ocol ← i64_sub sc pc;
  '(upd, lp_dst) ← gets (λ c, PosTracker_update lp_dst (acc c) (String.length (acc c)));
  match upd with
  | None => ret None
  | Some (dst_oline, dst_ocol) =>
      dst_oline ← try_u32 dst_oline;
      dst_ocol ← try_u32 dst_ocol;
      if (dst_oline =? 0)%Z && (dst_ocol =? 0)%Z && (src_oline =? 0)%Z && (src_ocol =? 0)%Z
      then ret (Some tt)
      else
        mappings_push (str_repeat (Z.to_nat dst_oline) ";");;
        m ← gets mappings;
        (if (dst_oline =? 0)%Z && negb (bool_decide (m = EmptyString))
         then mappings_push "," else ret tt);;
        mappings_push (vlq_encode dst_ocol);;
        (if negb ((src_oline =? 0)%Z && (src_ocol =? 0)%Z) then
           mappings_push (vlq_encode 0);;
           mappings_push (vlq_encode src_oline);;
           mappings_push (vlq_encode src_ocol)
         else ret tt);;
        modify (set_lp (src_line, src_col) lp_dst);;
        ret (Some tt)
  end.

(** The part of [snapshot_ident] after the end position was recorded: look the
    identifier up in [names], append it if it is new, and write its index. *)
Definition record_ident (inrng : TextRange) : M unit :=
  i ← gets inp;
  ident ← unwrap "byte index out of range or not a char boundary"
            (str_slice i (range_start inrng) (range_end inrng));
  ns ← gets names;
  idx ← match position (λ n, bool_decide (n = ident)) ns with
        | Some idx => ret idx
        | None => modify (set_names (λ ns, ns ++ [ident]));; ret (length ns)
        end;
  idx ← try_i64 (Z.of_nat idx);
  mappings_push (vlq_encode idx).

(** [consume] returns a plain value in every call, never a [Result]. *)
Definition snapshot_ident {R} (inrng : TextRange) (consume : M R) : M R :=
  r1 ← snapshot_pos (range_start inrng);
  res ← consume;
  r2 ← snapshot_pos (range_end inrng);
  (if bool_decide (is_Some r1) && bool_decide (is_Some r2)
   then record_ident inrng else ret tt);;
  ret res.

(** [for x in l { if fi { fi = false } else { push(sep) } f(x)?; }]; the flag's
    final value is returned, a later loop may go on with it. *)
Fixpoint for_sep {A} (sep : string) (fi : bool) (l : list A) (f : A → M unit) : M bool :=
  match l with
  | [] => ret fi
  | x :: l' =>
      (if fi then ret tt else push sep);;
      f x;;
      for_sep sep false l' f
  end.

(** [return Err(format!("line {}: {}", self.txtrng_to_lineno(txtrng), msg))] *)
Definition throw_line {A} (txtrng : TextRange) (msg : string) : M A :=
  i ← gets inp;
  throw ("line " +:+ fmt_usize (txtrng_to_lineno i txtrng) +:+ ": " +:+ msg).
End helpers.

Section rtv.
Context `{Rnix, Linetrack}.
Context (translate_node : StackCtx → NixNode → M unit).

Definition rtv (sctx : StackCtx) (txtrng : TextRange) (x : option NixNode) (desc : string)
    : M unit :=
  match x with
  | None => throw_line txtrng (desc +:+ " missing")
  | Some x => translate_node sctx x
  end.
End rtv.
