(* ===== verification/Idents.v ===== *)
(** src/lib.rs, the methods that resolve and print identifiers, and the ones that
    print the elements of attribute paths. *)
From S2P Require Import Prelude Text Externs Consts Context Helpers.
From Stdlib Require Import Ascii.
Local Open Scope nix2js_scope.

(** A string between double quotes and brackets, or after a dot. *)
Definition indexing_text `{SerdeJson} (name : string) : string :=
  if attrelem_raw_safe name then "." +:+ name
  else "[" +:+ escape_str name +:+ "]".

(** [vn.replace("-", "_$_").replace("'", "_$")] *)
Definition mangle (vn : string) : string :=
  str_replace "'"%char "_$" (str_replace "-"%char "_$_" vn).

Section idents.
Context `{Rnix, Linetrack, Vlq, SerdeJson}.

Definition translate_node_ident_escape_str (id : Ident NixNode) : M string :=
  let ret_ := escape_str (ident_as_str id) in
  snapshot_ident (node_text_range (ident_node id)) (push ret_);;
  ret ret_.

Definition translate_node_ident_indexing (id : Ident NixNode) : M string :=
  let ret_ := indexing_text (ident_as_str id) in
  snapshot_ident (node_text_range (ident_node id)) (push ret_);;
  ret ret_.

(** [self.vars.iter().rev().find(|(ref i, _)| vn == i).map(|(_, c)| *c)] *)
Definition vars_find (vs : list (string * IdentCateg)) (vn : string) : option IdentCateg :=
  snd <$> List.find (λ '(i, _), bool_decide (vn = i)) (rev vs).

(** The method reads the state only; an error it returns can be dropped
    without any other effect. *)
Definition resolve_ident_in (c : Context) (id : Ident NixNode) : IdentCateg + string :=
  let vn := ident_as_str id in
  match vars_find (vars c) vn with
  | Some ret_ => inl ret_
  | None =>
      if 0 <? with_stack c then inl WithScopeVar
      else inr ("line " +:+ fmt_usize (txtrng_to_lineno (inp c) (node_text_range (ident_node id)))
                +:+ ": unknown identifier " +:+ vn)
  end.

Definition resolve_ident (id : Ident NixNode) : M IdentCateg :=
  r ← gets (λ c, resolve_ident_in c id);
  of_result r.

(** The closure [handle_lazyness]; the result is the new value of [ret]. *)
Definition handle_lazyness (sctx : option StackCtx) (inner : M unit) : M (option string) :=
  match sctx with
  | Some sctx =>
      lazyness_incoming sctx Flush Flush Back (λ _,
        startpos ← acc_len;
        inner;;
        s ← acc_from startpos;
        ret (Some s))
  | None => inner;; ret None
  end.

Definition translate_node_ident_raw (sctx : option StackCtx) (txtrng : TextRange)
    (vn : string) (categ : IdentCateg) : M string :=
  startpos ← acc_len;
  ret_ ←
    match categ with
    | Literal lit => snapshot_ident txtrng (push lit);; ret None
    | AlBuiltin ablti =>
        if bool_decide (ablti = "builtins") then
          snapshot_ident txtrng (push NIX_BUILTINS_RT);; ret None
        else
          snapshot_ident txtrng (
            push NIX_BUILTINS_RT;;
            push ".";;
            push (default ablti (strip_prefix "__" ablti)));;
          ret None
    | LambdaArg | LetLetVar =>
        handle_lazyness sctx (snapshot_ident txtrng (
          push NIX_LAMBDA_ARG_PFX;;
          push (mangle vn)))
    | LetInScopeVar | WithScopeVar =>
        handle_lazyness sctx (snapshot_ident txtrng (
          push NIX_IN_SCOPE;;
          push (if attrelem_raw_safe vn then "." +:+ vn
                else "[" +:+ escape_str vn +:+ "]")))
    end;
  match ret_ with
  | Some x => ret x
  | None => acc_from startpos
  end.

Definition translate_node_ident (sctx : option StackCtx) (id : Ident NixNode) : M string :=
  categ ← resolve_ident id;
  translate_node_ident_raw sctx (node_text_range (ident_node id)) (ident_as_str id) categ.

Section keys.
Context (translate_node : StackCtx → NixNode → M unit).

Definition translate_node_key_element_force_str (node : NixNode) : M unit :=
  match Ident_cast node with
  | Some name => translate_node_ident_escape_str name;; ret tt
  | None => translate_node (mksctx Want Nothing) node
  end.

Definition translate_node_key_element_indexing (node : NixNode) : M unit :=
  match Ident_cast node with
  | Some name => translate_node_ident_indexing name;; ret tt
  | None =>
      push "[";;
      translate_node (mksctx Want Nothing) node;;
      push "]"
  end.

Definition translate_node_scope_indexing (k : NixNode) (scope : option string) : M unit :=
  match scope with
  | Some scope =>
      push scope;;
      translate_node_key_element_indexing k
  | None =>
      id ← ok_or ("expected ident-key @ " +:+ node_text k) (Ident_cast k);
      translate_node_ident None id;;
      ret tt
  end.
End keys.
End idents.
