(* ===== verification/Let.v ===== *)
(** src/lib.rs: key-value pairs, [inherit], and [translate_let], which all
    constructs with bindings go through. *)
From S2P Require Import Prelude Text Externs Consts Context Helpers Idents.
Local Open Scope nix2js_scope.

(** [enum LetBody]. *)
Inductive LetBody (N : Type) := LbNix (body : N) | ExtractScope.
Arguments LbNix {N}. Arguments ExtractScope {N}.

(** [slice::dedup_by_key]: of a run of elements with equal keys the first stays. *)
Fixpoint dedup_by_key {A} (key : A → string) (prev : option string) (l : list A) : list A :=
  match l with
  | [] => []
  | x :: l' =>
      if bool_decide (prev = Some (key x)) then dedup_by_key key prev l'
      else x :: dedup_by_key key (Some (key x)) l'
  end.

(** [iter().enumerate()] *)
Definition enumerate {A} (l : list A) : list (nat * A) := zip (seq 0 (length l)) l.

Section let_.
Context `{Rnix, Linetrack, Vlq, SerdeJson, StdSort}.
Context (translate_node : StackCtx → NixNode → M unit).

Definition translate_node_kv (value_sctx : StackCtx) (i : KeyValue NixNode)
    (scope : option string) : M unit :=
  let txtrng := node_text_range (kv_node i) in
  '(kpfi, kpr) ←
    match kv_key i with
    | Some key =>
        match key_path key with
        | kpfi :: kpr => ret (kpfi, kpr)
        | [] => throw_line txtrng "key for key-value pair missing"
        end
    | None => throw_line txtrng "key for key-value pair missing"
    end;
  value ←
    match kv_value i with
    | None => throw_line txtrng "value for key-value pair missing"
    | Some x => ret x
    end;
  match kpr with
  | [] =>
      translate_node_scope_indexing translate_node kpfi scope;;
      push "=";;
      translate_node value_sctx value;;
      push ";"
  | _ :: _ =>
      match scope with
      | Some scope =>
          push ("if(!Object.prototype.hasOwnProperty.call(" +:+ scope +:+ ",");;
          translate_node_key_element_force_str translate_node kpfi;;
          push ("))" +:+ scope);;
          translate_node_key_element_indexing translate_node kpfi;;
          push "=Object.create(null);"
      | None => ret tt
      end;;
      push ("await " +:+ NIX_OPERATORS +:+ "._deepMerge(");;
      translate_node_scope_indexing translate_node kpfi scope;;
      push ",";;
      translate_node value_sctx value;;
      for_each kpr (λ i,
        push ",";;
        translate_node_key_element_force_str translate_node i);;
      push ");"
  end.

Definition translate_node_inherit (value_sctx : StackCtx) (inh : Inherit NixNode)
    (scope : option string) (use_inhtmp : option string) : M unit :=
  match inh_from inh with
  | Some inhf =>
      let idents := inh_idents inh in
      match idents with
      | [id] =>
          translate_node_scope_indexing translate_node (ident_node id) scope;;
          push "=";;
          lazyness_incoming value_sctx Forward Need Front (λ _,
            rtv translate_node (mksctx Want Nothing) (node_text_range (inhf_node inhf))
              (inhf_inner inhf) "inner for inherit-from";;
            translate_node_ident_indexing id;;
            ret tt);;
          push ";"
      | _ =>
          inhf_var ←
            match use_inhtmp with
            | Some x => push "const ";; push x;; ret x
            | None => push "await (async ()=>{const nixInhR";; ret "nixInhR"
            end;
          push "=";;
          lazyness_incoming (mksctx Nothing Want) Forward Flush Front (λ sctx,
            rtv translate_node sctx (node_text_range (inhf_node inhf))
              (inhf_inner inhf) "inner for inherit-from");;
          push ";";;
          for_each idents (λ id,
            translate_node_scope_indexing translate_node (ident_node id) scope;;
            push ("=" +:+ inhf_var +:+ ".then(nixV=>nixV");;
            translate_node_ident_indexing id;;
            push ");");;
          (if bool_decide (use_inhtmp = None) then push "})()" else ret tt);;
          push ";"
      end
  | None =>
      for_each (inh_idents inh) (λ id,
        translate_node_scope_indexing translate_node (ident_node id) scope;;
        push "=";;
        translate_node_ident (Some value_sctx) id;;
        push ";")
  end.

(** The closure [getkeys]: the first names of all keys and the inherited
    names, sorted, each once. *)
Definition getkeys (node : EntryHolder NixNode) : list (TextRange * string) :=
  let tmp :=
    omap (λ i, match kv_key i with Some j => head (key_path j) | None => None end) (entries node)
    ++ (ident_node <$> mjoin (inh_idents <$> inherits node)) in
  let tmp :=
    omap (λ i, (λ j, (node_text_range (ident_node j), ident_as_str j)) <$> Ident_cast i) tmp in
  dedup_by_key snd None (sort_unstable_by_key snd tmp).

(** The conditions under which [translate_let] prints an object literal and
    under which it prints plain variables. *)
Definition inherit_is_simple (i : Inherit NixNode) : bool :=
  bool_decide (inh_from i = None) || bool_decide (length (inh_idents i) = 1).

Definition entry_is_field (i : KeyValue NixNode) : bool :=
  bool_decide (is_Some (kv_value i)) &&
  match kv_key i with
  | Some j => match key_path j with
              | [k] => bool_decide (is_Some (Ident_cast k))
              | _ => false
              end
  | None => false
  end.

Definition entry_is_variable (i : KeyValue NixNode) : bool :=
  bool_decide (is_Some (kv_value i)) &&
  match kv_key i with
  | Some j => match key_path j with
              | k :: _ => bool_decide (is_Some (Ident_cast k))
              | [] => false
              end
  | None => false
  end.

Definition let_is_object (node : EntryHolder NixNode) (body : LetBody NixNode)
    (scope : string) : bool :=
  negb (bool_decide (scope = NIX_IN_SCOPE))
  && match body with ExtractScope => true | LbNix _ => false end
  && forallb entry_is_field (entries node)
  && forallb inherit_is_simple (inherits node).

Definition let_is_variables (node : EntryHolder NixNode) (body : LetBody NixNode)
    (scope : string) : bool :=
  bool_decide (scope = NIX_IN_SCOPE)
  && negb match body with ExtractScope => true | LbNix _ => false end
  && forallb entry_is_variable (entries node)
  && forallb inherit_is_simple (inherits node).

(** "optimization: use real object" *)
Definition translate_let_object (body_sctx value_sctx : StackCtx)
    (node : EntryHolder NixNode) : M unit :=
  lazyness_incoming body_sctx Forward Forward Front (λ _,
    push "Object.assign(Object.create(null),{";;
    fi ← for_sep "," true (entries node) (λ i,
      key ← unwrap "called Option::unwrap() on a None value" (kv_key i);
      k ← unwrap "called Option::unwrap() on a None value" (head (key_path key));
      id ← unwrap "called Option::unwrap() on a None value" (Ident_cast k);
      translate_node_ident_escape_str id;;
      push ":";;
      v ← unwrap "called Option::unwrap() on a None value" (kv_value i);
      translate_node value_sctx v);
    for_sep "," fi
      (mjoin ((λ inh, (λ i, (i, inh_from inh)) <$> inh_idents inh) <$> inherits node))
      (λ '(id, inhf),
      translate_node_ident_escape_str id;;
      push ":";;
      match inhf with
      | Some x =>
          lazyness_incoming value_sctx Flush Flush Front (λ _,
            rtv translate_node (mksctx Want Nothing) (node_text_range (inhf_node x))
              (inhf_inner x) "inner for inherit-from";;
            translate_node_ident_indexing id;;
            ret tt)
      | None => translate_node_ident (Some value_sctx) id;; ret tt
      end);;
    push "})").

(** [this.push("return "); match body { .. }] *)
Definition translate_let_return (body : LetBody NixNode) (scope : string) : M unit :=
  push "return ";;
  match body with
  | LbNix body => translate_node (mksctx Want Nothing) body
  | ExtractScope => push (scope +:+ "[" +:+ NIX_EXTRACT_SCOPE +:+ "]")
  end.

Definition translate_let_inherits (value_sctx : StackCtx) (node : EntryHolder NixNode)
    (scope : option string) : M unit :=
  for_each (enumerate (inherits node)) (λ '(n, i),
    translate_node_inherit value_sctx i scope (Some ("nixInhR" +:+ fmt_usize n))).

(** "use normal let-variables instead of attrset-like scopes if possible" *)
Definition translate_let_variables (body_sctx value_sctx : StackCtx)
    (node : EntryHolder NixNode) (body : LetBody NixNode) (scope : string) : M unit :=
  lazyness_incoming body_sctx Forward Force Front (λ _,
    orig_vstkl ← vars_len;
    push "{let ";;
    for_sep "," true (getkeys node) (λ '(irng, i),
      vars_push i LetLetVar;;
      translate_node_ident_raw None irng i LetLetVar;;
      ret tt);;
    push ";";;
    for_each (entries node) (λ i, translate_node_kv value_sctx i None);;
    translate_let_inherits value_sctx node None;;
    translate_let_return body scope;;
    push ";}";;
    vars_restore orig_vstkl).

(** The general case: a scope object. *)
Definition translate_let_scope (body_sctx value_sctx : StackCtx)
    (node : EntryHolder NixNode) (body : LetBody NixNode) (scope : string) : M unit :=
  lazyness_incoming body_sctx Need Forward Front (λ _,
    push ("(async " +:+ scope +:+ "=>{");;
    orig_vstkl ← vars_len;
    (if bool_decide (scope = NIX_IN_SCOPE) then
       for_each (getkeys node) (λ '(_, i), vars_push i LetInScopeVar)
     else ret tt);;
    for_each (entries node) (λ i, translate_node_kv value_sctx i (Some scope));;
    translate_let_inherits value_sctx node (Some scope);;
    translate_let_return body scope;;
    push ";})(nixBlti.mkScope(";;
    (if bool_decide (scope = NIX_IN_SCOPE) then push NIX_IN_SCOPE else ret tt);;
    vars_restore orig_vstkl;;
    push "))").

Definition translate_let (body_sctx : StackCtx) (values_lazy : bool)
    (node : EntryHolder NixNode) (body : LetBody NixNode) (scope : string) : M unit :=
  match entries node, inherits node with
  | [], [] =>
      match body with
      | LbNix body => translate_node body_sctx body
      | ExtractScope => push "Object.create(null)"
      end
  | _, _ =>
      let value_sctx := if values_lazy then mksctx Nothing Want else mksctx Nothing Nothing in
      if let_is_object node body scope then translate_let_object body_sctx value_sctx node
      else if let_is_variables node body scope then
        translate_let_variables body_sctx value_sctx node body scope
      else translate_let_scope body_sctx value_sctx node body scope
  end.
End let_.
