(* ===== verification/Node.v ===== *)
(** src/lib.rs: [translate_node], one definition per kind of node, and the
    recursion that ties them together. *)
From S2P Require Import Prelude Text Externs Consts Context Helpers Idents Let.
From Stdlib Require Import Ascii.
Local Open Scope nix2js_scope.

(** The text between two double quotes that hold nothing. *)
Definition empty_str_literal : string := String dquote (String dquote EmptyString).

Section node.
Context `{Rnix, Linetrack, Vlq, SerdeJson, StdSort}.
Context (translate_node : StackCtx → NixNode → M unit).

Definition translate_apply (sctx : StackCtx) (txtrng : TextRange) (app : Apply NixNode) : M unit :=
  lazyness_incoming sctx Need Need Front (λ _,
    push "(";;
    rtv translate_node (mksctx Want Nothing) txtrng (app_lambda app) "lambda for application";;
    push ")(";;
    rtv translate_node (mksctx Nothing Nothing) txtrng (app_value app) "value for application";;
    push ")").

Definition translate_assert (sctx : StackCtx) (txtrng : TextRange) (art : Assert NixNode) : M unit :=
  lazyness_incoming sctx Flush Force Front (λ _,
    push "{await ";;
    push NIX_BUILTINS_RT;;
    push ".assert(";;
    cond ← match art_condition art with
           | Some cond => ret cond
           | None => throw_line txtrng "condition for assert missing"
           end;
    i ← gets inp;
    push (escape_str ("line " +:+ fmt_usize (txtrng_to_lineno i txtrng) +:+ ": "
                      +:+ node_text cond));;
    push ",";;
    translate_node (mksctx Nothing Nothing) cond;;
    push "); return (";;
    rtv translate_node (mksctx Want Nothing) txtrng (art_body art) "body for assert";;
    push "); }").

Definition translate_attrset (sctx : StackCtx) (ars : AttrSet NixNode) : M unit :=
  let scope := if ars_recursive ars then NIX_IN_SCOPE else "nixAttrsScope" in
  translate_let translate_node sctx true (ars_holder ars) ExtractScope scope.

Definition translate_binop (sctx : StackCtx) (txtrng : TextRange) (bo : BinOp NixNode) : M unit :=
  op ← match bo_operator bo with
       | Some op => ret op
       | None => throw_line txtrng "operator for binop missing"
       end;
  match op with
  | IsSet =>
      push "Object.prototype.hasOwnProperty.call(";;
      rtv translate_node (mksctx Want Nothing) txtrng (bo_lhs bo) "lhs for binop ?";;
      push ",";;
      match bo_rhs bo with
      | Some x =>
          match Ident_cast x with
          | Some y => translate_node_ident_escape_str y;; ret tt
          | None => translate_node (mksctx Want Nothing) x
          end
      | None => throw_line txtrng "rhs for binop ? missing"
      end;;
      push ")"
  | OtherOp op_debug =>
      lazyness_incoming sctx Need Flush Front (λ _,
        let mysctx := mksctx Nothing Nothing in
        push (NIX_OPERATORS +:+ "." +:+ op_debug +:+ "(");;
        rtv translate_node mysctx txtrng (bo_lhs bo) "lhs for binop";;
        push ",";;
        rtv translate_node mysctx txtrng (bo_rhs bo) "rhs for binop";;
        push ")")
  end.

Definition translate_ifelse (sctx : StackCtx) (txtrng : TextRange) (ie : IfElse NixNode) : M unit :=
  lazyness_incoming sctx Flush Flush Front (λ sctx,
    push "((";;
    rtv translate_node (mksctx Want Nothing) txtrng (ie_condition ie) "condition for if-else";;
    push ")?(";;
    rtv translate_node sctx txtrng (ie_body ie) "if-body for if-else";;
    push "):(";;
    rtv translate_node sctx txtrng (ie_else_body ie) "else-body for if-else";;
    push "))").

Definition BODY_SCTX : StackCtx := mksctx Want Nothing.

(** [x: body] *)
Definition translate_lambda_ident (txtrng : TextRange) (lam : Lambda NixNode)
    (cur_lamstk : nat) (y : Ident NixNode) : M unit :=
  let yas := ident_as_str y in
  vars_push yas LambdaArg;;
  translate_node_ident None y;;
  push "=>(";;
  rtv translate_node BODY_SCTX txtrng (lam_body lam) "body for lambda";;
  vars_restore cur_lamstk;;
  push ")".

(** "register var names" *)
Fixpoint lambda_register_entries (pat_debug : string) (l : list (PatEntry NixNode))
    : M (list (Ident NixNode * option NixNode)) :=
  match l with
  | [] => ret []
  | i :: l' =>
      match pe_name i with
      | Some z =>
          vars_push (ident_as_str z) LambdaArg;;
          r ← lambda_register_entries pat_debug l';
          ret ((z, pe_default i) :: r)
      | None => throw ("lambda pattern (" +:+ pat_debug +:+ ") has entry without name")
      end
  end.

Definition lambda_bind_entry (argname : string)
    (e : Ident NixNode * option NixNode) : M unit :=
  let '(z, dfl) := e in
  push "let ";;
  translate_node_ident None z;;
  push ("=" +:+ NIX_OPERATORS +:+ "._lambdaA2chk(" +:+ argname +:+ ",");;
  translate_node_ident_escape_str z;;
  match dfl with
  | Some zdfl => push ",";; translate_node (mksctx Nothing Want) zdfl
  | None => ret tt
  end;;
  push ");".

(** [{ a, b ? c }: body] and the forms with [@] *)
Definition translate_lambda_pattern (txtrng : TextRange) (lam : Lambda NixNode)
    (cur_lamstk : nat) (y : Pattern NixNode) : M unit :=
  argname ←
    match pat_at y with
    | Some z => vars_push (ident_as_str z) LambdaArg;; translate_node_ident None z
    | None => push NIX_LAMBDA_BOUND;; ret NIX_LAMBDA_BOUND
    end;
  entries ← lambda_register_entries (pat_debug y) (pat_entries y);
  push "=>{";;
  push argname;;
  push "=await ";;
  push argname;;
  push ";";;
  for_each entries (lambda_bind_entry argname);;
  push "return ";;
  rtv translate_node BODY_SCTX txtrng (lam_body lam) "body for lambda";;
  vars_restore cur_lamstk;;
  push "}".

Definition translate_lambda (txtrng : TextRange) (lam : Lambda NixNode) : M unit :=
  argx ← ok_or ("lambda (" +:+ lam_debug lam +:+ ") with missing argument") (lam_arg lam);
  cur_lamstk ← vars_len;
  push "(async ";;
  match Ident_cast argx with
  | Some y => translate_lambda_ident txtrng lam cur_lamstk y
  | None =>
      match Pattern_cast argx with
      | Some y => translate_lambda_pattern txtrng lam cur_lamstk y
      | None => throw ("lambda (" +:+ lam_debug lam +:+ ") with invalid argument")
      end
  end;;
  push ")".

(** The test of [l.entries().find(..)] in the [LegacyLet] case. *)
Definition entry_is_body (i : KeyValue NixNode) : bool :=
  match kv_key i with
  | None => false
  | Some key =>
      match key_path key with
      | [name] => match Ident_cast name with
                  | Some name => bool_decide (ident_as_str name = "body")
                  | None => false
                  end
      | _ => false
      end
  end.

Definition translate_legacy_let (sctx : StackCtx) (l : LegacyLet NixNode) : M unit :=
  body ← match List.find entry_is_body (entries (ll_holder l)) ≫= kv_value with
         | Some body => ret body
         | None => throw_line (node_text_range (ll_node l))
                     "legacy let { ... } without body assignment"
         end;
  translate_let translate_node sctx true (ll_holder l) (LbNix body) NIX_IN_SCOPE.

Definition translate_let_in (sctx : StackCtx) (l : LetIn NixNode) : M unit :=
  body ← match li_body l with
         | Some body => ret body
         | None => throw_line (node_text_range (li_node l)) "let ... in ... without body"
         end;
  translate_let translate_node sctx true (li_holder l) (LbNix body) NIX_IN_SCOPE.

Definition translate_list (sctx : StackCtx) (l : List_ NixNode) : M unit :=
  lazyness_incoming sctx Forward Flush Front (λ _,
    push "[";;
    for_sep "," true (l_items l) (translate_node (mksctx Nothing Nothing));;
    push "]").

Definition translate_or_default (sctx : StackCtx) (txtrng : TextRange)
    (od : OrDefault NixNode) : M unit :=
  lazyness_incoming sctx Need Need Front (λ _,
    push (NIX_OR_DEFAULT +:+ "(");;
    rtv translate_node (mksctx Nothing Want) txtrng (sel_node <$> od_index od)
      "or-default without indexing operation";;
    push ",";;
    rtv translate_node (mksctx Nothing Want) txtrng (od_default od)
      "or-default without default";;
    push ")").

Definition translate_select (sctx : StackCtx) (txtrng : TextRange) (sel : Select NixNode) : M unit :=
  idx ← ok_or (TextRange_debug txtrng +:+ ": index for select missing") (sel_index sel);
  slt ← ok_or (TextRange_debug txtrng +:+ ": set for select missing") (sel_set sel);
  is_wellknown ←
    match Ident_cast slt with
    | Some id =>
        r ← gets (λ c, resolve_ident_in c id);
        ret match r with inl (Literal _ | AlBuiltin _) => true | _ => false end
    | None => ret false
    end;
  let '(xsctx, xtr) :=
    if (is_wellknown : bool) then (mksctx Nothing Nothing, Forward)
    else (mksctx Want Nothing, Need) in
  lazyness_incoming sctx xtr xtr Front (λ _,
    translate_node xsctx slt;;
    translate_node_key_element_indexing translate_node idx).

Definition translate_str (sctx : StackCtx) (s : Str NixNode) : M unit :=
  match s_parts s with
  | [] => push empty_str_literal
  | [SpLiteral lit] => push (escape_str lit)
  | sxs =>
      lazyness_incoming sctx Forward Need Front (λ _,
        push "(";;
        for_sep "+" true
          (List.filter (λ i, match i with
                             | SpLiteral lit => negb (bool_decide (lit = EmptyString))
                             | SpAst _ => true
                             end) sxs)
          (λ i, match i with
                | SpLiteral lit => push (escape_str lit)
                | SpAst ast =>
                    push "(";;
                    rtv translate_node (mksctx Want Nothing) (node_text_range (si_node ast))
                      (si_inner ast) "inner for str-interpolate";;
                    push ")"
                end);;
        push ")")
  end.

Definition UnaryOpKind_debug (k : UnaryOpKind) : string :=
  match k with Invert => "Invert" | Negate => "Negate" end.

Definition translate_unary_op (txtrng : TextRange) (uo : UnaryOp NixNode) : M unit :=
  push (NIX_OPERATORS +:+ ".u_" +:+ UnaryOpKind_debug (uo_operator uo) +:+ "(");;
  rtv translate_node (mksctx Nothing Nothing) txtrng (uo_value uo) "value for unary-op";;
  push ")".

Definition translate_value (txtrng : TextRange) (v : Value) : M unit :=
  match v_to_value v with
  | inl x =>
      jsvs ←
        match x with
        | NvFloat flt =>
            n ← unwrap "unrepr-able float" (JsNumber_from_f64 flt);
            ret (JsVal_to_string (JsNum n))
        | NvInteger int => ret (JsVal_to_string (JsNum (JsNumber_from_i64 int)))
        | NvString s => ret (JsVal_to_string (JsString s))
        | NvPath anch path =>
            ret (NIX_RUNTIME +:+ ".export(" +:+ escape_str anch +:+ "," +:+ escape_str path +:+ ")")
        end;
      push jsvs
  | inr e => throw_line txtrng ("value deserialization error: " +:+ e)
  end.

Definition with_stack_inc : M unit := modify (set_with S).
Definition with_stack_dec : M unit := modify (set_with pred).

Definition translate_with (txtrng : TextRange) (w : With NixNode) : M unit :=
  push ("(async " +:+ NIX_IN_SCOPE +:+ "=>(");;
  with_stack_inc;;
  rtv translate_node (mksctx Want Nothing) txtrng (with_body w) "body for 'with' scope";;
  with_stack_dec;;
  push ("))(nixBlti.mkScopeWith(" +:+ NIX_IN_SCOPE +:+ ",");;
  rtv translate_node (mksctx Want Nothing) txtrng (with_namespace w)
    "namespace for 'with' scope";;
  push "))".

(** The dispatch of [translate_node]. *)
Definition translate_node_body (sctx : StackCtx) (node : NixNode) : M unit :=
  if node_is_trivia node then ret tt else
  let txtrng := node_text_range node in
  snapshot_pos (range_start txtrng);;
  match ParsedType_try_from node with
  | inr kind =>
      i ← gets inp;
      throw (TextRange_debug txtrng +:+ " (line " +:+ fmt_usize (txtrng_to_lineno i txtrng)
             +:+ "): unable to parse node of kind " +:+ kind)
  | inl x =>
      match x with
      | PtApply app => translate_apply sctx txtrng app
      | PtAssert art => translate_assert sctx txtrng art
      | PtAttrSet ars => translate_attrset sctx ars
      | PtBinOp bo => translate_binop sctx txtrng bo
      | PtDynamic d => rtv translate_node sctx txtrng (d_inner d) "inner for dynamic (key)"
      | PtError => panic "internal error: entered unreachable code"
      | PtIdent id => translate_node_ident (Some sctx) id;; ret tt
      | PtIfElse ie => translate_ifelse sctx txtrng ie
      | PtInherit inh => translate_node_inherit translate_node sctx inh (Some NIX_IN_SCOPE) None
      | PtInheritFrom inhf => rtv translate_node sctx txtrng (inhf_inner inhf) "inner for inherit-from"
      | PtKey key => panic ("standalone key not supported: " +:+ key)
      | PtKeyValue kv => panic ("standalone key-value not supported: " +:+ kv)
      | PtLambda lam => translate_lambda txtrng lam
      | PtLegacyLet l => translate_legacy_let sctx l
      | PtLetIn l => translate_let_in sctx l
      | PtList l => translate_list sctx l
      | PtOrDefault od => translate_or_default sctx txtrng od
      | PtParen p => rtv translate_node sctx txtrng (p_inner p) "inner for paren"
      | PtPathWithInterpol p => panic ("standalone path-with-interpolation not supported: " +:+ p)
      | PtPattern p => panic ("standalone pattern not supported: " +:+ p)
      | PtPatBind p => panic ("standalone pattern @ bind not supported: " +:+ p)
      | PtPatEntry p => panic ("standalone pattern entry not supported: " +:+ p)
      | PtRoot r => rtv translate_node sctx txtrng (r_inner r) "inner for root"
      | PtSelect sel => translate_select sctx txtrng sel
      | PtStr s => translate_str sctx s
      | PtStrInterpol si =>
          rtv translate_node (mksctx Want Nothing) txtrng (si_inner si) "inner for str-interpolate"
      | PtUnaryOp uo => translate_unary_op txtrng uo
      | PtValue v => translate_value txtrng v
      | PtWith w => translate_with txtrng w
      end
  end.
End node.

(** The recursive method.  [fuel] bounds the depth of the recursion;
    Termination.v shows that the depth of the tree is enough. *)
Fixpoint translate_node `{Rnix, Linetrack, Vlq, SerdeJson, StdSort} (fuel : nat)
    (sctx : StackCtx) (node : NixNode) : M unit :=
  match fuel with
  | O => out_of_fuel
  | S fuel => translate_node_body (translate_node fuel) sctx node
  end.
