(* ===== verification/Translate.v ===== *)
(** src/lib.rs: the entry point [translate]. *)
From S2P Require Import Prelude Text Externs Consts Context Helpers Idents Let Node.
Local Open Scope nix2js_scope.

Section translate.
Context `{Rnix, Linetrack, Vlq, SerdeJson, StdSort}.

(** What is written before the translated expression. *)
Definition translate_header : string :=
  "let " +:+ NIX_OPERATORS +:+ "=nixBlti.nixOp;let "
  +:+ NIX_BUILTINS_RT +:+ "=nixBlti.initRtDep(nixRt);let "
  +:+ NIX_IN_SCOPE +:+ "=nixBlti.mkScopeWith();return ".

Definition initial_context (s : string) : Context :=
  mkContext s translate_header DFL_VARS 0 [] EmptyString
    (LineCache_new s) (0, 0) PosTracker_default.

(** The source map, version 3. *)
Definition source_map (inp_name : string) (names : list string) (mappings : string) : string :=
  JsVal_to_string (JsObject [
    ("version", JsNum (JsNumber_from_i64 3));
    ("sources", JsArray [JsString inp_name]);
    ("names", JsArray (JsString <$> names));
    ("mappings", JsString mappings)]).

Definition translate (fuel : nat) (s inp_name : string)
    : outcome (list string) (string * string) :=
  let '(errs, root) := rnix_parse s in
  match errs with
  | _ :: _ => Err errs
  | [] =>
      match translate_node fuel (mksctx Nothing Want) root (initial_context s) with
      | (Err e, _) => Err [e]
      | (Panic p, _) => Panic p
      | (OutOfFuel, _) => OutOfFuel
      | (Ok _, c) =>
          if is_utf8 (mappings c) then
            Ok (acc c +:+ ";", source_map inp_name (names c) (mappings c))
          else Panic "called Result::unwrap() on an Err value: FromUtf8Error"
      end
  end.
End translate.
