(* ===== verification/Main.v ===== *)
(** src/main.rs: the command line program, on a world with a standard input, two
    output streams and files. *)
From S2P Require Import Prelude Text Externs Consts Context Helpers Idents Let Node Translate.
From stdpp Require Import gmap.
Local Open Scope nix2js_scope.

(** * The world *)

(** [io::Error], by its kind. *)
Inductive io_error := NotFound | InvalidData | PermissionDenied.

(** Files hold bytes; a path may not be writable.  The two output streams accept
    everything. *)
Record World := mkWorld {
  stdin : string;
  stdout : string;
  stderr : string;
  files : gmap string string;
  writable : string → bool
}.

Definition set_stdout (f : string → string) (w : World) : World :=
  mkWorld (stdin w) (f (stdout w)) (stderr w) (files w) (writable w).
Definition set_stderr (f : string → string) (w : World) : World :=
  mkWorld (stdin w) (stdout w) (f (stderr w)) (files w) (writable w).
Definition set_files (f : gmap string string → gmap string string) (w : World) : World :=
  mkWorld (stdin w) (stdout w) (stderr w) (f (files w)) (writable w).
Definition set_stdin (s : string) (w : World) : World :=
  mkWorld s (stdout w) (stderr w) (files w) (writable w).

Definition IO (A : Type) : Type := ST World io_error A.

(** [read_to_string] fails on bytes that are not UTF-8. *)
Definition read_stdin_to_string : IO string :=
  inp ← gets stdin;
  modify (set_stdin EmptyString);;
  if is_utf8 inp then ret inp else throw InvalidData.

Definition fs_read_to_string (path : string) : IO string :=
  fs ← gets files;
  match fs !! path with
  | None => throw NotFound
  | Some s => if is_utf8 s then ret s else throw InvalidData
  end.

Definition fs_write (path contents : string) : IO unit :=
  ok ← gets (λ w, writable w path);
  if (ok : bool) then modify (set_files <[path := contents]>) else throw PermissionDenied.

Definition stdout_write_all (s : string) : IO unit := modify (set_stdout (λ o, o +:+ s)).
Definition newline_str : string := String newline EmptyString.
Definition println (s : string) : IO unit := stdout_write_all (s +:+ newline_str).
Definition eprintln (s : string) : IO unit := modify (set_stderr (λ o, o +:+ s +:+ newline_str)).

(** * The program *)

Section main.
Context `{Rnix, Linetrack, Vlq, SerdeJson, StdSort}.

Definition usage : string := "USAGE: nix2js [INPUT_FILE [OUTPUT_FILE [OUT_SOURCE_MAP_FILE]]]".

Definition source_mapping_url : string := newline_str +:+ "//# sourceMappingURL=".

(** What is done with the code and the map; [args] is what follows the input
    file. *)
Definition write_outputs (args : list string) (x : string * string) : IO unit :=
  let '(js, map) := x in
  match args !! 0 with
  | Some outpf =>
      js ← match args !! 1 with
           | Some mapf => fs_write mapf map;; ret (js +:+ source_mapping_url +:+ mapf)
           | None => ret js
           end;
      fs_write outpf js
  | None => stdout_write_all js
  end.

(** Without arguments: the source is read from the standard input, its name is
    [<stdin>] and the source map is dropped.  A panic of the library ends the
    program. *)
Definition main_stdin (fuel : nat) : IO unit :=
  inp ← read_stdin_to_string;
  match translate fuel inp "<stdin>" with
  | Ok (x, _) => stdout_write_all x
  | Err xs => for_each xs eprintln
  | Panic msg => panic msg
  | OutOfFuel => out_of_fuel
  end.

(** With an input file. *)
Definition main_file (fuel : nat) (inpf : string) (args : list string) : IO unit :=
  inp ← fs_read_to_string inpf;
  match translate fuel inp inpf with
  | Err xs => for_each xs eprintln
  | Ok (js, map) => write_outputs args (js, map)
  | Panic msg => panic msg
  | OutOfFuel => out_of_fuel
  end.

(** [args] is [std::env::args().skip(1)]. *)
Definition main (fuel : nat) (args : list string) : IO unit :=
  match args with
  | [] => main_stdin fuel
  | inpf :: args =>
      if bool_decide (inpf = "--help") then println usage
      else main_file fuel inpf args
  end.

(** * Theorems *)

Definition lines (xs : list string) : string :=
  foldr (λ e s, e +:+ newline_str +:+ s) EmptyString xs.

Lemma eprintln_all xs w :
  for_each xs eprintln w = (Ok tt, set_stderr (λ o, o +:+ lines xs) w).
Proof.
  revert w. induction xs as [|x xs IH]; intros w; simpl.
  - destruct w. unfold set_stderr, ret; simpl. by rewrite string_app_nil_r.
  - unfold bind. simpl. rewrite IH. unfold set_stderr; simpl. by rewrite !string_app_assoc.
Qed.

(** What a step must keep. *)
Definition keeps_files (args : list string) {A} (m : IO A) : Prop :=
  ∀ w, (∀ p, p ∉ args → files (m w).2 !! p = files w !! p) ∧ writable (m w).2 = writable w.

Lemma keeps_files_bind args {A B} (m : IO A) (k : A → IO B) :
  keeps_files args m → (∀ a, keeps_files args (k a)) → keeps_files args (bind m k).
Proof.
  intros Hm Hk w. destruct (Hm w) as [Hf Hw]. unfold bind.
  destruct (m w) as [[a|e|p|] w1]; simpl in *; [|done..].
  destruct (Hk a w1) as [Hf' Hw']. split; [|congruence]. intros p Hp. rewrite Hf' by done. auto.
Qed.

Lemma keeps_files_write args path s : path ∈ args → keeps_files args (fs_write path s).
Proof.
  intros Hp w. unfold fs_write, bind, gets. destruct (writable w path); [|done]. split; [|done].
  intros p Hp'. simpl. apply lookup_insert_ne. by intros ->.
Qed.

Lemma keeps_files_read args path : keeps_files args (fs_read_to_string path).
Proof.
  intros w. unfold fs_read_to_string, bind, gets. destruct (files w !! path) as [s|]; [|done].
  by destruct (is_utf8 s).
Qed.

Lemma keeps_files_outputs args x : keeps_files (take 2 args) (write_outputs args x).
Proof.
  destruct x as [js map]. unfold write_outputs. destruct args as [|outpf args]; [done|].
  simpl. apply keeps_files_bind.
  - destruct args as [|mapf args]; [done|]. simpl. apply keeps_files_bind; [|done].
    apply keeps_files_write. set_solver.
  - intros js'. apply keeps_files_write. set_solver.
Qed.

Lemma keeps_files_eprintln args xs : keeps_files args (for_each xs eprintln).
Proof. intros w. by rewrite eprintln_all. Qed.

(** C24. The program changes no file but the output file and the source-map file
    it was given, on every path, errors and panics included. *)
Theorem main_files_frame fuel args w p :
  p ∉ take 2 (drop 1 args) → files (main fuel args w).2 !! p = files w !! p.
Proof.
  assert (keeps_files (take 2 (drop 1 args)) (main fuel args)) as Hk; [|apply Hk].
  destruct args as [|inpf args]; unfold main.
  - apply keeps_files_bind.
    + intros w'. unfold read_stdin_to_string, bind, gets, modify. by destruct (is_utf8 _).
    + intros inp. destruct (translate _ _ _) as [[x m]|xs|p'|]; [done|apply keeps_files_eprintln|done..].
  - destruct (bool_decide _); [done|]. apply keeps_files_bind; [apply keeps_files_read|intros inp].
    destruct (translate _ _ _) as [[js map]|xs|p'|]; [apply keeps_files_outputs|apply keeps_files_eprintln|done..].
Qed.

(** The outcome for an input file that can be read. *)
Definition readable (w : World) (path inp : string) : Prop :=
  files w !! path = Some inp ∧ is_utf8 inp = true.

Lemma main_reads fuel inpf args w inp :
  inpf ≠ "--help" → readable w inpf inp →
  main fuel (inpf :: args) w =
  match translate fuel inp inpf with
  | Err xs => for_each xs eprintln w
  | Ok (js, map) => write_outputs args (js, map) w
  | Panic msg => (Panic msg, w)
  | OutOfFuel => (OutOfFuel, w)
  end.
Proof.
  intros Hh [Hf Hu]. unfold main, main_file. rewrite bool_decide_eq_false_2 by done.
  unfold fs_read_to_string, bind at 1, bind at 1, gets. rewrite Hf, Hu. simpl.
  by destruct (translate _ _ _) as [[js map]|xs|p|].
Qed.

(** C25. For an input file that translates, with an output and a map file: the map
    is written first, so when the run succeeds both files are there and the code
    refers to the map, and when the map cannot be written the output file is left
    alone. *)
Theorem main_writes_map_first fuel inpf outpf mapf rest w inp js map :
  inpf ≠ "--help" → readable w inpf inp → outpf ≠ mapf →
  translate fuel inp inpf = Ok (js, map) →
  let '(o, w') := main fuel (inpf :: outpf :: mapf :: rest) w in
  stdout w' = stdout w ∧ stderr w' = stderr w
  ∧ (o = Ok tt →
       files w' !! mapf = Some map
       ∧ files w' !! outpf = Some (js +:+ newline_str +:+ "//# sourceMappingURL=" +:+ mapf))
  ∧ (o ≠ Ok tt → o = Err PermissionDenied ∧ files w' !! outpf = files w !! outpf)
  ∧ (o = Ok tt ↔ writable w mapf = true ∧ writable w outpf = true).
Proof.
  intros Hh Hr Hne Ht. rewrite (main_reads _ _ _ _ _ Hh Hr), Ht.
  unfold write_outputs, fs_write, bind, gets, modify, ret, throw; simpl.
  destruct (writable w mapf) eqn:Hm; simpl; [destruct (writable w outpf) eqn:Ho|]; simpl.
  - split; [done|split; [done|split; [|split; [done|done]]]]. intros _.
    rewrite lookup_insert_ne, !lookup_insert_eq by done.
    unfold source_mapping_url. by rewrite string_app_assoc.
  - split; [done|split; [done|split; [done|split; [|by split; [|intros [_ ?]]]]]].
    intros _. by rewrite lookup_insert_ne.
  - split; [done|split; [done|split; [done|split; [done|by split; [|intros [? _]]]]]].
Qed.

(** C26. When the translation fails, every error is printed on a line of its own
    on the error stream and the program ends normally, in both modes.  For an
    input file that can be read nothing else changes; without arguments the
    standard input, which must be UTF-8, has been consumed, and nothing else
    changes. *)
Theorem main_reports_errors fuel w xs :
  (∀ inpf args inp,
     inpf ≠ "--help" → readable w inpf inp → translate fuel inp inpf = Err xs →
     main fuel (inpf :: args) w = (Ok tt, set_stderr (λ e, e +:+ lines xs) w))
  ∧ (is_utf8 (stdin w) = true → translate fuel (stdin w) "<stdin>" = Err xs →
     main fuel [] w = (Ok tt, set_stderr (λ e, e +:+ lines xs) (set_stdin EmptyString w))).
Proof.
  split; [intros inpf args inp Hh Hr Ht|intros Hu Ht].
  - rewrite (main_reads _ _ _ _ _ Hh Hr), Ht. apply eprintln_all.
  - unfold main, main_stdin, read_stdin_to_string, bind, gets, modify. rewrite Hu. simpl.
    rewrite Ht. apply eprintln_all.
Qed.
End main.
