(* ===== verification/Tree.v ===== *)
(** The shape of a syntax tree: which nodes and identifiers the translation of a
    node reaches, the measure that bounds the recursion, and which nodes the
    translator accepts. *)
From S2P Require Import Prelude Text Externs.
From Stdlib Require Import SpecFloat.

(** * The parts of the typed nodes *)

Section parts.
Context {N : Type}.

Definition kv_children (i : KeyValue N) : list N :=
  match kv_key i with Some j => key_path j | None => [] end ++ option_list (kv_value i).

Definition inherit_children (i : Inherit N) : list N :=
  (ident_node <$> inh_idents i)
  ++ match inh_from i with Some inhf => option_list (inhf_inner inhf) | None => [] end.

Definition holder_children (h : EntryHolder N) : list N :=
  mjoin (kv_children <$> entries h) ++ mjoin (inherit_children <$> inherits h).

Definition holder_idents (h : EntryHolder N) : list (Ident N) :=
  mjoin (inh_idents <$> inherits h).

Definition str_part_children (p : StrPart N) : list N :=
  match p with SpLiteral _ => [] | SpAst ast => option_list (si_inner ast) end.

Definition pattern_idents (p : Pattern N) : list (Ident N) :=
  option_list (pat_at p) ++ mjoin ((λ e, option_list (pe_name e)) <$> pat_entries p).

Definition pattern_children (p : Pattern N) : list N :=
  mjoin ((λ e, option_list (pe_default e)) <$> pat_entries p).

(** The nodes the translator may enter from a node of the given type; the
    argument of a lambda, which is only looked at, is not among them. *)
Definition pt_children (pt : ParsedType N) : list N :=
  match pt with
  | PtApply app => option_list (app_lambda app) ++ option_list (app_value app)
  | PtAssert art => option_list (art_condition art) ++ option_list (art_body art)
  | PtAttrSet ars => holder_children (ars_holder ars)
  | PtBinOp bo => option_list (bo_lhs bo) ++ option_list (bo_rhs bo)
  | PtDynamic d => option_list (d_inner d)
  | PtIfElse ie =>
      option_list (ie_condition ie) ++ option_list (ie_body ie) ++ option_list (ie_else_body ie)
  | PtInherit inh => inherit_children inh
  | PtInheritFrom inhf => option_list (inhf_inner inhf)
  | PtLambda lam => option_list (lam_body lam)
  | PtLegacyLet l => holder_children (ll_holder l)
  | PtLetIn l => holder_children (li_holder l) ++ option_list (li_body l)
  | PtList l => l_items l
  | PtOrDefault od => option_list (sel_node <$> od_index od) ++ option_list (od_default od)
  | PtParen p => option_list (p_inner p)
  | PtRoot r => option_list (r_inner r)
  | PtSelect sel => option_list (sel_set sel) ++ option_list (sel_index sel)
  | PtStr s => mjoin (str_part_children <$> s_parts s)
  | PtStrInterpol si => option_list (si_inner si)
  | PtUnaryOp uo => option_list (uo_value uo)
  | PtWith w => option_list (with_body w) ++ option_list (with_namespace w)
  | _ => []
  end.

(** The identifiers a node carries itself. *)
Definition pt_idents (pt : ParsedType N) : list (Ident N) :=
  match pt with
  | PtIdent id => [id]
  | PtAttrSet ars => holder_idents (ars_holder ars)
  | PtInherit inh => inh_idents inh
  | PtLegacyLet l => holder_idents (ll_holder l)
  | PtLetIn l => holder_idents (li_holder l)
  | _ => []
  end.

(** The node types behind the [unreachable!] calls, and a float that has no
    JSON representation. *)
Definition pt_reachable (pt : ParsedType N) : Prop :=
  match pt with
  | PtError | PtKey _ | PtKeyValue _ | PtPathWithInterpol _ | PtPattern _
  | PtPatBind _ | PtPatEntry _ => False
  | _ => True
  end.

Definition pt_float_ok (f : spec_float → Prop) (pt : ParsedType N) : Prop :=
  match pt with
  | PtValue v => match v_to_value v with inl (NvFloat x) => f x | _ => True end
  | _ => True
  end.
End parts.

Section tree.
Context `{Rnix}.

(** Everything the translation of [n] can enter next. *)
Definition node_children (n : NixNode) : list NixNode :=
  match ParsedType_try_from n with
  | inl (PtLambda lam) =>
      pt_children (PtLambda lam)
      ++ match lam_arg lam ≫= Pattern_cast with Some p => pattern_children p | None => [] end
  | inl pt => pt_children pt
  | inr _ => []
  end.

(** The identifiers the translation of [n] itself prints. *)
Definition node_idents (n : NixNode) : list (Ident NixNode) :=
  option_list (Ident_cast n) ++
  match ParsedType_try_from n with
  | inl (PtLambda lam) =>
      option_list (lam_arg lam ≫= Ident_cast)
      ++ match lam_arg lam ≫= Pattern_cast with Some p => pattern_idents p | None => [] end
  | inl pt => pt_idents pt
  | inr _ => []
  end.
End tree.

(** A syntax tree is finite: there is a measure that decreases from a node to
    the nodes below it. *)
Class RnixLaws `{Rnix} := {
  node_size : NixNode → nat;
  node_size_child n m : m ∈ node_children n → node_size m < node_size n
}.

(** [everywhere P n]: [P] holds at [n] and at every node below it. *)
Inductive everywhere `{Rnix} (P : NixNode → Prop) (n : NixNode) : Prop :=
  everywhere_intro :
    P n → (∀ m, m ∈ node_children n → everywhere P m) → everywhere P n.

(** A check of [everywhere] by evaluation. *)
Fixpoint everywhereb `{Rnix} (P : NixNode → bool) (fuel : nat) (n : NixNode) : bool :=
  match fuel with
  | O => false
  | S fuel => P n && forallb (everywhereb P fuel) (node_children n)
  end.

Lemma everywhereb_spec `{Rnix} (Pb : NixNode → bool) (P : NixNode → Prop) fuel n :
  (∀ m, Pb m = true → P m) → everywhereb Pb fuel n = true → everywhere P n.
Proof.
  intros HP. revert n. induction fuel as [|fuel IH]; intros n; [done|].
  cbn [everywhereb]. rewrite andb_true_iff, forallb_forall. intros [Hn Hc].
  constructor; [auto|]. intros m Hm. by apply IH, Hc, list_elem_of_In.
Qed.
