(* ===== verification/Lazyness.v ===== *)
(** The contract of [lazyness_incoming]: which wrapper it prints, and in which
    state the inner code runs. *)
From S2P Require Import Prelude Text Externs Consts Context Helpers.
Local Open Scope nix2js_scope.

(** * Specification *)

(** An obligation is discharged here when it is wanted and the construct does
    not forward it, or when the construct forces it. *)
Definition discharges (st : St) (tr : Tr) : bool :=
  match st, tr with
  | Want, (Need | Flush | Force) => true
  | Nothing, Force => true
  | _, _ => false
  end.

(** What is left of the obligation for the inner code. *)
Definition remaining (st : St) (tr : Tr) : St :=
  if discharges st tr then Did
  else match st, tr with Nothing, Need => Want | _, _ => st end.

(** A promise may be lazy although an [await] surrounds it when the construct
    does not itself await. *)
Definition lazy_through (await_tr : Tr) (adj : Ladj) : bool :=
  match await_tr, adj with
  | Forward, _ | Flush, Front => true
  | _, _ => false
  end.

Definition prints_await (sctx : StackCtx) (await_tr : Tr) : bool :=
  discharges (await_st sctx) await_tr.

Definition prints_lazy (sctx : StackCtx) (await_tr lazy_tr : Tr) (adj : Ladj) : bool :=
  discharges (lazy_st sctx) lazy_tr
  && (lazy_through await_tr adj
      || (negb (prints_await sctx await_tr) && negb (bool_decide (adj = Back)))).

(** The pieces printed before the inner code, the inner context, the pieces
    printed after it. *)
Definition lazyness_plan (sctx : StackCtx) (await_tr lazy_tr : Tr) (adj : Ladj)
    : list string * StackCtx * list string :=
  let aw := prints_await sctx await_tr in
  let lz := prints_lazy sctx await_tr lazy_tr adj in
  let aw2 := lz && negb (lazy_through await_tr adj) in
  ((if aw then ["(await "] else []) ++ (if lz then ["nixBlti.PLazy.from(async ()=>"] else [])
     ++ (if aw2 then ["(await "] else []),
   if aw2 then mksctx Did Nothing
   else if lz then mksctx Want Nothing
   else mksctx (remaining (await_st sctx) await_tr) (remaining (lazy_st sctx) lazy_tr),
   (if aw2 then [")"] else []) ++ (if lz then [")"] else []) ++ (if aw then [")"] else [])).

Lemma merge_sttr_spec st tr : merge_sttr st tr = (remaining st tr, discharges st tr).
Proof. by destruct st, tr. Qed.

Section lazyness.
Context `{Linetrack}.

Lemma lazyness_incoming_plan {R} sctx await_tr lazy_tr adj (inner : StackCtx → M R) c :
  lazyness_incoming sctx await_tr lazy_tr adj inner c =
  (let '(pre, sctx', post) := lazyness_plan sctx await_tr lazy_tr adj in
   for_each pre push;;
   res ← attempt (inner sctx');
   for_each post push;;
   of_result res) c.
Proof. by destruct sctx as [[] []], await_tr, lazy_tr, adj. Qed.

(** The inner code never runs with a lazy obligation that is already done,
    unless the construct was entered so or prints no wrapper although it
    discharges the obligation. *)
Lemma lazyness_plan_not_did sctx await_tr lazy_tr adj pre sctx' post :
  lazyness_plan sctx await_tr lazy_tr adj = (pre, sctx', post) →
  lazy_st sctx ≠ Did → lazy_through await_tr adj = true ∨ lazy_tr = Forward →
  lazy_st sctx' ≠ Did.
Proof. by destruct sctx as [[] []], await_tr, lazy_tr, adj; intros [= <- <- <-] ? []. Qed.

(** The result of the inner code, with its effects. *)
Definition between {R} (pre post : list string) (m : M R) : M R :=
  for_each pre push;; res ← attempt m; for_each post push;; of_result res.

(** The pieces of the plan say which wrappers are printed. *)
Lemma plan_pieces sctx await_tr lazy_tr adj :
  let '(pre, _, post) := lazyness_plan sctx await_tr lazy_tr adj in
  post = replicate (length pre) ")"
  ∧ Forall (λ x, x = "(await " ∨ x = "nixBlti.PLazy.from(async ()=>") pre
  ∧ (prints_await sctx await_tr = true ↔ head pre = Some "(await ")
  ∧ (prints_lazy sctx await_tr lazy_tr adj = true ↔ "nixBlti.PLazy.from(async ()=>" ∈ pre)
  ∧ pre ≠ ["(await "; "nixBlti.PLazy.from(async ()=>"; "(await "].
Proof.
  unfold lazyness_plan.
  destruct (prints_await sctx await_tr) eqn:Ha, (prints_lazy _ _ _ _) eqn:Hl, (lazy_through _ _) eqn:Ht;
    simpl; (split_and!; [done|by rewrite ?Forall_cons, ?Forall_nil; auto|done| |try done]);
    rewrite ?elem_of_cons, ?elem_of_nil; try (by intuition discriminate).
  exfalso. unfold prints_lazy in Hl. by rewrite Ht, Ha, andb_false_r in Hl.
Qed.

(** C13. [lazyness_incoming] refines its specification: for every state of the two
    obligations, every pair of transitions and every adjacency it prints the
    planned wrapper around the inner code, which runs exactly once and in the
    planned state, closes the wrapper also when the inner code returns an error,
    and returns the inner result. *)
Theorem lazyness_incoming_refines {R} sctx await_tr lazy_tr adj (inner : StackCtx → M R) c :
  let '(pre, sctx', post) := lazyness_plan sctx await_tr lazy_tr adj in
  lazyness_incoming sctx await_tr lazy_tr adj inner c = between pre post (inner sctx') c
  ∧ length post = length pre ∧ Forall (eq ")") post
  ∧ (prints_await sctx await_tr = true ↔ head pre = Some "(await ")
  ∧ (prints_lazy sctx await_tr lazy_tr adj = true ↔ "nixBlti.PLazy.from(async ()=>" ∈ pre)
  ∧ pre ≠ ["(await "; "nixBlti.PLazy.from(async ()=>"; "(await "].
Proof.
  rewrite lazyness_incoming_plan. pose proof (plan_pieces sctx await_tr lazy_tr adj) as Hp.
  destruct (lazyness_plan _ _ _ _) as [[pre sctx'] post]. destruct Hp as (-> & _ & Hp).
  split_and!; [done|by rewrite length_replicate| |apply Hp..].
  apply Forall_forall. by intros x [-> _]%elem_of_replicate.
Qed.

Local Ltac solve_cases :=
  first [done | by intros | split; solve_cases | left; solve_cases | right; solve_cases].

(** The obligations of a plan. *)
Lemma plan_obligations sctx await_tr lazy_tr adj :
  let sctx' := (lazyness_plan sctx await_tr lazy_tr adj).1.2 in
  (await_st sctx = Want →
     prints_await sctx await_tr = true
     ∨ (prints_lazy sctx await_tr lazy_tr adj = false ∧ await_st sctx' = Want)
     ∨ (await_tr = Forward ∧ prints_lazy sctx await_tr lazy_tr adj = true))
  ∧ (lazy_st sctx = Want →
     prints_lazy sctx await_tr lazy_tr adj = true
     ∨ lazy_st sctx' = Want
     ∨ (lazy_tr ≠ Forward ∧ (prints_await sctx await_tr = true ∨ adj = Back)))
  ∧ (prints_lazy sctx await_tr lazy_tr adj = true → lazy_st sctx' = Nothing ∧ await_st sctx' ≠ Nothing).
Proof.
  destruct sctx as [[] []], await_tr, lazy_tr, adj; (split_and!; intros Hx; try discriminate Hx);
    vm_compute in Hx |- *; try discriminate Hx; solve_cases.
Qed.

(** C14. No obligation is lost by [lazyness_incoming], with one exception.  It
    prints the pieces [pre], runs the inner code once, in the state [sctx'], and
    prints one parenthesis for each piece.  A wanted await is printed first, or
    handed to the inner code with no promise in between, unless the construct
    forwards the await and yet a promise is started; a wanted promise is started,
    or handed on, or dropped where the value is awaited at this place or the
    adjacency is [Back]; and the code inside of a promise does not want another
    one, and its own value is to be awaited or is awaited already. *)
Theorem lazyness_obligations sctx await_tr lazy_tr adj :
  ∃ pre sctx' post,
    (∀ R (inner : StackCtx → M R) c,
       lazyness_incoming sctx await_tr lazy_tr adj inner c = between pre post (inner sctx') c)
    ∧ Forall (λ x, x = "(await " ∨ x = "nixBlti.PLazy.from(async ()=>") pre
    ∧ post = replicate (length pre) ")"
    ∧ (await_st sctx = Want →
         head pre = Some "(await "
         ∨ (("nixBlti.PLazy.from(async ()=>" ∉ pre) ∧ await_st sctx' = Want)
         ∨ (await_tr = Forward ∧ "nixBlti.PLazy.from(async ()=>" ∈ pre))
    ∧ (lazy_st sctx = Want →
         "nixBlti.PLazy.from(async ()=>" ∈ pre
         ∨ lazy_st sctx' = Want
         ∨ (lazy_tr ≠ Forward ∧ (head pre = Some "(await " ∨ adj = Back)))
    ∧ ("nixBlti.PLazy.from(async ()=>" ∈ pre → lazy_st sctx' = Nothing ∧ await_st sctx' ≠ Nothing).
Proof.
  pose proof (plan_pieces sctx await_tr lazy_tr adj) as Hp.
  pose proof (plan_obligations sctx await_tr lazy_tr adj) as Ho.
  pose proof (λ R, @lazyness_incoming_plan R sctx await_tr lazy_tr adj) as Hplan.
  destruct (lazyness_plan _ _ _ _) as [[pre sctx'] post]. exists pre, sctx', post.
  destruct Hp as (Hpost & Hall & Haw & Hlz & _). cbn [fst snd] in Ho.
  rewrite <- (not_true_iff_false (prints_lazy _ _ _ _)), Haw, Hlz in Ho.
  destruct Ho as (? & ? & ?). by split_and!.
Qed.

(** C15. The constructs that print a function body, [assert] and [let] with plain
    variables, rely on [lazyness_incoming] not to put a parenthesis between the
    arrow and the brace: as long as the promise was not started before, which
    every recursive call respects, the arrow is the last thing printed, and the
    body runs with the await wanted. *)
Theorem force_opens_function {R} sctx await_tr (inner : StackCtx → M R) c :
  lazy_st sctx ≠ Did → await_tr = Forward ∨ await_tr = Flush →
  ∃ pre post, lazyness_incoming sctx await_tr Force Front inner c =
    between (pre ++ ["nixBlti.PLazy.from(async ()=>"]) post (inner (mksctx Want Nothing)) c
    ∧ post = replicate (S (length pre)) ")" ∧ (pre = [] ∨ pre = ["(await "]).
Proof.
  intros Hl Ha. rewrite lazyness_incoming_plan.
  assert (∃ pre post, lazyness_plan sctx await_tr Force Front =
    (pre ++ ["nixBlti.PLazy.from(async ()=>"], mksctx Want Nothing, post)
    ∧ post = replicate (S (length pre)) ")" ∧ (pre = [] ∨ pre = ["(await "]))
    as (pre & post & -> & Hp); [|by exists pre, post].
  destruct Ha as [-> | ->], sctx as [[] []]; try done;
    first [by exists [], [")"]; split; [|split; [|left]]
          |by exists ["(await "], [")"; ")"]; split; [|split; [|right]]].
Qed.
End lazyness.
