(* ===== verification/JsAst.v ===== *)
(** The JavaScript the translator generates, as a syntax tree, and its printer.
    A specification: the translator itself only appends text. *)
From S2P Require Import Prelude Text Externs Consts Context Helpers Idents Node.
Local Open Scope nix2js_scope.

(** * Syntax *)

#[warnings="-register-all"]
Inductive expr :=
  (** a literal, or a path of the runtime *)
  | EText (s : string)
  (** the variable of a Nix name *)
  | EVar (vn : string)
  | EIndex (e : expr) (k : elem)
  | EParen (e : expr)
  | EAwait (e : expr)
  (** a lazy promise *)
  | ELazy (b : body)
  | EApp (f a : expr)
  | ECall (f : string) (args : list expr)
  | ECond (c a b : expr)
  (** [x: b]; [{ entries }: b], with the name after [@] *)
  | EFun (x : string) (b : expr)
  | EFunPat (arg : option string) (entries : list (string * option expr)) (b : expr)
  | EList (es : list expr)
  | EObj (fields : list (string * expr))
  (** string interpolation *)
  | EConcat (es : list expr)
  (** [b] in the scope of the members of [ns] *)
  | EWith (ns b : expr)
  (** a scope object is created, filled by the statements, and [r] returned *)
  | EScope (scope : string) (sts : list stmt) (r : expr)
  (** texts that are no expressions *)
  | EBody (b : body)
  | EStmts (sts : list stmt)
(** the element an index selects *)
with elem :=
  | KName (s : string)
  | KExpr (e : expr)
(** what follows an arrow *)
with body :=
  | BExpr (e : expr)
  | BAssert (msg : string) (c b : expr)
  | BLet (xs : list string) (sts : list stmt) (r : expr)
with stmt :=
  | SAssign (t e : expr)
  (** set [k], a path below it, of the scope object; of a variable *)
  | SMergeIn (scope : string) (k : elem) (e : expr) (path : list elem)
  | SMergeVar (t e : expr) (path : list elem)
  (** [inherit (e) names], with the constant that holds [e] *)
  | SInherit (tmp : option string) (e : expr) (ts : list (expr * string)).

(** * Printer *)

Section print.
Context `{SerdeJson}.

Definition print_var (vn : string) : string := NIX_LAMBDA_ARG_PFX +:+ mangle vn.

Definition merge_head : string := "await " +:+ NIX_OPERATORS +:+ "._deepMerge(".

(** The parameter of a pattern function. *)
Definition print_arg (arg : option string) : string :=
  match arg with Some x => print_var x | None => NIX_LAMBDA_BOUND end.

(** [elem] has two forms, a string and an index. *)
Fixpoint print (e : expr) : string :=
  match e with
  | EText s => s
  | EVar vn => print_var vn
  | EIndex e k => print e +:+ print_index k
  | EParen e => "(" +:+ print e +:+ ")"
  | EAwait e => "(await " +:+ print e +:+ ")"
  | ELazy b => "nixBlti.PLazy.from(async ()=>" +:+ print_body b +:+ ")"
  | EApp f a => "(" +:+ print f +:+ ")(" +:+ print a +:+ ")"
  | ECall f args => f +:+ "(" +:+ str_join "," (map print args) +:+ ")"
  | ECond c a b => "((" +:+ print c +:+ ")?(" +:+ print a +:+ "):(" +:+ print b +:+ "))"
  | EFun x b => "(async " +:+ print_var x +:+ "=>(" +:+ print b +:+ "))"
  | EFunPat arg entries b =>
      "(async " +:+ print_arg arg +:+ "=>{" +:+ print_arg arg +:+ "=await " +:+ print_arg arg +:+ ";"
      +:+ str_join EmptyString (map (λ '(z, dfl),
            "let " +:+ print_var z +:+ "=" +:+ NIX_OPERATORS +:+ "._lambdaA2chk(" +:+ print_arg arg
            +:+ "," +:+ escape_str z +:+ match dfl with Some d => "," +:+ print d | None => EmptyString end
            +:+ ");") entries)
      +:+ "return " +:+ print b +:+ "})"
  | EList es => "[" +:+ str_join "," (map print es) +:+ "]"
  | EObj fields =>
      "Object.assign(Object.create(null),{"
      +:+ str_join "," (map (λ '(k, e), escape_str k +:+ ":" +:+ print e) fields) +:+ "})"
  | EConcat es => "(" +:+ str_join "+" (map print es) +:+ ")"
  | EWith ns b =>
      "(async " +:+ NIX_IN_SCOPE +:+ "=>(" +:+ print b +:+ "))(nixBlti.mkScopeWith("
      +:+ NIX_IN_SCOPE +:+ "," +:+ print ns +:+ "))"
  | EScope scope sts r =>
      "(async " +:+ scope +:+ "=>{" +:+ str_join EmptyString (map print_stmt sts) +:+ "return "
      +:+ print r +:+ ";})(nixBlti.mkScope("
      +:+ (if bool_decide (scope = NIX_IN_SCOPE) then NIX_IN_SCOPE else EmptyString) +:+ "))"
  | EBody b => print_body b
  | EStmts sts => str_join EmptyString (map print_stmt sts)
  end
with print_index (k : elem) : string :=
  match k with
  | KName s => indexing_text s
  | KExpr e => "[" +:+ print e +:+ "]"
  end
with print_str (k : elem) : string :=
  match k with
  | KName s => escape_str s
  | KExpr e => print e
  end
with print_body (b : body) : string :=
  match b with
  | BExpr e => print e
  | BAssert msg c b =>
      "{await " +:+ NIX_BUILTINS_RT +:+ ".assert(" +:+ escape_str msg +:+ "," +:+ print c
      +:+ "); return (" +:+ print b +:+ "); }"
  | BLet xs sts r =>
      "{let " +:+ str_join "," (map print_var xs) +:+ ";" +:+ str_join EmptyString (map print_stmt sts)
      +:+ "return " +:+ print r +:+ ";}"
  end
with print_stmt (st : stmt) : string :=
  match st with
  | SAssign t e => print t +:+ "=" +:+ print e +:+ ";"
  | SMergeIn scope k e path =>
      "if(!Object.prototype.hasOwnProperty.call(" +:+ scope +:+ "," +:+ print_str k +:+ "))" +:+ scope
      +:+ print_index k +:+ "=Object.create(null);" +:+ merge_head +:+ scope +:+ print_index k +:+ ","
      +:+ print e +:+ str_join EmptyString (map (λ k, "," +:+ print_str k) path) +:+ ");"
  | SMergeVar t e path =>
      merge_head +:+ print t +:+ "," +:+ print e
      +:+ str_join EmptyString (map (λ k, "," +:+ print_str k) path) +:+ ");"
  | SInherit tmp e ts =>
      let var := default "nixInhR" tmp in
      match tmp with Some x => "const " +:+ x | None => "await (async ()=>{const nixInhR" end
      +:+ "=" +:+ print e +:+ ";"
      +:+ str_join EmptyString (map (λ '(t, x),
            print t +:+ "=" +:+ var +:+ ".then(nixV=>nixV" +:+ indexing_text x +:+ ");") ts)
      +:+ (if bool_decide (tmp = None) then "})()" else EmptyString) +:+ ";"
  end.

Definition print_stmts (sts : list stmt) : string := str_join EmptyString (map print_stmt sts).
End print.
