(* ===== verification/Compile.v ===== *)
(** A reference compiler from Nix syntax to JavaScript syntax.  It is purely
    functional: the scope is an argument that is extended for a subexpression,
    there is no text buffer, no source map and no position, and the result is a
    tree.  Refine.v proves that the translator prints what it compiles. *)
From S2P Require Import Prelude Text Externs Consts Context Helpers Idents Let Node Lazyness JsAst.
Local Open Scope nix2js_scope.

(** * Outcomes *)

Definition obind {E A B} (m : outcome E A) (k : A → outcome E B) : outcome E B :=
  match m with
  | Ok a => k a
  | Err e => Err e
  | Panic p => Panic p
  | OutOfFuel => OutOfFuel
  end.
Notation "'olet' x ':=' m 'in' k" := (obind m (λ x, k))
  (at level 10, x pattern, m at level 100, k at level 200) : nix2js_scope.

Definition omap_ {E A B} (f : A → B) (m : outcome E A) : outcome E B := olet a := m in Ok (f a).

Fixpoint otraverse {E A B} (f : A → outcome E B) (l : list A) : outcome E (list B) :=
  match l with
  | [] => Ok []
  | x :: l' => olet y := f x in olet ys := otraverse f l' in Ok (y :: ys)
  end.

Definition of_option {A} (e : string) (o : option A) : outcome string A :=
  match o with Some a => Ok a | None => Err e end.

(** * Scopes *)

Record env := mkEnv {
  e_inp : string;
  e_vars : list (string * IdentCateg);
  e_with : nat
}.

Definition bind_vars (vs : list (string * IdentCateg)) (E : env) : env :=
  mkEnv (e_inp E) (e_vars E ++ vs) (e_with E).
Definition enter_with (E : env) : env := mkEnv (e_inp E) (e_vars E) (S (e_with E)).

(** * Wrappers *)

(** A body standing as an expression. *)
Definition body_expr (b : body) : expr :=
  match b with BExpr e => e | _ => EBody b end.

(** The wrapper of [lazyness_plan] around a body. *)
Definition wrap (sctx : StackCtx) (await_tr lazy_tr : Tr) (adj : Ladj) (b : body) : expr :=
  let aw := prints_await sctx await_tr in
  let lz := prints_lazy sctx await_tr lazy_tr adj in
  let aw2 := lz && negb (lazy_through await_tr adj) in
  let b := if aw2 then BExpr (EAwait (body_expr b)) else b in
  let e := if lz then ELazy b else body_expr b in
  if aw then EAwait e else e.

Definition inner_ctx (sctx : StackCtx) (await_tr lazy_tr : Tr) (adj : Ladj) : StackCtx :=
  (lazyness_plan sctx await_tr lazy_tr adj).1.2.

Section compile.
Context `{Rnix, SerdeJson, StdSort}.

Definition line_msg (E : env) (rng : TextRange) (msg : string) : string :=
  "line " +:+ fmt_usize (txtrng_to_lineno (e_inp E) rng) +:+ ": " +:+ msg.

(** * Identifiers *)

Definition resolve (E : env) (id : Ident NixNode) : outcome string IdentCateg :=
  let vn := ident_as_str id in
  match vars_find (e_vars E) vn with
  | Some k => Ok k
  | None =>
      if 0 <? e_with E then Ok WithScopeVar
      else Err (line_msg E (node_text_range (ident_node id)) ("unknown identifier " +:+ vn))
  end.

Definition var_expr (vn : string) (categ : IdentCateg) : expr :=
  match categ with
  | Literal lit => EText lit
  | AlBuiltin ablti =>
      EText (if bool_decide (ablti = "builtins") then NIX_BUILTINS_RT
             else NIX_BUILTINS_RT +:+ "." +:+ default ablti (strip_prefix "__" ablti))
  | LambdaArg | LetLetVar => EVar vn
  | LetInScopeVar | WithScopeVar => EIndex (EText NIX_IN_SCOPE) (KName vn)
  end.

Definition await_var (sctx : StackCtx) (categ : IdentCateg) (e : expr) : expr :=
  match categ with
  | Literal _ | AlBuiltin _ => e
  | _ => if bool_decide (await_st sctx = Want) then EAwait e else e
  end.

Definition compile_ident (E : env) (sctx : option StackCtx) (id : Ident NixNode)
    : outcome string expr :=
  olet categ := resolve E id in
  let e := var_expr (ident_as_str id) categ in
  Ok match sctx with Some sctx => await_var sctx categ e | None => e end.

(** * The recursive cases *)

Section cases.
Context (compile : env → StackCtx → NixNode → outcome string expr).

Definition compile_opt (E : env) (sctx : StackCtx) (rng : TextRange) (x : option NixNode)
    (desc : string) : outcome string expr :=
  match x with
  | None => Err (line_msg E rng (desc +:+ " missing"))
  | Some x => compile E sctx x
  end.

Definition compile_elem (E : env) (k : NixNode) : outcome string elem :=
  match Ident_cast k with
  | Some id => Ok (KName (ident_as_str id))
  | None => omap_ KExpr (compile E (mksctx Want Nothing) k)
  end.

(** The left-hand side of an assignment: a member of the scope object, or a
    variable. *)
Definition compile_target (E : env) (k : NixNode) (scope : option string) : outcome string expr :=
  match scope with
  | Some scope => omap_ (EIndex (EText scope)) (compile_elem E k)
  | None =>
      olet id := of_option ("expected ident-key @ " +:+ node_text k) (Ident_cast k) in
      compile_ident E None id
  end.

Definition compile_kv (E : env) (sctx : StackCtx) (i : KeyValue NixNode) (scope : option string)
    : outcome string stmt :=
  let rng := node_text_range (kv_node i) in
  olet (k, ks) := match kv_key i with
    | Some (mkKey (k :: ks)) => Ok (k, ks)
    | _ => Err (line_msg E rng "key for key-value pair missing")
    end in
  olet value := of_option (line_msg E rng "value for key-value pair missing") (kv_value i) in
  match ks, scope with
  | [], _ =>
      olet t := compile_target E k scope in
      olet e := compile E sctx value in
      Ok (SAssign t e)
  | _ :: _, Some scope =>
      olet k := compile_elem E k in
      olet e := compile E sctx value in
      olet path := otraverse (compile_elem E) ks in
      Ok (SMergeIn scope k e path)
  | _ :: _, None =>
      olet t := compile_target E k None in
      olet e := compile E sctx value in
      olet path := otraverse (compile_elem E) ks in
      Ok (SMergeVar t e path)
  end.

Definition compile_inherit (E : env) (sctx : StackCtx) (inh : Inherit NixNode)
    (scope tmp : option string) : outcome string (list stmt) :=
  match inh_from inh with
  | None =>
      otraverse (λ id,
        olet t := compile_target E (ident_node id) scope in
        olet e := compile_ident E (Some sctx) id in
        Ok (SAssign t e)) (inh_idents inh)
  | Some inhf =>
      let rng := node_text_range (inhf_node inhf) in
      match inh_idents inh with
      | [id] =>
          olet t := compile_target E (ident_node id) scope in
          olet e := compile_opt E (mksctx Want Nothing) rng (inhf_inner inhf) "inner for inherit-from" in
          Ok [SAssign t (wrap sctx Forward Need Front (BExpr (EIndex e (KName (ident_as_str id)))))]
      | ids =>
          let ctx := mksctx Nothing Want in
          olet e := compile_opt E (inner_ctx ctx Forward Flush Front) rng (inhf_inner inhf)
                      "inner for inherit-from" in
          olet ts := otraverse (λ id,
            olet t := compile_target E (ident_node id) scope in
            Ok (t, ident_as_str id)) ids in
          Ok [SInherit tmp (wrap ctx Forward Flush Front (BExpr e)) ts]
      end
  end.

Definition compile_inherits (E : env) (sctx : StackCtx) (h : EntryHolder NixNode)
    (scope : option string) : outcome string (list stmt) :=
  omap_ mjoin (otraverse (λ '(n, i),
    compile_inherit E sctx i scope (Some ("nixInhR" +:+ fmt_usize n))) (enumerate (inherits h))).

Definition compile_return (E : env) (b : LetBody NixNode) (scope : string) : outcome string expr :=
  match b with
  | LbNix b => compile E (mksctx Want Nothing) b
  | ExtractScope => Ok (EIndex (EText scope) (KExpr (EText NIX_EXTRACT_SCOPE)))
  end.

Definition unwrap_msg : string := "called Option::unwrap() on a None value".
Definition ounwrap {A} (o : option A) : outcome string A :=
  match o with Some a => Ok a | None => Panic unwrap_msg end.

(** A field of an object literal, from an entry and from an inherited name. *)
Definition compile_field (E : env) (sctx : StackCtx) (i : KeyValue NixNode)
    : outcome string (string * expr) :=
  olet key := ounwrap (kv_key i) in
  olet k := ounwrap (head (key_path key)) in
  olet id := ounwrap (Ident_cast k) in
  olet v := ounwrap (kv_value i) in
  olet e := compile E sctx v in
  Ok (ident_as_str id, e).

Definition compile_inherited_field (E : env) (sctx : StackCtx)
    (p : Ident NixNode * option (InheritFrom NixNode)) : outcome string (string * expr) :=
  olet e := match p.2 with
    | Some x =>
        olet e := compile_opt E (mksctx Want Nothing) (node_text_range (inhf_node x)) (inhf_inner x)
                    "inner for inherit-from" in
        Ok (wrap sctx Flush Flush Front (BExpr (EIndex e (KName (ident_as_str p.1)))))
    | None => compile_ident E (Some sctx) p.1
    end in
  Ok (ident_as_str p.1, e).

Definition compile_let_object (E : env) (body_sctx sctx : StackCtx) (h : EntryHolder NixNode)
    : outcome string expr :=
  olet fs := otraverse (compile_field E sctx) (entries h) in
  olet gs := otraverse (compile_inherited_field E sctx)
    (mjoin ((λ inh, (λ i, (i, inh_from inh)) <$> inh_idents inh) <$> inherits h)) in
  Ok (wrap body_sctx Forward Forward Front (BExpr (EObj (fs ++ gs)))).

Definition compile_let_variables (E : env) (body_sctx sctx : StackCtx) (h : EntryHolder NixNode)
    (b : LetBody NixNode) (scope : string) : outcome string expr :=
  let xs := snd <$> getkeys h in
  let E := bind_vars ((λ x, (x, LetLetVar)) <$> xs) E in
  olet sts := otraverse (λ i, compile_kv E sctx i None) (entries h) in
  olet inhs := compile_inherits E sctx h None in
  olet r := compile_return E b scope in
  Ok (wrap body_sctx Forward Force Front (BLet xs (sts ++ inhs) r)).

Definition compile_let_scope (E : env) (body_sctx sctx : StackCtx) (h : EntryHolder NixNode)
    (b : LetBody NixNode) (scope : string) : outcome string expr :=
  let E := if bool_decide (scope = NIX_IN_SCOPE)
           then bind_vars ((λ k, (k.2, LetInScopeVar)) <$> getkeys h) E else E in
  olet sts := otraverse (λ i, compile_kv E sctx i (Some scope)) (entries h) in
  olet inhs := compile_inherits E sctx h (Some scope) in
  olet r := compile_return E b scope in
  Ok (wrap body_sctx Need Forward Front (BExpr (EScope scope (sts ++ inhs) r))).

Definition compile_let (E : env) (body_sctx : StackCtx) (values_lazy : bool)
    (h : EntryHolder NixNode) (b : LetBody NixNode) (scope : string) : outcome string expr :=
  match entries h, inherits h with
  | [], [] =>
      match b with
      | LbNix b => compile E body_sctx b
      | ExtractScope => Ok (EText "Object.create(null)")
      end
  | _, _ =>
      let sctx := if values_lazy then mksctx Nothing Want else mksctx Nothing Nothing in
      if let_is_object h b scope then compile_let_object E body_sctx sctx h
      else if let_is_variables h b scope then compile_let_variables E body_sctx sctx h b scope
      else compile_let_scope E body_sctx sctx h b scope
  end.

(** * The kinds of nodes *)

Definition compile_apply (E : env) (sctx : StackCtx) (rng : TextRange) (app : Apply NixNode) :=
  olet f := compile_opt E (mksctx Want Nothing) rng (app_lambda app) "lambda for application" in
  olet a := compile_opt E (mksctx Nothing Nothing) rng (app_value app) "value for application" in
  Ok (wrap sctx Need Need Front (BExpr (EApp f a))).

Definition compile_assert (E : env) (sctx : StackCtx) (rng : TextRange) (art : Assert NixNode) :=
  olet cond := of_option (line_msg E rng "condition for assert missing") (art_condition art) in
  let msg := line_msg E rng (node_text cond) in
  olet c := compile E (mksctx Nothing Nothing) cond in
  olet b := compile_opt E (mksctx Want Nothing) rng (art_body art) "body for assert" in
  Ok (wrap sctx Flush Force Front (BAssert msg c b)).

Definition compile_binop (E : env) (sctx : StackCtx) (rng : TextRange) (bo : BinOp NixNode) :=
  olet op := of_option (line_msg E rng "operator for binop missing") (bo_operator bo) in
  match op with
  | IsSet =>
      olet l := compile_opt E (mksctx Want Nothing) rng (bo_lhs bo) "lhs for binop ?" in
      olet x := of_option (line_msg E rng "rhs for binop ? missing") (bo_rhs bo) in
      olet r := match Ident_cast x with
        | Some y => Ok (EText (escape_str (ident_as_str y)))
        | None => compile E (mksctx Want Nothing) x
        end in
      Ok (ECall "Object.prototype.hasOwnProperty.call" [l; r])
  | OtherOp dbg =>
      olet l := compile_opt E (mksctx Nothing Nothing) rng (bo_lhs bo) "lhs for binop" in
      olet r := compile_opt E (mksctx Nothing Nothing) rng (bo_rhs bo) "rhs for binop" in
      Ok (wrap sctx Need Flush Front (BExpr (ECall (NIX_OPERATORS +:+ "." +:+ dbg) [l; r])))
  end.

Definition compile_ifelse (E : env) (sctx : StackCtx) (rng : TextRange) (ie : IfElse NixNode) :=
  let inner := inner_ctx sctx Flush Flush Front in
  olet c := compile_opt E (mksctx Want Nothing) rng (ie_condition ie) "condition for if-else" in
  olet a := compile_opt E inner rng (ie_body ie) "if-body for if-else" in
  olet b := compile_opt E inner rng (ie_else_body ie) "else-body for if-else" in
  Ok (wrap sctx Flush Flush Front (BExpr (ECond c a b))).

(** The names a pattern binds, in order. *)
Fixpoint pattern_entries (dbg : string) (l : list (PatEntry NixNode))
    : outcome string (list (Ident NixNode * option NixNode)) :=
  match l with
  | [] => Ok []
  | i :: l' =>
      olet z := of_option ("lambda pattern (" +:+ dbg +:+ ") has entry without name") (pe_name i) in
      olet r := pattern_entries dbg l' in
      Ok ((z, pe_default i) :: r)
  end.

Definition lambda_args (ids : list (Ident NixNode)) : list (string * IdentCateg) :=
  (λ id, (ident_as_str id, LambdaArg)) <$> ids.

Definition compile_lambda_pattern (E : env) (rng : TextRange) (lam : Lambda NixNode)
    (y : Pattern NixNode) : outcome string expr :=
  olet ents := pattern_entries (pat_debug y) (pat_entries y) in
  let E := bind_vars (lambda_args (option_list (pat_at y) ++ ents.*1)) E in
  olet es := otraverse (λ e,
    olet d := match e.2 with
      | Some d => omap_ Some (compile E (mksctx Nothing Want) d)
      | None => Ok None
      end in
    Ok (ident_as_str e.1, d)) ents in
  olet b := compile_opt E BODY_SCTX rng (lam_body lam) "body for lambda" in
  Ok (EFunPat (ident_as_str <$> pat_at y) es b).

Definition compile_lambda (E : env) (rng : TextRange) (lam : Lambda NixNode) : outcome string expr :=
  olet argx := of_option ("lambda (" +:+ lam_debug lam +:+ ") with missing argument") (lam_arg lam) in
  match Ident_cast argx with
  | Some y =>
      let E := bind_vars (lambda_args [y]) E in
      olet b := compile_opt E BODY_SCTX rng (lam_body lam) "body for lambda" in
      Ok (EFun (ident_as_str y) b)
  | None =>
      match Pattern_cast argx with
      | Some y => compile_lambda_pattern E rng lam y
      | None => Err ("lambda (" +:+ lam_debug lam +:+ ") with invalid argument")
      end
  end.

Definition compile_legacy_let (E : env) (sctx : StackCtx) (l : LegacyLet NixNode) :=
  olet b := of_option (line_msg E (node_text_range (ll_node l)) "legacy let { ... } without body assignment")
    (List.find entry_is_body (entries (ll_holder l)) ≫= kv_value) in
  compile_let E sctx true (ll_holder l) (LbNix b) NIX_IN_SCOPE.

Definition compile_let_in (E : env) (sctx : StackCtx) (l : LetIn NixNode) :=
  olet b := of_option (line_msg E (node_text_range (li_node l)) "let ... in ... without body") (li_body l) in
  compile_let E sctx true (li_holder l) (LbNix b) NIX_IN_SCOPE.

Definition compile_list (E : env) (sctx : StackCtx) (l : List_ NixNode) :=
  olet es := otraverse (compile E (mksctx Nothing Nothing)) (l_items l) in
  Ok (wrap sctx Forward Flush Front (BExpr (EList es))).

Definition compile_or_default (E : env) (sctx : StackCtx) (rng : TextRange) (od : OrDefault NixNode) :=
  olet s := compile_opt E (mksctx Nothing Want) rng (sel_node <$> od_index od)
    "or-default without indexing operation" in
  olet d := compile_opt E (mksctx Nothing Want) rng (od_default od) "or-default without default" in
  Ok (wrap sctx Need Need Front (BExpr (ECall NIX_OR_DEFAULT [s; d]))).

(** A global name needs no await. *)
Definition is_global (E : env) (set : NixNode) : bool :=
  match Ident_cast set with
  | Some id => match resolve E id with Ok (Literal _ | AlBuiltin _) => true | _ => false end
  | None => false
  end.

Definition compile_select (E : env) (sctx : StackCtx) (rng : TextRange) (sel : Select NixNode) :=
  olet idx := of_option (TextRange_debug rng +:+ ": index for select missing") (sel_index sel) in
  olet set := of_option (TextRange_debug rng +:+ ": set for select missing") (sel_set sel) in
  let (xsctx, xtr) := if is_global E set then (mksctx Nothing Nothing, Forward)
                      else (mksctx Want Nothing, Need) in
  olet e := compile E xsctx set in
  olet k := compile_elem E idx in
  Ok (wrap sctx xtr xtr Front (BExpr (EIndex e k))).

Definition part_nonempty (p : StrPart NixNode) : bool :=
  match p with SpLiteral lit => negb (bool_decide (lit = EmptyString)) | SpAst _ => true end.

Definition compile_str (E : env) (sctx : StackCtx) (s : Str NixNode) : outcome string expr :=
  match s_parts s with
  | [] => Ok (EText empty_str_literal)
  | [SpLiteral lit] => Ok (EText (escape_str lit))
  | parts =>
      olet es := otraverse (λ p,
        match p with
        | SpLiteral lit => Ok (EText (escape_str lit))
        | SpAst ast =>
            omap_ EParen (compile_opt E (mksctx Want Nothing) (node_text_range (si_node ast))
              (si_inner ast) "inner for str-interpolate")
        end) (List.filter part_nonempty parts) in
      Ok (wrap sctx Forward Need Front (BExpr (EConcat es)))
  end.

Definition compile_unary_op (E : env) (rng : TextRange) (uo : UnaryOp NixNode) :=
  olet e := compile_opt E (mksctx Nothing Nothing) rng (uo_value uo) "value for unary-op" in
  Ok (ECall (NIX_OPERATORS +:+ ".u_" +:+ UnaryOpKind_debug (uo_operator uo)) [e]).

Definition compile_value (E : env) (rng : TextRange) (v : Value) : outcome string expr :=
  match v_to_value v with
  | inl (NvFloat f) =>
      match JsNumber_from_f64 f with
      | Some n => Ok (EText (JsVal_to_string (JsNum n)))
      | None => Panic "unrepr-able float"
      end
  | inl (NvInteger n) => Ok (EText (JsVal_to_string (JsNum (JsNumber_from_i64 n))))
  | inl (NvString s) => Ok (EText (escape_str s))
  | inl (NvPath anch path) =>
      Ok (ECall (NIX_RUNTIME +:+ ".export") [EText (escape_str anch); EText (escape_str path)])
  | inr e => Err (line_msg E rng ("value deserialization error: " +:+ e))
  end.

Definition compile_with (E : env) (rng : TextRange) (w : With NixNode) :=
  olet b := compile_opt (enter_with E) (mksctx Want Nothing) rng (with_body w) "body for 'with' scope" in
  olet ns := compile_opt E (mksctx Want Nothing) rng (with_namespace w) "namespace for 'with' scope" in
  Ok (EWith ns b).

Definition compile_body (E : env) (sctx : StackCtx) (node : NixNode) : outcome string expr :=
  if node_is_trivia node then Ok (EText EmptyString) else
  let rng := node_text_range node in
  match ParsedType_try_from node with
  | inr kind =>
      Err (TextRange_debug rng +:+ " (line " +:+ fmt_usize (txtrng_to_lineno (e_inp E) rng)
           +:+ "): unable to parse node of kind " +:+ kind)
  | inl x =>
      match x with
      | PtApply app => compile_apply E sctx rng app
      | PtAssert art => compile_assert E sctx rng art
      | PtAttrSet ars =>
          compile_let E sctx true (ars_holder ars) ExtractScope
            (if ars_recursive ars then NIX_IN_SCOPE else "nixAttrsScope")
      | PtBinOp bo => compile_binop E sctx rng bo
      | PtDynamic d => compile_opt E sctx rng (d_inner d) "inner for dynamic (key)"
      | PtIdent id => compile_ident E (Some sctx) id
      | PtIfElse ie => compile_ifelse E sctx rng ie
      | PtInherit inh => omap_ EStmts (compile_inherit E sctx inh (Some NIX_IN_SCOPE) None)
      | PtInheritFrom inhf => compile_opt E sctx rng (inhf_inner inhf) "inner for inherit-from"
      | PtLambda lam => compile_lambda E rng lam
      | PtLegacyLet l => compile_legacy_let E sctx l
      | PtLetIn l => compile_let_in E sctx l
      | PtList l => compile_list E sctx l
      | PtOrDefault od => compile_or_default E sctx rng od
      | PtParen p => compile_opt E sctx rng (p_inner p) "inner for paren"
      | PtRoot r => compile_opt E sctx rng (r_inner r) "inner for root"
      | PtSelect sel => compile_select E sctx rng sel
      | PtStr s => compile_str E sctx s
      | PtStrInterpol si =>
          compile_opt E (mksctx Want Nothing) rng (si_inner si) "inner for str-interpolate"
      | PtUnaryOp uo => compile_unary_op E rng uo
      | PtValue v => compile_value E rng v
      | PtWith w => compile_with E rng w
      | PtError | PtKey _ | PtKeyValue _ | PtPathWithInterpol _ | PtPattern _ | PtPatBind _
      | PtPatEntry _ => Panic "not an expression"
      end
  end.
End cases.
End compile.

(** The compiler; [fuel] bounds the depth of the recursion. *)
Fixpoint compile `{Rnix, SerdeJson, StdSort} (fuel : nat) (E : env) (sctx : StackCtx) (n : NixNode)
    : outcome string expr :=
  match fuel with
  | O => OutOfFuel
  | S fuel => compile_body (compile fuel) E sctx n
  end.
