(* ===== verification/Keeps.v ===== *)
(** One traversal of the translator for every property that is an invariant of
    its primitive steps.

    A pair of an invariant [I] and exit conditions [E] that satisfies the
    interface [Steps] is kept by every method of [Context], and every method
    that returns normally leaves [vars] and [with_stack] as it found them.  The
    clients (Termination, Safety, Scope, SourceMap) only prove their instance of
    [Steps]. *)
From S2P Require Import Prelude Text Externs Consts Context Helpers Idents Let Node Tree Lazyness.
Local Open Scope nix2js_scope.

(** * The interface *)

(** [m] appends [t] to the code and does nothing else. *)
Definition pushes `{Linetrack} (m : M unit) (t : string) : Prop :=
  ∀ c, m c = (Ok tt, set_acc (λ a, a +:+ t) c).

Lemma pushes_push `{Linetrack} x : pushes (push x) x.
Proof. done. Qed.

Lemma pushes_bind `{Linetrack} m k t u : pushes m t → pushes k u → pushes (m;; k) (t +:+ u).
Proof.
  intros Hm Hk c. unfold bind. rewrite (Hm c), (Hk (set_acc (λ a, a +:+ t) c)).
  unfold set_acc; simpl. by rewrite string_app_assoc.
Qed.

(** The exits of an invariant that matters on normal return only. *)
Definition any_exits `{Linetrack} : exits Context := mkExits (λ _, True) (λ _, True) (λ _, True).

Class Steps `{Linetrack, Vlq} (E : exits Context) (I : Context → Prop)
    (range_ok : TextRange → Prop) : Prop := {
  steps_err c : I c → on_err E c;
  (** an error leaves through the finishers of [lazyness_incoming] *)
  steps_err_push x c : on_err E c → on_err E (set_acc (λ a, a +:+ x) c);
  steps_push x c : I c → I (set_acc (λ a, a +:+ x) c);
  steps_vars f c : I c → I (set_vars f c);
  steps_with f c : I c → I (set_with f c);
  steps_snapshot rng : range_ok rng → triple E I (snapshot_pos (range_start rng)) (λ _, I);
  steps_ident rng m t :
    range_ok rng → pushes m t → triple E I (snapshot_ident rng m) (λ _, I)
}.

(** * The source-map steps

    [snapshot_pos] and [record_ident] only append to [mappings] and [names] and
    move the two position trackers; a preorder that contains these four steps
    contains them. *)

Section moves.
Context `{Linetrack, Vlq}.
Context (R : Context → Context → Prop) `{!PreOrder R}.

Definition moves {A} (m : M A) : Prop := ∀ c, R c (snd (m c)).

Lemma moves_ret {A} (a : A) : moves (ret a).
Proof. by intros c. Qed.
Lemma moves_panic {A} msg : moves (panic (A := A) msg).
Proof. by intros c. Qed.
Lemma moves_gets {A} (f : Context → A) : moves (gets f).
Proof. by intros c. Qed.
Lemma moves_unwrap {A} msg (o : option A) : moves (unwrap msg o).
Proof. by destruct o; intros c. Qed.
Lemma moves_bind {A B} (m : M A) (k : A → M B) :
  moves m → (∀ a, moves (k a)) → moves (bind m k).
Proof.
  intros Hm Hk c. unfold bind. specialize (Hm c).
  destruct (m c) as [[a|e|p|] c'] eqn:Em; simpl in *; [|done..].
  etrans; [exact Hm|apply Hk].
Qed.
Lemma moves_try_i64 n : moves (try_i64 n).
Proof. unfold try_i64. destruct (_ && _); [apply moves_ret|apply moves_panic]. Qed.
Lemma moves_try_u32 n : moves (try_u32 n).
Proof. unfold try_u32. destruct (_ && _); [apply moves_ret|apply moves_panic]. Qed.
Lemma moves_i64_sub a b : moves (i64_sub a b).
Proof. unfold i64_sub. destruct (_ && _); [apply moves_ret|apply moves_panic]. Qed.

Context (R_mappings : ∀ s c, R c (set_mappings (λ m, m +:+ s) c)).
Context (R_line_cache : ∀ l c, R c (set_line_cache l c)).
Context (R_lp : ∀ src dst c, R c (set_lp src dst c)).
Context (R_names : ∀ x c, x ∉ names c → R c (set_names (λ ns, ns ++ [x]) c)).

Local Hint Resolve moves_ret moves_panic moves_gets moves_unwrap moves_try_i64 moves_try_u32
  moves_i64_sub : nix2js.

Lemma moves_mappings_push s : moves (mappings_push s).
Proof. intros c. apply R_mappings. Qed.
Lemma moves_set_line_cache l : moves (modify (set_line_cache l)).
Proof. intros c. apply R_line_cache. Qed.
Lemma moves_set_lp src dst : moves (modify (set_lp src dst)).
Proof. intros c. apply R_lp. Qed.
Local Hint Resolve moves_mappings_push moves_set_line_cache moves_set_lp : nix2js.

Lemma moves_snapshot_pos pos : moves (snapshot_pos pos).
Proof.
  unfold snapshot_pos, line_cache_run.
  repeat first [progress intros | apply moves_bind | solve [eauto with nix2js] | case_match].
Qed.

Lemma moves_record_ident rng : moves (record_ident rng).
Proof.
  unfold record_ident. apply moves_bind; [auto with nix2js|intros i].
  apply moves_bind; [auto with nix2js|intros ident]. intros c.
  change (bind (gets names) ?k c) with (k (names c) c). cbv beta.
  set (k := λ idx : nat, bind (try_i64 (Z.of_nat idx)) (λ z, mappings_push (vlq_encode z))).
  assert (∀ idx, moves (k idx)) as Hk by (intros; apply moves_bind; auto with nix2js).
  destruct (position _ (names c)) as [idx|] eqn:Hp.
  - apply (Hk idx c).
  - etrans; [apply (R_names ident c)|apply (Hk (length (names c)))].
    intros Hin. eapply position_None in Hp; [|exact Hin]. by rewrite bool_decide_eq_false in Hp.
Qed.
End moves.

(** ** The frame: the scope, the source and the code are not touched *)

Section frame.
Context `{Linetrack, Vlq}.

Definition same_scope (c c' : Context) : Prop :=
  vars c' = vars c ∧ with_stack c' = with_stack c ∧ inp c' = inp c ∧ acc c' = acc c.

#[export] Instance same_scope_preorder : PreOrder same_scope.
Proof.
  split; [by intros c|intros c1 c2 c3]. unfold same_scope. intuition congruence.
Qed.

Lemma same_scope_snapshot_pos pos : moves same_scope (snapshot_pos pos).
Proof. by apply (moves_snapshot_pos same_scope); intros; split_and!. Qed.
Lemma same_scope_record_ident rng : moves same_scope (record_ident rng).
Proof. by apply (moves_record_ident same_scope); intros; split_and!. Qed.

Lemma same_scope_snapshot_ident rng m t c :
  pushes m t →
  vars (snd (snapshot_ident rng m c)) = vars c ∧ with_stack (snd (snapshot_ident rng m c)) = with_stack c
  ∧ inp (snd (snapshot_ident rng m c)) = inp c.
Proof.
  intros Hm. set (R := λ c c', vars c' = vars c ∧ with_stack c' = with_stack c ∧ inp c' = inp c).
  assert (PreOrder R) as HR.
  { split; [by intros ?|intros c1 c2 c3]. unfold R. intuition congruence. }
  assert (∀ c c', same_scope c c' → R c c') as Hsub by (intros ?? (?&?&?&?); by split_and!).
  enough (moves R (snapshot_ident rng m)) as Hmv by apply (Hmv c). unfold snapshot_ident.
  apply (moves_bind R); [intros ?; apply Hsub, same_scope_snapshot_pos|intros r1].
  apply (moves_bind R); [intros c'; by rewrite (Hm c')|intros res].
  apply (moves_bind R); [intros ?; apply Hsub, same_scope_snapshot_pos|intros r2].
  apply (moves_bind R); [|intros ?; by apply moves_ret].
  destruct (_ && _); [intros ?; apply Hsub, same_scope_record_ident|by apply moves_ret].
Qed.

Lemma triple_frame {A} (R : Context → Context → Prop) E P F (m : M A) (Q : A → Context → Prop) :
  moves R m → (∀ c c', R c c' → F c → F c') →
  triple E P m Q → triple E (λ c, P c ∧ F c) m (λ a c, Q a c ∧ F c).
Proof.
  intros Hm HF HT c [HP HFc]. specialize (HT c HP). specialize (Hm c).
  destruct (m c) as [[a|e|p|] c']; simpl in *; [|done..]. eauto.
Qed.
End frame.

(** An identifier step from its four parts, for the invariants that do not relate
    them. *)
Lemma steps_ident_parts `{Linetrack, Vlq} (E : exits Context) I rng m t :
  triple E I (snapshot_pos (range_start rng)) (λ _, I) →
  triple E I (snapshot_pos (range_end rng)) (λ _, I) →
  triple E I (record_ident rng) (λ _, I) →
  (∀ c, I c → I (set_acc (λ a, a +:+ t) c)) →
  pushes m t → triple E I (snapshot_ident rng m) (λ _, I).
Proof.
  intros H1 H2 H3 Hp Hm. unfold snapshot_ident.
  eapply triple_bind; [exact H1|intros r1].
  eapply (triple_bind _ _ (λ _, I)); [intros c Hc; rewrite (Hm c); by apply Hp|intros ?].
  eapply triple_bind; [exact H2|intros r2].
  eapply (triple_bind _ _ (λ _, I)); [|intros ?; by apply triple_ret].
  destruct (_ && _); [exact H3|by apply triple_ret].
Qed.

(** * Judgements *)

Section judgements.
Context `{Rnix, Linetrack, Vlq, SerdeJson, StdSort}.
Context (E : exits Context) (I : Context → Prop) (range_ok : TextRange → Prop).
Context `{!Steps E I range_ok}.

Definition at_scope (v : list (string * IdentCateg)) (w : nat) (c : Context) : Prop :=
  I c ∧ vars c = v ∧ with_stack c = w.
Definition within (v : list (string * IdentCateg)) (w : nat) (c : Context) : Prop :=
  I c ∧ v `prefix_of` vars c ∧ with_stack c = w.

(** [m] leaves the scope as it found it; [m] may extend the scope; [m] ends
    the extension. *)
Definition exact {A} (m : M A) : Prop :=
  ∀ v w, triple E (at_scope v w) m (λ _, at_scope v w).
Definition extends {A} (m : M A) : Prop :=
  ∀ v w, triple E (within v w) m (λ _, within v w).
Definition closes {A} (v : list (string * IdentCateg)) (m : M A) : Prop :=
  ∀ w, triple E (within v w) m (λ _, at_scope v w).

Lemma exact_extends {A} (m : M A) : exact m → extends m.
Proof.
  intros Hm v w c (HI & Hv & Hw). specialize (Hm (vars c) w c).
  destruct (m c) as [[a|e|p|] c']; unfold at_scope, within in *;
    [destruct Hm as (?&->&?)|apply Hm|apply Hm|apply Hm]; done.
Qed.

Lemma exact_bind {A B} (m : M A) (k : A → M B) :
  exact m → (∀ a, exact (k a)) → exact (bind m k).
Proof. intros Hm Hk v w. eapply triple_bind; [apply Hm|intros a; apply Hk]. Qed.

Lemma extends_bind {A B} (m : M A) (k : A → M B) :
  extends m → (∀ a, extends (k a)) → extends (bind m k).
Proof. intros Hm Hk v w. eapply triple_bind; [apply Hm|intros a; apply Hk]. Qed.

Lemma closes_bind {A B} v (m : M A) (k : A → M B) :
  extends m → (∀ a, closes v (k a)) → closes v (bind m k).
Proof. intros Hm Hk w. eapply triple_bind; [apply Hm|intros a; apply Hk]. Qed.

Lemma closes_then {A B} v (m : M A) (k : A → M B) :
  closes v m → (∀ a, exact (k a)) → closes v (bind m k).
Proof. intros Hm Hk w. eapply triple_bind; [apply Hm|intros a; apply Hk]. Qed.

Lemma closes_exact {A} (m : M A) : (∀ v, closes v m) → exact m.
Proof.
  intros Hm v w. eapply triple_pre; [apply Hm|]. intros c (?&<-&?). by split_and!.
Qed.

(** The scope a body closes is the one [vars.len()] was read in. *)
Lemma exact_vars_len {A} (k : nat → M A) :
  (∀ v, closes v (k (length v))) → exact (bind vars_len k).
Proof.
  intros Hk v w c (HI & Hv & Hw).
  assert (within v w c) as Hin by (by unfold within; rewrite Hv).
  unfold bind, vars_len, gets. simpl. rewrite Hv. exact (Hk v w c Hin).
Qed.

Lemma closes_vars_restore v : closes v (vars_restore (length v)).
Proof.
  intros w c (HI & [l Hv] & Hw). unfold vars_restore, bind, vars_len, gets, assert_, modify.
  rewrite (proj2 (Nat.leb_le _ _)) by (rewrite Hv, length_app; lia). simpl.
  split_and!; [by apply steps_vars| |done].
  simpl. by rewrite Hv, take_app_length.
Qed.

Lemma exact_ret {A} (a : A) : exact (ret a).
Proof. intros v w. by apply triple_ret. Qed.
Lemma exact_gets {A} (f : Context → A) : exact (gets f).
Proof. intros v w. by apply triple_gets. Qed.
Lemma exact_throw {A} e : exact (throw (A := A) e).
Proof. intros v w. apply triple_throw. intros c [? _]. by apply steps_err. Qed.
Lemma exact_of_result {A} (r : A + string) : exact (of_result r).
Proof. destruct r; [apply exact_ret|apply exact_throw]. Qed.
Lemma exact_ok_or {A} e (o : option A) : exact (ok_or e o).
Proof. destruct o; [apply exact_ret|apply exact_throw]. Qed.
Lemma exact_throw_line {A} rng msg : exact (throw_line (A := A) rng msg).
Proof. apply exact_bind; [apply exact_gets|intros; apply exact_throw]. Qed.
Lemma exact_unwrap {A} msg (o : option A) : is_Some o → exact (unwrap msg o).
Proof. intros [a ->]. apply exact_ret. Qed.
Lemma exact_panic {A} msg : (∀ c, I c → on_panic E c) → exact (panic (A := A) msg).
Proof. intros HP v w. apply triple_panic. intros c [? _]. by apply HP. Qed.

(** A value that is returned, or an error that is raised, before the rest. *)
Lemma exact_bind_ret {A B} (a : A) (k : A → M B) : exact (k a) → exact (bind (ret a) k).
Proof. done. Qed.
Lemma exact_bind_throw {A B} e (k : A → M B) : exact (bind (throw e) k).
Proof. exact (exact_throw e). Qed.
Lemma exact_bind_throw_line {A B} rng msg (k : A → M B) : exact (bind (throw_line rng msg) k).
Proof. exact (exact_throw_line rng msg). Qed.

Lemma exact_push x : exact (push x).
Proof. intros v w c (?&?&?). split_and!; [by apply steps_push|done..]. Qed.

Lemma extends_vars_push x k : extends (vars_push x k).
Proof.
  intros v w c (?&?&?). split_and!; [by apply steps_vars| |done].
  simpl. by apply prefix_app_r.
Qed.

Lemma exact_moves {A} (m : M A) : moves same_scope m → triple E I m (λ _, I) → exact m.
Proof.
  intros Hm HT v w. eapply (triple_frame same_scope _ _ (λ c, vars c = v ∧ with_stack c = w)); [done| |done].
  intros c c' (->&->&_&_); done.
Qed.

Lemma exact_snapshot_start rng : range_ok rng → exact (snapshot_pos (range_start rng)).
Proof.
  intros. apply exact_moves; [apply same_scope_snapshot_pos|by apply steps_snapshot].
Qed.

Lemma exact_snapshot_ident rng m t :
  range_ok rng → pushes m t → exact (snapshot_ident rng m).
Proof.
  intros Hr Hm v w. eapply (triple_frame (λ c c', vars c' = vars c ∧ with_stack c' = with_stack c)
    _ _ (λ c, vars c = v ∧ with_stack c = w)); [|by intros c c' [-> ->]|by eapply steps_ident].
  intros c. pose proof (same_scope_snapshot_ident rng m t c Hm) as (?&?&_). done.
Qed.

Lemma exact_for_each {A} (l : list A) f :
  (∀ x, x ∈ l → exact (f x)) → exact (for_each l f).
Proof. intros Hf v w. apply triple_for_each. intros x Hx. by apply Hf. Qed.
Lemma extends_for_each {A} (l : list A) f :
  (∀ x, x ∈ l → extends (f x)) → extends (for_each l f).
Proof. intros Hf v w. apply triple_for_each. intros x Hx. by apply Hf. Qed.

Lemma extends_for_sep {A} sep fi (l : list A) f :
  (∀ x, x ∈ l → extends (f x)) → extends (for_sep sep fi l f).
Proof.
  revert fi. induction l as [|x l IH]; intros fi Hf; simpl.
  - apply exact_extends, exact_ret.
  - apply extends_bind; [destruct fi; apply exact_extends, exact_ret || apply exact_extends, exact_push|].
    intros _. apply extends_bind; [apply Hf; left|intros _].
    apply IH. intros y Hy. apply Hf. by right.
Qed.
Lemma exact_for_sep {A} sep fi (l : list A) f :
  (∀ x, x ∈ l → exact (f x)) → exact (for_sep sep fi l f).
Proof.
  revert fi. induction l as [|x l IH]; intros fi Hf; simpl; [apply exact_ret|].
  apply exact_bind; [destruct fi; [apply exact_ret|apply exact_push]|intros _].
  apply exact_bind; [apply Hf; left|intros _].
  apply IH. intros y Hy. apply Hf. by right.
Qed.

(** Finishers run after an error too. *)
Lemma exact_attempt {A} (m : M A) (post : list string) :
  exact m → exact (res ← attempt m; for_each post push;; of_result res).
Proof.
  intros Hm v w c Hc. specialize (Hm v w c Hc). unfold bind at 1, attempt.
  destruct (m c) as [[a|e|p|] c']; simpl; [|clear Hc c|done..].
  - apply (exact_bind (for_each post push) (λ _, ret a)); try done.
    + apply exact_for_each. intros. apply exact_push.
    + intros. apply exact_ret.
  - revert c' Hm. induction post as [|x post IH]; intros c Hc; simpl; [done|].
    apply (IH (set_acc (λ a, a +:+ x) c)). by apply steps_err_push.
Qed.

Lemma exact_lazyness {R} sctx await_tr lazy_tr adj (inner : StackCtx → M R) :
  (∀ sctx', (lazy_st sctx ≠ Did → lazy_through await_tr adj = true ∨ lazy_tr = Forward →
             lazy_st sctx' ≠ Did) → exact (inner sctx')) →
  exact (lazyness_incoming sctx await_tr lazy_tr adj inner).
Proof.
  intros Hi v w c Hc. rewrite lazyness_incoming_plan.
  destruct (lazyness_plan sctx await_tr lazy_tr adj) as [[pre sctx'] post] eqn:Hp.
  revert c Hc. apply exact_bind; [apply exact_for_each; intros; apply exact_push|intros _].
  apply exact_attempt, Hi. intros. by eapply lazyness_plan_not_did.
Qed.
End judgements.

#[export] Hint Resolve exact_ret exact_gets exact_throw exact_of_result exact_ok_or
  exact_throw_line exact_push exact_snapshot_start extends_vars_push
  closes_vars_restore : nix2js.
