(* ===== verification/Traversal.v ===== *)
(** The traversal behind Keeps: every method of [Context] keeps an invariant of
    the primitive steps and leaves the scope as it found it. *)
From S2P Require Import Prelude Text Externs Consts Context Helpers Idents Let Node Tree Lazyness Keeps.
Local Open Scope nix2js_scope.

(** The keys [getkeys] returns are identifiers of the node. *)
Lemma dedup_by_key_subseteq {A} (key : A → string) prev l x :
  x ∈ dedup_by_key key prev l → x ∈ l.
Proof.
  revert prev. induction l as [|y l IH]; intros prev; simpl; [done|].
  case_bool_decide; [intros ?%IH; by right|].
  intros [->|?%IH]%elem_of_cons; [left|by right].
Qed.

Section traversal.
Context `{Rnix, Linetrack, Vlq, SerdeJson, StdSort, !StdSortLaws}.
Context (E : exits Context) (I : Context → Prop) (range_ok : TextRange → Prop).
Context `{!Steps E I range_ok}.
(** The recursive call, the nodes it may be used on, the identifiers that may
    be printed. *)
Context (rec : StackCtx → NixNode → M unit).
Context (C : NixNode → Prop) (J : Ident NixNode → Prop).
Context (rec_exact : ∀ sctx m, lazy_st sctx ≠ Did → C m → exact E I (rec sctx m)).
Context (cast_J : ∀ m id, C m → Ident_cast m = Some id → J id).
Context (J_range : ∀ id, J id → range_ok (node_text_range (ident_node id))).

Local Abbreviation ex := (exact E I).

(** Split along the structure of the method; leave what is not structure. *)
Local Ltac kgo_with tac :=
  repeat first [tac | match goal with
  | |- exact _ _ (bind (ret _) _) => apply exact_bind_ret
  | |- exact _ _ (bind (throw _) _) => eapply exact_bind_throw
  | |- exact _ _ (bind (throw_line _ _) _) => eapply exact_bind_throw_line
  | |- exact _ _ (bind (ok_or _ ?x) _) => destruct x eqn:?; simpl
  | |- exact _ _ (bind (unwrap _ (Some _)) _) => apply exact_bind_ret
  | |- exact _ _ (bind (unwrap _ _) _) => progress simpl
  | H : ?x = Some _ |- exact _ _ (bind (unwrap _ ?x) _) => rewrite H
  | |- exact _ _ (bind (unwrap _ _) _) => fail 1
  | |- exact _ _ (bind (match ?x with _ => _ end) _) => destruct x eqn:?
  | |- exact _ _ (bind vars_len _) => eapply exact_vars_len; intros
  | |- exact _ _ (bind _ _) => apply exact_bind; [|intros]
  | |- exact _ _ (ret _) => apply exact_ret
  | |- exact _ _ (push _) => eapply exact_push
  | |- exact _ _ (gets _) => apply exact_gets
  | |- exact _ _ (throw_line _ _) => eapply exact_throw_line
  | |- exact _ _ (throw _) => eapply exact_throw
  | |- exact _ _ (ok_or _ _) => eapply exact_ok_or
  | |- exact _ _ (of_result _) => eapply exact_of_result
  | |- exact _ _ (lazyness_incoming _ _ _ _ _) => eapply exact_lazyness; intros
  | |- exact _ _ (for_each _ _) => apply exact_for_each; intros
  | |- exact _ _ (for_sep _ _ _ _) => eapply exact_for_sep; intros
  | |- exact _ _ (match ?x with _ => _ end) => destruct x eqn:?
  | |- Steps _ _ _ => eassumption
  | |- exact _ _ _ => solve [eauto with nix2js]
  end].
Local Ltac kgo := kgo_with fail.
(** Membership in the children of a typed node. *)
Local Ltac kids := intros; simplify_eq/=; first [done | set_solver | eauto].

Local Ltac ident_step :=
  eapply exact_snapshot_ident;
    [eassumption|eauto|repeat first [apply pushes_push | apply pushes_bind]].

Lemma exact_ident_escape_str id : J id → ex (translate_node_ident_escape_str id).
Proof. intros. unfold translate_node_ident_escape_str. kgo. ident_step. Qed.

Lemma exact_ident_indexing id : J id → ex (translate_node_ident_indexing id).
Proof. intros. unfold translate_node_ident_indexing. kgo. ident_step. Qed.

Lemma exact_handle_lazyness sctx inner : ex inner → ex (handle_lazyness sctx inner).
Proof. intros. unfold handle_lazyness, acc_len, acc_from. kgo. Qed.

Lemma exact_ident_raw sctx rng vn categ :
  range_ok rng → ex (translate_node_ident_raw sctx rng vn categ).
Proof.
  intros Hr. unfold translate_node_ident_raw, acc_len, acc_from.
  kgo; try apply exact_handle_lazyness; ident_step.
Qed.

Lemma exact_ident sctx id : J id → ex (translate_node_ident sctx id).
Proof. intros. unfold translate_node_ident, resolve_ident. kgo. apply exact_ident_raw; auto. Qed.
Hint Resolve exact_ident_escape_str exact_ident_indexing exact_ident : nix2js.

Lemma exact_rtv sctx rng x desc :
  lazy_st sctx ≠ Did → (∀ m, m ∈ option_list x → C m) → ex (rtv rec sctx rng x desc).
Proof.
  intros Hs Hx. unfold rtv. destruct x; [apply rec_exact; kids|eapply exact_throw_line; done].
Qed.

Lemma exact_key_force_str k : C k → ex (translate_node_key_element_force_str rec k).
Proof. intros. unfold translate_node_key_element_force_str. kgo. Qed.

Lemma exact_key_indexing k : C k → ex (translate_node_key_element_indexing rec k).
Proof. intros. unfold translate_node_key_element_indexing. kgo. Qed.

Lemma exact_scope_indexing k scope : C k → ex (translate_node_scope_indexing rec k scope).
Proof.
  intros Hk. unfold translate_node_scope_indexing. destruct scope.
  - kgo. by apply exact_key_indexing.
  - destruct (Ident_cast k) eqn:Ec; simpl; kgo.
Qed.
Hint Resolve exact_key_force_str exact_key_indexing exact_scope_indexing : nix2js.

(** ** Bindings *)

Definition kv_ok (i : KeyValue NixNode) : Prop := ∀ m, m ∈ kv_children i → C m.
Definition inherit_ok (i : Inherit NixNode) : Prop :=
  (∀ m, m ∈ inherit_children i → C m) ∧ (∀ id, id ∈ inh_idents i → J id).
Definition holder_ok (h : EntryHolder NixNode) : Prop :=
  (∀ m, m ∈ holder_children h → C m) ∧ (∀ id, id ∈ holder_idents h → J id).

Lemma holder_ok_kv h i : holder_ok h → i ∈ entries h → kv_ok i.
Proof.
  intros [Hc _] Hi m Hm. apply Hc. unfold holder_children.
  apply elem_of_app; left. apply list_elem_of_join. exists (kv_children i). split; [done|].
  by apply list_elem_of_fmap_2.
Qed.

Lemma holder_ok_inherit h i : holder_ok h → i ∈ inherits h → inherit_ok i.
Proof.
  intros [Hc Hj] Hi. split; intros x Hx; [apply Hc|apply Hj].
  - apply elem_of_app; right. apply list_elem_of_join. exists (inherit_children i).
    split; [done|]. by apply list_elem_of_fmap_2.
  - apply list_elem_of_join. exists (inh_idents i). split; [done|]. by apply list_elem_of_fmap_2.
Qed.

Lemma inherit_ok_ident i id : inherit_ok i → id ∈ inh_idents i → J id ∧ C (ident_node id).
Proof.
  intros [Hc Hj] Hid. split; [auto|]. apply Hc, elem_of_app. left. by apply list_elem_of_fmap_2.
Qed.

Lemma inherit_ok_inner i inhf m :
  inherit_ok i → inh_from i = Some inhf → m ∈ option_list (inhf_inner inhf) → C m.
Proof. intros [Hc _] Hf Hm. apply Hc, elem_of_app. right. by rewrite Hf. Qed.

Lemma exact_kv sctx i scope :
  lazy_st sctx ≠ Did → kv_ok i → ex (translate_node_kv rec sctx i scope).
Proof.
  intros Hs Hi. unfold translate_node_kv, kv_ok, kv_children in *.
  destruct (kv_key i) as [[[|k ks]]|]; simpl in *; [kgo| |kgo].
  destruct (kv_value i) as [v|]; simpl in *; [|kgo].
  assert (C k ∧ C v ∧ ∀ x, x ∈ ks → C x) as (?&?&?) by (split_and!; set_solver).
  kgo.
Qed.

Lemma exact_inherit sctx i scope tmp :
  lazy_st sctx ≠ Did → inherit_ok i → ex (translate_node_inherit rec sctx i scope tmp).
Proof.
  intros Hs Hi. unfold translate_node_inherit.
  assert (∀ id, id ∈ inh_idents i → J id ∧ C (ident_node id)) as Hid
    by (intros; by eapply inherit_ok_ident).
  destruct (inh_from i) as [inhf|] eqn:Hf.
  - assert (∀ s d, lazy_st s ≠ Did →
      ex (rtv rec s (node_text_range (inhf_node inhf)) (inhf_inner inhf) d)) as Hr.
    { intros. apply exact_rtv; [done|]. intros. by eapply inherit_ok_inner. }
    assert (∀ l var, (∀ id, id ∈ l → J id ∧ C (ident_node id)) →
      ex (for_each l (λ id, translate_node_scope_indexing rec (ident_node id) scope;;
            push ("=" +:+ var +:+ ".then(nixV=>nixV");; translate_node_ident_indexing id;;
            push ");"))) as Hl.
    { intros l var Hl. apply exact_for_each. intros id [??]%Hl. kgo. }
    destruct (inh_idents i) as [|id [|id2 ids]] eqn:Hids.
    + kgo_with ltac:(first [apply Hr | apply Hl]); auto.
    + destruct (Hid id) as [??]; [by left|]. kgo_with ltac:(apply Hr); auto.
    + kgo_with ltac:(first [apply Hr | apply Hl]); auto.
  - apply exact_for_each. intros id [??]%Hid. kgo.
Qed.

(** The keys [getkeys] returns are those of identifiers below the node. *)
Lemma getkeys_ident h rng x :
  holder_ok h → (rng, x) ∈ getkeys h →
  ∃ id, J id ∧ rng = node_text_range (ident_node id) ∧ x = ident_as_str id.
Proof.
  intros [Hc Hj] Hin. unfold getkeys in Hin.
  apply dedup_by_key_subseteq in Hin. rewrite sort_unstable_perm in Hin.
  apply list_elem_of_omap in Hin as (m & Hm & Hid).
  apply fmap_Some in Hid as (id & Hcast & [= -> ->]).
  exists id. split_and!; [|done..]. eapply cast_J, Hcast. apply Hc. unfold holder_children.
  apply elem_of_app in Hm as [Hm|Hm].
  - apply elem_of_app; left. apply list_elem_of_omap in Hm as (i & Hi & Hh).
    apply list_elem_of_join. exists (kv_children i). split; [|by apply list_elem_of_fmap_2].
    unfold kv_children. destruct (kv_key i) as [[[|k ks]]|]; simplify_eq/=. by left.
  - apply elem_of_app; right. apply list_elem_of_fmap in Hm as (j & -> & Hm).
    apply list_elem_of_join in Hm as (l & Hjl & Hl).
    apply list_elem_of_fmap in Hl as (i & -> & Hi).
    apply list_elem_of_join. exists (inherit_children i). split; [|by apply list_elem_of_fmap_2].
    apply elem_of_app; left. by apply list_elem_of_fmap_2.
Qed.

Lemma getkeys_range h rng x : holder_ok h → (rng, x) ∈ getkeys h → range_ok rng.
Proof. intros Hh (id & Hid & -> & _)%getkeys_ident; auto. Qed.

Lemma exact_let_inherits sctx h scope :
  lazy_st sctx ≠ Did → holder_ok h → ex (translate_let_inherits rec sctx h scope).
Proof.
  intros Hs Hh. unfold translate_let_inherits, enumerate. apply exact_for_each.
  intros [n i] Hi%elem_of_zip_r. apply exact_inherit; [done|by eapply holder_ok_inherit].
Qed.

Lemma exact_let_return body scope :
  (∀ b, body = LbNix b → C b) → ex (translate_let_return rec body scope).
Proof. intros Hb. unfold translate_let_return. kgo. Qed.

(** The guard of the object case makes its [unwrap]s succeed. *)
Lemma entry_is_field_unwrap i :
  entry_is_field i = true →
  ∃ k id v, kv_key i = Some (mkKey [k]) ∧ Ident_cast k = Some id ∧ kv_value i = Some v.
Proof.
  unfold entry_is_field. rewrite andb_true_iff, bool_decide_eq_true. intros [[v Hv] Hk].
  destruct (kv_key i) as [[[|k [|??]]]|]; simpl in *; try done.
  rewrite bool_decide_eq_true in Hk. destruct Hk as [id Hid]. eauto 10.
Qed.

Lemma inherits_pair (h : EntryHolder NixNode) id from :
  (id, from) ∈ mjoin ((λ inh, (λ i, (i, inh_from inh)) <$> inh_idents inh) <$> inherits h) →
  ∃ i, i ∈ inherits h ∧ id ∈ inh_idents i ∧ from = inh_from i.
Proof.
  intros (l & Hl & Hi)%list_elem_of_join. apply list_elem_of_fmap in Hi as (i & -> & Hi).
  apply list_elem_of_fmap in Hl as (id' & [= -> ->] & Hl). eauto.
Qed.

Lemma exact_let_object body_sctx sctx h :
  lazy_st sctx ≠ Did → holder_ok h → forallb entry_is_field (entries h) = true →
  ex (translate_let_object rec body_sctx sctx h).
Proof.
  intros Hs Hh Hf. unfold translate_let_object. eapply exact_lazyness; [done|]. intros _ _.
  apply exact_bind; [kgo|intros _]. apply exact_bind; [|intros fi; apply exact_bind; [|intros _; kgo]].
  - eapply exact_for_sep; [done|]. intros i Hi.
    assert (kv_ok i) as Hok by (by eapply holder_ok_kv).
    destruct (entry_is_field_unwrap i) as (k & id & v & Hk & Hid & Hv).
    { eapply forallb_forall; [exact Hf|]. by apply list_elem_of_In. }
    unfold kv_ok, kv_children in Hok. rewrite Hk, Hv in *. simpl in *.
    assert (C k ∧ C v) as [??] by (split; set_solver).
    kgo.
  - eapply exact_for_sep; [done|]. intros [id from] (inh & Hi & Hl & ->)%inherits_pair.
    assert (inherit_ok inh) as Hok by (by eapply holder_ok_inherit).
    edestruct inherit_ok_ident as [??]; [done..|].
    kgo_with ltac:(apply exact_rtv; [done|intros; by eapply inherit_ok_inner]).
Qed.

(** Inside the two scopes [vars] grows; [vars_restore] ends them. *)
Local Ltac close_scope :=
  repeat match goal with
  | |- closes _ _ _ (vars_restore _) => eapply closes_vars_restore; eassumption
  | |- closes _ _ _ (bind (vars_restore _) _) =>
      eapply closes_then; [eapply closes_vars_restore; eassumption|intros]
  | |- closes _ _ _ (bind _ _) => apply closes_bind; [|intros]
  end.

Lemma exact_let_variables body_sctx sctx h body scope :
  lazy_st sctx ≠ Did → holder_ok h → (∀ b, body = LbNix b → C b) →
  ex (translate_let_variables rec body_sctx sctx h body scope).
Proof.
  intros Hs Hh Hb. unfold translate_let_variables. eapply exact_lazyness; [done|]. intros _ _.
  eapply exact_vars_len. intros v. close_scope.
  - apply exact_extends. kgo.
  - eapply extends_for_sep; [done|]. intros [rng x] Hx.
    apply extends_bind; [by eapply extends_vars_push|intros _].
    apply exact_extends. kgo. apply exact_ident_raw. by eapply getkeys_range.
  - apply exact_extends. kgo.
  - apply exact_extends. kgo. apply exact_kv; [done|]. by eapply holder_ok_kv.
  - by apply exact_extends, exact_let_inherits.
  - by apply exact_extends, exact_let_return.
  - apply exact_extends. kgo.
Qed.

Lemma exact_let_scope body_sctx sctx h body scope :
  lazy_st sctx ≠ Did → holder_ok h → (∀ b, body = LbNix b → C b) →
  ex (translate_let_scope rec body_sctx sctx h body scope).
Proof.
  intros Hs Hh Hb. unfold translate_let_scope. eapply exact_lazyness; [done|]. intros _ _.
  apply exact_bind; [kgo|intros _].
  eapply exact_vars_len. intros v. close_scope.
  - destruct (bool_decide _); [|apply exact_extends; kgo].
    apply extends_for_each. intros [rng x] _. by eapply extends_vars_push.
  - apply exact_extends. kgo. apply exact_kv; [done|]. by eapply holder_ok_kv.
  - by apply exact_extends, exact_let_inherits.
  - by apply exact_extends, exact_let_return.
  - apply exact_extends. kgo.
  - apply exact_extends. kgo.
  - kgo.
Qed.

Lemma exact_let body_sctx h body scope :
  lazy_st body_sctx ≠ Did → holder_ok h → (∀ b, body = LbNix b → C b) →
  ex (translate_let rec body_sctx true h body scope).
Proof.
  intros Hs Hh Hb. unfold translate_let.
  assert (∀ m : M unit, ex m → ex match entries h, inherits h with
    | [], [] => match body with
                | LbNix b => rec body_sctx b
                | ExtractScope => push "Object.create(null)"
                end
    | _, _ => m end) as Hempty.
  { intros m Hm. repeat case_match; kgo. }
  apply Hempty. destruct (let_is_object h body scope) eqn:Ho.
  - apply exact_let_object; [done..|]. unfold let_is_object in Ho.
    rewrite !andb_true_iff in Ho. tauto.
  - destruct (let_is_variables h body scope);
      [by apply exact_let_variables|by apply exact_let_scope].
Qed.

(** ** The kinds of nodes *)

Local Abbreviation below pt := (∀ m, m ∈ pt_children pt → C m).
Local Ltac arm_go :=
  simpl in *;
  kgo_with ltac:(first [apply exact_rtv; [by auto|intros; set_solver]
                       |apply rec_exact; [by auto|set_solver]]).
Local Ltac arm f := unfold f; arm_go.

Lemma exact_apply sctx rng app : below (PtApply app) → ex (translate_apply rec sctx rng app).
Proof. intros. arm @translate_apply. Qed.

Lemma exact_assert sctx rng art : below (PtAssert art) → ex (translate_assert rec sctx rng art).
Proof.
  intros Hc. unfold translate_assert. simpl in Hc. eapply exact_lazyness; [done|]. intros _ _.
  destruct (art_condition art); arm_go.
Qed.

Lemma exact_binop sctx rng bo : below (PtBinOp bo) → ex (translate_binop rec sctx rng bo).
Proof.
  intros Hc. simpl in Hc. destruct bo as [[[]|] lhs rhs]; simpl in *; [destruct rhs as [r|]|..];
    [assert (C r) by set_solver|..]; arm @translate_binop.
Qed.

Lemma exact_ifelse sctx rng ie :
  lazy_st sctx ≠ Did → below (PtIfElse ie) → ex (translate_ifelse rec sctx rng ie).
Proof. intros. arm @translate_ifelse. Qed.

Lemma exact_list sctx l : below (PtList l) → ex (translate_list rec sctx l).
Proof. intros. arm @translate_list. Qed.

Lemma exact_or_default sctx rng od :
  below (PtOrDefault od) → ex (translate_or_default rec sctx rng od).
Proof. intros. arm @translate_or_default. Qed.

Lemma exact_select sctx rng sel : below (PtSelect sel) → ex (translate_select rec sctx rng sel).
Proof.
  intros Hc. simpl in Hc. destruct sel as [n [set|] [idx|]]; simpl in *; [|arm @translate_select..].
  assert (C set ∧ C idx) as [??] by (split; set_solver).
  unfold translate_select; simpl. apply exact_bind_ret, exact_bind_ret, exact_bind; [kgo|].
  intros [|]; kgo.
Qed.

Lemma exact_str sctx s : below (PtStr s) → ex (translate_str rec sctx s).
Proof.
  intros Hc. unfold translate_str. simpl in Hc.
  assert (∀ sxs, (∀ p, p ∈ sxs → p ∈ s_parts s) → ex (for_sep "+" true sxs (λ i,
    match i with
    | SpLiteral lit => push (escape_str lit)
    | SpAst ast =>
        push "(";;
        rtv rec (mksctx Want Nothing) (node_text_range (si_node ast)) (si_inner ast)
          "inner for str-interpolate";;
        push ")"
    end))) as Hparts.
  { intros sxs Hsub. eapply exact_for_sep; [done|]. intros [lit|ast] Hp%Hsub; [kgo|].
    kgo_with ltac:(apply exact_rtv; [done|]). intros m Hm. apply Hc, list_elem_of_join.
    exists (str_part_children (SpAst ast)). split; [done|]. by apply list_elem_of_fmap_2. }
  destruct (s_parts s) as [|p ps] eqn:Hs; [kgo|].
  destruct p as [lit|ast], ps as [|p2 ps]; try (kgo_with ltac:(apply Hparts); fail);
    kgo_with ltac:(apply Hparts); intros x Hx; apply list_elem_of_In, filter_In in Hx as [Hx _];
    by apply list_elem_of_In.
Qed.

Lemma exact_unary_op rng uo : below (PtUnaryOp uo) → ex (translate_unary_op rec rng uo).
Proof. intros. arm @translate_unary_op. Qed.

Lemma exact_value rng v :
  pt_float_ok (λ f, is_Some (JsNumber_from_f64 f)) (PtValue (N := NixNode) v)
    ∨ (∀ c, I c → on_panic E c) →
  ex (translate_value rng v).
Proof.
  intros Hf. unfold translate_value. simpl in Hf.
  destruct (v_to_value v) as [[f| | |]|e]; [|kgo..].
  apply exact_bind; [|intros; kgo].
  destruct (JsNumber_from_f64 f) as [n|]; simpl; [kgo|].
  destruct Hf as [[??]|Hp]; [done|]. by eapply exact_panic.
Qed.

Lemma exact_with_scope {A B} (m : M A) (k : M B) :
  ex m → ex k → ex (with_stack_inc;; m;; with_stack_dec;; k).
Proof.
  intros Hm Hk v w.
  eapply (triple_bind _ _ (λ _, at_scope I v (S w))).
  { intros c (?&?&?). split_and!; simpl; [by apply (steps_with S)|congruence..]. }
  intros _. eapply triple_bind; [apply Hm|intros ?].
  eapply (triple_bind _ _ (λ _, at_scope I v w)); [|intros _; apply Hk].
  intros c (?&?&Hw). split_and!; simpl; [by apply (steps_with pred)|done|by rewrite Hw].
Qed.

Lemma exact_with rng w : below (PtWith w) → ex (translate_with rec rng w).
Proof.
  intros. unfold translate_with. simpl in *. apply exact_bind; [kgo|intros _].
  apply exact_with_scope; arm_go.
Qed.

(** ** Lambdas *)

Lemma closes_throw {A} v e : closes E I v (throw (A := A) e).
Proof. intros w. apply triple_throw. intros c [? _]. by apply steps_err. Qed.

Lemma closes_bind_value {A B} v (Φ : A → Prop) (m : M A) (k : A → M B) :
  (∀ w, triple E (within I v w) m (λ a c, Φ a ∧ within I v w c)) →
  (∀ a, Φ a → closes E I v (k a)) → closes E I v (bind m k).
Proof.
  intros Hm Hk w. eapply triple_bind; [apply Hm|].
  intros a c [Ha Hc]. by apply Hk.
Qed.

Lemma closes_lambda_ident rng lam v y :
  below (PtLambda lam) → J y → closes E I v (translate_lambda_ident rec rng lam (length v) y).
Proof.
  intros Hc Hy. simpl in Hc. unfold translate_lambda_ident.
  apply closes_bind; [by eapply extends_vars_push|intros _].
  close_scope; try (apply exact_extends); arm_go.
Qed.

(** The entries that were registered are entries of the pattern. *)
Definition entry_ok (e : Ident NixNode * option NixNode) : Prop :=
  J e.1 ∧ ∀ m, m ∈ option_list e.2 → C m.
Definition pattern_entry_ok (e : PatEntry NixNode) : Prop :=
  (∀ id, id ∈ option_list (pe_name e) → J id) ∧ (∀ m, m ∈ option_list (pe_default e) → C m).

Lemma triple_register_entries v w dbg l :
  (∀ e, e ∈ l → pattern_entry_ok e) →
  triple E (within I v w) (lambda_register_entries dbg l)
    (λ r c, Forall entry_ok r ∧ within I v w c).
Proof.
  induction l as [|e l IH]; intros Hl; simpl; [by apply triple_ret|].
  destruct (Hl e) as [Hn Hd]; [by left|].
  destruct (pe_name e) as [z|]; [|apply triple_throw; intros c [? _]; by apply steps_err].
  eapply triple_bind; [by eapply extends_vars_push|intros ?].
  eapply triple_bind; [apply IH; intros; apply Hl; by right|].
  intros r. apply triple_ret. intros c [Hr Hc]. split; [|done].
  constructor; [|done]. split; [apply Hn; by left|done].
Qed.

Lemma exact_bind_entry argname e : entry_ok e → ex (lambda_bind_entry rec argname e).
Proof.
  intros [Hz Hd]. destruct e as [z dfl]. simpl in *. unfold lambda_bind_entry.
  destruct dfl as [d|]; [assert (C d) by (apply Hd; by left)|]; kgo.
Qed.

Lemma closes_lambda_pattern rng lam v y :
  below (PtLambda lam) → (∀ id, id ∈ pattern_idents y → J id) →
  (∀ m, m ∈ pattern_children y → C m) →
  closes E I v (translate_lambda_pattern rec rng lam (length v) y).
Proof.
  intros Hc Hids Hch. simpl in Hc. unfold translate_lambda_pattern.
  apply closes_bind.
  { destruct (pat_at y) as [z|] eqn:Hat; [|apply exact_extends; kgo].
    apply extends_bind; [by eapply extends_vars_push|intros _]. apply exact_extends, exact_ident.
    apply Hids. unfold pattern_idents. rewrite Hat. by left. }
  intros argname. eapply (closes_bind_value _ (Forall entry_ok)).
  { intros w. apply triple_register_entries. intros e He. split; intros x Hx.
    - apply Hids, elem_of_app. right. apply list_elem_of_join. eexists. split; [exact Hx|].
      by apply (list_elem_of_fmap_2 (λ e, option_list (pe_name e))).
    - apply Hch, list_elem_of_join. eexists. split; [exact Hx|].
      by apply (list_elem_of_fmap_2 (λ e, option_list (pe_default e))). }
  intros ents Hents. rewrite Forall_forall in Hents.
  close_scope; try (apply exact_extends); arm_go.
  by apply exact_bind_entry, Hents.
Qed.

Lemma exact_lambda rng lam :
  below (PtLambda lam) →
  (∀ y, lam_arg lam ≫= Ident_cast = Some y → J y) →
  (∀ y, lam_arg lam ≫= Pattern_cast = Some y →
     (∀ id, id ∈ pattern_idents y → J id) ∧ (∀ m, m ∈ pattern_children y → C m)) →
  ex (translate_lambda rec rng lam).
Proof.
  intros Hc Hi Hp. unfold translate_lambda.
  destruct (lam_arg lam) as [argx|]; simpl in *; [|kgo].
  apply exact_bind_ret. eapply exact_vars_len. intros v.
  apply closes_bind; [apply exact_extends; kgo|intros _].
  apply closes_then; [|intros; kgo].
  destruct (Ident_cast argx) as [y|]; [by apply closes_lambda_ident; auto|].
  destruct (Pattern_cast argx) as [y|]; [|apply closes_throw].
  destruct (Hp y) as [??]; [done|]. by apply closes_lambda_pattern.
Qed.

(** ** The dispatch *)

Lemma exact_node_body sctx n :
  lazy_st sctx ≠ Did →
  range_ok (node_text_range n) →
  (∀ m, m ∈ node_children n → C m) → (∀ id, id ∈ node_idents n → J id) →
  ((∀ pt, ParsedType_try_from n = inl pt →
      pt_reachable pt ∧ pt_float_ok (λ f, is_Some (JsNumber_from_f64 f)) pt)
    ∨ (∀ c, I c → on_panic E c)) →
  ex (translate_node_body rec sctx n).
Proof.
  intros Hs Hrng Hc Hi Hp. unfold translate_node_body. destruct (node_is_trivia n); [kgo|].
  apply exact_bind; [kgo|intros _].
  unfold node_children in Hc. unfold node_idents in Hi.
  destruct (ParsedType_try_from n) as [pt|kind]; [|kgo].
  assert (∀ id, Ident_cast n = Some id → J id) as Hcast
    by (intros id Hid; apply Hi; rewrite Hid; by left).
  assert (¬ pt_reachable pt → ∀ A msg, ex (panic (A := A) msg)) as Hpanic.
  { intros Hr A msg. destruct Hp as [Hp|Hp]; [by destruct (Hp pt)|by eapply exact_panic]. }
  assert (∀ id, id ∈ match pt with PtLambda _ => [] | _ => pt_idents pt end → J id) as Hids.
  { intros id Hid. apply Hi, elem_of_app. right. by destruct pt; try by apply elem_of_nil in Hid. }
  destruct pt; simpl in Hids, Hc; try (apply Hpanic; by intros []); clear Hpanic.
  - by apply exact_apply.
  - by apply exact_assert.
  - by apply exact_let.
  - by apply exact_binop.
  - by apply exact_rtv.
  - kgo. apply exact_ident, Hids. by left.
  - by apply exact_ifelse.
  - by apply exact_inherit.
  - by apply exact_rtv.
  - apply exact_lambda.
    + intros m Hm. apply Hc, elem_of_app. by left.
    + intros y Hy. apply Hi. rewrite Hy. apply elem_of_app; right. by left.
    + intros y Hy. rewrite Hy in *.
      split; intros; [apply Hi; do 2 (apply elem_of_app; right)|apply Hc, elem_of_app; right]; done.
  - unfold translate_legacy_let.
    destruct (List.find entry_is_body _ ≫= kv_value) as [body|] eqn:Hb; [|kgo].
    apply exact_bind_ret, exact_let; [done..|]. intros b [= <-]. apply Hc.
    apply bind_Some in Hb as (i & Hf & Hv). apply List.find_some in Hf as [Hf _].
    apply elem_of_app; left. apply list_elem_of_join. exists (kv_children i). split.
    + apply elem_of_app; right. rewrite Hv. by left.
    + apply list_elem_of_fmap_2. by apply list_elem_of_In.
  - unfold translate_let_in. destruct (li_body l) as [body|] eqn:Hb; [|kgo].
    apply exact_bind_ret, exact_let; [done|split|]; try done.
    + intros m Hm. apply Hc, elem_of_app. by left.
    + intros b [= <-]. apply Hc, elem_of_app. right. by left.
  - by apply exact_list.
  - by apply exact_or_default.
  - by apply exact_rtv.
  - by apply exact_rtv.
  - by apply exact_select.
  - by apply exact_str.
  - by apply exact_rtv.
  - by apply exact_unary_op.
  - apply exact_value. destruct Hp as [Hp|Hp]; [left; by apply (Hp (PtValue v))|by right].
  - by apply exact_with.
Qed.
End traversal.

(** * The result *)

Section result.
Context `{Rnix, Linetrack, Vlq, SerdeJson, StdSort, !StdSortLaws}.
Context (E : exits Context) (I : Context → Prop) (range_ok : TextRange → Prop).
Context `{!Steps E I range_ok}.

(** What a node must satisfy itself. *)
Definition node_ok (n : NixNode) : Prop :=
  range_ok (node_text_range n) ∧
  (∀ id, id ∈ node_idents n → range_ok (node_text_range (ident_node id))) ∧
  ((∀ pt, ParsedType_try_from n = inl pt →
      pt_reachable pt ∧ pt_float_ok (λ f, is_Some (JsNumber_from_f64 f)) pt)
    ∨ (∀ c, I c → on_panic E c)).

(** The recursion has enough fuel, or running out of it is accepted. *)
Definition fuel_ok (size : NixNode → nat) (fuel : nat) (n : NixNode) : Prop :=
  (size n < fuel ∧ ∀ m k, k ∈ node_children m → size k < size m)
  ∨ (∀ c, I c → on_fuel E c).

Theorem translate_node_exact size fuel sctx n :
  everywhere node_ok n → fuel_ok size fuel n → lazy_st sctx ≠ Did →
  exact E I (translate_node fuel sctx n).
Proof.
  revert sctx n. induction fuel as [|fuel IH]; intros sctx n Hn Hf Hs.
  - intros v w. apply triple_out_of_fuel. intros c [Hc _].
    destruct Hf as [[??]|Hf]; [lia|by apply Hf].
  - destruct Hn as [(Hrng & Hr & Hp) Hch].
    apply (exact_node_body E I range_ok (translate_node fuel)
             (λ m, everywhere node_ok m ∧ fuel_ok size fuel m)
             (λ id, range_ok (node_text_range (ident_node id)))).
    + intros s m Hs' [Hm Hfm]. by apply IH.
    + intros m id [[Hm _] _] Hid. apply Hm. unfold node_idents. rewrite Hid. by left.
    + auto.
    + exact Hs.
    + exact Hrng.
    + intros m Hm. split; [by apply Hch|]. destruct Hf as [[Hlt Hsz]|Hf]; [left|by right].
      split; [|exact Hsz]. specialize (Hsz n m Hm). lia.
    + exact Hr.
    + exact Hp.
Qed.
End result.
