(* ===== verification/Brackets.v ===== *)
(** The generated code is lexically well formed: every method of the translator
    closes the brackets it opens and every string literal it starts, and prints
    no line break, comment or stray quote. *)
From S2P Require Import Prelude Text JsLexer Externs Consts Context Helpers Idents Let Node Translate Tree Lazyness Keeps Traversal.
From Stdlib Require Import Ascii.
Local Open Scope nix2js_scope.

(** * Names *)

(** The bytes of a Nix identifier. *)
Definition nix_ident_byte (a : ascii) : bool :=
  is_alnum a || Ascii.eqb a "_" || Ascii.eqb a "'" || Ascii.eqb a "-".

(** The one builtin whose name is not a JavaScript identifier. *)
Definition foldl' : string := "__foldl'".

Definition name_lexical (vn : string) : Prop :=
  str_forall nix_ident_byte vn = true ∧ vn ≠ foldl'.

(** What [translate_node_ident_raw] prints for the two static categories. *)
Definition var_lexicalb (v : string * IdentCateg) : bool :=
  match v.2 with
  | Literal lit => str_forall code_byte lit
  | AlBuiltin ablti =>
      bool_decide (v.1 = foldl') || str_forall code_byte (default ablti (strip_prefix "__" ablti))
  | _ => true
  end.

Definition var_lexical (v : string * IdentCateg) : Prop := var_lexicalb v = true.

Lemma dfl_vars_lexical : Forall var_lexical DFL_VARS.
Proof.
  apply Forall_forall. intros v Hv%list_elem_of_In.
  exact (proj1 (forallb_forall var_lexicalb DFL_VARS) ltac:(by vm_compute) v Hv).
Qed.

Lemma code_byte_alnum s : str_forall is_alnum s = true → str_forall code_byte s = true.
Proof. apply str_forall_impl. intros a Ha. unfold code_byte. by rewrite Ha. Qed.

Lemma mangle_code vn : str_forall nix_ident_byte vn = true → str_forall code_byte (mangle vn) = true.
Proof.
  intros Hv. unfold mangle. apply str_forall_replace; [done|].
  apply str_forall_replace; [done|]. eapply str_forall_impl; [|exact Hv].
  intros a. unfold nix_ident_byte, code_byte. simpl.
  rewrite !orb_true_iff. tauto.
Qed.

(** * The judgement *)

Section judgement.
Context `{Linetrack, Vlq}.

(** The code so far leaves the brackets [stk] open. *)
Definition lex_at (stk : list ascii) (c : Context) : Prop :=
  lexes [] (acc c) stk ∧ Forall var_lexical (vars c).

(** [m] takes the open brackets from [stk] to [stk'], and its value satisfies
    [Φ]. *)
Definition emits_value {A} (Φ : A → Prop) (stk : list ascii) (m : M A) (stk' : list ascii) : Prop :=
  triple any_exits (lex_at stk) m (λ a c, Φ a ∧ lex_at stk' c).
Definition emits {A} (stk : list ascii) (m : M A) (stk' : list ascii) : Prop :=
  triple any_exits (lex_at stk) m (λ _, lex_at stk').

Lemma emits_value_emits {A} (Φ : A → Prop) stk (m : M A) stk' :
  emits_value Φ stk m stk' → emits stk m stk'.
Proof. intros Hm. eapply triple_consequence; [exact Hm|done|by intros a c []]. Qed.

Lemma emits_bind {A B} stk1 stk2 stk3 (m : M A) (k : A → M B) :
  emits stk1 m stk2 → (∀ a, emits stk2 (k a) stk3) → emits stk1 (bind m k) stk3.
Proof. apply triple_bind. Qed.

Lemma emits_bind_value {A B} (Φ : A → Prop) stk1 stk2 stk3 (m : M A) (k : A → M B) :
  emits_value Φ stk1 m stk2 → (∀ a, Φ a → emits stk2 (k a) stk3) → emits stk1 (bind m k) stk3.
Proof.
  intros Hm Hk. eapply triple_bind; [exact Hm|]. intros a. apply triple_pure. apply Hk.
Qed.

Lemma emits_bind_ret {A B} stk stk' (a : A) (k : A → M B) :
  emits stk (k a) stk' → emits stk (bind (ret a) k) stk'.
Proof. done. Qed.

Lemma emits_bind_assoc {A B D} stk stk' (m : M A) (k : A → M B) (k' : B → M D) :
  emits stk (bind m (λ a, bind (k a) k')) stk' → emits stk (bind (bind m k) k') stk'.
Proof.
  intros Hm c Hc. specialize (Hm c Hc). unfold bind in *. by destruct (m c) as [[] c'].
Qed.

Lemma emits_ret {A} stk (a : A) : emits stk (ret a) stk.
Proof. by apply triple_ret. Qed.
Lemma emits_gets {A} stk (f : Context → A) : emits stk (gets f) stk.
Proof. by apply triple_gets. Qed.
Lemma emits_throw {A} stk stk' e : emits stk (throw (A := A) e) stk'.
Proof. by apply triple_throw. Qed.
Lemma emits_panic {A} stk stk' msg : emits stk (panic (A := A) msg) stk'.
Proof. by apply triple_panic. Qed.
Lemma emits_bind_throw {A B} stk stk' e (k : A → M B) : emits stk (bind (throw e) k) stk'.
Proof. by intros c. Qed.
Lemma emits_bind_panic {A B} stk stk' msg (k : A → M B) : emits stk (bind (panic msg) k) stk'.
Proof. by intros c. Qed.
Lemma emits_throw_line {A} stk stk' rng msg : emits stk (throw_line (A := A) rng msg) stk'.
Proof. by intros c. Qed.
Lemma emits_bind_throw_line {A B} stk stk' rng msg (k : A → M B) :
  emits stk (bind (throw_line rng msg) k) stk'.
Proof. by intros c. Qed.
Lemma emits_of_result {A} stk (r : A + string) : emits stk (of_result r) stk.
Proof. destruct r; [apply emits_ret|apply emits_throw]. Qed.

Lemma emits_push stk x stk' : lexes stk x stk' → emits stk (push x) stk'.
Proof. intros Hx c [Ha Hv]. split; [|done]. by eapply lexes_app. Qed.

Lemma emits_vars_push stk x k : var_lexical (x, k) → emits stk (vars_push x k) stk.
Proof. intros Hx c [Ha Hv]. split; [done|]. simpl. apply Forall_app. by split; [|constructor]. Qed.

Lemma emits_vars_restore stk n : emits stk (vars_restore n) stk.
Proof.
  unfold vars_restore. eapply emits_bind; [apply emits_gets|intros l].
  eapply emits_bind; [destruct (n <=? l); [apply emits_ret|apply emits_panic]|intros _].
  intros c [Ha Hv]. split; [done|]. by apply Forall_take.
Qed.

Lemma emits_with stk f : emits stk (modify (set_with f)) stk.
Proof. by intros c [??]. Qed.

Lemma emits_for_each {A} stk (l : list A) f :
  (∀ x, x ∈ l → emits stk (f x) stk) → emits stk (for_each l f) stk.
Proof. apply triple_for_each. Qed.

Lemma emits_for_sep {A} stk sep fi (l : list A) f :
  balanced sep → (∀ x, x ∈ l → emits stk (f x) stk) → emits stk (for_sep sep fi l f) stk.
Proof.
  intros Hsep. revert fi. induction l as [|x l IH]; intros fi Hf; simpl; [apply emits_ret|].
  eapply emits_bind; [destruct fi; [apply emits_ret|apply emits_push, Hsep]|intros _].
  eapply emits_bind; [apply Hf; left|intros _].
  apply IH. intros y Hy. apply Hf. by right.
Qed.

(** The source-map steps print nothing. *)
Lemma emits_moves {A} stk (m : M A) : moves same_scope m → emits stk m stk.
Proof.
  intros Hm c [Ha Hv]. specialize (Hm c). destruct (m c) as [[] c']; try done. simpl in Hm.
  destruct Hm as (Hv' & _ & _ & Ha'). split; [by rewrite Ha'|by rewrite Hv'].
Qed.

Lemma emits_snapshot_pos stk pos : emits stk (snapshot_pos pos) stk.
Proof. apply emits_moves, same_scope_snapshot_pos. Qed.

Lemma emits_snapshot_ident stk rng m t :
  pushes m t → balanced t → emits stk (snapshot_ident rng m) stk.
Proof.
  intros Hm Ht. unfold snapshot_ident.
  eapply emits_bind; [apply emits_snapshot_pos|intros r1].
  eapply emits_bind; [|intros ?].
  { intros c Hc. rewrite (Hm c). by apply (emits_push stk t stk (Ht stk) c). }
  eapply emits_bind; [apply emits_snapshot_pos|intros r2].
  eapply emits_bind; [|intros ?; apply emits_ret].
  destruct (_ && _); [apply emits_moves, same_scope_record_ident|apply emits_ret].
Qed.

Lemma emits_wrapper {R} stk stk' pre post (m : M R) :
  emits stk (for_each pre push) stk' → emits stk' m stk' → emits stk' (for_each post push) stk →
  emits stk (for_each pre push;; res ← attempt m; for_each post push;; of_result res) stk.
Proof.
  intros Hpre Hm Hpost. eapply emits_bind; [exact Hpre|intros _].
  eapply (triple_bind _ _ (λ r c, match r with inl _ => lex_at stk' c | inr _ => True end)).
  - intros c Hc. unfold attempt. specialize (Hm c Hc). by destruct (m c) as [[] c'].
  - intros [a|e]; [eapply emits_bind; [exact Hpost|intros; apply emits_ret]|].
    eapply (triple_bind _ _ (λ _ _, True)); [|intros; by apply triple_throw].
    intros c _. by destruct (for_each post push c) as [[] c'].
Qed.

(** The wrappers of [lazyness_incoming] are closed. *)
Lemma emits_lazyness {R} stk sctx await_tr lazy_tr adj (inner : StackCtx → M R) :
  (∀ sctx' stk', emits stk' (inner sctx') stk') →
  emits stk (lazyness_incoming sctx await_tr lazy_tr adj inner) stk.
Proof.
  intros Hi c Hc. rewrite lazyness_incoming_plan. revert c Hc.
  destruct (lazyness_plan _ _ _ _) as [[pre s] post] eqn:Hp.
  assert (∃ stk', emits stk (for_each pre push) stk' ∧ emits stk' (for_each post push) stk)
    as (stk' & Hpre & Hpost); [|by apply (emits_wrapper stk stk')].
  unfold lazyness_plan in Hp. injection Hp as <- _ <-.
  destruct (prints_await _ _), (prints_lazy _ _ _ _), (lazy_through _ _); simpl;
    eexists; split; repeat first
      [apply emits_ret | apply emits_push; reflexivity | eapply emits_bind; [|intros _]].
Qed.
End judgement.

(** * The methods *)

Section methods.
Context `{Rnix, Linetrack, Vlq, SerdeJson, StdSort, !StdSortLaws, !SerdeLaws}.
(** The recursive call, the nodes it may be used on, the identifiers that may
    be printed. *)
Context (rec : StackCtx → NixNode → M unit).
Context (C : NixNode → Prop).

Definition ident_lexical (id : Ident NixNode) : Prop := name_lexical (ident_as_str id).
Local Abbreviation J := ident_lexical.

Context (rec_emits : ∀ sctx m stk, C m → emits stk (rec sctx m) stk).
Context (cast_J : ∀ m id, C m → Ident_cast m = Some id → J id).

Lemma balanced_escape_str x : balanced (escape_str x).
Proof. apply balanced_json, JsVal_string_literal. Qed.

Lemma balanced_digits n : balanced (fmt_usize n).
Proof.
  apply balanced_code, code_byte_alnum. eapply str_forall_impl; [|apply pretty_nat_digits].
  intros a Ha. unfold is_alnum. by rewrite Ha, orb_true_r.
Qed.

Lemma raw_safe_alnum vn : attrelem_raw_safe vn = true → str_forall is_alnum vn = true.
Proof.
  unfold attrelem_raw_safe. intros Hs. apply chars_alnum, forallb_forall. intros x Hx.
  destruct (chars vn) as [|y l]; [done|]. apply andb_true_iff in Hs as [_ Hs].
  apply negb_true_iff in Hs. destruct (is_ascii_alphanumeric x) eqn:E; [done|].
  rewrite <- Hs. apply existsb_exists. exists x. by rewrite E.
Qed.

Lemma balanced_indexing vn : balanced (indexing_text vn).
Proof.
  unfold indexing_text. destruct (attrelem_raw_safe vn) eqn:Hs.
  - apply balanced_app; [done|]. by apply balanced_code, code_byte_alnum, raw_safe_alnum.
  - intros stk. eapply lexes_app; [reflexivity|]. eapply lexes_app; [apply balanced_escape_str|reflexivity].
Qed.

(** Lex a text: constants by evaluation, the rest by its parts. *)
Local Ltac lex_go :=
  solve [repeat first
    [ reflexivity
    | match goal with Hb : balanced ?x |- lexes _ ?x _ => apply Hb end
    | apply balanced_escape_str | apply balanced_digits | apply balanced_indexing
    | eapply lexes_app ]].

Local Ltac emits_with tac :=
  repeat first [tac | match goal with
  | |- emits _ (bind (ret _) _) _ => apply emits_bind_ret
  | |- emits _ (bind (bind _ _) _) _ => apply emits_bind_assoc
  | |- emits _ (bind (throw _) _) _ => apply emits_bind_throw
  | |- emits _ (bind (panic _) _) _ => apply emits_bind_panic
  | |- emits _ (bind (throw_line _ _) _) _ => apply emits_bind_throw_line
  | |- emits _ (bind (ok_or _ ?x) _) _ => destruct x eqn:?; simpl
  | |- emits _ (bind (unwrap _ ?x) _) _ => destruct x eqn:?; simpl
  | |- emits _ (bind (match ?x with _ => _ end) _) _ => destruct x eqn:?
  | |- emits _ (bind _ _) _ => eapply emits_bind; [|intros]
  | |- emits _ (ret _) _ => apply emits_ret
  | |- emits _ (push _) _ => apply emits_push; lex_go
  | |- emits _ (gets _) _ => apply emits_gets
  | |- emits _ (snapshot_pos _) _ => apply emits_snapshot_pos
  | |- emits _ (throw_line _ _) _ => apply emits_throw_line
  | |- emits _ (throw _) _ => apply emits_throw
  | |- emits _ (panic _) _ => apply emits_panic
  | |- emits _ (of_result _) _ => apply emits_of_result
  | |- emits _ (vars_push _ _) _ => apply emits_vars_push; reflexivity
  | |- emits _ vars_len _ => apply emits_gets
  | |- emits _ (vars_restore _) _ => apply emits_vars_restore
  | |- emits _ (lazyness_incoming _ _ _ _ _) _ => apply emits_lazyness; intros
  | |- emits _ (for_each _ _) _ => apply emits_for_each; intros
  | |- emits _ (for_sep _ _ _ _) _ => apply emits_for_sep; [done|intros]
  | |- emits _ (match ?x with _ => _ end) _ => destruct x eqn:?
  | |- emits _ _ _ => solve [eauto with nix2js]
  end].
Local Ltac emit := emits_with fail.

Lemma emits_ident_escape_str stk id : emits stk (translate_node_ident_escape_str id) stk.
Proof.
  unfold translate_node_ident_escape_str. emit.
  eapply emits_snapshot_ident; [apply pushes_push|apply balanced_escape_str].
Qed.

Lemma emits_ident_indexing stk id : emits stk (translate_node_ident_indexing id) stk.
Proof.
  unfold translate_node_ident_indexing. emit.
  eapply emits_snapshot_ident; [apply pushes_push|apply balanced_indexing].
Qed.

(** What [translate_node_ident_raw] prints for a category, without wrappers. *)
Definition ident_text (vn : string) (categ : IdentCateg) : string :=
  match categ with
  | Literal lit => lit
  | AlBuiltin ablti =>
      if bool_decide (ablti = "builtins") then NIX_BUILTINS_RT
      else NIX_BUILTINS_RT +:+ "." +:+ default ablti (strip_prefix "__" ablti)
  | LambdaArg | LetLetVar => NIX_LAMBDA_ARG_PFX +:+ mangle vn
  | LetInScopeVar | WithScopeVar => NIX_IN_SCOPE +:+ indexing_text vn
  end.

Lemma balanced_ident_text vn categ :
  name_lexical vn → var_lexical (vn, categ) → balanced (ident_text vn categ).
Proof.
  intros [Hv Hf] Hc. unfold var_lexical, var_lexicalb in Hc. destruct categ as [lit|ablti| | | | ]; simpl in *.
  - by apply balanced_code.
  - rewrite bool_decide_eq_false_2 in Hc by done. destruct (bool_decide _); [done|].
    by apply (balanced_app (NIX_BUILTINS_RT +:+ ".")), balanced_code.
  - apply balanced_app; [done|]. by apply balanced_code, mangle_code.
  - apply balanced_app; [done|]. by apply balanced_code, mangle_code.
  - apply balanced_app; [done|apply balanced_indexing].
  - apply balanced_app; [done|apply balanced_indexing].
Qed.

Lemma snapshot_ident_acc rng m t c :
  pushes m t →
  match snapshot_ident rng m c with (Ok _, c') => acc c' = acc c +:+ t | _ => True end.
Proof.
  intros Hm.
  assert (∀ a A (n : M A), moves same_scope n →
    triple any_exits (λ c, acc c = a) n (λ _ c, acc c = a)) as Hkeep.
  { intros a A n Hn c' Hc'. specialize (Hn c'). destruct (n c') as [[] c'']; try done.
    simpl in Hn. by destruct Hn as (_ & _ & _ & ->). }
  enough (triple any_exits (λ c', acc c' = acc c) (snapshot_ident rng m) (λ _ c', acc c' = acc c +:+ t))
    as HT by (specialize (HT c eq_refl); by destruct (snapshot_ident rng m c) as [[] ?]).
  unfold snapshot_ident. eapply triple_bind; [apply Hkeep, same_scope_snapshot_pos|intros r1].
  eapply (triple_bind _ _ (λ _ c', acc c' = acc c +:+ t)).
  { intros c' Hc'. rewrite (Hm c'). simpl. by rewrite Hc'. }
  intros ?. eapply triple_bind; [apply Hkeep, same_scope_snapshot_pos|intros r2].
  eapply (triple_bind _ _ (λ _ c', acc c' = acc c +:+ t)); [|intros ?; by apply triple_ret].
  destruct (_ && _); [apply Hkeep, same_scope_record_ident|by apply triple_ret].
Qed.

(** The text an identifier prints is the same in every branch that prints one. *)
Definition raw_push (vn : string) (categ : IdentCateg) : M unit :=
  match categ with
  | Literal lit => push lit
  | AlBuiltin ablti =>
      if bool_decide (ablti = "builtins") then push NIX_BUILTINS_RT
      else push NIX_BUILTINS_RT;; push ".";; push (default ablti (strip_prefix "__" ablti))
  | LambdaArg | LetLetVar => push NIX_LAMBDA_ARG_PFX;; push (mangle vn)
  | LetInScopeVar | WithScopeVar =>
      push NIX_IN_SCOPE;;
      push (if attrelem_raw_safe vn then "." +:+ vn else "[" +:+ escape_str vn +:+ "]")
  end.

Lemma raw_push_text vn categ : pushes (raw_push vn categ) (ident_text vn categ).
Proof.
  destruct categ; simpl; try (case_bool_decide); repeat first [apply pushes_push|apply pushes_bind].
Qed.

Lemma emits_raw_push stk rng vn categ :
  name_lexical vn → var_lexical (vn, categ) → emits stk (snapshot_ident rng (raw_push vn categ)) stk.
Proof.
  intros Hv Hc. eapply emits_snapshot_ident; [apply raw_push_text|by apply balanced_ident_text].
Qed.

Lemma emits_handle_lazyness stk sctx m :
  (∀ stk, emits stk m stk) → emits stk (handle_lazyness sctx m) stk.
Proof. intros Hm. unfold handle_lazyness, acc_len, acc_from. emit. Qed.

Lemma emits_ident_raw stk sctx rng vn categ :
  name_lexical vn → var_lexical (vn, categ) →
  emits stk (translate_node_ident_raw sctx rng vn categ) stk.
Proof.
  intros Hv Hc. pose proof (λ stk, emits_raw_push stk rng vn categ Hv Hc) as Hp.
  unfold translate_node_ident_raw, acc_len, acc_from, raw_push in *.
  destruct categ; emit; try apply emits_handle_lazyness; intros; apply Hp.
Qed.

(** The text of an identifier that is printed without a wrapper is returned. *)
Lemma ident_raw_value stk rng vn categ :
  name_lexical vn → var_lexical (vn, categ) →
  emits_value balanced stk (translate_node_ident_raw None rng vn categ) stk.
Proof.
  intros Hv Hc c Hat.
  pose proof (emits_raw_push stk rng vn categ Hv Hc c Hat) as He.
  pose proof (snapshot_ident_acc rng _ _ c (raw_push_text vn categ)) as Ha.
  pose proof (balanced_ident_text vn categ Hv Hc) as Hb.
  assert (translate_node_ident_raw None rng vn categ c =
    (snapshot_ident rng (raw_push vn categ);; acc_from (String.length (acc c))) c) as ->.
  { clear. unfold translate_node_ident_raw, handle_lazyness, acc_len, raw_push, bind, gets, ret.
    destruct categ; try (case_bool_decide); simpl;
      match goal with |- context [snapshot_ident rng ?m c] => destruct (snapshot_ident rng m c) as [[] ?] end;
      done. }
  unfold bind, acc_from, gets. destruct (snapshot_ident _ _ c) as [[u|e|p|] c']; try done.
  split; [|done]. rewrite Ha. by rewrite str_drop_app.
Qed.

Lemma vars_find_elem vs vn categ : vars_find vs vn = Some categ → (vn, categ) ∈ vs.
Proof.
  unfold vars_find. intros ([x k] & Hf & Hk)%fmap_Some. simpl in Hk. subst k.
  apply List.find_some in Hf as [Hin Heq]. rewrite bool_decide_eq_true in Heq. subst x.
  by apply list_elem_of_In, in_rev.
Qed.

Lemma resolve_ident_value stk id :
  emits_value (λ categ, var_lexical (ident_as_str id, categ)) stk (resolve_ident id) stk.
Proof.
  intros c [Ha Hv]. unfold resolve_ident, bind, gets, of_result, resolve_ident_in.
  destruct (vars_find (vars c) (ident_as_str id)) as [categ|] eqn:E.
  - split; [|done]. apply vars_find_elem in E. rewrite Forall_forall in Hv. by apply Hv.
  - by destruct (0 <? with_stack c).
Qed.

Lemma emits_ident stk sctx id : J id → emits stk (translate_node_ident sctx id) stk.
Proof.
  intros Hid. eapply emits_bind_value; [apply resolve_ident_value|]. intros categ Hc.
  by apply emits_ident_raw.
Qed.

Lemma ident_value stk id : J id → emits_value balanced stk (translate_node_ident None id) stk.
Proof.
  intros Hid. eapply triple_bind; [apply resolve_ident_value|]. intros categ.
  apply triple_pure. intros Hc. by apply ident_raw_value.
Qed.
Hint Resolve emits_ident_escape_str emits_ident_indexing emits_ident : nix2js.

Lemma emits_rtv stk sctx rng x desc :
  (∀ m, m ∈ option_list x → C m) → emits stk (rtv rec sctx rng x desc) stk.
Proof.
  intros Hx. unfold rtv. destruct x; [apply rec_emits, Hx; by left|apply emits_throw_line].
Qed.

Lemma emits_key_force_str stk k : C k → emits stk (translate_node_key_element_force_str rec k) stk.
Proof. intros. unfold translate_node_key_element_force_str. emit. Qed.

Lemma emits_key_indexing stk k : C k → emits stk (translate_node_key_element_indexing rec k) stk.
Proof. intros. unfold translate_node_key_element_indexing. emit. Qed.

Lemma emits_scope_indexing stk k scope :
  C k → (∀ x, scope = Some x → balanced x) → emits stk (translate_node_scope_indexing rec k scope) stk.
Proof.
  intros Hk Hs. unfold translate_node_scope_indexing. destruct scope as [x|].
  - assert (balanced x) by auto. emit. by apply emits_key_indexing.
  - emit.
Qed.
Hint Resolve emits_key_force_str emits_key_indexing emits_scope_indexing : nix2js.

(** ** Bindings *)

Lemma emits_kv stk sctx i scope :
  kv_ok C i → (∀ x, scope = Some x → balanced x) →
  emits stk (translate_node_kv rec sctx i scope) stk.
Proof.
  intros Hi Hs. unfold translate_node_kv, kv_ok, kv_children in *.
  destruct (kv_key i) as [[[|k ks]]|]; simpl in *; [emit| |emit].
  destruct (kv_value i) as [v|]; simpl in *; [|emit].
  assert (C k ∧ C v ∧ ∀ x, x ∈ ks → C x) as (?&?&?) by (split_and!; set_solver).
  destruct scope as [s|]; [assert (balanced s) by auto|]; destruct ks; cbv iota beta; emit.
Qed.

Lemma emits_inherited stk scope var l :
  (∀ id, id ∈ l → J id ∧ C (ident_node id)) → (∀ x, scope = Some x → balanced x) → balanced var →
  emits stk (for_each l (λ id,
    translate_node_scope_indexing rec (ident_node id) scope;;
    push ("=" +:+ var +:+ ".then(nixV=>nixV");;
    translate_node_ident_indexing id;;
    push ");")) stk.
Proof. intros Hl Hs Hv. apply emits_for_each. intros id [??]%Hl. emit. Qed.

Lemma emits_inherit stk sctx i scope tmp :
  inherit_ok C J i → (∀ x, scope = Some x → balanced x) → (∀ x, tmp = Some x → balanced x) →
  emits stk (translate_node_inherit rec sctx i scope tmp) stk.
Proof.
  intros Hi Hs Ht. unfold translate_node_inherit.
  assert (∀ id, id ∈ inh_idents i → J id ∧ C (ident_node id)) as Hid
    by (intros; by eapply inherit_ok_ident).
  destruct (inh_from i) as [inhf|] eqn:Hf.
  - assert (∀ stk s d, emits stk (rtv rec s (node_text_range (inhf_node inhf)) (inhf_inner inhf) d) stk)
      as Hr by (intros; apply emits_rtv; intros; by eapply inherit_ok_inner).
    assert (balanced "nixInhR") by done.
    destruct tmp as [t|];
      [assert (balanced t) by auto; change (bool_decide (Some t = None)) with false
      |change (bool_decide (@None string = None)) with true]; cbv iota;
      (destruct (inh_idents i) as [|id [|id2 ids]] eqn:Hids; [|destruct (Hid id) as [??]; [by left|]|]);
      emits_with ltac:(first [apply Hr | eapply emits_inherited; [eassumption|done|done]]); auto.
  - apply emits_for_each. intros id [??]%Hid. emit.
Qed.

Lemma emits_let_inherits stk sctx h scope :
  holder_ok C J h → (∀ x, scope = Some x → balanced x) →
  emits stk (translate_let_inherits rec sctx h scope) stk.
Proof.
  intros Hh Hs. unfold translate_let_inherits, enumerate. apply emits_for_each.
  intros [n i] Hi%elem_of_zip_r. apply emits_inherit; [by eapply holder_ok_inherit|done|].
  intros x [= <-]. apply balanced_app; [done|apply balanced_digits].
Qed.

Lemma emits_let_object stk body_sctx sctx h :
  holder_ok C J h → emits stk (translate_let_object rec body_sctx sctx h) stk.
Proof.
  intros Hh. unfold translate_let_object. apply emits_lazyness. intros _ stk'.
  eapply emits_bind; [emit|intros _]. eapply emits_bind; [|intros fi; eapply emits_bind; [|intros _]].
  - apply emits_for_sep; [done|]. intros i Hi.
    assert (kv_ok C i) as Hok by (by eapply holder_ok_kv). unfold kv_ok, kv_children in Hok.
    destruct (kv_key i) as [[ks]|]; simpl in *; [|apply emits_bind_panic].
    destruct ks as [|k ks]; simpl; [apply emits_bind_panic|].
    assert (C k) by (apply Hok; set_solver). emit. apply rec_emits, Hok. set_solver.
  - apply emits_for_sep; [done|]. intros [id from] (inh & Hi & Hl & ->)%inherits_pair.
    assert (inherit_ok C J inh) as Hok by (by eapply holder_ok_inherit).
    edestruct (inherit_ok_ident C J) as [??]; [done..|].
    emits_with ltac:(apply emits_rtv; intros; by eapply inherit_ok_inner).
  - emit.
Qed.

Lemma emits_let_return stk body scope :
  (∀ b, body = LbNix b → C b) → balanced scope → emits stk (translate_let_return rec body scope) stk.
Proof. intros Hb Hs. unfold translate_let_return. emit. Qed.

Lemma emits_let_variables stk body_sctx sctx h body scope :
  holder_ok C J h → (∀ b, body = LbNix b → C b) → balanced scope →
  emits stk (translate_let_variables rec body_sctx sctx h body scope) stk.
Proof.
  intros Hh Hb Hs. unfold translate_let_variables. apply emits_lazyness. intros _ stk'.
  emits_with ltac:(first [by apply emits_let_inherits | by apply emits_let_return
    | apply emits_kv; [by eapply holder_ok_kv|done]]).
  destruct (getkeys_ident C J cast_J h t s) as (id & Hid & -> & ->); [done..|].
  by apply emits_ident_raw.
Qed.

Lemma emits_let_scope stk body_sctx sctx h body scope :
  holder_ok C J h → (∀ b, body = LbNix b → C b) → balanced scope →
  emits stk (translate_let_scope rec body_sctx sctx h body scope) stk.
Proof.
  intros Hh Hb Hs. unfold translate_let_scope. apply emits_lazyness. intros _ stk'.
  assert (∀ x, Some scope = Some x → balanced x) as Hs' by (by intros x [= <-]).
  emits_with ltac:(first [by apply emits_let_inherits | by apply emits_let_return
    | apply emits_kv; [by eapply holder_ok_kv|done]]).
Qed.

Lemma emits_let stk body_sctx lz h body scope :
  holder_ok C J h → (∀ b, body = LbNix b → C b) → balanced scope →
  emits stk (translate_let rec body_sctx lz h body scope) stk.
Proof.
  intros Hh Hb Hs. unfold translate_let.
  assert (∀ m : M unit, emits stk m stk → emits stk match entries h, inherits h with
    | [], [] => match body with
                | LbNix b => rec body_sctx b
                | ExtractScope => push "Object.create(null)"
                end
    | _, _ => m end stk) as Hempty.
  { intros m Hm. repeat case_match; emit. }
  apply Hempty. repeat case_match;
    auto using emits_let_object, emits_let_variables, emits_let_scope.
Qed.

(** ** The kinds of nodes *)

Local Abbreviation below pt := (∀ m, m ∈ pt_children pt → C m).
Local Ltac arm_go :=
  simpl in *;
  emits_with ltac:(first [apply emits_rtv; intros; set_solver | apply rec_emits; set_solver]).
Local Ltac arm f := unfold f; arm_go.

Lemma emits_apply stk sctx rng app :
  below (PtApply app) → emits stk (translate_apply rec sctx rng app) stk.
Proof. intros. arm @translate_apply. Qed.

Lemma emits_assert stk sctx rng art :
  below (PtAssert art) → emits stk (translate_assert rec sctx rng art) stk.
Proof.
  intros Hc. unfold translate_assert. simpl in Hc. apply emits_lazyness. intros _ stk'.
  destruct (art_condition art); arm_go.
Qed.

(** The [Debug] text of an operator is a name. *)
Definition op_lexical (pt : ParsedType NixNode) : Prop :=
  match pt with
  | PtBinOp bo =>
      match bo_operator bo with
      | Some (OtherOp dbg) => str_forall is_alnum dbg = true
      | _ => True
      end
  | _ => True
  end.

Lemma emits_binop stk sctx rng bo :
  below (PtBinOp bo) → op_lexical (PtBinOp bo) →
  emits stk (translate_binop rec sctx rng bo) stk.
Proof.
  intros Hc Ho. simpl in Hc, Ho. unfold translate_binop.
  destruct (bo_operator bo) as [[|dbg]|]; [|assert (balanced dbg) by (by apply balanced_code, code_byte_alnum)|];
    simpl; [destruct (bo_rhs bo) as [r|]; [assert (C r) by set_solver|]|..]; arm_go.
Qed.

Lemma emits_ifelse stk sctx rng ie :
  below (PtIfElse ie) → emits stk (translate_ifelse rec sctx rng ie) stk.
Proof. intros. arm @translate_ifelse. Qed.

Lemma emits_list stk sctx l : below (PtList l) → emits stk (translate_list rec sctx l) stk.
Proof. intros. arm @translate_list. Qed.

Lemma emits_or_default stk sctx rng od :
  below (PtOrDefault od) → emits stk (translate_or_default rec sctx rng od) stk.
Proof. intros. arm @translate_or_default. Qed.

Lemma emits_select stk sctx rng sel :
  below (PtSelect sel) → emits stk (translate_select rec sctx rng sel) stk.
Proof.
  intros Hc. simpl in Hc. destruct sel as [n [set|] [idx|]]; simpl in *; [|arm @translate_select..].
  assert (C set ∧ C idx) as [??] by (split; set_solver).
  unfold translate_select; simpl. apply emits_bind_ret, emits_bind_ret.
  eapply emits_bind; [emit|]. intros [|]; emit.
Qed.

Lemma emits_str stk sctx s : below (PtStr s) → emits stk (translate_str rec sctx s) stk.
Proof.
  intros Hc. unfold translate_str. simpl in Hc.
  assert (∀ stk sxs, (∀ p, p ∈ sxs → p ∈ s_parts s) → emits stk (for_sep "+" true sxs (λ i,
    match i with
    | SpLiteral lit => push (escape_str lit)
    | SpAst ast =>
        push "(";;
        rtv rec (mksctx Want Nothing) (node_text_range (si_node ast)) (si_inner ast)
          "inner for str-interpolate";;
        push ")"
    end)) stk) as Hparts.
  { intros stk' sxs Hsub. apply emits_for_sep; [done|]. intros [lit|ast] Hp%Hsub; [emit|].
    emits_with ltac:(apply emits_rtv). intros m Hm. apply Hc, list_elem_of_join.
    exists (str_part_children (SpAst ast)). split; [done|]. by apply list_elem_of_fmap_2. }
  destruct (s_parts s) as [|p ps] eqn:Hs; [emit|].
  destruct p as [lit|ast], ps as [|p2 ps]; try (emits_with ltac:(apply Hparts); fail);
    emits_with ltac:(apply Hparts); intros x Hx; apply list_elem_of_In, filter_In in Hx as [Hx _];
    by apply list_elem_of_In.
Qed.

Lemma emits_unary_op stk rng uo :
  below (PtUnaryOp uo) → emits stk (translate_unary_op rec rng uo) stk.
Proof. intros. unfold translate_unary_op. destruct (uo_operator uo); arm_go. Qed.

Lemma emits_value_node stk rng v : emits stk (translate_value rng v) stk.
Proof.
  unfold translate_value. destruct (v_to_value v) as [[f|z|x|a p]|e]; [..|emit].
  - destruct (JsNumber_from_f64 f) as [n|] eqn:E; simpl; [|apply emits_bind_panic].
    assert (balanced (JsVal_to_string (JsNum n))) by (by eapply balanced_code, JsVal_f64_code).
    emit.
  - assert (balanced (JsVal_to_string (JsNum (JsNumber_from_i64 z))))
      by apply balanced_code, JsVal_i64_code. emit.
  - assert (balanced (JsVal_to_string (JsString x))) by apply balanced_escape_str. emit.
  - emit.
Qed.

Lemma emits_with_node stk rng w : below (PtWith w) → emits stk (translate_with rec rng w) stk.
Proof.
  intros. unfold translate_with, with_stack_inc, with_stack_dec. simpl in *.
  emits_with ltac:(first [apply emits_with | apply emits_rtv; intros; set_solver]).
Qed.

(** ** Lambdas *)

Lemma emits_lambda_ident stk rng lam n y :
  below (PtLambda lam) → J y →
  emits ("("%char :: stk) (translate_lambda_ident rec rng lam n y) ("("%char :: stk).
Proof. intros. unfold translate_lambda_ident. arm_go. Qed.

Lemma register_entries_value stk dbg l :
  (∀ e, e ∈ l → pattern_entry_ok C J e) →
  emits_value (Forall (entry_ok C J)) stk (lambda_register_entries dbg l) stk.
Proof.
  unfold emits_value. induction l as [|e l IH]; intros Hl; simpl; [by apply triple_ret|].
  destruct (Hl e) as [Hn Hd]; [by left|].
  destruct (pe_name e) as [z|]; [|by apply triple_throw].
  eapply triple_bind; [by apply emits_vars_push|intros ?].
  eapply triple_bind; [apply IH; intros; apply Hl; by right|].
  intros r. apply triple_ret. intros c [Hr Hc]. split; [|done].
  constructor; [|done]. split; [apply Hn; by left|done].
Qed.

Lemma emits_bind_entry stk argname e :
  entry_ok C J e → balanced argname → emits stk (lambda_bind_entry rec argname e) stk.
Proof.
  intros [Hz Hd] Ha. destruct e as [z dfl]. simpl in *. unfold lambda_bind_entry.
  destruct dfl as [d|]; [assert (C d) by (apply Hd; by left)|]; emit.
Qed.

Lemma pattern_entries_ok y :
  (∀ id, id ∈ pattern_idents y → J id) → (∀ m, m ∈ pattern_children y → C m) →
  ∀ e, e ∈ pat_entries y → pattern_entry_ok C J e.
Proof.
  intros Hids Hch e He. split; intros x Hx.
  - apply Hids, elem_of_app. right. apply list_elem_of_join. eexists. split; [exact Hx|].
    by apply (list_elem_of_fmap_2 (λ e, option_list (pe_name e))).
  - apply Hch, list_elem_of_join. eexists. split; [exact Hx|].
    by apply (list_elem_of_fmap_2 (λ e, option_list (pe_default e))).
Qed.

Lemma emits_lambda_pattern stk rng lam n y :
  below (PtLambda lam) → (∀ id, id ∈ pattern_idents y → J id) →
  (∀ m, m ∈ pattern_children y → C m) →
  emits ("("%char :: stk) (translate_lambda_pattern rec rng lam n y) ("("%char :: stk).
Proof.
  intros Hc Hids Hch. simpl in Hc. unfold translate_lambda_pattern.
  eapply (emits_bind_value balanced _ ("("%char :: stk)).
  { destruct (pat_at y) as [z|] eqn:Hat.
    - eapply triple_bind; [by apply emits_vars_push|intros ?]. apply ident_value, Hids.
      unfold pattern_idents. rewrite Hat. by left.
    - eapply triple_bind; [apply emits_push; reflexivity|intros ?]. by apply triple_ret. }
  intros argname Harg. eapply emits_bind_value; [by apply register_entries_value, pattern_entries_ok|].
  intros ents Hents. rewrite Forall_forall in Hents.
  emits_with ltac:(first [apply emits_bind_entry; [by apply Hents|done]
    | apply emits_rtv; intros; set_solver]).
Qed.

Lemma emits_lambda stk rng lam :
  below (PtLambda lam) →
  (∀ y, lam_arg lam ≫= Ident_cast = Some y → J y) →
  (∀ y, lam_arg lam ≫= Pattern_cast = Some y →
     (∀ id, id ∈ pattern_idents y → J id) ∧ (∀ m, m ∈ pattern_children y → C m)) →
  emits stk (translate_lambda rec rng lam) stk.
Proof.
  intros Hc Hi Hp. unfold translate_lambda.
  destruct (lam_arg lam) as [argx|]; simpl in *; [|emit].
  apply emits_bind_ret. eapply emits_bind; [emit|intros n].
  eapply emits_bind; [emit|intros ?]. apply (emits_bind _ ("("%char :: stk)); [|intros ?; by apply emits_push].
  destruct (Ident_cast argx) as [y|]; [by apply emits_lambda_ident; auto|].
  destruct (Pattern_cast argx) as [y|]; [|apply emits_throw].
  destruct (Hp y) as [??]; [done|]. by apply emits_lambda_pattern.
Qed.

(** ** The dispatch *)

Lemma emits_node_body stk sctx n :
  (∀ m, m ∈ node_children n → C m) → (∀ id, id ∈ node_idents n → J id) →
  (∀ pt, ParsedType_try_from n = inl pt → op_lexical pt) →
  emits stk (translate_node_body rec sctx n) stk.
Proof.
  intros Hc Hi Ho. unfold translate_node_body. destruct (node_is_trivia n); [emit|].
  eapply emits_bind; [emit|intros ?].
  unfold node_children in Hc. unfold node_idents in Hi.
  destruct (ParsedType_try_from n) as [pt|kind]; [|emit].
  specialize (Ho pt eq_refl).
  assert (∀ id, id ∈ match pt with PtLambda _ => [] | _ => pt_idents pt end → J id) as Hids.
  { intros id Hid. apply Hi, elem_of_app. right. by destruct pt; try by apply elem_of_nil in Hid. }
  destruct pt; simpl in Hids, Hc; try apply emits_panic.
  - by apply emits_apply.
  - by apply emits_assert.
  - apply emits_let; [done..|]. by destruct (ars_recursive ars).
  - by apply emits_binop.
  - by apply emits_rtv.
  - emit. apply emits_ident, Hids. by left.
  - by apply emits_ifelse.
  - apply emits_inherit; [done| |done]. by intros x [= <-].
  - by apply emits_rtv.
  - apply emits_lambda.
    + intros m Hm. apply Hc, elem_of_app. by left.
    + intros y Hy. apply Hi. rewrite Hy. apply elem_of_app; right. by left.
    + intros y Hy. rewrite Hy in *.
      split; intros; [apply Hi; do 2 (apply elem_of_app; right)|apply Hc, elem_of_app; right]; done.
  - unfold translate_legacy_let.
    destruct (List.find entry_is_body _ ≫= kv_value) as [body|] eqn:Hb; [|emit].
    apply emits_bind_ret, emits_let; [done| |done]. intros b [= <-]. apply Hc.
    apply bind_Some in Hb as (i & Hf & Hv). apply List.find_some in Hf as [Hf _].
    apply elem_of_app; left. apply list_elem_of_join. exists (kv_children i). split.
    + apply elem_of_app; right. rewrite Hv. by left.
    + apply list_elem_of_fmap_2. by apply list_elem_of_In.
  - unfold translate_let_in. destruct (li_body l) as [body|] eqn:Hb; [|emit].
    apply emits_bind_ret, emits_let; [split; [|done]| |done].
    + intros m Hm. apply Hc, elem_of_app. by left.
    + intros b [= <-]. apply Hc, elem_of_app. right. by left.
  - by apply emits_list.
  - by apply emits_or_default.
  - by apply emits_rtv.
  - by apply emits_rtv.
  - by apply emits_select.
  - by apply emits_str.
  - by apply emits_rtv.
  - by apply emits_unary_op.
  - by apply emits_value_node.
  - by apply emits_with_node.
Qed.
End methods.

(** * The theorem *)

Section brackets.
Context `{Rnix, Linetrack, Vlq, SerdeJson, StdSort, !StdSortLaws, !SerdeLaws}.

(** The identifiers of the tree are Nix identifiers other than [__foldl'], and
    operators are called by a name. *)
Definition node_lexical (n : NixNode) : Prop :=
  (∀ id, id ∈ node_idents n → ident_lexical id)
  ∧ (∀ pt, ParsedType_try_from n = inl pt → op_lexical pt).

Lemma translate_node_emits fuel sctx n stk :
  everywhere node_lexical n → emits stk (translate_node fuel sctx n) stk.
Proof.
  revert sctx n stk. induction fuel as [|fuel IH]; intros sctx n stk Hn; [by intros c|].
  destruct Hn as [[Hi Ho] Hch].
  apply (emits_node_body (translate_node fuel) (λ m, everywhere node_lexical m)); [auto| |done..].
  intros m id [[Hm _] _] Hid. apply Hm. unfold node_idents. rewrite Hid. by left.
Qed.

Lemma translate_lexes fuel s inp_name js map :
  everywhere node_lexical (snd (rnix_parse s)) →
  translate fuel s inp_name = Ok (js, map) → lexes [] js [].
Proof.
  intros Hn. unfold translate. destruct (rnix_parse s) as [errs root]; simpl in *.
  destruct errs; [|done].
  pose proof (translate_node_emits fuel (mksctx Nothing Want) root [] Hn (initial_context s)) as Hl.
  destruct (translate_node _ _ _ _) as [[u|e|p|] c]; [|done..].
  destruct Hl as [Hl _]; [split; [reflexivity|apply dfl_vars_lexical]|].
  destruct (is_utf8 _); [|done]. intros [= <- <-]. by eapply lexes_app.
Qed.

Lemma translate_single_line fuel s inp_name js map :
  everywhere node_lexical (snd (rnix_parse s)) →
  translate fuel s inp_name = Ok (js, map) → str_forall (λ a, negb (Ascii.eqb a newline)) js = true.
Proof. intros Hn Ht. eapply lex_single_line, translate_lexes; [exact Hn|exact Ht]. Qed.

(** C7. The generated program is lexically well formed, unless the Nix program has
    the identifier [__foldl'] ([node_lexical] excludes it; its code is not
    JavaScript, see Findings.v): every bracket is closed by its partner in the
    right order, every string literal is terminated, and there is no line break,
    comment or other quote outside of literals; so it is a single line and can be
    embedded. *)
Theorem translate_well_lexed fuel s inp_name js map :
  everywhere node_lexical (snd (rnix_parse s)) →
  translate fuel s inp_name = Ok (js, map) →
  well_lexed js = true ∧ str_forall (λ a, negb (Ascii.eqb a newline)) js = true.
Proof.
  intros Hn Ht. split; [|by eapply translate_single_line].
  unfold well_lexed. by rewrite (translate_lexes _ _ _ _ _ Hn Ht).
Qed.
End brackets.
