(* ===== verification/Wasm.v ===== *)
(** src/wasm/lib.rs: the two functions exported to JavaScript.  [wasm_bindgen]
    only converts the values. *)
From S2P Require Import Prelude Text JsLexer Externs Consts Context Helpers Idents Let Node Translate Tree Lazyness Keeps Traversal Brackets.
From Stdlib Require Import Ascii.
Local Open Scope nix2js_scope.

Section wasm.
Context `{Rnix, Linetrack, Vlq, SerdeJson, StdSort, Base64}.

Definition newline_sep : string := String newline EmptyString.

(** [r.map_err(|errors| errors.join("\n"))] *)
Definition map_err {E F A} (f : E → F) (o : outcome E A) : outcome F A :=
  match o with
  | Ok a => Ok a
  | Err e => Err (f e)
  | Panic p => Panic p
  | OutOfFuel => OutOfFuel
  end.

(** [translate]: a pair of strings, or one string that is thrown. *)
Definition translate_wasm (fuel : nat) (s inp_name : string) : outcome string (string * string) :=
  map_err (str_join newline_sep) (translate fuel s inp_name).

Definition inline_url : string :=
  newline_sep +:+ "//# sourceMappingURL=data:application/json;charset=utf-8;base64,".

Definition translate_inline_srcmap (fuel : nat) (s inp_name : string) : outcome string string :=
  match map_err (str_join newline_sep) (translate fuel s inp_name) with
  | Ok (js, map) => Ok (js +:+ inline_url +:+ base64_encode map)
  | Err x => Err x
  | Panic p => Panic p
  | OutOfFuel => OutOfFuel
  end.

(** * Reading the inline source map back *)

(** The text before the first line break and the text after it. *)
Fixpoint split_line (s : string) : string * option string :=
  match s with
  | EmptyString => (EmptyString, None)
  | String a s' =>
      if Ascii.eqb a newline then (EmptyString, Some s')
      else let '(l, r) := split_line s' in (String a l, r)
  end.

Definition read_inline `{!Base64Laws} (t : string) : option (string * string) :=
  let '(js, rest) := split_line t in
  match (rest ≫= strip_prefix (str_drop 1 inline_url)) ≫= base64_decode with
  | Some map => Some (js, map)
  | None => None
  end.

Lemma split_line_app l r :
  str_forall (λ a, negb (Ascii.eqb a newline)) l = true →
  split_line (l +:+ String newline r) = (l, Some r).
Proof.
  induction l as [|a l IH]; [done|]. rewrite string_app_cons. cbn [str_forall split_line].
  rewrite andb_true_iff, negb_true_iff. intros [-> Hl]. by rewrite IH.
Qed.

Lemma strip_prefix_app p s : strip_prefix p (p +:+ s) = Some s.
Proof.
  induction p as [|a p IH]; [by destruct s|]. rewrite string_app_cons. cbn [strip_prefix].
  by rewrite Ascii.eqb_refl.
Qed.

(** C27. The code with the inline source map is the code and the map of
    [translate]: the code is its first line, and the map is what the data URL of
    its second line decodes to; the two functions fail alike.  As in C7, programs
    with the identifier [__foldl'] are left out. *)
Theorem translate_inline_roundtrip `{!StdSortLaws, !SerdeLaws, !Base64Laws} fuel s inp_name :
  everywhere node_lexical (snd (rnix_parse s)) →
  match translate_wasm fuel s inp_name with
  | Ok (js, map) =>
      ∃ t, translate_inline_srcmap fuel s inp_name = Ok t ∧ read_inline t = Some (js, map)
  | Err e => translate_inline_srcmap fuel s inp_name = Err e
  | Panic p => translate_inline_srcmap fuel s inp_name = Panic p
  | OutOfFuel => translate_inline_srcmap fuel s inp_name = OutOfFuel
  end.
Proof.
  intros Hn. unfold translate_inline_srcmap, translate_wasm.
  destruct (translate fuel s inp_name) as [[js map]|e|p|] eqn:Ht; simpl; [|done..].
  eexists. split; [done|]. unfold read_inline.
  change (inline_url +:+ base64_encode map) with
    (String newline (str_drop 1 inline_url +:+ base64_encode map)).
  rewrite split_line_app by (by eapply translate_single_line).
  cbn [mbind option_bind]. by rewrite strip_prefix_app; simpl; rewrite base64_decode_encode.
Qed.
End wasm.
