(* ===== verification/Names.v ===== *)
(** Names: which binding an identifier resolves to, what is printed for it, and
    when two names share a JavaScript variable. *)
From S2P Require Import Prelude Text JsLexer Externs Consts Context Helpers Idents Let Lazyness Keeps Brackets.
From Stdlib Require Import Ascii Sorted.
Local Open Scope nix2js_scope.

(** * Resolution *)

Section resolution.
Context `{Rnix, Linetrack}.

(** The innermost binding of a name: the last one that was pushed. *)
Definition innermost (vs : list (string * IdentCateg)) (vn : string) (k : IdentCateg) : Prop :=
  ∃ outer inner, vs = outer ++ (vn, k) :: inner ∧ vn ∉ inner.*1.

Lemma vars_find_snoc vs x k vn :
  vars_find (vs ++ [(x, k)]) vn = if bool_decide (vn = x) then Some k else vars_find vs vn.
Proof. unfold vars_find. rewrite rev_app_distr. simpl. by case_bool_decide. Qed.

Lemma vars_find_in vs vn k : vars_find vs vn = Some k → (vn, k) ∈ vs.
Proof.
  unfold vars_find. destruct (List.find _ _) as [[x j]|] eqn:Hf; [|done]. intros [= ->].
  apply find_some in Hf as [Hin Hx]. apply bool_decide_eq_true in Hx as ->.
  by apply list_elem_of_In, in_rev.
Qed.

(** Names that were bound last, with one category. *)
Lemma vars_find_bound vs xs k vn : vn ∈ xs → vars_find (vs ++ ((λ x, (x, k)) <$> xs)) vn = Some k.
Proof.
  induction xs as [|x xs IH] using rev_ind; [by intros ?%elem_of_nil|].
  rewrite fmap_app, app_assoc. cbn [fmap list_fmap]. rewrite vars_find_snoc. intros Hx.
  case_bool_decide; [done|]. apply IH. apply elem_of_app in Hx as [?|Hx]; [done|].
  by apply list_elem_of_singleton in Hx.
Qed.

Lemma vars_find_Some vs vn k : vars_find vs vn = Some k → innermost vs vn k.
Proof.
  induction vs as [|[x k'] vs IH] using rev_ind; [done|]. rewrite vars_find_snoc.
  case_bool_decide as Hx.
  - intros [= ->]. subst x. exists vs, []. split; [done|]. by apply not_elem_of_nil.
  - intros (o & i & -> & Hi)%IH. exists o, (i ++ [(x, k')]). split; [by rewrite <- app_assoc|].
    rewrite fmap_app. simpl. rewrite elem_of_app, list_elem_of_singleton. by intros [?|?].
Qed.

Lemma vars_find_None vs vn : vars_find vs vn = None → vn ∉ vs.*1.
Proof.
  induction vs as [|[x k] vs IH] using rev_ind; [intros _; by apply not_elem_of_nil|].
  rewrite vars_find_snoc. case_bool_decide; [done|]. intros Hn%IH.
  rewrite fmap_app. simpl. rewrite elem_of_app, list_elem_of_singleton. by intros [?|?].
Qed.

(** C16. An identifier resolves to its innermost binding; a name that is not
    bound resolves to the [with] scope when there is one, and is otherwise an
    error that names the line and the identifier. *)
Theorem resolve_ident_innermost c (id : Ident NixNode) :
  let vn := ident_as_str id in
  match resolve_ident_in c id with
  | inl k => innermost (vars c) vn k ∨ ((vn ∉ (fst <$> vars c)) ∧ 0 < with_stack c ∧ k = WithScopeVar)
  | inr e =>
      (vn ∉ (fst <$> vars c)) ∧ with_stack c = 0
      ∧ e = ("line " +:+ fmt_usize (txtrng_to_lineno (inp c) (node_text_range (ident_node id)))
             +:+ ": unknown identifier " +:+ vn)
  end.
Proof.
  unfold resolve_ident_in. destruct (vars_find (vars c) (ident_as_str id)) as [k|] eqn:E.
  - left. by apply vars_find_Some.
  - apply vars_find_None in E. destruct (Nat.ltb_spec 0 (with_stack c)).
    + by right.
    + split_and!; [done|lia|done].
Qed.
End resolution.

(** * Element access *)

(** The byte-level reading of [attrelem_raw_safe]. *)
Definition ascii_ident (s : string) : bool :=
  match s with
  | EmptyString => false
  | String a _ => is_alpha a && str_forall is_alnum s
  end.

Lemma alnum_not_cont a : is_alnum a = true → is_cont a = false.
Proof. destruct a as [[] [] [] [] [] [] [] []]; vm_compute; done. Qed.

Lemma chars_of_alnum s :
  str_forall is_alnum s = true → forallb is_ascii_alphanumeric (chars s) = true.
Proof.
  unfold chars, char_indices. generalize 0. induction s as [|a s IH]; intros i; [done|].
  cbn [str_forall]. rewrite andb_true_iff. intros [Ha Hs]. specialize (IH (S i) Hs).
  destruct s as [|b s]; [simpl; by rewrite Ha|].
  cbn [str_forall] in Hs. apply andb_true_iff in Hs as [Hb _].
  rewrite char_indices_from_step, (alnum_not_cont b Hb), fmap_cons. cbn [forallb snd]. apply andb_true_iff. by split.
Qed.

(** C17. [attrelem_raw_safe], which looks at the characters of the name, accepts
    exactly the names that are ASCII letters and digits starting with a letter:
    every name printed after a dot is a JavaScript identifier. *)
Theorem attrelem_raw_safe_spec s : attrelem_raw_safe s = ascii_ident s.
Proof.
  apply eq_true_iff_eq. split; intros Hs.
  - pose proof (raw_safe_alnum s Hs) as Ha. unfold attrelem_raw_safe in Hs.
    destruct s as [|a s]; [done|]. unfold ascii_ident. rewrite Ha, andb_true_r.
    unfold chars, char_indices in Hs. destruct (char_indices_from_cons 0 a s) as (t & r & E).
    rewrite E, fmap_cons in Hs. apply andb_true_iff in Hs as [Hs _]. simpl in Hs.
    by destruct t.
  - destruct s as [|a s]; [done|]. unfold ascii_ident in Hs.
    apply andb_true_iff in Hs as [Ha Hs]. pose proof (chars_of_alnum _ Hs) as Hc.
    unfold attrelem_raw_safe, chars, char_indices in *.
    destruct (char_indices_from_cons 0 a s) as (t & r & E). rewrite E, fmap_cons in *.
    cbn [snd] in *. rewrite forallb_forall in Hc. apply andb_true_iff. split.
    + specialize (Hc (String a t) ltac:(by left)). simpl in *. by destruct t.
    + apply negb_true_iff. destruct (existsb _ _) eqn:Ex; [|done].
      apply existsb_exists in Ex as (x & Hin & Hx). by rewrite (Hc x Hin) in Hx.
Qed.

(** * The printed text *)

Section printed.
Context `{Rnix, Linetrack, Vlq, SerdeJson}.

(** The wrapper of an identifier: only variables can be promises. *)
Definition ident_wrapper (sctx : option StackCtx) (categ : IdentCateg) : string * string :=
  match sctx, categ with
  | _, (Literal _ | AlBuiltin _) | None, _ => (EmptyString, EmptyString)
  | Some sctx, _ =>
      if bool_decide (await_st sctx = Want) then ("(await ", ")")
      else (EmptyString, EmptyString)
  end.

Lemma lazyness_flush_back {R} sctx (inner : StackCtx → M R) c :
  lazyness_incoming sctx Flush Flush Back inner c =
  (let aw := bool_decide (await_st sctx = Want) in
   (if aw then push "(await " else ret tt);;
   res ← attempt (inner (mksctx (remaining (await_st sctx) Flush) (remaining (lazy_st sctx) Flush)));
   (if aw then push ")" else ret tt);;
   of_result res) c.
Proof. by destruct sctx as [[] []]. Qed.

Definition appends {A} (m : M A) (t : string) : Prop :=
  ∀ c, match m c with (Ok _, c') => acc c' = acc c +:+ t | _ => True end.

(** One shape for all branches. *)
Lemma ident_raw_shape sctx rng vn categ c :
  translate_node_ident_raw sctx rng vn categ c =
  (startpos ← acc_len;
   r ← match categ with
       | Literal _ | AlBuiltin _ => snapshot_ident rng (raw_push vn categ);; ret None
       | _ => handle_lazyness sctx (snapshot_ident rng (raw_push vn categ))
       end;
   match r with Some x => ret x | None => acc_from startpos end) c.
Proof.
  unfold translate_node_ident_raw, raw_push. by destruct categ; try case_bool_decide.
Qed.

Lemma handle_lazyness_text sctx m t c r c' :
  appends m t → handle_lazyness (Some sctx) m c = (Ok r, c') →
  r = Some t ∧ acc c' = acc c +:+ (if bool_decide (await_st sctx = Want) then "(await " else EmptyString)
    +:+ t +:+ (if bool_decide (await_st sctx = Want) then ")" else EmptyString).
Proof.
  intros Hm. unfold handle_lazyness. rewrite lazyness_flush_back. cbv zeta.
  set (aw := bool_decide (await_st sctx = Want)).
  unfold bind, attempt, acc_len, acc_from, gets, push, modify, of_result, ret.
  set (c1 := if aw then set_acc (λ a, a +:+ "(await ") c else c).
  assert (acc c1 = acc c +:+ (if aw then "(await " else EmptyString)) as Hc1
    by (subst c1; destruct aw; simpl; by rewrite ?string_app_nil_r).
  specialize (Hm c1). destruct aw; subst c1; simpl in *;
    destruct (m _) as [[u|e|p|] d]; simpl; intros [= <- <-]; simpl;
    rewrite Hm, str_drop_app, ?string_app_nil_r, ?string_app_assoc; done.
Qed.

(** C18. Printing an identifier appends exactly the text of its category, inside
    an [(await ..)] when an await is wanted and the identifier is a variable,
    and returns the text without the wrapper. *)
Theorem translate_node_ident_raw_text sctx rng vn categ c r c' :
  translate_node_ident_raw sctx rng vn categ c = (Ok r, c') →
  r = ident_text vn categ
  ∧ acc c' = acc c +:+ (ident_wrapper sctx categ).1 +:+ ident_text vn categ
             +:+ (ident_wrapper sctx categ).2.
Proof.
  assert (appends (snapshot_ident rng (raw_push vn categ)) (ident_text vn categ)) as Ha
    by (intros d; apply snapshot_ident_acc, raw_push_text).
  rewrite ident_raw_shape. set (m := snapshot_ident _ _) in *. set (t := ident_text vn categ) in *.
  unfold bind at 1, acc_len, gets. cbv beta iota.
  assert (∀ k, k = (m;; ret None) → ident_wrapper sctx categ = (EmptyString, EmptyString) →
    (r0 ← k; match r0 with Some x => ret x | None => acc_from (String.length (acc c)) end) c
      = (Ok r, c') →
    r = t ∧ acc c' = acc c +:+ (ident_wrapper sctx categ).1 +:+ t +:+ (ident_wrapper sctx categ).2)
    as Hplain.
  { intros k -> ->. specialize (Ha c). unfold bind, ret, acc_from, gets.
    destruct (m c) as [[u|e|p|] d]; simpl; intros [= <- <-].
    by rewrite Ha, str_drop_app, string_app_nil_r. }
  destruct sctx as [sctx|]; [|by destruct categ; apply Hplain].
  assert (∀ pre post, pre = (if bool_decide (await_st sctx = Want) then "(await " else EmptyString) →
    post = (if bool_decide (await_st sctx = Want) then ")" else EmptyString) →
    (r0 ← handle_lazyness (Some sctx) m; match r0 with Some x => ret x
      | None => acc_from (String.length (acc c)) end) c = (Ok r, c') →
    r = t ∧ acc c' = acc c +:+ pre +:+ t +:+ post) as Hwrapped.
  { intros pre post -> ->. unfold bind.
    destruct (handle_lazyness (Some sctx) m c) as [[u|e|p|] d] eqn:E; simpl; [|done..].
    apply (handle_lazyness_text _ _ t) in E as [-> Hd]; [|done]. intros [= <- <-]. by split. }
  destruct categ; [by apply Hplain..| | | | ]; apply Hwrapped; simpl; by case_bool_decide.
Qed.
End printed.

(** * Mangling *)

(** Reading a mangled name back. *)
Fixpoint unmangle (s : string) : string :=
  match s with
  | EmptyString => EmptyString
  | String a s1 =>
      match s1 with
      | String b s2 =>
          if Ascii.eqb a "_" && Ascii.eqb b "$" then
            match s2 with
            | String c s3 =>
                if Ascii.eqb c "_" then
                  match s3 with
                  | String d _ =>
                      if Ascii.eqb d "$" then String "'" (unmangle s2) else String "-" (unmangle s3)
                  | EmptyString => String "-" EmptyString
                  end
                else String "'" (unmangle s2)
            | EmptyString => String "'" EmptyString
            end
          else String a (unmangle s1)
      | EmptyString => String a EmptyString
      end
  end.

(** Names that can be read back: no dollar sign, which a Nix identifier cannot
    hold, and no quote followed by an underscore. *)
Fixpoint mangle_safe (s : string) : bool :=
  match s with
  | EmptyString => true
  | String a s' =>
      negb (Ascii.eqb a "$")
      && negb (Ascii.eqb a "'" && match s' with String b _ => Ascii.eqb b "_" | _ => false end)
      && mangle_safe s'
  end.

Definition mangle_byte (a : ascii) : string :=
  if Ascii.eqb a "-" then "_$_" else if Ascii.eqb a "'" then "_$" else String a EmptyString.

Lemma mangle_cons a s : mangle (String a s) = mangle_byte a +:+ mangle s.
Proof.
  unfold mangle, mangle_byte. cbn [str_replace]. destruct (Ascii.eqb a "-"); [done|].
  rewrite string_app_cons. cbn [str_replace]. by destruct (Ascii.eqb a "'").
Qed.

(** The first byte of a mangled name. *)
Lemma mangle_head s :
  mangle_safe s = true →
  match mangle s with
  | String b _ => b ≠ "$"%char
  | EmptyString => s = EmptyString
  end.
Proof.
  destruct s as [|a s]; [done|]. cbn [mangle_safe]. rewrite !andb_true_iff, !negb_true_iff.
  intros [[Ha _] _]. rewrite mangle_cons. unfold mangle_byte.
  destruct (Ascii.eqb_spec a "-"); [done|]. destruct (Ascii.eqb_spec a "'"); [done|].
  rewrite string_app_cons. by apply Ascii.eqb_neq.
Qed.

Lemma mangle_quote_next s :
  mangle_safe (String "'" s) = true →
  match mangle s with
  | String b (String c _) => b = "_"%char → c = "$"%char
  | String b EmptyString => b ≠ "_"%char
  | EmptyString => True
  end.
Proof.
  destruct s as [|a s]; [done|]. cbn [mangle_safe].
  change (negb (Ascii.eqb "'" "$")) with true. change (Ascii.eqb "'" "'") with true.
  rewrite !andb_true_l, !andb_true_iff, negb_true_iff. intros [Hu _].
  apply Ascii.eqb_neq in Hu. rewrite mangle_cons. unfold mangle_byte.
  destruct (Ascii.eqb_spec a "-"); [done|]. destruct (Ascii.eqb_spec a "'"); [done|].
  rewrite string_app_cons. by destruct (EmptyString +:+ mangle s).
Qed.

Lemma unmangle_mangle s : mangle_safe s = true → unmangle (mangle s) = s.
Proof.
  induction s as [|a s IH]; [done|]. intros Hs. rewrite mangle_cons.
  pose proof Hs as Hs'. cbn [mangle_safe] in Hs'. rewrite !andb_true_iff in Hs'.
  destruct Hs' as [[Ha _] Hs']. specialize (IH Hs'). pose proof (mangle_head s Hs') as Hh.
  unfold mangle_byte. destruct (Ascii.eqb_spec a "-") as [->|Hd].
  - change ("_$_" +:+ mangle s) with (String "_" (String "$" (String "_" (mangle s)))).
    cbn [unmangle]. simpl. destruct (mangle s) as [|b m]; [by rewrite Hh|].
    apply Ascii.eqb_neq in Hh. by rewrite Hh, IH.
  - destruct (Ascii.eqb_spec a "'") as [->|Hq].
    + apply mangle_quote_next in Hs.
      change ("_$" +:+ mangle s) with (String "_" (String "$" (mangle s))).
      cbn [unmangle]. simpl. destruct (mangle s) as [|b m]; [by rewrite Hh|].
      destruct (Ascii.eqb_spec b "_") as [->|]; [|f_equal; exact IH].
      destruct m as [|c m]; [done|]. rewrite (Hs eq_refl) in *. exact (f_equal (String "'") IH).
    + rewrite string_app_cons. change (EmptyString +:+ mangle s) with (mangle s).
      destruct (mangle s) as [|b m]; [by rewrite Hh|]. apply Ascii.eqb_neq in Hh.
      cbn [unmangle]. rewrite Hh, andb_false_r. f_equal. exact IH.
Qed.

(** C19. Two different identifiers share a JavaScript variable only if one of
    them has a quote followed by an underscore: on the others the two
    replacements of [translate_node_ident_raw] can be undone. *)
Theorem mangle_inj vn vn' :
  mangle_safe vn = true → mangle_safe vn' = true → mangle vn = mangle vn' → vn = vn'.
Proof.
  intros H1 H2 Heq. rewrite <- (unmangle_mangle vn), <- (unmangle_mangle vn') by done. by rewrite Heq.
Qed.

(** The exception is real: [a-b] and [a'_b] are one variable. *)
Lemma mangle_collision : mangle "a-b" = mangle "a'_b".
Proof. done. Qed.

(** * Line numbers *)

(** No line feed is followed by a continuation byte. *)
Fixpoint newline_ok (s : string) : bool :=
  match s with
  | EmptyString => true
  | String a s' =>
      negb (Ascii.eqb newline a && match s' with String b _ => is_cont b | _ => false end)
      && newline_ok s'
  end.

Lemma cont_not_newline a : is_cont a = true → Ascii.eqb newline a = false.
Proof. destruct a as [[] [] [] [] [] [] [] []]; vm_compute; done. Qed.

Lemma range_not_newline lo hi a :
  in_range lo hi a = true → (128 <= lo)%N → Ascii.eqb newline a = false.
Proof.
  intros Ha Hlo. destruct (Ascii.eqb_spec newline a) as [<-|]; [|done].
  unfold in_range in Ha. apply andb_true_iff in Ha as [Ha _]. apply N.leb_le in Ha.
  change (byte_val newline) with 10%N in Ha. lia.
Qed.

Lemma utf8_head s :
  is_utf8 s = true → match s with String b _ => is_cont b | _ => false end = false.
Proof.
  destruct s as [|a s]; [done|]. intros Hs. destruct (is_cont a) eqn:Hc; [|done]. exfalso.
  unfold is_cont, in_range in Hc. apply andb_true_iff in Hc as [H1%N.leb_le H2%N.leb_le].
  assert (∀ lo hi, (hi < 128 ∨ 191 < lo)%N → in_range lo hi a = false) as Hr.
  { intros lo hi Hlh. unfold in_range. apply andb_false_iff. rewrite !N.leb_gt. lia. }
  cbn [is_utf8] in Hs. rewrite !Hr in Hs by lia. by destruct s as [|b [|c [|d s]]].
Qed.

(** A continuation byte in front does not matter. *)
Lemma newline_ok_skip a s :
  Ascii.eqb newline a = false → newline_ok s = true → newline_ok (String a s) = true.
Proof. intros Ha Hs. cbn [newline_ok]. by rewrite Ha, Hs. Qed.

Lemma second_byte_not_newline (x y : bool) lo1 hi1 lo2 hi2 b :
  (if x then in_range lo1 hi1 b else if y then in_range lo2 hi2 b else is_cont b) = true →
  (128 <= lo1)%N → (128 <= lo2)%N → Ascii.eqb newline b = false.
Proof. destruct x, y; eauto using range_not_newline, cont_not_newline. Qed.

Lemma utf8_newline_ok s : is_utf8 s = true → newline_ok s = true.
Proof.
  remember (String.length s) as n eqn:Hn. revert s Hn.
  induction (lt_wf n) as [n _ IH]. intros s ->.
  assert (∀ t, String.length t < String.length s → is_utf8 t = true → newline_ok t = true) as IH'
    by (intros t Ht; by eapply IH).
  clear IH. destruct s as [|a s1]; [done|]. cbn [is_utf8].
  destruct (in_range 0 127 a).
  { intros Hs. cbn [newline_ok]. rewrite (utf8_head s1 Hs), andb_false_r. apply IH'; [simpl; lia|done]. }
  destruct s1 as [|b s2]; [done|].
  destruct (in_range 194 223 a) eqn:R2.
  { rewrite andb_true_iff. intros [Hc Hs]. apply newline_ok_skip; [by eapply range_not_newline|].
    apply newline_ok_skip; [by apply cont_not_newline|]. apply IH'; [simpl; lia|done]. }
  destruct s2 as [|c s3]; [done|].
  destruct (in_range 224 239 a) eqn:R3.
  { rewrite !andb_true_iff. intros [[Hc1 Hc2] Hs]. apply newline_ok_skip; [by eapply range_not_newline|].
    apply newline_ok_skip; [by eapply second_byte_not_newline|].
    apply newline_ok_skip; [by apply cont_not_newline|]. apply IH'; [simpl; lia|done]. }
  destruct s3 as [|d s4]; [done|].
  destruct (in_range 240 244 a) eqn:R4; [|done].
  rewrite !andb_true_iff. intros [[[Hc1 Hc2] Hc3] Hs].
  apply newline_ok_skip; [by eapply range_not_newline|].
  apply newline_ok_skip; [by eapply second_byte_not_newline|].
  do 2 (apply newline_ok_skip; [by apply cont_not_newline|]). apply IH'; [simpl; lia|done].
Qed.

Definition newlines (l : list (nat * string)) : nat :=
  length (List.filter (λ '(_, c), bool_decide (c = String newline EmptyString)) l).

Lemma char_indices_from_ge i s x : x ∈ char_indices_from i s → i ≤ x.1.
Proof.
  revert i x. induction s as [|a s IH]; intros i x; [by intros ?%elem_of_nil|].
  destruct s as [|b s]; [by intros ->%list_elem_of_singleton|].
  rewrite char_indices_from_step. specialize (IH (S i)).
  destruct (is_cont b).
  - destruct (char_indices_from (S i) (String b s)) as [|[j t] r]; [by intros ->%list_elem_of_singleton|].
    intros [->|Hx]%elem_of_cons; [done|]. specialize (IH x ltac:(by right)). lia.
  - intros [->|Hx]%elem_of_cons; [done|]. specialize (IH x Hx). lia.
Qed.

Lemma take_while_none pos (l : list (nat * string)) :
  (∀ x, x ∈ l → pos < x.1) → take_while (λ '(idx, _), idx <=? pos) l = [].
Proof.
  destruct l as [|[j t] l]; [done|]. intros Hl. simpl.
  specialize (Hl (j, t) ltac:(by left)). by rewrite (proj2 (Nat.leb_gt _ _)).
Qed.

Lemma newlines_count pos i s :
  newline_ok s = true →
  newlines (take_while (λ '(idx, _), idx <=? pos) (char_indices_from i s)) =
  str_count (Ascii.eqb newline) (str_take (S pos - i) s).
Proof.
  revert i. induction s as [|a s IH]; intros i Hs; [by destruct (S pos - i)|].
  destruct (Nat.le_gt_cases i pos) as [Hi|Hi]; cycle 1.
  { replace (S pos - i) with 0 by lia. rewrite take_while_none; [done|].
    intros x Hx%char_indices_from_ge. lia. }
  replace (S pos - i) with (S (S pos - S i)) by lia. cbn [str_take str_count].
  assert (∀ t r, newlines (take_while (λ '(idx, _), idx <=? pos) ((i, t) :: r)) =
    (if bool_decide (t = String newline EmptyString) then 1 else 0)
    + newlines (take_while (λ '(idx, _), idx <=? pos) r)) as Hstep.
  { intros t r. cbn [take_while]. rewrite (proj2 (Nat.leb_le _ _)) by done.
    unfold newlines. simpl. by case_bool_decide. }
  assert (bool_decide (String a EmptyString = String newline EmptyString) = Ascii.eqb newline a) as Ha.
  { apply eq_true_iff_eq. rewrite bool_decide_eq_true, Ascii.eqb_eq. naive_solver. }
  cbn [newline_ok] in Hs. apply andb_true_iff in Hs as [Hnl Hs]. specialize (IH (S i) Hs).
  destruct s as [|b s]; [cbn [char_indices_from]; rewrite Hstep, Ha; by destruct (S pos - S i)|].
  rewrite char_indices_from_step, <- IH. destruct (is_cont b) eqn:Hb; [|by rewrite Hstep, Ha].
  rewrite andb_true_r, negb_true_iff in Hnl. rewrite Hnl.
  destruct (char_indices_from_cons (S i) b s) as (t & r & E). rewrite E, Hstep.
  rewrite bool_decide_eq_false_2 by done. cbn [Nat.add].
  assert (∀ x, x ∈ r → S i ≤ x.1) as Hr.
  { intros x Hx. apply (char_indices_from_ge (S i) (String b s)). rewrite E. by right. }
  destruct (Nat.leb_spec (S i) pos) as [Hle|Hgt].
  - unfold newlines. cbn [take_while]. rewrite (proj2 (Nat.leb_le _ _)) by done. simpl.
    rewrite bool_decide_eq_false_2; [done|]. intros [= -> _].
    by apply cont_not_newline in Hb.
  - rewrite !take_while_none; [done| |]; intros x Hx; [|specialize (Hr x Hx); lia].
    apply elem_of_cons in Hx as [->|Hx]; [simpl; lia|specialize (Hr x Hx); lia].
Qed.

(** C20. [txtrng_to_lineno] counts the line feeds at byte offsets up to and
    including the start of the range; the first line has number zero. *)
Theorem txtrng_to_lineno_count inp rng :
  is_utf8 inp = true →
  txtrng_to_lineno inp rng = str_count (Ascii.eqb newline) (str_take (S (range_start rng)) inp).
Proof. intros Hs. apply (newlines_count _ 0), utf8_newline_ok, Hs. Qed.
