(* ===== verification/Bindings.v ===== *)
(** The names a scope introduces: the keys [getkeys] collects for [let] and
    recursive sets, and the global names of [DFL_VARS]. *)
From S2P Require Import Prelude Text JsLexer Externs Consts Context Helpers Idents Let Tree Traversal Brackets Names.
From Stdlib Require Import Ascii Sorted.
Local Open Scope nix2js_scope.

(** * The order of strings *)

Lemma ascii_byte_inj a b : byte_val a = byte_val b → a = b.
Proof. intros Hab%(f_equal ascii_of_N). unfold byte_val in Hab. by rewrite !ascii_N_embedding in Hab. Qed.

Lemma str_leb_refl s : str_leb s s = true.
Proof. induction s as [|a s IH]; [done|]. cbn [str_leb]. by rewrite Ascii.eqb_refl. Qed.

Lemma str_leb_antisym s t : str_leb s t = true → str_leb t s = true → s = t.
Proof.
  revert t. induction s as [|a s IH]; intros [|b t]; [done..|]. cbn [str_leb].
  destruct (Ascii.eqb_spec a b) as [->|Hab].
  - rewrite Ascii.eqb_refl. intros ??. by rewrite (IH t).
  - rewrite (proj2 (Ascii.eqb_neq b a)) by congruence. rewrite !N.leb_le. intros ??.
    destruct Hab. apply ascii_byte_inj. lia.
Qed.

Lemma str_leb_trans s t u : str_leb s t = true → str_leb t u = true → str_leb s u = true.
Proof.
  revert t u. induction s as [|a s IH]; intros [|b t] [|c u]; [done..|]. cbn [str_leb].
  destruct (Ascii.eqb_spec a b) as [->|Hab], (Ascii.eqb_spec b c) as [->|Hbc];
    rewrite ?Ascii.eqb_refl, ?(proj2 (Ascii.eqb_neq _ _)) by done; try done; [apply IH|].
  destruct (Ascii.eqb_spec a c) as [->|Hac]; rewrite !N.leb_le; [|lia].
  intros ??. destruct Hab. apply ascii_byte_inj. lia.
Qed.

Definition str_lt (s t : string) : Prop := str_leb s t = true ∧ s ≠ t.

(** * [sort_unstable_by_key] and [dedup_by_key] *)

Section dedup.
Context {A : Type} (key : A → string).

Lemma dedup_by_key_sorted prev l :
  StronglySorted (λ x y, str_leb (key x) (key y) = true) l →
  (∀ p, prev = Some p → Forall (λ x, str_leb p (key x) = true) l) →
  StronglySorted str_lt (key <$> dedup_by_key key prev l)
  ∧ ∀ p, prev = Some p → Forall (str_lt p) (key <$> dedup_by_key key prev l).
Proof.
  intros Hs. revert prev. induction Hs as [|x l Hs IH Hx]; intros prev Hp; simpl.
  { split; constructor. }
  assert (∀ p, prev = Some p → str_leb p (key x) = true) as Hpx
    by (intros p Hpr; specialize (Hp p Hpr); by apply Forall_cons in Hp as [??]).
  case_bool_decide as Heq.
  - apply IH. intros p Hpr. specialize (Hp p Hpr). by apply Forall_cons in Hp as [??].
  - destruct (IH (Some (key x))) as [IH1 IH2]; [by intros p [= <-]|].
    specialize (IH2 _ eq_refl). rewrite fmap_cons. split; [by constructor|].
    intros p ->. assert (str_lt p (key x)) as [Hle Hne].
    { split; [by apply Hpx|]. congruence. }
    constructor; [done|]. eapply Forall_impl; [exact IH2|]. intros y [Hy1 Hy2].
    split; [by eapply str_leb_trans|]. intros ->. destruct Hne. by apply str_leb_antisym.
Qed.

Lemma dedup_by_key_elem prev l k :
  k ∈ key <$> l → k ∈ key <$> dedup_by_key key prev l ∨ prev = Some k.
Proof.
  revert prev. induction l as [|x l IH]; intros prev; [by intros ?%elem_of_nil|].
  rewrite fmap_cons, elem_of_cons. simpl. case_bool_decide as Heq.
  - intros [->|Hk]; [by right|by apply IH].
  - rewrite fmap_cons, elem_of_cons. intros [->|Hk]; [left; by left|].
    destruct (IH (Some (key x)) Hk) as [?|[= ->]]; left; [by right|by left].
Qed.
End dedup.

Lemma strongly_sorted_nodup l : StronglySorted str_lt l → NoDup l.
Proof.
  induction 1 as [|x l Hs IH Hx]; constructor; [|done]. intros Hin.
  rewrite Forall_forall in Hx. by destruct (Hx x Hin).
Qed.

Section getkeys.
Context `{Rnix, Linetrack, Vlq, SerdeJson, StdSort, !StdSortLaws}.

(** The identifiers an attribute set or a [let] binds: the first elements of the
    keys, where they are identifiers, and the inherited names. *)
Definition binds_name (h : EntryHolder NixNode) (x : string) : Prop :=
  ∃ k id, Ident_cast k = Some id ∧ ident_as_str id = x
    ∧ ((∃ e ks, e ∈ entries h ∧ kv_key e = Some (mkKey (k :: ks)))
       ∨ ∃ inh jd, inh ∈ inherits h ∧ jd ∈ inh_idents inh ∧ k = ident_node jd).

Lemma getkeys_source h x :
  x ∈ snd <$> omap (λ i, (λ j, (node_text_range (ident_node j), ident_as_str j)) <$> Ident_cast i)
    (omap (λ i, match kv_key i with Some j => head (key_path j) | None => None end) (entries h)
     ++ (ident_node <$> mjoin (inh_idents <$> inherits h)))
  ↔ binds_name h x.
Proof.
  rewrite list_elem_of_fmap. setoid_rewrite list_elem_of_omap. split.
  - intros ([rng y] & -> & k & Hk & Hid). apply fmap_Some in Hid as (id & Hc & [= -> ->]).
    exists k, id. split_and!; [done..|]. apply elem_of_app in Hk as [Hk|Hk]; [left|right].
    + apply list_elem_of_omap in Hk as (e & He & Hh). exists e.
      destruct (kv_key e) as [[[|k' ks]]|]; simplify_eq/=. by exists ks.
    + apply list_elem_of_fmap in Hk as (jd & -> & Hj).
      apply list_elem_of_join in Hj as (l & Hl & Hj).
      apply list_elem_of_fmap in Hj as (inh & -> & Hi). by exists inh, jd.
  - intros (k & id & Hc & <- & Hk). exists (node_text_range (ident_node id), ident_as_str id).
    split; [done|]. exists k. rewrite Hc. split; [|done]. apply elem_of_app.
    destruct Hk as [(e & ks & He & Hkey)|(inh & jd & Hi & Hj & ->)]; [left|right].
    + apply list_elem_of_omap. exists e. by rewrite Hkey.
    + apply list_elem_of_fmap_2, list_elem_of_join. exists (inh_idents inh).
      split; [done|]. by apply list_elem_of_fmap_2.
Qed.

Lemma getkeys_sorted h : StronglySorted str_lt (snd <$> getkeys h).
Proof.
  unfold getkeys. set (tmp := omap _ (_ ++ _)).
  assert (StronglySorted (λ x y : TextRange * string, str_leb x.2 y.2 = true)
    (sort_unstable_by_key snd tmp)) as Hs.
  { apply Sorted_StronglySorted; [|apply sort_unstable_sorted]. intros x y z. apply str_leb_trans. }
  by destruct (dedup_by_key_sorted snd None _ Hs) as [Hd _].
Qed.

Lemma getkeys_nodup h : NoDup (snd <$> getkeys h).
Proof. apply strongly_sorted_nodup, getkeys_sorted. Qed.

(** The nodes that carry the names, and the name a node carries. *)
Definition key_nodes (h : EntryHolder NixNode) : list NixNode :=
  omap (λ i, match kv_key i with Some j => head (key_path j) | None => None end) (entries h)
  ++ (ident_node <$> mjoin (inh_idents <$> inherits h)).

Definition cast_name (k : NixNode) : option string := ident_as_str <$> Ident_cast k.

Lemma key_nodes_names h x :
  x ∈ snd <$> omap (λ i, (λ j, (node_text_range (ident_node j), ident_as_str j)) <$> Ident_cast i) (key_nodes h)
  ↔ Some x ∈ cast_name <$> key_nodes h.
Proof.
  rewrite !list_elem_of_fmap. setoid_rewrite list_elem_of_omap. unfold cast_name. split.
  - intros ([rng y] & -> & k & Hk & Hid). exists k. destruct (Ident_cast k); simplify_eq/=. done.
  - intros (k & Hx & Hk). destruct (Ident_cast k) as [id|] eqn:Hid; [|done]. injection Hx as ->.
    exists (node_text_range (ident_node id), ident_as_str id). split; [done|]. exists k. by rewrite Hid.
Qed.

Lemma getkeys_elem h x : x ∈ snd <$> getkeys h ↔ Some x ∈ cast_name <$> key_nodes h.
Proof.
  transitivity (x ∈ snd <$> omap (λ i, (λ j, (node_text_range (ident_node j), ident_as_str j)) <$> Ident_cast i)
    (key_nodes h)).
  - unfold getkeys. fold (key_nodes h). set (tmp := omap _ (key_nodes h)). split.
    + intros ([rng y] & -> & Hy)%list_elem_of_fmap. apply dedup_by_key_subseteq in Hy.
      rewrite sort_unstable_perm in Hy. apply list_elem_of_fmap. by exists (rng, y).
    + intros Hx. destruct (dedup_by_key_elem snd None (sort_unstable_by_key snd tmp) x) as [?|]; [|done..].
      by rewrite sort_unstable_perm.
  - apply key_nodes_names.
Qed.

(** C21. [getkeys] lists exactly the names the node binds, in increasing order and
    each once: the variables that [translate_let] declares are pairwise
    different, and none is missing. *)
Theorem getkeys_spec h :
  StronglySorted str_lt (snd <$> getkeys h)
  ∧ NoDup (snd <$> getkeys h)
  ∧ ∀ x, x ∈ snd <$> getkeys h ↔ binds_name h x.
Proof.
  split_and!; [apply getkeys_sorted|apply getkeys_nodup|].
  intros x. by rewrite <- getkeys_source, getkeys_elem, <- key_nodes_names.
Qed.
End getkeys.

(** * The global names *)

Definition js_ident_byte (a : ascii) : bool := is_alnum a || Ascii.eqb a "_" || Ascii.eqb a "$".
Definition js_ident (s : string) : bool :=
  match s with
  | EmptyString => false
  | String a _ => negb (is_digit a) && str_forall js_ident_byte s
  end.

(** A constant, the runtime object, or a member of it. *)
Definition global_text (t : string) : bool :=
  bool_decide (t ∈ ["true"; "false"; "null"; NIX_BUILTINS_RT])
  || match strip_prefix (NIX_BUILTINS_RT +:+ ".") t with Some m => js_ident m | None => false end.

Lemma vars_find_unique vs vn k : NoDup (vs.*1) → (vn, k) ∈ vs → vars_find vs vn = Some k.
Proof.
  induction vs as [|[x k'] vs IH] using rev_ind; [by intros _ ?%elem_of_nil|].
  rewrite fmap_app. simpl. intros (Hnd & Hx & _)%NoDup_app.
  rewrite vars_find_snoc. intros [Hv|[= <- <-]%list_elem_of_singleton]%elem_of_app; cycle 1.
  { by rewrite bool_decide_eq_true_2. }
  rewrite bool_decide_eq_false_2; [by apply IH|]. intros ->.
  apply (Hx x); [by apply (list_elem_of_fmap_2 fst _ (x, k))|by apply list_elem_of_singleton].
Qed.

(** C22. Every global name of [DFL_VARS] occurs once, so it resolves to its own
    entry at the top level; different names print different expressions; and
    each of them but [__foldl'] prints a constant, the runtime object or a member
    of it whose name is a JavaScript identifier. *)
Theorem dfl_vars_globals `{SerdeJson} :
  NoDup (DFL_VARS.*1)
  ∧ NoDup ((λ v, ident_text v.1 v.2) <$> DFL_VARS)
  ∧ Forall (λ v, vars_find DFL_VARS v.1 = Some v.2) DFL_VARS
  ∧ Forall (λ v, v.1 = foldl' ∨ global_text (ident_text v.1 v.2) = true) DFL_VARS.
Proof.
  assert (NoDup (DFL_VARS.*1)) as Hnd by (apply (bool_decide_unpack (NoDup _)); by vm_compute).
  split_and!; [done| | |].
  - apply (bool_decide_unpack (NoDup _)). by vm_compute.
  - apply Forall_forall. intros [vn k] Hv. by apply vars_find_unique.
  - assert (forallb (λ v, bool_decide (v.1 = foldl') || global_text (ident_text v.1 v.2)) DFL_VARS = true)
      as Hall by (by vm_compute).
    rewrite forallb_forall in Hall. apply Forall_forall. intros v Hv%list_elem_of_In.
    specialize (Hall v Hv). by rewrite orb_true_iff, bool_decide_eq_true in Hall.
Qed.
