(* ===== verification/Refine.v ===== *)
(** The translator refines the reference compiler: what it appends to the code is
    the printed tree, and its errors are the compiler's errors. *)
From S2P Require Import Prelude Text JsLexer Externs Consts Context Helpers Idents Let Node Translate Lazyness Keeps Traversal Brackets Names JsAst Compile.
Local Open Scope nix2js_scope.

(** * The judgement *)

Section judgement.
Context `{Linetrack, Vlq}.

Definition env_of (c : Context) : env := mkEnv (inp c) (vars c) (with_stack c).

(** In the scope [E] the method [m] appends the text that [o] gives, fails with
    the error that [o] gives, and leaves the scope as [E'].  Nothing is said when
    it panics. *)
Definition prints {A} (E : env) (m : M A) (o : outcome string string) (E' : env) : Prop :=
  ∀ c, env_of c = E →
    match m c with
    | (Ok _, c') => ∃ t, o = Ok t ∧ acc c' = acc c +:+ t ∧ env_of c' = E'
    | (Err e, _) => o = Err e
    | (Panic _, _) => True
    | (OutOfFuel, _) => o = OutOfFuel
    end.

(** The same for a method whose value is used. *)
Definition runs {A} (E : env) (m : M A) (o : outcome string (string * A)) (E' : env) : Prop :=
  ∀ c, env_of c = E →
    match m c with
    | (Ok a, c') => ∃ t, o = Ok (t, a) ∧ acc c' = acc c +:+ t ∧ env_of c' = E'
    | (Err e, _) => o = Err e
    | (Panic _, _) => True
    | (OutOfFuel, _) => o = OutOfFuel
    end.

Lemma prints_eq {A} E (m : M A) o o' E' : prints E m o E' → o = o' → prints E m o' E'.
Proof. by intros ? <-. Qed.

Lemma prints_bind {A B} E E1 E2 (m : M A) (k : A → M B) o1 o2 :
  prints E m o1 E1 → (∀ a, prints E1 (k a) o2 E2) →
  prints E (bind m k) (olet t := o1 in olet u := o2 in Ok (t +:+ u)) E2.
Proof.
  intros Hm Hk c Hc. specialize (Hm c Hc). unfold bind.
  destruct (m c) as [[a|e|p|] c1]; [|by rewrite Hm|done|by rewrite Hm].
  destruct Hm as (t & -> & Ha & H1). specialize (Hk a c1 H1). simpl.
  destruct (k a c1) as [[b|e|p|] c2]; [|by rewrite Hk|done|by rewrite Hk].
  destruct Hk as (u & -> & Hb & H2). simpl. eexists. split_and!; [done| |done].
  by rewrite Hb, Ha, string_app_assoc.
Qed.

Lemma prints_bind_runs {A B} E E1 E2 (m : M A) (k : A → M B) o1 (o2 : A → outcome string string) :
  runs E m o1 E1 → (∀ a, prints E1 (k a) (o2 a) E2) →
  prints E (bind m k) (olet r := o1 in olet u := o2 r.2 in Ok (r.1 +:+ u)) E2.
Proof.
  intros Hm Hk c Hc. specialize (Hm c Hc). unfold bind.
  destruct (m c) as [[a|e|p|] c1]; [|by rewrite Hm|done|by rewrite Hm].
  destruct Hm as (t & -> & Ha & H1). specialize (Hk a c1 H1). simpl.
  destruct (k a c1) as [[b|e|p|] c2]; [|by rewrite Hk|done|by rewrite Hk].
  destruct Hk as (u & -> & Hb & H2). simpl. eexists. split_and!; [done| |done].
  by rewrite Hb, Ha, string_app_assoc.
Qed.

(** The same for a method whose text and value are known. *)
Lemma prints_bind_value {A B} E E1 E2 (m : M A) (k : A → M B) t (v : A) o :
  runs E m (Ok (t, v)) E1 → prints E1 (k v) o E2 →
  prints E (bind m k) (olet u := o in Ok (t +:+ u)) E2.
Proof.
  intros Hm Hk c Hc. specialize (Hm c Hc). unfold bind.
  destruct (m c) as [[a|e|p|] c1]; [|done..].
  destruct Hm as (? & [= <- <-] & Ha & H1). specialize (Hk c1 H1).
  destruct (k v c1) as [[b|e|p|] c2]; [|by rewrite Hk|done|by rewrite Hk].
  destruct Hk as (u & -> & Hb & H2). simpl. eexists. split_and!; [done| |done].
  by rewrite Hb, Ha, string_app_assoc.
Qed.

(** The continuation of a method that fails does not matter. *)
Lemma prints_bind_err {A B} E E1 E2 (m : M A) (k : A → M B) e :
  runs E m (Err e) E1 → prints E (bind m k) (Err e) E2.
Proof.
  intros Hm c Hc. specialize (Hm c Hc). unfold bind.
  destruct (m c) as [[a|?|p|] c1]; [|by injection Hm as ->|done..]. by destruct Hm as (? & ? & _).
Qed.

Lemma runs_eq {A} E (m : M A) o o' E' : runs E m o E' → o = o' → runs E m o' E'.
Proof. by intros ? <-. Qed.

Lemma runs_ret {A} E (a : A) : runs E (ret a) (Ok (EmptyString, a)) E.
Proof. intros c Hc. exists EmptyString. by rewrite string_app_nil_r. Qed.

Lemma runs_bind {A B} E E1 E2 (m : M A) (k : A → M B) o1 o2 :
  prints E m o1 E1 → (∀ a, runs E1 (k a) o2 E2) →
  runs E (bind m k) (olet t := o1 in olet r := o2 in Ok (t +:+ r.1, r.2)) E2.
Proof.
  intros Hm Hk c Hc. specialize (Hm c Hc). unfold bind.
  destruct (m c) as [[a|e|p|] c1]; [|by rewrite Hm|done|by rewrite Hm].
  destruct Hm as (t & -> & Ha & H1). specialize (Hk a c1 H1). simpl.
  destruct (k a c1) as [[b|e|p|] c2]; [|by rewrite Hk|done|by rewrite Hk].
  destruct Hk as (u & -> & Hb & H2). simpl. eexists. split_and!; [done| |done].
  by rewrite Hb, Ha, string_app_assoc.
Qed.

Lemma runs_bind_runs {A B} E E1 E2 (m : M A) (k : A → M B) o1 (o2 : A → outcome string (string * B)) :
  runs E m o1 E1 → (∀ a, runs E1 (k a) (o2 a) E2) →
  runs E (bind m k) (olet r := o1 in olet u := o2 r.2 in Ok (r.1 +:+ u.1, u.2)) E2.
Proof.
  intros Hm Hk c Hc. specialize (Hm c Hc). unfold bind.
  destruct (m c) as [[a|e|p|] c1]; [|by rewrite Hm|done|by rewrite Hm].
  destruct Hm as (t & -> & Ha & H1). specialize (Hk a c1 H1). simpl.
  destruct (k a c1) as [[b|e|p|] c2]; [|by rewrite Hk|done|by rewrite Hk].
  destruct Hk as (u & -> & Hb & H2). simpl. eexists. split_and!; [done| |done].
  by rewrite Hb, Ha, string_app_assoc.
Qed.

(** A method with a known value. *)
Lemma runs_value {A} E (m : M A) o E' (v : A) :
  prints E m o E' → (∀ c a c', m c = (Ok a, c') → a = v) →
  runs E m (olet t := o in Ok (t, v)) E'.
Proof.
  intros Hm Hv c Hc. specialize (Hm c Hc).
  destruct (m c) as [[a|e|p|] c'] eqn:E1; [|by rewrite Hm|done|by rewrite Hm].
  destruct Hm as (t & -> & Ha & He). apply Hv in E1 as ->. by exists t.
Qed.

Lemma prints_bind_ret {A B} E E' (a : A) (k : A → M B) o :
  prints E (k a) o E' → prints E (bind (ret a) k) o E'.
Proof. done. Qed.
Lemma prints_bind_assoc {A B D} E E' (m : M A) (k : A → M B) (k' : B → M D) o :
  prints E (bind m (λ a, bind (k a) k')) o E' → prints E (bind (bind m k) k') o E'.
Proof. intros Hm c Hc. specialize (Hm c Hc). unfold bind in *. by destruct (m c) as [[] c']. Qed.

Lemma prints_ret {A} E (a : A) : prints E (ret a) (Ok EmptyString) E.
Proof. intros c Hc. exists EmptyString. by rewrite string_app_nil_r. Qed.
Lemma prints_gets {A} E (f : Context → A) : prints E (gets f) (Ok EmptyString) E.
Proof. intros c Hc. exists EmptyString. by rewrite string_app_nil_r. Qed.
Lemma prints_throw {A} E E' e : prints E (throw (A := A) e) (Err e) E'.
Proof. done. Qed.
Lemma prints_bind_throw {A B} E E' e (k : A → M B) : prints E (bind (throw e) k) (Err e) E'.
Proof. done. Qed.
Lemma prints_panic {A} E E' msg o : prints E (panic (A := A) msg) o E'.
Proof. done. Qed.
Lemma prints_bind_panic {A B} E E' msg (k : A → M B) :
  prints E (bind (panic msg) k) (Panic msg) E'.
Proof. done. Qed.
Lemma runs_prints {A} E (m : M A) o E' :
  runs E m o E' → prints E m (olet r := o in Ok r.1) E'.
Proof.
  intros Hm c Hc. specialize (Hm c Hc). destruct (m c) as [[a|e|p|] c']; [|by rewrite Hm|done|by rewrite Hm].
  destruct Hm as (t & -> & Ha & He). by exists t.
Qed.
Lemma prints_push E x : prints E (push x) (Ok x) E.
Proof. intros c Hc. by exists x. Qed.

Lemma prints_gets_inp {B} E E' (k : string → M B) o :
  prints E (k (e_inp E)) o E' → prints E (bind (gets inp) k) o E'.
Proof. intros Hk c <-. exact (Hk c eq_refl). Qed.
Lemma prints_vars_len {B} E E' (k : nat → M B) o :
  prints E (k (length (e_vars E))) o E' → prints E (bind vars_len k) o E'.
Proof. intros Hk c <-. exact (Hk c eq_refl). Qed.

Lemma prints_throw_line {A} E E' rng msg :
  prints E (throw_line (A := A) rng msg) (Err (line_msg E rng msg)) E'.
Proof. intros c <-. done. Qed.
Lemma prints_bind_throw_line {A B} E E' rng msg (k : A → M B) :
  prints E (bind (throw_line rng msg) k) (Err (line_msg E rng msg)) E'.
Proof. intros c <-. done. Qed.

Lemma bind_vars_nil E : bind_vars [] E = E.
Proof. destruct E. unfold bind_vars; simpl. by rewrite app_nil_r. Qed.
Lemma bind_vars_app vs ws E : bind_vars ws (bind_vars vs E) = bind_vars (vs ++ ws) E.
Proof. unfold bind_vars; simpl. by rewrite app_assoc. Qed.

Lemma bind_vars_cons v vs E : bind_vars (v :: vs) E = bind_vars vs (bind_vars [v] E).
Proof. by rewrite bind_vars_app. Qed.

Lemma prints_vars_push E x k : prints E (vars_push x k) (Ok EmptyString) (bind_vars [(x, k)] E).
Proof. intros c <-. exists EmptyString. by rewrite string_app_nil_r. Qed.

Lemma prints_vars_restore E vs :
  prints (bind_vars vs E) (vars_restore (length (e_vars E))) (Ok EmptyString) E.
Proof.
  intros c Hc. unfold vars_restore, bind, vars_len, gets, assert_, modify.
  destruct E as [i v w]. injection Hc as Hi Hv Hw. simpl in *.
  rewrite (proj2 (Nat.leb_le _ _)) by (rewrite Hv, length_app; lia). simpl.
  exists EmptyString. rewrite string_app_nil_r. split_and!; try done.
  unfold env_of; simpl. by rewrite Hi, Hw, Hv, take_app_length.
Qed.

Lemma prints_with_inc E : prints E with_stack_inc (Ok EmptyString) (enter_with E).
Proof. intros c <-. exists EmptyString. by rewrite string_app_nil_r. Qed.
Lemma prints_with_dec E : prints (enter_with E) with_stack_dec (Ok EmptyString) E.
Proof.
  intros c Hc. exists EmptyString. rewrite string_app_nil_r. split_and!; try done.
  destruct E as [i v w]. injection Hc as Hi Hv Hw. unfold env_of; simpl. by rewrite Hi, Hv, Hw.
Qed.

(** ** Source-map steps *)

Definition quiet {A} (m : M A) : Prop :=
  ∀ c, match fst (m c) with Ok _ | Panic _ => True | _ => False end.

Lemma quiet_snapshot_pos pos : quiet (snapshot_pos pos).
Proof.
  intros c. unfold snapshot_pos, line_cache_run, try_i64, i64_sub, try_u32, bind, gets, modify.
  repeat (case_match; simplify_eq/=; try done).
Qed.

Lemma quiet_record_ident rng : quiet (record_ident rng).
Proof.
  intros c. unfold record_ident, bind, gets, unwrap, try_i64.
  repeat (case_match; simplify_eq/=; try done).
Qed.

Lemma prints_moves {A} E (m : M A) :
  moves same_scope m → quiet m → prints E m (Ok EmptyString) E.
Proof.
  intros Hm Hq c Hc. specialize (Hm c). specialize (Hq c).
  destruct (m c) as [[a|e|p|] c']; simpl in *; try done.
  destruct Hm as (Hv & Hw & Hi & Ha). exists EmptyString. rewrite string_app_nil_r.
  split_and!; [done|done|]. rewrite <- Hc. unfold env_of. congruence.
Qed.

Lemma prints_snapshot_pos E pos : prints E (snapshot_pos pos) (Ok EmptyString) E.
Proof. apply prints_moves; [apply same_scope_snapshot_pos|apply quiet_snapshot_pos]. Qed.

Lemma prints_snapshot_ident E rng m t : pushes m t → prints E (snapshot_ident rng m) (Ok t) E.
Proof.
  intros Hm. unfold snapshot_ident. eapply prints_eq.
  - eapply prints_bind; [apply prints_snapshot_pos|intros r1].
    eapply (prints_bind _ _ _ _ _ (Ok t)); [|intros ?].
    { intros c Hc. rewrite (Hm c). exists t. by destruct c. }
    eapply prints_bind; [apply prints_snapshot_pos|intros r2].
    eapply (prints_bind _ _ _ _ _ (Ok EmptyString)); [|intros ?; apply prints_ret].
    destruct (_ && _); [|apply prints_ret].
    apply prints_moves; [apply same_scope_record_ident|apply quiet_record_ident].
  - simpl. by rewrite !string_app_nil_r.
Qed.

(** ** Loops *)

Lemma prints_for_each {A B} E (l : list A) (f : A → M unit) (g : A → outcome string B) (pr : B → string) :
  (∀ x, x ∈ l → prints E (f x) (omap_ pr (g x)) E) →
  prints E (for_each l f) (omap_ (λ ys, str_join EmptyString (map pr ys)) (otraverse g l)) E.
Proof.
  induction l as [|x l IH]; intros Hf; simpl; [apply prints_ret|].
  eapply prints_eq.
  - eapply prints_bind; [apply Hf; left|intros _]. apply IH. intros y Hy. apply Hf. by right.
  - unfold omap_. destruct (g x) as [y|e|p|]; simpl; try done.
    destruct (otraverse g l) as [ys|e|p|]; simpl; try done.
    destruct ys; simpl; by rewrite ?string_app_nil_r.
Qed.

(** The text of a loop with separators; the flag says whether it is the first. *)
Definition sep_text (sep : string) (fi : bool) (l : list string) : string :=
  if fi then str_join sep l else foldr (λ x s, sep +:+ x +:+ s) EmptyString l.

Definition is_nil {A} (l : list A) : bool := match l with [] => true | _ => false end.

Lemma sep_text_cons sep fi x l :
  sep_text sep fi (x :: l) = (if fi then EmptyString else sep) +:+ x +:+ sep_text sep false l.
Proof.
  destruct fi; simpl; [|done]. change (EmptyString +:+ ?a) with a.
  revert x. induction l as [|y l IH]; intros x; simpl; [by rewrite string_app_nil_r|].
  by rewrite <- IH.
Qed.

Lemma sep_text_app sep l1 l2 :
  sep_text sep true l1 +:+ sep_text sep (is_nil l1) l2 = str_join sep (l1 ++ l2).
Proof.
  destruct l1 as [|x l1]; [done|]. rewrite sep_text_cons. change (EmptyString +:+ ?a) with a.
  change (str_join sep ((x :: l1) ++ l2)) with (sep_text sep true (x :: (l1 ++ l2))).
  rewrite sep_text_cons. change (EmptyString +:+ ?a) with a. rewrite string_app_assoc. f_equal.
  unfold sep_text, is_nil. induction l1 as [|y l1 IH]; simpl; [done|]. by rewrite !string_app_assoc, IH.
Qed.

Lemma runs_for_sep {A B} E sep fi (l : list A) (f : A → M unit) (g : A → outcome string B) (pr : B → string) :
  (∀ x, x ∈ l → prints E (f x) (omap_ pr (g x)) E) →
  runs E (for_sep sep fi l f)
    (olet ys := otraverse g l in Ok (sep_text sep fi (map pr ys), fi && is_nil ys)) E.
Proof.
  revert fi. induction l as [|x l IH]; intros fi Hf; simpl.
  { intros c Hc. exists EmptyString. rewrite string_app_nil_r, andb_true_r. by destruct fi. }
  assert (∀ y, y ∈ l → prints E (f y) (omap_ pr (g y)) E) as Hl by (intros; apply Hf; by right).
  specialize (IH false Hl). specialize (Hf x ltac:(by left)). intros c Hc.
  unfold bind. set (c0 := if fi then c else set_acc (λ a, a +:+ sep) c).
  assert ((if fi then ret tt else push sep) c = (Ok tt, c0)) as -> by (by destruct fi).
  assert (acc c0 = acc c +:+ (if fi then EmptyString else sep) ∧ env_of c0 = E) as [Ha0 He0]
    by (subst c0; destruct fi; simpl; rewrite ?string_app_nil_r; done).
  specialize (Hf c0 He0). unfold omap_ in Hf. destruct (f x c0) as [[u|e|p|] c1].
  2-4: destruct (g x); simpl in *; congruence.
  destruct Hf as (t & Ht & Ha1 & He1). destruct (g x) as [y|e|p|]; simpl in *; [|done..].
  injection Ht as <-. specialize (IH c1 He1). destruct (for_sep sep false l f c1) as [[b|e|p|] c2].
  2-4: destruct (otraverse g l); simpl in *; congruence.
  destruct IH as (t & Ht & Ha2 & He2). destruct (otraverse g l) as [ys|e|p|]; simpl in *; [|done..].
  injection Ht as <- <-. eexists. split_and!; [by rewrite andb_false_r| |done].
  rewrite sep_text_cons, Ha2, Ha1, Ha0, !string_app_assoc. done.
Qed.

Lemma prints_for_sep {A B} E sep (l : list A) (f : A → M unit) (g : A → outcome string B) (pr : B → string) :
  (∀ x, x ∈ l → prints E (f x) (omap_ pr (g x)) E) →
  prints E (for_sep sep true l f) (omap_ (λ ys, str_join sep (map pr ys)) (otraverse g l)) E.
Proof.
  intros Hf c Hc. pose proof (runs_for_sep E sep true l f g pr Hf c Hc) as Hr. unfold omap_.
  destruct (for_sep sep true l f c) as [[b|e|p|] c'].
  2-4: destruct (otraverse g l); simpl in *; congruence.
  destruct Hr as (t & Ht & Ha & He). destruct (otraverse g l); simpl in *; [|done..].
  injection Ht as <- <-. by eexists.
Qed.
End judgement.

(** * Wrappers *)

Section wrappers.
Context `{Linetrack, Vlq, SerdeJson}.

Lemma push_all l c :
  for_each l push c = (Ok tt, set_acc (λ a, a +:+ str_join EmptyString l) c).
Proof.
  revert c. induction l as [|x l IH]; intros c; simpl.
  - destruct c. unfold ret, set_acc; simpl. by rewrite string_app_nil_r.
  - unfold bind, push, modify. rewrite IH. unfold set_acc; simpl. rewrite string_app_assoc.
    destruct l; [simpl; by rewrite string_app_nil_r|done].
Qed.

Definition wrap_text (sctx : StackCtx) (await_tr lazy_tr : Tr) (adj : Ladj) (t : string) : string :=
  let '(pre, _, post) := lazyness_plan sctx await_tr lazy_tr adj in
  str_join EmptyString pre +:+ t +:+ str_join EmptyString post.

Lemma print_body_expr b : print (body_expr b) = print_body b.
Proof. by destruct b. Qed.

Lemma print_wrap sctx await_tr lazy_tr adj b :
  print (wrap sctx await_tr lazy_tr adj b) = wrap_text sctx await_tr lazy_tr adj (print_body b).
Proof.
  unfold wrap, wrap_text, lazyness_plan.
  destruct (prints_await _ _), (prints_lazy _ _ _ _), (lazy_through _ _); simpl;
    rewrite ?print_body_expr, ?string_app_nil_r, ?string_app_assoc; done.
Qed.

Lemma prints_lazyness {R} E sctx await_tr lazy_tr adj (inner : StackCtx → M R) o :
  prints E (inner (inner_ctx sctx await_tr lazy_tr adj)) o E →
  prints E (lazyness_incoming sctx await_tr lazy_tr adj inner)
    (olet t := o in Ok (wrap_text sctx await_tr lazy_tr adj t)) E.
Proof.
  intros Hi c Hc. rewrite lazyness_incoming_plan. unfold wrap_text, inner_ctx in *.
  destruct (lazyness_plan sctx await_tr lazy_tr adj) as [[pre s] post]. simpl in *.
  unfold bind. rewrite push_all. unfold attempt.
  set (c1 := set_acc _ c). specialize (Hi c1 Hc). destruct (inner s c1) as [[a|e|p|] c2].
  - destruct Hi as (t & -> & Ha & He). rewrite push_all. simpl. eexists. split; [done|].
    rewrite Ha. subst c1. simpl. rewrite !string_app_assoc. by destruct c2.
  - by rewrite push_all, Hi.
  - done.
  - by rewrite Hi.
Qed.
End wrappers.

(** * Identifiers *)

Section methods.
Context `{Rnix, Linetrack, Vlq, SerdeJson, StdSort}.

Lemma print_var_expr vn categ : print (var_expr vn categ) = ident_text vn categ.
Proof. by destruct categ. Qed.

Lemma prints_handle_lazyness E sctx m t :
  prints E m (Ok t) E →
  prints E (handle_lazyness (Some sctx) m)
    (Ok (if bool_decide (await_st sctx = Want) then "(await " +:+ t +:+ ")" else t)) E.
Proof.
  intros Hm. unfold handle_lazyness. eapply prints_eq.
  - apply prints_lazyness. eapply prints_bind; [apply prints_gets|intros ?].
    eapply prints_bind; [exact Hm|intros _]. eapply prints_bind; [apply prints_gets|intros ?].
    apply prints_ret.
  - simpl. unfold wrap_text. rewrite !string_app_nil_r.
    change (EmptyString +:+ t) with t. destruct sctx as [[] []]; simpl; rewrite ?string_app_nil_r; done.
Qed.

Lemma prints_ident_raw E sctx rng vn categ :
  prints E (translate_node_ident_raw sctx rng vn categ)
    (Ok (print match sctx with
               | Some s => await_var s categ (var_expr vn categ)
               | None => var_expr vn categ
               end)) E.
Proof.
  intros c Hc. rewrite ident_raw_shape. revert c Hc.
  pose proof (prints_snapshot_ident E rng _ _ (raw_push_text vn categ)) as Hp.
  assert (∀ (k : M (option string)) t, prints E k (Ok t) E →
    prints E (startpos ← acc_len; r ← k; match r with Some x => ret x | None => acc_from startpos end)
      (Ok t) E) as Hshape.
  { intros k t Hk. eapply prints_eq.
    - eapply prints_bind; [apply prints_gets|intros ?]. eapply prints_bind; [exact Hk|].
      intros [x|]; [apply prints_ret|apply prints_gets].
    - simpl. by rewrite string_app_nil_r. }
  assert (prints E (snapshot_ident rng (raw_push vn categ);; ret (@None string))
    (Ok (ident_text vn categ)) E) as Hplain.
  { eapply prints_eq; [eapply prints_bind; [exact Hp|intros _; apply prints_ret]|].
    simpl. by rewrite string_app_nil_r. }
  apply Hshape. destruct sctx as [sctx|]; [|destruct categ; exact Hplain].
  destruct categ; try exact Hplain; (eapply prints_eq; [apply prints_handle_lazyness, Hp|]);
    simpl; by case_bool_decide.
Qed.

(** Resolution depends on the scope only. *)
Lemma runs_resolve_ident E id :
  runs E (resolve_ident id) (olet k := resolve E id in Ok (EmptyString, k)) E.
Proof.
  intros c <-. unfold resolve_ident, bind, gets, of_result, resolve_ident_in, resolve. simpl.
  destruct (vars_find _ _) as [k|]; [|destruct (0 <? with_stack c)]; simpl; [| |done];
    exists EmptyString; by rewrite string_app_nil_r.
Qed.

Lemma prints_ident E sctx id :
  prints E (translate_node_ident sctx id) (omap_ print (compile_ident E sctx id)) E.
Proof.
  eapply prints_eq.
  - eapply prints_bind_runs; [apply runs_resolve_ident|intros k]. apply prints_ident_raw.
  - unfold compile_ident, omap_. by destruct (resolve E id) as [k|e|p|].
Qed.

(** The text of an identifier that is returned. *)
Lemma runs_ident E id :
  runs E (translate_node_ident None id)
    (olet e := compile_ident E None id in Ok (print e, print e)) E.
Proof.
  intros c Hc. pose proof (prints_ident E None id c Hc) as Hp. revert Hp.
  unfold compile_ident, omap_. pose proof (runs_resolve_ident E id c Hc) as Hr.
  destruct (translate_node_ident None id c) as [[r|e|p|] c'] eqn:Ht;
    destruct (resolve E id) as [k|e'|p'|]; simpl in *; try congruence; intros Hp;
    destruct Hp as (t & Heq & Ha & He); try discriminate Heq.
  injection Heq as <-. eexists. split; [|split; [exact Ha|exact He]].
  unfold translate_node_ident, bind in Ht.
  destruct (resolve_ident id c) as [[k'|e''|p''|] c1]; [|done..].
  destruct Hr as (t & [= _ <-] & _ & _).
  apply translate_node_ident_raw_text in Ht as [-> _]. by rewrite print_var_expr.
Qed.

Lemma prints_ident_escape_str E id :
  prints E (translate_node_ident_escape_str id) (Ok (print_str (KName (ident_as_str id)))) E.
Proof.
  eapply prints_eq; [eapply prints_bind; [eapply prints_snapshot_ident, pushes_push|intros _; apply prints_ret]|].
  simpl. by rewrite string_app_nil_r.
Qed.

Lemma prints_ident_indexing E id :
  prints E (translate_node_ident_indexing id) (Ok (print_index (KName (ident_as_str id)))) E.
Proof.
  eapply prints_eq; [eapply prints_bind; [eapply prints_snapshot_ident, pushes_push|intros _; apply prints_ret]|].
  simpl. by rewrite string_app_nil_r.
Qed.
End methods.
