(* ===== verification/RefineTree.v ===== *)
(** The refinement for the methods that print attribute paths, bindings and
    [let]. *)
From S2P Require Import Prelude Text JsLexer Externs Consts Context Helpers Idents Let Node Translate Tree Lazyness Keeps Traversal Brackets Names JsAst Compile Refine.
Local Open Scope nix2js_scope.

(** A field of an object literal. *)
Definition print_field `{SerdeJson} (f : string * expr) : string := let '(k, e) := f in escape_str k +:+ ":" +:+ print e.

(** Follow the structure of a method and collect what it prints. *)
Ltac prints_with tac :=
  repeat first [tac | match goal with
  | |- prints _ (bind (bind _ _) _) _ _ => apply prints_bind_assoc
  | |- prints _ (bind (ret _) _) _ _ => apply prints_bind_ret
  | |- prints _ (bind (throw _) _) _ _ => apply prints_bind_throw
  | |- prints _ (bind (panic _) _) _ _ => apply prints_bind_panic
  | |- prints _ (bind (throw_line _ _) _) _ _ => apply prints_bind_throw_line
  | |- prints _ (bind (gets inp) _) _ _ => apply prints_gets_inp
  | |- prints _ (bind vars_len _) _ _ => apply prints_vars_len
  | |- prints _ (bind _ _) _ _ => eapply prints_bind; [|intros]
  | |- prints _ (ret _) _ _ => apply prints_ret
  | |- prints _ (push _) _ _ => apply prints_push
  | |- prints _ (throw_line _ _) _ _ => apply prints_throw_line
  | |- prints _ (throw _) _ _ => apply prints_throw
  | |- prints _ (panic _) _ _ => apply prints_panic
  | |- prints _ (gets _) _ _ => apply prints_gets
  | |- prints _ (snapshot_pos _) _ _ => apply prints_snapshot_pos
  | Hr : ∀ _ _ _, prints _ (?rec _ _) _ _ |- prints _ (?rec _ _) _ _ => apply Hr
  | |- prints _ (lazyness_incoming _ _ _ _ _) _ _ => apply prints_lazyness
  | |- prints _ (translate_node_ident _ _) _ _ => apply prints_ident
  | |- prints _ (translate_node_ident_escape_str _) _ _ => apply prints_ident_escape_str
  | |- prints _ (translate_node_ident_indexing _) _ _ => apply prints_ident_indexing
  | |- prints _ (vars_push _ _) _ _ => apply prints_vars_push
  end].
Ltac prints_go := prints_with fail.

(** Compare two outcomes: case analysis on the recursive results, then text. *)
Ltac outcome_eq :=
  unfold omap_; cbn [obind of_option];
  repeat (match goal with
  | |- context [obind ?m _] =>
      lazymatch m with obind _ _ => fail | Ok _ => fail | _ => destruct m as [?|?|?|] end
  end; cbn [obind]);
  try done; cbn [print print_body print_stmt print_index print_str map str_join fst snd];
  unfold print_field; rewrite ?print_wrap;
  cbn [print print_body print_stmt print_index print_str map str_join fst snd];
  rewrite ?string_app_nil_r, ?string_app_assoc; try reflexivity.

Ltac by_cases_of f := eapply prints_eq; [unfold f; prints_go|outcome_eq].

Section cases.
Context `{Rnix, Linetrack, Vlq, SerdeJson, StdSort}.
Context (rec : StackCtx → NixNode → M unit).
Context (comp : env → StackCtx → NixNode → outcome string expr).
Context (rec_prints : ∀ E sctx n, prints E (rec sctx n) (omap_ print (comp E sctx n)) E).

Lemma prints_rtv E sctx rng x desc :
  prints E (rtv rec sctx rng x desc) (omap_ print (compile_opt comp E sctx rng x desc)) E.
Proof. destruct x; simpl; prints_go. Qed.

Lemma prints_key_force_str E k :
  prints E (translate_node_key_element_force_str rec k) (omap_ print_str (compile_elem comp E k)) E.
Proof.
  unfold translate_node_key_element_force_str, compile_elem.
  destruct (Ident_cast k); (eapply prints_eq; [prints_go|outcome_eq]).
Qed.

Lemma prints_key_indexing E k :
  prints E (translate_node_key_element_indexing rec k) (omap_ print_index (compile_elem comp E k)) E.
Proof.
  unfold translate_node_key_element_indexing, compile_elem.
  destruct (Ident_cast k); (eapply prints_eq; [prints_go|outcome_eq]).
Qed.

Lemma prints_scope_indexing E k scope :
  prints E (translate_node_scope_indexing rec k scope) (omap_ print (compile_target comp E k scope)) E.
Proof.
  unfold translate_node_scope_indexing, compile_target. destruct scope as [s|].
  - eapply prints_eq; [prints_with ltac:(apply prints_key_indexing)|outcome_eq].
  - destruct (Ident_cast k) as [id|]; simpl; (eapply prints_eq; [prints_go|]); [|done].
    outcome_eq.
Qed.

(** ** Bindings *)

Lemma prints_kv E sctx i scope :
  prints E (translate_node_kv rec sctx i scope) (omap_ print_stmt (compile_kv comp E sctx i scope)) E.
Proof.
  unfold translate_node_kv, compile_kv.
  destruct (kv_key i) as [[[|k ks]]|]; simpl; [prints_go| |prints_go].
  destruct (kv_value i) as [v|]; simpl; [|prints_go].
  assert (prints E (for_each ks (λ i, push ",";; translate_node_key_element_force_str rec i))
    (omap_ (λ ys, str_join EmptyString (map (λ k, "," +:+ print_str k) ys))
       (otraverse (compile_elem comp E) ks)) E) as Hpath.
  { apply prints_for_each. intros x _.
    eapply prints_eq; [prints_with ltac:(apply prints_key_force_str)|outcome_eq]. }
  destruct ks as [|k2 ks].
  - destruct scope; (eapply prints_eq; [prints_with ltac:(apply prints_scope_indexing)|outcome_eq]).
  - destruct scope as [s|]; cbv iota;
      (eapply prints_eq; [prints_with ltac:(first [exact Hpath | apply prints_scope_indexing
        | apply prints_key_force_str | apply prints_key_indexing])|]).
    + unfold compile_target. outcome_eq.
    + unfold compile_target. outcome_eq.
Qed.

Lemma prints_inherited E scope var l :
  prints E (for_each l (λ id,
    translate_node_scope_indexing rec (ident_node id) scope;;
    push ("=" +:+ var +:+ ".then(nixV=>nixV");;
    translate_node_ident_indexing id;;
    push ");"))
    (omap_ (λ ts, str_join EmptyString (map (λ '(t, x),
        print t +:+ "=" +:+ var +:+ ".then(nixV=>nixV" +:+ indexing_text x +:+ ");") ts))
      (otraverse (λ id, olet t := compile_target comp E (ident_node id) scope in
                        Ok (t, ident_as_str id)) l)) E.
Proof.
  apply prints_for_each. intros id _.
  eapply prints_eq; [prints_with ltac:(apply prints_scope_indexing)|outcome_eq].
Qed.

(** [inherit (e) x y]: the common code for any number of names but one. *)
Lemma prints_inherit_many E scope tmp (inhf : InheritFrom NixNode) ids :
  let ctx := mksctx Nothing Want in
  let rng := node_text_range (inhf_node inhf) in
  prints E
    (inhf_var ← match tmp with
                | Some x => push "const ";; push x;; ret x
                | None => push "await (async ()=>{const nixInhR";; ret "nixInhR"
                end;
     push "=";;
     lazyness_incoming ctx Forward Flush Front (λ sctx,
       rtv rec sctx rng (inhf_inner inhf) "inner for inherit-from");;
     push ";";;
     for_each ids (λ id,
       translate_node_scope_indexing rec (ident_node id) scope;;
       push ("=" +:+ inhf_var +:+ ".then(nixV=>nixV");;
       translate_node_ident_indexing id;;
       push ");");;
     (if bool_decide (tmp = None) then push "})()" else ret tt);;
     push ";")
    (omap_ print_stmts
      (olet e := compile_opt comp E (inner_ctx ctx Forward Flush Front) rng (inhf_inner inhf)
                   "inner for inherit-from" in
       olet ts := otraverse (λ id, olet t := compile_target comp E (ident_node id) scope in
                                   Ok (t, ident_as_str id)) ids in
       Ok [SInherit tmp (wrap ctx Forward Flush Front (BExpr e)) ts])) E.
Proof.
  cbv zeta. unfold print_stmts. destruct tmp as [x|];
    [change (bool_decide (Some x = None)) with false|change (bool_decide (@None string = None)) with true];
    cbv iota; (eapply prints_eq; [prints_with ltac:(first [apply prints_inherited | apply prints_rtv])|]);
    outcome_eq.
Qed.

Lemma prints_inherit E sctx i scope tmp :
  prints E (translate_node_inherit rec sctx i scope tmp)
    (omap_ print_stmts (compile_inherit comp E sctx i scope tmp)) E.
Proof.
  unfold translate_node_inherit, compile_inherit.
  destruct (inh_from i) as [inhf|].
  - destruct (inh_idents i) as [|id [|id2 ids]]; [apply prints_inherit_many| |apply prints_inherit_many].
    unfold print_stmts. eapply prints_eq; [prints_with ltac:(first [apply prints_rtv | apply prints_scope_indexing])|outcome_eq].
  - apply prints_for_each. intros id _.
    eapply prints_eq; [prints_with ltac:(apply prints_scope_indexing)|outcome_eq].
Qed.

Lemma print_stmts_join l : str_join EmptyString (map print_stmts l) = print_stmts (mjoin l).
Proof.
  assert (∀ l, str_join EmptyString l = foldr String.append EmptyString l) as Hj.
  { clear. induction l as [|x l IH]; [done|]. destruct l; simpl in *; [by rewrite string_app_nil_r|].
    by rewrite IH. }
  unfold print_stmts. rewrite !Hj. induction l as [|x l IH]; [done|]. simpl.
  rewrite IH, map_app, foldr_app. rewrite Hj. clear. induction (map print_stmt x) as [|y ys IHy]; [done|].
  simpl. by rewrite string_app_assoc, IHy.
Qed.

Lemma prints_let_inherits E sctx h scope :
  prints E (translate_let_inherits rec sctx h scope)
    (omap_ print_stmts (compile_inherits comp E sctx h scope)) E.
Proof.
  unfold translate_let_inherits, compile_inherits. eapply prints_eq.
  - apply (prints_for_each _ _ _ (λ '(n, i), compile_inherit comp E sctx i scope
      (Some ("nixInhR" +:+ fmt_usize n))) print_stmts).
    intros [n i] _. apply prints_inherit.
  - unfold omap_. destruct (otraverse _ _) as [l|e|p|]; simpl; [|done..]. by rewrite print_stmts_join.
Qed.

Lemma prints_let_return E b scope :
  prints E (translate_let_return rec b scope)
    (omap_ (λ r, "return " +:+ print r) (compile_return comp E b scope)) E.
Proof. unfold translate_let_return, compile_return. destruct b; (eapply prints_eq; [prints_go|outcome_eq]). Qed.

(** ** [let] *)

Lemma prints_object_entry E sctx i :
  prints E
    (key ← unwrap "called Option::unwrap() on a None value" (kv_key i);
     k ← unwrap "called Option::unwrap() on a None value" (head (key_path key));
     id ← unwrap "called Option::unwrap() on a None value" (Ident_cast k);
     translate_node_ident_escape_str id;;
     push ":";;
     v ← unwrap "called Option::unwrap() on a None value" (kv_value i);
     rec sctx v)
    (omap_ print_field (compile_field comp E sctx i)) E.
Proof.
  unfold compile_field.
  destruct (kv_key i) as [[ks]|]; cbn [unwrap ounwrap]; [|apply prints_bind_panic].
  apply prints_bind_ret. cbn [obind key_path].
  destruct ks as [|k ks]; cbn [head unwrap ounwrap]; [apply prints_bind_panic|].
  apply prints_bind_ret. cbn [obind].
  destruct (Ident_cast k) as [id|]; cbn [unwrap ounwrap]; [|apply prints_bind_panic].
  apply prints_bind_ret. cbn [obind].
  destruct (kv_value i) as [v|]; cbn [unwrap ounwrap]; (eapply prints_eq; [prints_go|outcome_eq]).
Qed.

Lemma prints_object_inherit E sctx (id : Ident NixNode) (inhf : option (InheritFrom NixNode)) :
  prints E
    (translate_node_ident_escape_str id;;
     push ":";;
     match inhf with
     | Some x =>
         lazyness_incoming sctx Flush Flush Front (λ _,
           rtv rec (mksctx Want Nothing) (node_text_range (inhf_node x)) (inhf_inner x)
             "inner for inherit-from";;
           translate_node_ident_indexing id;;
           ret tt)
     | None => translate_node_ident (Some sctx) id;; ret tt
     end)
    (omap_ print_field (compile_inherited_field comp E sctx (id, inhf))) E.
Proof. unfold compile_inherited_field. destruct inhf; cbn [fst snd]; (eapply prints_eq; [prints_with ltac:(apply prints_rtv)|outcome_eq]). Qed.

Lemma prints_let_object E body_sctx sctx h :
  prints E (translate_let_object rec body_sctx sctx h)
    (omap_ print (compile_let_object comp E body_sctx sctx h)) E.
Proof.
  unfold translate_let_object, compile_let_object.
  eapply prints_eq.
  - apply prints_lazyness. eapply prints_bind; [apply prints_push|intros _].
    eapply prints_bind_runs; [apply (runs_for_sep _ _ _ _ _ (compile_field comp E sctx) print_field);
      intros; apply prints_object_entry|].
    intros fi. eapply prints_bind; [|intros _; apply prints_push].
    eapply runs_prints, (runs_for_sep _ _ _ _ _ (compile_inherited_field comp E sctx) print_field).
    intros [id inhf] _. apply prints_object_inherit.
  - destruct (otraverse (compile_field _ _ _) _) as [fs|?|?|]; cbn [omap_ obind]; try done.
    unfold omap_. destruct (otraverse (compile_inherited_field _ _ _) _) as [gs|?|?|]; cbn [omap_ obind]; try done.
    rewrite print_wrap. cbn [fst snd print_body print andb]. do 2 f_equal. f_equal.
    rewrite <- string_app_assoc. f_equal.
    replace (is_nil fs) with (is_nil (map print_field fs)) by (by destruct fs).
    by rewrite sep_text_app, <- map_app.
Qed.

(** The names a [let] binds as variables, declared in order. *)
Lemma prints_declare E fi (l : list (TextRange * string)) :
  runs E
    (for_sep "," fi l (λ '(irng, i),
      vars_push i LetLetVar;;
      translate_node_ident_raw None irng i LetLetVar;;
      ret tt))
    (Ok (sep_text "," fi (map print_var l.*2), fi && is_nil l))
    (bind_vars ((λ x, (x, LetLetVar)) <$> l.*2) E).
Proof.
  revert E fi. induction l as [|[rng x] l IH]; intros E fi.
  { rewrite bind_vars_nil, andb_true_r. destruct fi; apply runs_ret. }
  eapply runs_eq; cbn [for_sep].
  - eapply (runs_bind _ E _ _ _ (Ok (if fi then EmptyString else ","))); [destruct fi; [apply prints_ret|apply prints_push]|].
    intros _. eapply runs_bind; [|intros _; rewrite !fmap_cons, bind_vars_cons; apply IH].
    eapply prints_bind; [apply prints_vars_push|intros _].
    eapply prints_bind; [apply prints_ident_raw|intros ?]. apply prints_ret.
  - cbn [obind fst snd]. rewrite andb_false_r. cbn [fmap list_fmap map]. rewrite sep_text_cons.
    cbn [var_expr print]. by rewrite string_app_nil_r.
Qed.

Lemma prints_register E (l : list (TextRange * string)) :
  prints E (for_each l (λ '(_, i), vars_push i LetInScopeVar)) (Ok EmptyString)
    (bind_vars ((λ k, (k.2, LetInScopeVar)) <$> l) E).
Proof.
  revert E. induction l as [|[rng x] l IH]; intros E; cbn [for_each].
  { rewrite bind_vars_nil. apply prints_ret. }
  eapply prints_eq; [eapply prints_bind; [apply prints_vars_push|intros _]|].
  - rewrite fmap_cons, (bind_vars_cons _ (_ <$> _)). apply IH.
  - done.
Qed.

Lemma prints_entries E sctx (l : list (KeyValue NixNode)) scope :
  prints E (for_each l (λ i, translate_node_kv rec sctx i scope))
    (omap_ print_stmts (otraverse (λ i, compile_kv comp E sctx i scope) l)) E.
Proof. apply (prints_for_each _ _ _ _ print_stmt). intros i _. apply prints_kv. Qed.

Lemma print_stmts_app l1 l2 : print_stmts (l1 ++ l2) = print_stmts l1 +:+ print_stmts l2.
Proof. pose proof (print_stmts_join [l1; l2]) as Hj. simpl in Hj. by rewrite app_nil_r in Hj. Qed.

Lemma prints_if_push E (b : bool) x :
  prints E (if b then push x else ret tt) (Ok (if b then x else EmptyString)) E.
Proof. destruct b; [apply prints_push|apply prints_ret]. Qed.

Lemma prints_scope_vars E (b : bool) (l : list (TextRange * string)) :
  prints E (if b then for_each l (λ '(_, i), vars_push i LetInScopeVar) else ret tt) (Ok EmptyString)
    (if b then bind_vars ((λ k, (k.2, LetInScopeVar)) <$> l) E else E).
Proof. destruct b; [apply prints_register|apply prints_ret]. Qed.

Lemma prints_let_variables E body_sctx sctx h b scope :
  prints E (translate_let_variables rec body_sctx sctx h b scope)
    (omap_ print (compile_let_variables comp E body_sctx sctx h b scope)) E.
Proof.
  unfold translate_let_variables, compile_let_variables. eapply prints_eq.
  - apply prints_lazyness. apply prints_vars_len. eapply prints_bind; [apply prints_push|intros _].
    eapply prints_bind_runs; [apply prints_declare|intros ?].
    eapply prints_bind; [apply prints_push|intros _].
    eapply prints_bind; [apply prints_entries|intros _].
    eapply prints_bind; [apply prints_let_inherits|intros _].
    eapply prints_bind; [apply prints_let_return|intros _].
    eapply prints_bind; [apply prints_push|intros _]. apply prints_vars_restore.
  - outcome_eq. fold (print_stmts (a ++ a0)).
    by rewrite print_stmts_app, !string_app_assoc.
Qed.

Lemma prints_let_scope E body_sctx sctx h b scope :
  prints E (translate_let_scope rec body_sctx sctx h b scope)
    (omap_ print (compile_let_scope comp E body_sctx sctx h b scope)) E.
Proof.
  unfold translate_let_scope, compile_let_scope. cbv zeta. eapply prints_eq.
  - apply prints_lazyness. eapply prints_bind; [apply prints_push|intros _].
    apply prints_vars_len. eapply prints_bind; [apply prints_scope_vars|intros _].
    eapply prints_bind; [apply prints_entries|intros _].
    eapply prints_bind; [apply prints_let_inherits|intros _].
    eapply prints_bind; [apply prints_let_return|intros _].
    eapply prints_bind; [apply prints_push|intros _].
    eapply prints_bind; [apply (prints_if_push _ (bool_decide (scope = NIX_IN_SCOPE)))|intros _].
    eapply prints_bind; [|intros _; apply prints_push].
    case_bool_decide; [apply prints_vars_restore|].
    rewrite <- (bind_vars_nil E) at 1. apply prints_vars_restore.
  - outcome_eq. fold (print_stmts (a ++ a0)).
    by rewrite print_stmts_app, !string_app_assoc.
Qed.

Lemma prints_let E body_sctx values_lazy h b scope :
  prints E (translate_let rec body_sctx values_lazy h b scope)
    (omap_ print (compile_let comp E body_sctx values_lazy h b scope)) E.
Proof.
  unfold translate_let, compile_let. cbv zeta.
  assert (∀ sctx, prints E
    (if let_is_object h b scope then translate_let_object rec body_sctx sctx h
     else if let_is_variables h b scope then translate_let_variables rec body_sctx sctx h b scope
     else translate_let_scope rec body_sctx sctx h b scope)
    (omap_ print
      (if let_is_object h b scope then compile_let_object comp E body_sctx sctx h
       else if let_is_variables h b scope then compile_let_variables comp E body_sctx sctx h b scope
       else compile_let_scope comp E body_sctx sctx h b scope)) E) as Hlet.
  { intros sctx. destruct (let_is_object h b scope); [apply prints_let_object|].
    destruct (let_is_variables h b scope); [apply prints_let_variables|apply prints_let_scope]. }
  destruct (entries h) as [|x l], (inherits h) as [|y l']; try apply Hlet.
  destruct b; [apply rec_prints|apply prints_push].
Qed.
End cases.
