(* ===== verification/RefineNode.v ===== *)
(** The refinement for every kind of node, and the theorem about [translate]. *)
From S2P Require Import Prelude Text JsLexer Externs Consts Context Helpers Idents Let Node Translate Tree Lazyness Keeps Traversal Brackets Names JsAst Compile Refine RefineTree.
Local Open Scope nix2js_scope.

Section cases.
Context `{Rnix, Linetrack, Vlq, SerdeJson, StdSort}.
Context (rec : StackCtx → NixNode → M unit).
Context (comp : env → StackCtx → NixNode → outcome string expr).
Context (rec_prints : ∀ E sctx n, prints E (rec sctx n) (omap_ print (comp E sctx n)) E).

Local Ltac node_step := first [
  match goal with
  | |- prints _ (rtv _ _ _ _ _) _ _ => apply (prints_rtv rec comp rec_prints)
  | |- prints _ (translate_node_key_element_indexing _ _) _ _ => apply (prints_key_indexing rec comp rec_prints)
  | |- prints _ (translate_let _ _ _ _ _ _) _ _ => apply (prints_let rec comp rec_prints)
  end].
Local Ltac node_case := eapply prints_eq; [prints_with node_step|outcome_eq].

Lemma prints_apply E sctx rng app :
  prints E (translate_apply rec sctx rng app) (omap_ print (compile_apply comp E sctx rng app)) E.
Proof. unfold translate_apply, compile_apply. node_case. Qed.

Lemma prints_assert E sctx rng art :
  prints E (translate_assert rec sctx rng art) (omap_ print (compile_assert comp E sctx rng art)) E.
Proof. unfold translate_assert, compile_assert. destruct (art_condition art); cbn [of_option]; node_case. Qed.

Lemma prints_binop E sctx rng bo :
  prints E (translate_binop rec sctx rng bo) (omap_ print (compile_binop comp E sctx rng bo)) E.
Proof.
  unfold translate_binop, compile_binop. destruct (bo_operator bo) as [[|dbg]|]; cbn [of_option]; [|node_case..].
  destruct (bo_rhs bo) as [x|]; cbn [of_option obind]; [|node_case].
  destruct (Ident_cast x); cbv iota; node_case.
Qed.

Lemma prints_ifelse E sctx rng ie :
  prints E (translate_ifelse rec sctx rng ie) (omap_ print (compile_ifelse comp E sctx rng ie)) E.
Proof. unfold translate_ifelse, compile_ifelse. node_case. Qed.

Lemma prints_list E sctx l :
  prints E (translate_list rec sctx l) (omap_ print (compile_list comp E sctx l)) E.
Proof.
  unfold translate_list, compile_list. eapply prints_eq.
  - prints_with ltac:(eapply (prints_for_sep _ _ _ _ (comp E (mksctx Nothing Nothing)) print)); [].
    intros n _. apply rec_prints.
  - outcome_eq.
Qed.

Lemma prints_or_default E sctx rng od :
  prints E (translate_or_default rec sctx rng od) (omap_ print (compile_or_default comp E sctx rng od)) E.
Proof. unfold translate_or_default, compile_or_default. node_case. Qed.

Lemma prints_unary_op E rng uo :
  prints E (translate_unary_op rec rng uo) (omap_ print (compile_unary_op comp E rng uo)) E.
Proof. unfold translate_unary_op, compile_unary_op. node_case. Qed.

Lemma prints_value E rng v :
  prints E (translate_value rng v) (omap_ print (compile_value E rng v)) E.
Proof.
  unfold translate_value, compile_value. destruct (v_to_value v) as [[flt|int|s|anch path]|e]; [|node_case..].
  destruct (JsNumber_from_f64 flt); cbn [unwrap]; node_case.
Qed.

Lemma prints_with_scope E rng w :
  prints E (translate_with rec rng w) (omap_ print (compile_with comp E rng w)) E.
Proof.
  unfold translate_with, compile_with. eapply prints_eq.
  - eapply prints_bind; [apply prints_push|intros _]. eapply prints_bind; [apply prints_with_inc|intros _].
    eapply prints_bind; [apply (prints_rtv rec comp rec_prints)|intros _].
    eapply prints_bind; [apply prints_with_dec|intros _]. prints_with node_step.
  - outcome_eq.
Qed.

(** The test for a global name reads the scope only. *)
Lemma prints_global {B} E E' set (k : bool → M B) o :
  prints E (k (is_global E set)) o E' →
  prints E (bind (match Ident_cast set with
     | Some id =>
         r ← gets (λ c, resolve_ident_in c id);
         ret match r with inl (Literal _ | AlBuiltin _) => true | _ => false end
     | None => ret false
     end) k) o E'.
Proof.
  intros Hk c Hc. specialize (Hk c Hc). unfold is_global in Hk.
  destruct (Ident_cast set) as [id|]; [|exact Hk]. subst E. revert Hk.
  unfold bind, gets, ret, resolve_ident_in, resolve. cbn [env_of e_vars e_with].
  destruct (vars_find _ _) as [[]|], (0 <? with_stack c); done.
Qed.

Lemma prints_select E sctx rng sel :
  prints E (translate_select rec sctx rng sel) (omap_ print (compile_select comp E sctx rng sel)) E.
Proof.
  unfold translate_select, compile_select.
  destruct (sel_index sel) as [idx|]; cbn [ok_or of_option obind]; [|node_case].
  destruct (sel_set sel) as [set|]; cbn [ok_or of_option obind]; [|node_case].
  apply prints_bind_ret, prints_bind_ret, prints_global. destruct (is_global E set); node_case.
Qed.

Lemma prints_str_part E p :
  prints E
    (match p with
     | SpLiteral lit => push (escape_str lit)
     | SpAst ast =>
         push "(";;
         rtv rec (mksctx Want Nothing) (node_text_range (si_node ast)) (si_inner ast)
           "inner for str-interpolate";;
         push ")"
     end)
    (omap_ print
      match p with
      | SpLiteral lit => Ok (EText (escape_str lit))
      | SpAst ast =>
          omap_ EParen (compile_opt comp E (mksctx Want Nothing) (node_text_range (si_node ast))
            (si_inner ast) "inner for str-interpolate")
      end) E.
Proof. destruct p; node_case. Qed.

Lemma prints_str E sctx s :
  prints E (translate_str rec sctx s) (omap_ print (compile_str comp E sctx s)) E.
Proof.
  unfold translate_str, compile_str.
  assert (∀ parts, prints E
    (lazyness_incoming sctx Forward Need Front (λ _,
       push "(";;
       for_sep "+" true (List.filter part_nonempty parts)
         (λ i, match i with
               | SpLiteral lit => push (escape_str lit)
               | SpAst ast =>
                   push "(";;
                   rtv rec (mksctx Want Nothing) (node_text_range (si_node ast))
                     (si_inner ast) "inner for str-interpolate";;
                   push ")"
               end);;
       push ")"))
    (omap_ print
      (olet es := otraverse (λ p,
        match p with
        | SpLiteral lit => Ok (EText (escape_str lit))
        | SpAst ast =>
            omap_ EParen (compile_opt comp E (mksctx Want Nothing) (node_text_range (si_node ast))
              (si_inner ast) "inner for str-interpolate")
        end) (List.filter part_nonempty parts) in
      Ok (wrap sctx Forward Need Front (BExpr (EConcat es))))) E) as Hparts.
  { intros parts. eapply prints_eq.
    - apply prints_lazyness. eapply prints_bind; [apply prints_push|intros _].
      eapply prints_bind; [|intros _; apply prints_push].
      eapply (prints_for_sep _ _ _ _ _ print). intros p _. apply prints_str_part.
    - outcome_eq. }
  destruct (s_parts s) as [|[lit|ast] [|p2 ps]]; [apply prints_push..|apply Hparts|apply Hparts|apply Hparts].
Qed.

(** ** Functions *)

Lemma lambda_args_names (ids : list (Ident NixNode)) :
  lambda_args ids = (λ x, (x, LambdaArg)) <$> (ident_as_str <$> ids).
Proof. unfold lambda_args. by rewrite <- list_fmap_compose. Qed.

Lemma compile_ident_arg E ids id :
  id ∈ ids → compile_ident (bind_vars (lambda_args ids) E) None id = Ok (EVar (ident_as_str id)).
Proof.
  intros Hin. unfold compile_ident, resolve. cbn [bind_vars e_vars].
  rewrite lambda_args_names, vars_find_bound; [done|]. apply list_elem_of_fmap. by exists id.
Qed.

Lemma prints_lambda_ident E rng lam y :
  prints E (translate_lambda_ident rec rng lam (length (e_vars E)) y)
    (omap_ (λ b, print_var (ident_as_str y) +:+ "=>(" +:+ print b +:+ ")")
      (compile_opt comp (bind_vars (lambda_args [y]) E) BODY_SCTX rng (lam_body lam) "body for lambda")) E.
Proof.
  unfold translate_lambda_ident. cbv zeta. eapply prints_eq.
  - eapply prints_bind; [apply prints_vars_push|intros _].
    eapply prints_bind; [apply prints_ident|intros _].
    eapply prints_bind; [apply prints_push|intros _].
    eapply prints_bind; [apply (prints_rtv rec comp rec_prints)|intros _].
    eapply prints_bind; [apply prints_vars_restore|intros _]. apply prints_push.
  - change [(ident_as_str y, LambdaArg)] with (lambda_args [y]).
    rewrite compile_ident_arg by left. outcome_eq.
Qed.

Lemma runs_register_entries E dbg l :
  match pattern_entries dbg l with
  | Ok ents => runs E (lambda_register_entries dbg l) (Ok (EmptyString, ents))
                 (bind_vars (lambda_args ents.*1) E)
  | Err e => ∀ E', runs E (lambda_register_entries dbg l) (Err e) E'
  | _ => False
  end.
Proof.
  revert E. induction l as [|i l IH]; intros E; cbn [pattern_entries lambda_register_entries].
  { rewrite bind_vars_nil. apply runs_ret. }
  destruct (pe_name i) as [z|]; cbn [of_option obind]; [|done].
  specialize (IH (bind_vars [(ident_as_str z, LambdaArg)] E)).
  destruct (pattern_entries dbg l) as [ents|e|p|]; cbn [obind]; [|intros E'|done..].
  - eapply runs_eq; [eapply runs_bind; [apply prints_vars_push|intros _]|].
    + eapply runs_bind_runs; [exact IH|intros r]. rewrite bind_vars_app. apply runs_ret.
    + done.
  - eapply runs_eq; [eapply runs_bind; [apply prints_vars_push|intros _]|].
    + eapply (runs_bind_runs _ E' E'); [apply IH|intros r; apply runs_ret].
    + done.
Qed.

Lemma runs_pattern_arg E (at_ : option (Ident NixNode)) :
  runs E
    (match at_ with
     | Some z => vars_push (ident_as_str z) LambdaArg;; translate_node_ident None z
     | None => push NIX_LAMBDA_BOUND;; ret NIX_LAMBDA_BOUND
     end)
    (Ok (print_arg (ident_as_str <$> at_), print_arg (ident_as_str <$> at_)))
    (bind_vars (lambda_args (option_list at_)) E).
Proof.
  destruct at_ as [z|]; simpl; (eapply runs_eq; [eapply runs_bind|]).
  - apply prints_vars_push.
  - intros _. apply runs_ident.
  - change [(ident_as_str z, LambdaArg)] with (lambda_args [z]). by rewrite compile_ident_arg by left.
  - apply prints_push.
  - intros _. rewrite bind_vars_nil. apply runs_ret.
  - done.
Qed.

Definition print_entry (argname : string) (e : string * option expr) : string :=
  let '(z, dfl) := e in
  "let " +:+ print_var z +:+ "=" +:+ NIX_OPERATORS +:+ "._lambdaA2chk(" +:+ argname
  +:+ "," +:+ escape_str z +:+ match dfl with Some d => "," +:+ print d | None => EmptyString end
  +:+ ");".

Lemma prints_bind_entry E argname ids e :
  e.1 ∈ ids →
  let E := bind_vars (lambda_args ids) E in
  prints E (lambda_bind_entry rec argname e)
    (omap_ (print_entry argname)
      (olet d := match e.2 with
        | Some d => omap_ Some (comp E (mksctx Nothing Want) d)
        | None => Ok None
        end in
      Ok (ident_as_str e.1, d))) E.
Proof.
  destruct e as [z dfl]. intros Hin. cbv zeta. cbn [fst snd] in *. unfold lambda_bind_entry. eapply prints_eq.
  - eapply prints_bind; [apply prints_push|intros _].
    eapply prints_bind; [apply prints_ident|intros _].
    eapply prints_bind; [apply prints_push|intros _].
    eapply prints_bind; [apply prints_ident_escape_str|intros _].
    eapply prints_bind; [|intros _; apply prints_push].
    instantiate (1 := match dfl with
      | Some d => omap_ (λ t, "," +:+ print t) (comp (bind_vars (lambda_args ids) E) (mksctx Nothing Want) d)
      | None => Ok EmptyString
      end).
    destruct dfl; [|apply prints_ret]. node_case.
  - rewrite compile_ident_arg by done. unfold print_entry. destruct dfl; outcome_eq.
Qed.

(** The entries and the body of a pattern function, in the scope of its
    names. *)
Lemma prints_pattern_body E rng lam arg ids ents :
  ents.*1 ⊆ ids →
  let E1 := bind_vars (lambda_args ids) E in
  prints E1
    (push "=>{";;
     push (print_arg arg);;
     push "=await ";;
     push (print_arg arg);;
     push ";";;
     for_each ents (lambda_bind_entry rec (print_arg arg));;
     push "return ";;
     rtv rec BODY_SCTX rng (lam_body lam) "body for lambda";;
     vars_restore (length (e_vars E));;
     push "}")
    (olet es := otraverse (λ e,
       olet d := match e.2 with
         | Some d => omap_ Some (comp E1 (mksctx Nothing Want) d)
         | None => Ok None
         end in
       Ok (ident_as_str e.1, d)) ents in
     olet b := compile_opt comp E1 BODY_SCTX rng (lam_body lam) "body for lambda" in
     Ok ("=>{" +:+ print_arg arg +:+ "=await " +:+ print_arg arg +:+ ";"
         +:+ str_join EmptyString (map (print_entry (print_arg arg)) es)
         +:+ "return " +:+ print b +:+ "}")) E.
Proof.
  intros Hids. cbv zeta. eapply prints_eq.
  - do 5 (eapply prints_bind; [apply prints_push|intros _]).
    eapply prints_bind; [|intros _].
    { eapply (prints_for_each _ _ _ _ (print_entry (print_arg arg))). intros e He. apply prints_bind_entry.
      apply Hids, list_elem_of_fmap. by exists e. }
    eapply prints_bind; [apply prints_push|intros _].
    eapply prints_bind; [apply (prints_rtv rec comp rec_prints)|intros _].
    eapply prints_bind; [apply prints_vars_restore|intros _]. apply prints_push.
  - outcome_eq.
Qed.

Lemma prints_lambda_pattern E rng lam y :
  prints E
    (push "(async ";; translate_lambda_pattern rec rng lam (length (e_vars E)) y;; push ")")
    (omap_ print (compile_lambda_pattern comp E rng lam y)) E.
Proof.
  unfold translate_lambda_pattern, compile_lambda_pattern.
  pose proof (runs_register_entries (bind_vars (lambda_args (option_list (pat_at y))) E)
    (pat_debug y) (pat_entries y)) as Hreg.
  destruct (pattern_entries (pat_debug y) (pat_entries y)) as [ents|e|p|] eqn:Hents; cbn [obind]; [| |done..].
  - eapply prints_eq.
    + eapply prints_bind; [apply prints_push|intros _].
      eapply prints_bind; [|intros _; apply prints_push].
      eapply prints_bind_value; [apply runs_pattern_arg|].
      eapply prints_bind_value; [exact Hreg|].
      rewrite bind_vars_app. unfold lambda_args. rewrite <- fmap_app. apply prints_pattern_body.
      intros x Hx. apply elem_of_app. by right.
    + fold (lambda_args (option_list (pat_at y) ++ ents.*1)). outcome_eq.
  - eapply prints_eq.
    + eapply prints_bind; [apply prints_push|intros _].
      eapply (prints_bind _ _ E); [|intros _; apply prints_push].
      eapply prints_bind_value; [apply runs_pattern_arg|].
      apply (prints_bind_err _ E), Hreg.
    + done.
Qed.

Lemma prints_lambda E rng lam :
  prints E (translate_lambda rec rng lam) (omap_ print (compile_lambda comp E rng lam)) E.
Proof.
  unfold translate_lambda, compile_lambda.
  destruct (lam_arg lam) as [argx|]; cbn [ok_or of_option obind]; [|apply prints_bind_throw].
  apply prints_bind_ret, prints_vars_len. destruct (Ident_cast argx) as [y|].
  - eapply prints_eq.
    + eapply prints_bind; [apply prints_push|intros _].
      eapply prints_bind; [apply prints_lambda_ident|intros _; apply prints_push].
    + outcome_eq.
  - destruct (Pattern_cast argx) as [y|]; [apply prints_lambda_pattern|].
    eapply prints_eq; [prints_go|done].
Qed.

(** ** Dispatch *)

Lemma prints_legacy_let E sctx l :
  prints E (translate_legacy_let rec sctx l) (omap_ print (compile_legacy_let comp E sctx l)) E.
Proof.
  unfold translate_legacy_let, compile_legacy_let.
  destruct (_ ≫= _); cbn [of_option obind]; [|apply prints_bind_throw_line].
  apply prints_bind_ret, (prints_let rec comp rec_prints).
Qed.

Lemma prints_let_in E sctx l :
  prints E (translate_let_in rec sctx l) (omap_ print (compile_let_in comp E sctx l)) E.
Proof.
  unfold translate_let_in, compile_let_in.
  destruct (li_body l); cbn [of_option obind]; [|apply prints_bind_throw_line].
  apply prints_bind_ret, (prints_let rec comp rec_prints).
Qed.

Lemma prints_bind_quiet {A B} E (m : M B) (k : M A) o E' :
  prints E m (Ok EmptyString) E → prints E k o E' → prints E (m;; k) o E'.
Proof.
  intros Hm Hk. eapply prints_eq; [eapply prints_bind; [exact Hm|intros _; exact Hk]|].
  by destruct o.
Qed.

Lemma prints_then_tt {A} E (m : M A) o E' : prints E m o E' → prints E (m;; ret tt) o E'.
Proof.
  intros Hm. eapply prints_eq; [eapply prints_bind; [exact Hm|intros _; apply prints_ret]|].
  destruct o; [|done..]. simpl. by rewrite string_app_nil_r.
Qed.

Lemma prints_node_body E sctx n :
  prints E (translate_node_body rec sctx n) (omap_ print (compile_body comp E sctx n)) E.
Proof.
  unfold translate_node_body, compile_body. destruct (node_is_trivia n); [apply prints_ret|]. cbv zeta.
  apply prints_bind_quiet; [apply prints_snapshot_pos|].
  destruct (ParsedType_try_from n) as [x|kind]; [|apply prints_gets_inp, prints_throw].
  destruct x; try (apply (prints_rtv rec comp rec_prints)); try apply prints_panic.
  - apply prints_apply.
  - apply prints_assert.
  - apply (prints_let rec comp rec_prints).
  - apply prints_binop.
  - apply prints_then_tt, prints_ident.
  - apply prints_ifelse.
  - eapply prints_eq; [apply (prints_inherit rec comp rec_prints)|]. by destruct (compile_inherit _ _ _ _ _ _).
  - apply prints_lambda.
  - apply prints_legacy_let.
  - apply prints_let_in.
  - apply prints_list.
  - apply prints_or_default.
  - apply prints_select.
  - apply prints_str.
  - apply prints_unary_op.
  - apply prints_value.
  - apply prints_with_scope.
Qed.
End cases.

(** * The recursion and the entry point *)

Section translate.
Context `{Rnix, Linetrack, Vlq, SerdeJson, StdSort}.

Lemma prints_node fuel E sctx n :
  prints E (translate_node fuel sctx n) (omap_ print (compile fuel E sctx n)) E.
Proof.
  revert E sctx n. induction fuel as [|fuel IH]; intros E sctx n; [done|].
  apply prints_node_body, IH.
Qed.

(** What the specification says about a source text: the tree of the parsed
    expression in the global scope. *)
Definition compile_source (fuel : nat) (s : string) : outcome (list string) expr :=
  let '(errs, root) := rnix_parse s in
  match errs with
  | _ :: _ => Err errs
  | [] =>
      match compile fuel (mkEnv s DFL_VARS 0) (mksctx Nothing Want) root with
      | Ok e => Ok e
      | Err e => Err [e]
      | Panic p => Panic p
      | OutOfFuel => OutOfFuel
      end
  end.

(** The run that [translate] makes. *)
Lemma translate_root_prints fuel s root :
  let o := compile fuel (mkEnv s DFL_VARS 0) (mksctx Nothing Want) root in
  match translate_node fuel (mksctx Nothing Want) root (initial_context s) with
  | (Ok _, c) => ∃ e, o = Ok e ∧ acc c +:+ ";" = translate_header +:+ print e +:+ ";"
  | (Err e, _) => o = Err e
  | (Panic _, _) => True
  | (OutOfFuel, _) => o = OutOfFuel
  end.
Proof.
  intros o. pose proof (prints_node fuel (mkEnv s DFL_VARS 0) (mksctx Nothing Want) root (initial_context s) eq_refl) as Hp.
  fold o in Hp. destruct (translate_node _ _ _ _) as [[u|e|p|] c]; [|by destruct o; simplify_eq/=..].
  destruct Hp as (t & Ht & Ha & _). destruct o as [e|?|?|]; try discriminate Ht. injection Ht as <-.
  exists e. split; [done|]. rewrite Ha. simpl. by rewrite string_app_assoc.
Qed.

Lemma translate_code fuel s inp_name js map :
  translate fuel s inp_name = Ok (js, map) →
  ∃ e, compile fuel (mkEnv s DFL_VARS 0) (mksctx Nothing Want) (snd (rnix_parse s)) = Ok e
    ∧ js = translate_header +:+ print e +:+ ";".
Proof.
  unfold translate. destruct (rnix_parse s) as [[|e es] root]; [|done]. cbn [snd].
  pose proof (translate_root_prints fuel s root) as Hp.
  destruct (translate_node _ _ _ _) as [[u|e|p|] c]; [|done..].
  destruct (is_utf8 _); [|done]. by intros [= <- <-].
Qed.

(** C2. [translate] refines the reference compiler, which is a pure function from
    syntax trees to JavaScript trees without buffers, positions and undo of scopes:
    the JavaScript it returns is the fixed prologue followed by the printed tree,
    whatever the file is called; and it returns an error exactly with the list of
    errors of the reference compiler.  (When the translator panics nothing is
    said; Safety.v bounds the panics.) *)
Theorem translate_refines fuel s inp_name :
  match translate fuel s inp_name with
  | Ok (js, _) => ∃ e, compile_source fuel s = Ok e ∧ js = translate_header +:+ print e +:+ ";"
  | Err es => compile_source fuel s = Err es
  | Panic _ => True
  | OutOfFuel => compile_source fuel s = OutOfFuel
  end.
Proof.
  unfold translate, compile_source. destruct (rnix_parse s) as [[|e es] root]; [|done].
  pose proof (translate_root_prints fuel s root) as Hp.
  destruct (translate_node _ _ _ _) as [[u|e|p|] c]; [|by rewrite Hp|done|by rewrite Hp].
  destruct (is_utf8 _); [|done]. destruct Hp as (e & -> & ->). by exists e.
Qed.
End translate.

(** * The code does not depend on the source map *)

Section independence.
Context `{Rnix, SerdeJson, StdSort}.

Definition same_code (o1 o2 : outcome (list string) (string * string)) : Prop :=
  match o1, o2 with
  | Ok (js1, _), Ok (js2, _) => js1 = js2
  | Err es1, Err es2 => es1 = es2
  | OutOfFuel, OutOfFuel => True
  | Panic _, _ | _, Panic _ => True
  | _, _ => False
  end.

(** C11. The generated code and the errors do not depend on the source map:
    whatever line tracker and whatever number encoding is plugged in, and
    whatever name the file has, the translations of a source agree in the code
    and in the error messages. *)
Theorem translate_code_independent (T1 T2 : Linetrack) (V1 V2 : Vlq) fuel s name1 name2 :
  same_code (translate (H0 := T1) (H1 := V1) fuel s name1) (translate (H0 := T2) (H1 := V2) fuel s name2).
Proof.
  unfold translate. destruct (rnix_parse s) as [[|e es] root]; [|done].
  pose proof (@translate_root_prints _ T1 V1 _ _ fuel s root) as Hp1.
  pose proof (@translate_root_prints _ T2 V2 _ _ fuel s root) as Hp2. cbv zeta in *.
  destruct (@translate_node _ T1 _ _ _ _ _ _ _) as [[?|?|?|] c1],
    (@translate_node _ T2 _ _ _ _ _ _ _) as [[?|?|?|] c2]; try destruct (is_utf8 (mappings c1));
    try destruct (is_utf8 (mappings c2)); simpl; dsimp; try congruence; done.
Qed.
End independence.
