(* ===== verification/JsScope.v ===== *)
(** Static checks on the generated JavaScript: every variable is declared, no
    declaration is repeated, a block assigns its own variables, every [await] is
    inside an async function, and a block follows an arrow.  The trees of the reference compiler pass them, and
    so does the code of the translator, which refines it. *)
From S2P Require Import Prelude Text Externs Consts Context Helpers Idents Let Node Translate Tree Lazyness Names Bindings JsAst Compile Refine RefineNode.
Local Open Scope nix2js_scope.

(** * The checks *)

(** The variable a statement assigns to; a member of an object is none. *)
Definition target_var (t : expr) : option string :=
  match t with EVar x => Some x | _ => None end.

Definition stmt_targets (st : stmt) : list (option string) :=
  match st with
  | SAssign t _ | SMergeVar t _ _ => [target_var t]
  | SMergeIn _ _ _ _ => [None]
  | SInherit _ _ ts => (λ t, target_var t.1) <$> ts
  end.

Definition targets (sts : list stmt) : list (option string) := mjoin (stmt_targets <$> sts).

(** What a JavaScript variable refers to: [vs] are the Nix names declared around
    it, innermost first, and the declaration that is found is the one with the
    same printed name.  It must be the declaration of the Nix name itself. *)
Definition refers (vs : list string) (vn : string) : bool :=
  bool_decide (List.find (λ x, bool_decide (print_var x = print_var vn)) vs = Some vn).

(** No JavaScript variable is declared twice. *)
Definition declared_once (xs : list string) : bool := bool_decide (NoDup (print_var <$> xs)).

(** A block declares each of its variables once, assigns all of them, and assigns
    nothing else. *)
Definition block_ok (xs : list string) (sts : list stmt) : bool :=
  declared_once xs
  && forallb (λ t, match t with Some x => bool_decide (x ∈ xs) | None => false end) (targets sts)
  && forallb (λ x, bool_decide (Some x ∈ targets sts)) xs.

(** [vs] are the Nix names whose variables are in scope; [async] says whether the code is inside an
    async function.  The arrow functions the translator prints are all async. *)
Fixpoint well_formed (async : bool) (vs : list string) (e : expr) : bool :=
  match e with
  | EText _ => true
  | EVar vn => refers vs vn
  | EIndex e k => well_formed async vs e && well_formed_elem async vs k
  | EParen e => well_formed async vs e
  | EAwait e => async && well_formed async vs e
  | ELazy b => well_formed_body vs b
  | EApp f a => well_formed async vs f && well_formed async vs a
  | ECall _ args => forallb (well_formed async vs) args
  | ECond c a b => well_formed async vs c && well_formed async vs a && well_formed async vs b
  | EFun x b => well_formed true (x :: vs) b
  | EFunPat arg entries b =>
      let xs := option_list arg ++ entries.*1 in
      declared_once xs
      && forallb (λ '(_, d), match d with Some d => well_formed true (xs ++ vs) d | None => true end) entries
      && well_formed true (xs ++ vs) b
  | EList es => forallb (well_formed async vs) es
  | EObj fields => forallb (λ '(_, e), well_formed async vs e) fields
  | EConcat es => forallb (well_formed async vs) es
  | EWith ns b => well_formed async vs ns && well_formed true vs b
  | EScope _ sts r => forallb (well_formed_stmt vs) sts && well_formed true vs r
  | EBody _ | EStmts _ => false
  end
with well_formed_elem (async : bool) (vs : list string) (k : elem) : bool :=
  match k with
  | KName _ => true
  | KExpr e => well_formed async vs e
  end
with well_formed_body (vs : list string) (b : body) : bool :=
  match b with
  | BExpr e => well_formed true vs e
  | BAssert _ c b => well_formed true vs c && well_formed true vs b
  | BLet xs sts r =>
      block_ok xs sts && forallb (well_formed_stmt (xs ++ vs)) sts && well_formed true (xs ++ vs) r
  end
with well_formed_stmt (vs : list string) (st : stmt) : bool :=
  match st with
  | SAssign t e => well_formed true vs t && well_formed true vs e
  | SMergeIn _ k e path =>
      well_formed_elem true vs k && well_formed true vs e && forallb (well_formed_elem true vs) path
  | SMergeVar t e path =>
      well_formed true vs t && well_formed true vs e && forallb (well_formed_elem true vs) path
  | SInherit _ e ts => well_formed true vs e && forallb (λ '(t, _), well_formed true vs t) ts
  end.

(** * The programs *)

Section programs.
Context `{Rnix}.

Definition is_identifier (n : NixNode) : bool := bool_decide (is_Some (Ident_cast n)).

Definition is_variable (n : NixNode) : bool :=
  match ParsedType_try_from n with inl (PtIdent _) => true | _ => false end.

(** What the parser promises of the nodes of a program: a node that can be cast to
    an identifier is of that type, [inherit] occurs only in bindings, and a
    pattern names each variable once. *)
Definition ident_agrees (n : NixNode) : bool :=
  match Ident_cast n with
  | Some id =>
      match ParsedType_try_from n with
      | inl (PtIdent id') => bool_decide (ident_as_str id' = ident_as_str id)
      | _ => false
      end
  | None => true
  end.

Definition node_shape (n : NixNode) : bool :=
  ident_agrees n &&
  match ParsedType_try_from n with
  | inl (PtInherit _) => false
  | inl (PtLambda lam) =>
      match lam_arg lam ≫= Pattern_cast with
      | Some p => bool_decide (NoDup (ident_as_str <$> pattern_idents p))
      | None => true
      end
  | _ => true
  end.

(** The identifiers of a node can be told apart after the replacements of
    [translate_node_ident_raw]: none has a quote followed by an underscore, nor a
    dollar sign, which no Nix identifier has. *)
Definition names_apart (n : NixNode) : bool :=
  forallb (λ id, mangle_safe (ident_as_str id)) (node_idents n).

(** A number, a path, a constant string or a function. *)
Definition is_atomic (n : NixNode) : bool :=
  match ParsedType_try_from n with
  | inl (PtValue _) | inl (PtLambda _) => true
  | inl (PtStr s) => match s_parts s with [] | [SpLiteral _] => true | _ => false end
  | _ => false
  end.

Definition opt_all (P : NixNode → bool) (o : option NixNode) : bool :=
  match o with Some n => P n | None => true end.

(** The operators that are printed without a promise around them, on a path from
    the root on which nothing else starts a function: their operands must not
    need an [await]. *)
Fixpoint starts_sync (fuel : nat) (n : NixNode) : bool :=
  match fuel with
  | O => false
  | S fuel =>
      let holder h b scope :=
        match entries h, inherits h with
        | [], [] => match b with LbNix b => starts_sync fuel b | ExtractScope => true end
        | _, _ => negb (let_is_object h b scope)
                  || forallb (λ i, opt_all (starts_sync fuel) (kv_value i)) (entries h)
        end in
      match ParsedType_try_from n with
      | inl pt =>
          match pt with
          | PtUnaryOp uo => opt_all (λ m, is_atomic m || is_variable m) (uo_value uo)
          | PtBinOp bo =>
              match bo_operator bo with
              | Some IsSet => opt_all is_atomic (bo_lhs bo)
                              && opt_all (λ m, is_atomic m || is_identifier m) (bo_rhs bo)
              | _ => true
              end
          | PtWith w => opt_all is_atomic (with_namespace w)
          | PtSelect sel => opt_all (λ m, is_atomic m || is_identifier m) (sel_index sel)
          | PtStrInterpol si => opt_all is_atomic (si_inner si)
          | PtAttrSet ars =>
              holder (ars_holder ars) ExtractScope
                (if ars_recursive ars then NIX_IN_SCOPE else "nixAttrsScope")
          | PtLegacyLet l =>
              match List.find entry_is_body (entries (ll_holder l)) ≫= kv_value with
              | Some b => holder (ll_holder l) (LbNix b) NIX_IN_SCOPE
              | None => true
              end
          | PtLetIn l =>
              match li_body l with
              | Some b => holder (li_holder l) (LbNix b) NIX_IN_SCOPE
              | None => true
              end
          | PtDynamic d => opt_all (starts_sync fuel) (d_inner d)
          | PtInheritFrom inhf => opt_all (starts_sync fuel) (inhf_inner inhf)
          | PtParen p => opt_all (starts_sync fuel) (p_inner p)
          | PtRoot r => opt_all (starts_sync fuel) (r_inner r)
          | _ => true
          end
      | inr _ => true
      end
  end.
End programs.

(** * Scopes and contexts *)

Definition name_safe (vn : string) : Prop := mangle_safe vn = true.

Lemma print_var_inj x y : name_safe x → name_safe y → print_var x = print_var y → x = y.
Proof.
  intros Hx Hy Heq. apply (inj (String.append NIX_LAMBDA_ARG_PFX)) in Heq.
  by rewrite <- (unmangle_mangle x), <- (unmangle_mangle y), Heq.
Qed.

Lemma refers_elem vs vn : Forall name_safe vs → vn ∈ vs → refers vs vn = true.
Proof.
  intros Hs Hin. apply bool_decide_eq_true.
  assert (name_safe vn) as Hvn by (by eapply Forall_forall).
  induction Hs as [|x vs Hx Hs IH]; [by apply elem_of_nil in Hin|]. simpl.
  case_bool_decide as Heq; [f_equal; by apply print_var_inj|].
  apply elem_of_cons in Hin as [->|Hin]; [done|by apply IH].
Qed.

Lemma declared_once_safe xs : Forall name_safe xs → NoDup xs → declared_once xs = true.
Proof.
  intros Hs Hnd. apply bool_decide_eq_true, NoDup_fmap_2_strong; [|done].
  rewrite Forall_forall in Hs. intros x y Hx Hy. apply print_var_inj; by apply Hs.
Qed.

(** Every variable of the environment that is printed as a JavaScript variable is
    declared, and the declared names can be told apart. *)
Definition covers (E : env) (vs : list string) : Prop :=
  Forall name_safe vs
  ∧ ∀ vn k, vars_find (e_vars E) vn = Some k → k = LambdaArg ∨ k = LetLetVar → vn ∈ vs.

Lemma vars_find_app_inv a b vn k :
  vars_find (a ++ b) vn = Some k → vn ∈ b.*1 ∨ vars_find a vn = Some k.
Proof.
  unfold vars_find. rewrite rev_app_distr. intros Hf.
  assert (∀ l, List.find (λ '(i, _), bool_decide (vn = i)) (rev b ++ l)
    = match List.find (λ '(i, _), bool_decide (vn = i)) (rev b) with
      | Some x => Some x | None => List.find (λ '(i, _), bool_decide (vn = i)) l end) as Happ.
  { clear Hf. intros l. induction (rev b) as [|[x j] r IH]; [done|]. simpl. destruct (bool_decide _); [done|exact IH]. }
  rewrite Happ in Hf. destruct (List.find _ (rev b)) as [[x j]|] eqn:Hb; [|by right].
  left. apply find_some in Hb as [Hin Hx]. apply bool_decide_eq_true in Hx as ->.
  apply in_rev, list_elem_of_In in Hin. by apply (list_elem_of_fmap_2 fst _ (x, j)).
Qed.

Lemma covers_bind E vs ws xs :
  covers E vs → Forall name_safe xs → ws.*1 ⊆ xs → covers (bind_vars ws E) (xs ++ vs).
Proof.
  intros [Hs Hc] Hxs Hw. split; [by apply Forall_app|]. intros vn k Hf Hk. apply elem_of_app. apply vars_find_app_inv in Hf as [Hf|Hf]; [left; by apply Hw|].
  right. by eapply Hc.
Qed.

(** Names of a scope object are printed as members. *)
Lemma covers_members E vs ws :
  covers E vs → Forall (λ v, v.2 = LetInScopeVar) ws → covers (bind_vars ws E) vs.
Proof.
  intros Hc Hw. revert E Hc. induction Hw as [|[x j] ws Hj _ IH]; intros E Hc; [by rewrite bind_vars_nil|].
  rewrite bind_vars_cons. apply IH. simpl in Hj. subst j. destruct Hc as [Hs Hc]. split; [done|].
  intros vn k Hf Hk. apply (Hc vn k); [|done].
  simpl in Hf. rewrite vars_find_snoc in Hf. case_bool_decide; [|done]. injection Hf as <-. by destruct Hk.
Qed.

Lemma covers_with E vs : covers E vs → covers (enter_with E) vs.
Proof. done. Qed.

(** The contexts the translator passes down: outside of an async function no
    await is wanted and a promise is. *)
Definition ctx_ok (async : bool) (sctx : StackCtx) : Prop :=
  lazy_st sctx ≠ Did ∧ (async = true ∨ sctx = mksctx Nothing Want).

(** The body of an old-style [let] is the value of one of its entries. *)
Lemma legacy_body_child `{Rnix} (h : EntryHolder NixNode) b :
  List.find entry_is_body (entries h) ≫= kv_value = Some b → b ∈ holder_children h.
Proof.
  intros Hb. destruct (List.find _ _) as [i|] eqn:Hfind; [|done]. simpl in Hb.
  apply find_some in Hfind as [Hin _]. apply elem_of_app. left. apply list_elem_of_join.
  exists (kv_children i). split; [|by apply list_elem_of_fmap_2, list_elem_of_In].
  unfold kv_children. rewrite Hb. apply elem_of_app. right. by left.
Qed.

(** * Trees of wrapped code *)

Definition wf_plain (async : bool) (vs : list string) (b : body) : bool :=
  match b with BExpr e => well_formed async vs e | _ => false end.

(** A wrapper is well formed when the code it wraps is, at the place where the
    wrapper puts it. *)
Lemma wf_wrap async vs sctx await_tr lazy_tr adj b :
  ctx_ok async sctx → await_tr ≠ Force →
  (prints_lazy sctx await_tr lazy_tr adj = true → lazy_through await_tr adj = true →
     well_formed_body vs b = true) →
  (prints_lazy sctx await_tr lazy_tr adj = true → lazy_through await_tr adj = false →
     wf_plain true vs b = true) →
  (prints_lazy sctx await_tr lazy_tr adj = false → wf_plain async vs b = true) →
  well_formed async vs (wrap sctx await_tr lazy_tr adj b) = true.
Proof.
  intros [_ Ha] Hf H1 H2 H3. unfold wrap.
  assert (prints_await sctx await_tr = true → async = true) as Haw.
  { destruct Ha as [-> | ->]; [done|]. by destruct await_tr. }
  assert (∀ e, well_formed async vs e = true →
    well_formed async vs (if prints_await sctx await_tr then EAwait e else e) = true) as Hif.
  { intros e He. destruct (prints_await _ _); [|done]. simpl. by rewrite He, Haw. }
  apply Hif. destruct (prints_lazy _ _ _ _); simpl.
  - destruct (lazy_through _ _); simpl; [by apply H1|]. specialize (H2 eq_refl eq_refl). by destruct b.
  - specialize (H3 eq_refl). by destruct b.
Qed.

Definition is_expr (b : body) : bool := match b with BExpr _ => true | _ => false end.

(** In an async function it is enough that the code is well formed there; a
    block needs a promise around it. *)
Lemma wf_wrap_expr async vs sctx await_tr lazy_tr adj e :
  ctx_ok async sctx → await_tr ≠ Force → well_formed true vs e = true →
  async = true ∨ prints_lazy (mksctx Nothing Want) await_tr lazy_tr adj = true →
  well_formed async vs (wrap sctx await_tr lazy_tr adj (BExpr e)) = true.
Proof.
  intros Hs Hf He Hl. apply wf_wrap; [done..|]. intros Hz. simpl.
  destruct Hl as [-> |Hl]; [done|]. destruct Hs as [_ [-> | ->]]; [done|]. by rewrite Hz in Hl.
Qed.

Lemma wf_wrap_force async vs sctx await_tr b :
  ctx_ok async sctx → well_formed_body vs b = true → await_tr = Forward ∨ await_tr = Flush →
  well_formed async vs (wrap sctx await_tr Force Front b) = true.
Proof.
  intros [Hd Ha] Hb Ht. apply wf_wrap; [done|by destruct Ht as [-> | ->]|done|by destruct Ht as [-> | ->]|].
  intros Hz. exfalso. destruct sctx as [[] []], Ht as [-> | ->]; done.
Qed.

Lemma wf_wrap_forward async vs sctx e :
  ctx_ok async sctx → well_formed async vs e = true →
  well_formed async vs (wrap sctx Forward Forward Front (BExpr e)) = true.
Proof. intros Hs He. apply wf_wrap; [done|done| | |done]; destruct sctx as [[] []]; done. Qed.

Lemma wf_wrap_scope async vs sctx e :
  ctx_ok async sctx → well_formed async vs e = true →
  well_formed async vs (wrap sctx Need Forward Front (BExpr e)) = true.
Proof. intros Hs He. apply wf_wrap; [done|done| | |done]; destruct sctx as [[] []]; done. Qed.

(** ** Outcomes *)

Lemma otraverse_forallb {A B} (f : A → outcome string B) (P : B → bool) l ys :
  otraverse f l = Ok ys → (∀ x y, x ∈ l → f x = Ok y → P y = true) → forallb P ys = true.
Proof.
  revert ys. induction l as [|x l IH]; intros ys Hl Hf; simpl in *; [by injection Hl as <-|].
  destruct (f x) as [y|?|?|] eqn:Hx; [|done..]. simpl in Hl.
  destruct (otraverse f l) as [zs|?|?|]; [|done..]. injection Hl as <-. simpl.
  rewrite (Hf x y ltac:(by left) Hx). apply IH; [done|]. intros z w Hz. apply Hf. by right.
Qed.

Lemma otraverse_fmap {A B D} (f : A → outcome string B) (g : B → D) (h : A → D) l ys :
  otraverse f l = Ok ys → (∀ x y, f x = Ok y → g y = h x) → g <$> ys = h <$> l.
Proof.
  intros Hl Hf. revert ys Hl. induction l as [|x l IH]; intros ys Hl; simpl in *; [by injection Hl as <-|].
  destruct (f x) as [y|?|?|] eqn:Hx; [|done..]. simpl in Hl.
  destruct (otraverse f l) as [zs|?|?|]; [|done..]. injection Hl as <-.
  rewrite fmap_cons, (Hf x y Hx). f_equal. by apply IH.
Qed.
