(* ===== verification/JsScopeNode.v ===== *)
(** The generated code passes the checks of JsScope.v: the cases, and the theorem
    about [translate]. *)
From S2P Require Import Prelude Text Externs Consts Context Helpers Idents Let Node Translate Tree Lazyness Names Bindings JsAst Compile Refine RefineNode JsScope.
Local Open Scope nix2js_scope.

Section cases.
Context `{Rnix, SerdeJson, StdSort}.
Context (comp : env → StackCtx → NixNode → outcome string expr).
Context (ok sync : NixNode → Prop).

(** What is known of the recursive calls. *)
Context (comp_wf : ∀ async E vs sctx n e,
  comp E sctx n = Ok e → ok n → ctx_ok async sctx → (async = false → sync n) → covers E vs →
  well_formed async vs e = true).
Context (comp_atomic : ∀ async E vs sctx n e,
  comp E sctx n = Ok e → ok n → is_atomic n = true → covers E vs → well_formed async vs e = true).
Context (comp_variable : ∀ async E vs n e,
  comp E (mksctx Nothing Nothing) n = Ok e → ok n → is_variable n = true → covers E vs →
  well_formed async vs e = true).

Context (ok_ident : ∀ n, ok n → is_identifier n = true → is_variable n = true).
Context (ok_name : ∀ n id, ok n → Ident_cast n = Some id → name_safe (ident_as_str id)).

(** Invert a successful outcome. *)
Local Ltac outcome_inv := cbv beta in *; repeat match goal with
  | Hx : obind ?m _ = Ok _ |- _ =>
      lazymatch m with Ok _ => cbn [obind] in Hx | _ =>
        let Hy := fresh "Hm" in destruct m eqn:Hy; cbn [obind] in Hx; [|discriminate Hx..] end
  | Hx : omap_ _ _ = Ok _ |- _ => unfold omap_ in Hx
  | Hx : Ok _ = Ok _ |- _ => injection Hx as Hx; try subst
  | Hx : Err _ = Ok _ |- _ => discriminate Hx
  | Hx : of_option _ ?o = Ok _ |- _ =>
      let Hy := fresh "Ho" in destruct o eqn:Hy; cbn [of_option] in Hx
  | Hx : (_, _) = (_, _) |- _ => injection Hx as Hx; try subst
  end.
Local Ltac by_child Hc := intros; apply Hc; cbn; rewrite ?elem_of_app; tauto.

Lemma ctx_ok_async sctx : lazy_st sctx ≠ Did → ctx_ok true sctx.
Proof. by split; [|left]. Qed.

Lemma wf_opt async E vs sctx rng x desc e :
  compile_opt comp E sctx rng x desc = Ok e → (∀ m, m ∈ option_list x → ok m) → ctx_ok async sctx →
  (async = false → ∀ m, x = Some m → sync m) → covers E vs → well_formed async vs e = true.
Proof.
  destruct x as [n|]; [|done]. intros Hx Hok Hs Ha Hc. eapply comp_wf; [exact Hx|by apply Hok; left|done|auto|done].
Qed.

(** Inside of an async function. *)
Lemma wf_opt_async E vs sctx rng x desc e :
  compile_opt comp E sctx rng x desc = Ok e → (∀ m, m ∈ option_list x → ok m) → lazy_st sctx ≠ Did →
  covers E vs → well_formed true vs e = true.
Proof. intros Hx Hok Hs Hc. eapply wf_opt; [exact Hx|done|by apply ctx_ok_async|done|done]. Qed.

Lemma wf_var_expr async E vs id k :
  covers E vs → resolve E id = Ok k → well_formed async vs (var_expr (ident_as_str id) k) = true.
Proof.
  intros [Hs Hc] Hr. unfold resolve in Hr. destruct (vars_find _ _) as [j|] eqn:Hf.
  - injection Hr as ->. destruct k; try done; simpl; (apply refers_elem; [done|]); eapply Hc; eauto.
  - destruct (0 <? _); [|done]. by injection Hr as <-.
Qed.

Lemma wf_ident async E vs sctx id e :
  compile_ident E sctx id = Ok e → covers E vs →
  (∀ s, sctx = Some s → await_st s = Want → async = true) → well_formed async vs e = true.
Proof.
  intros He Hc Ha. unfold compile_ident in He. outcome_inv.
  pose proof (wf_var_expr async E vs id a Hc Hm) as Hv. destruct sctx as [s|]; [|done].
  unfold await_var. destruct a; try done; (case_bool_decide as Hw; [|done]);
    cbn [well_formed]; rewrite Hv, (Ha s eq_refl Hw); done.
Qed.

Lemma wf_ident_ctx async E vs sctx id e :
  compile_ident E (Some sctx) id = Ok e → covers E vs → ctx_ok async sctx → well_formed async vs e = true.
Proof. intros He Hc [_ Ha]. eapply wf_ident; [done|done|]. intros s [= <-] Hw. by destruct Ha as [-> | ->]. Qed.

Lemma wf_elem E vs k x :
  compile_elem comp E k = Ok x → ok k → covers E vs → well_formed_elem true vs x = true.
Proof.
  unfold compile_elem. destruct (Ident_cast k) as [id|]; intros Hx Hk Hc; outcome_inv; [done|].
  simpl. eapply comp_wf; [done|done|by apply ctx_ok_async|done|done].
Qed.

Lemma wf_target E vs k scope t :
  compile_target comp E k scope = Ok t → ok k → covers E vs → well_formed true vs t = true.
Proof.
  unfold compile_target. destruct scope as [s|]; intros Ht Hk Hc; outcome_inv.
  - simpl. by eapply wf_elem.
  - by eapply wf_ident.
Qed.

Lemma wf_path E vs l ys :
  otraverse (compile_elem comp E) l = Ok ys → (∀ m, m ∈ l → ok m) → covers E vs →
  forallb (well_formed_elem true vs) ys = true.
Proof. intros Hl Hok Hc. eapply otraverse_forallb; [done|]. intros x y Hx Hy. by eapply wf_elem; eauto. Qed.

(** ** Bindings *)

Lemma wf_kv E vs sctx i scope st :
  compile_kv comp E sctx i scope = Ok st → (∀ m, m ∈ kv_children i → ok m) → lazy_st sctx ≠ Did →
  covers E vs → well_formed_stmt vs st = true.
Proof.
  unfold compile_kv, kv_children. intros Hst Hok Hs Hc.
  destruct (kv_key i) as [[[|k ks]]|]; cbn [obind] in Hst; try discriminate Hst.
  destruct (kv_value i) as [v|]; cbn [of_option obind] in Hst; [|discriminate Hst].
  assert (ok k) by (apply Hok; left).
  assert (ok v) as Hv by (apply Hok; cbn; rewrite elem_of_cons, elem_of_app; right; right; by left).
  assert (∀ m, m ∈ ks → ok m) as Hks by (intros; apply Hok; cbn; rewrite elem_of_cons, elem_of_app; auto).
  assert (∀ e, comp E sctx v = Ok e → well_formed true vs e = true) as Hve
    by (intros e He; eapply comp_wf; [done|done|by apply ctx_ok_async|done|done]).
  destruct ks as [|k2 ks]; [|destruct scope]; outcome_inv; simpl; repeat (apply andb_true_iff; split);
    try (by eapply wf_target); try (by apply Hve); try (by eapply wf_elem); by eapply (wf_path _ _ (k2 :: ks)).
Qed.

Lemma wf_inherit E vs sctx i scope tmp sts :
  compile_inherit comp E sctx i scope tmp = Ok sts → (∀ m, m ∈ inherit_children i → ok m) →
  lazy_st sctx ≠ Did → covers E vs → forallb (well_formed_stmt vs) sts = true.
Proof.
  unfold compile_inherit, inherit_children. intros Hi Hok Hs Hc.
  assert (∀ id, id ∈ inh_idents i → ok (ident_node id)) as Hid.
  { intros id Hin. apply Hok, elem_of_app. left. by apply list_elem_of_fmap_2. }
  destruct (inh_from i) as [inhf|].
  - assert (∀ m, m ∈ option_list (inhf_inner inhf) → ok m) as Hin by (by_child Hok).
    assert (∀ ids sts, (∀ id, id ∈ ids → ok (ident_node id)) →
      (let ctx := mksctx Nothing Want in
       olet e := compile_opt comp E (inner_ctx ctx Forward Flush Front) (node_text_range (inhf_node inhf))
                   (inhf_inner inhf) "inner for inherit-from" in
       olet ts := otraverse (λ id, olet t := compile_target comp E (ident_node id) scope in
                                   Ok (t, ident_as_str id)) ids in
       Ok [SInherit tmp (wrap ctx Forward Flush Front (BExpr e)) ts]) = Ok sts →
      forallb (well_formed_stmt vs) sts = true) as Hmany.
    { clear Hi Hid sts. intros ids sts Hid Hi. cbv zeta in Hi. outcome_inv. cbn [forallb well_formed_stmt].
      rewrite wf_wrap_expr; [|by apply ctx_ok_async|done|by eapply wf_opt_async|by left].
      rewrite andb_true_r. eapply otraverse_forallb; [done|].
      intros id [t x] Hx Ht. outcome_inv. eapply wf_target; [done|by apply Hid|done]. }
    destruct (inh_idents i) as [|id [|id2 ids]]; [by apply (Hmany [])| |by apply (Hmany (id :: id2 :: ids))].
    outcome_inv. cbn [forallb well_formed_stmt]. rewrite !andb_true_r. apply andb_true_iff. split.
    + eapply wf_target; [done|apply Hid; left|done].
    + apply wf_wrap_expr; [by apply ctx_ok_async|done| |by left].
      cbn. rewrite andb_true_r. by eapply wf_opt_async.
  - eapply otraverse_forallb; [done|]. intros id st Hx Hst. outcome_inv. simpl.
    apply andb_true_iff. split; [by eapply wf_target; eauto|].
    eapply wf_ident_ctx; [done|done|by apply ctx_ok_async].
Qed.

Lemma holder_entry_ok h i m :
  (∀ m, m ∈ holder_children h → ok m) → i ∈ entries h → m ∈ kv_children i → ok m.
Proof.
  intros Hok Hi Hm. apply Hok, elem_of_app. left. apply list_elem_of_join. exists (kv_children i).
  split; [done|]. by apply list_elem_of_fmap_2.
Qed.

Lemma holder_inherit_ok h i m :
  (∀ m, m ∈ holder_children h → ok m) → i ∈ inherits h → m ∈ inherit_children i → ok m.
Proof.
  intros Hok Hi Hm. apply Hok, elem_of_app. right. apply list_elem_of_join. exists (inherit_children i).
  split; [done|]. by apply list_elem_of_fmap_2.
Qed.

Lemma wf_inherits E vs sctx h scope sts :
  compile_inherits comp E sctx h scope = Ok sts → (∀ m, m ∈ holder_children h → ok m) →
  lazy_st sctx ≠ Did → covers E vs → forallb (well_formed_stmt vs) sts = true.
Proof.
  unfold compile_inherits. intros Hi Hok Hs Hc. outcome_inv. rewrite forallb_mjoin.
  eapply otraverse_forallb; [done|]. intros [n i] st Hx Hst. outcome_inv. eapply wf_inherit; [done| |done|done].
  intros m Hmem. eapply holder_inherit_ok; [done| |done].
  unfold enumerate in Hx. by apply elem_of_zip_r in Hx.
Qed.

Lemma wf_entries E vs sctx h scope sts :
  otraverse (λ i, compile_kv comp E sctx i scope) (entries h) = Ok sts →
  (∀ m, m ∈ holder_children h → ok m) → lazy_st sctx ≠ Did → covers E vs →
  forallb (well_formed_stmt vs) sts = true.
Proof.
  intros Hi Hok Hs Hc. eapply otraverse_forallb; [done|]. intros i st Hx Hst. cbv beta in Hst. eapply wf_kv; [done| |done|done].
  intros m Hmem. by eapply holder_entry_ok.
Qed.

Lemma wf_return E vs b scope e :
  compile_return comp E b scope = Ok e → (∀ n, b = LbNix n → ok n) → covers E vs →
  well_formed true vs e = true.
Proof.
  destruct b as [n|]; simpl; intros He Hok Hc; [|by injection He as <-].
  eapply comp_wf; [done|by apply Hok|by apply ctx_ok_async|done|done].
Qed.

Lemma wf_let_object async E vs body_sctx h e :
  compile_let_object comp E body_sctx (mksctx Nothing Want) h = Ok e →
  (∀ m, m ∈ holder_children h → ok m) → ctx_ok async body_sctx →
  (async = false → ∀ i v, i ∈ entries h → kv_value i = Some v → sync v) → covers E vs →
  well_formed async vs e = true.
Proof.
  unfold compile_let_object. intros He Hok Hs Ha Hc. outcome_inv. apply wf_wrap_forward; [done|].
  assert (ctx_ok async (mksctx Nothing Want)) as Hv by (by split; [|right]).
  cbn [well_formed]. apply forallb_app_true; (eapply otraverse_forallb; [done|]).
  - intros i [k x] Hi Hx. unfold compile_field in Hx. outcome_inv.
    unfold ounwrap in *. repeat case_match; simplify_eq.
    eapply comp_wf; [done| |done|eauto|done]. eapply holder_entry_ok; [done..|].
    unfold kv_children. apply elem_of_app. right. destruct (kv_value i); simplify_eq. by left.
  - intros [id inhf] [k x] Hi Hx. unfold compile_inherited_field in Hx. cbn [fst snd] in Hx.
    apply list_elem_of_join in Hi as (l & Hi & Hl). apply list_elem_of_fmap in Hl as (inh & -> & Hinh).
    apply list_elem_of_fmap in Hi as (id' & [= -> ->] & Hid).
    destruct (inh_from inh) as [x'|] eqn:Hfrom; outcome_inv; [|by eapply wf_ident_ctx].
    apply wf_wrap_expr; [done|done| |by right]. cbn. rewrite andb_true_r. eapply wf_opt_async; [done| |done|done].
    intros m Hmem. eapply holder_inherit_ok; [done..|]. unfold inherit_children. rewrite Hfrom.
    apply elem_of_app. by right.
Qed.

(** ** The variables of a block *)

Lemma compile_target_var E keys k t :
  compile_target comp (bind_vars ((λ x, (x, LetLetVar)) <$> keys) E) k None = Ok t →
  (∀ x, cast_name k = Some x → x ∈ keys) →
  target_var t = cast_name k ∧ is_Some (cast_name k).
Proof.
  unfold compile_target, cast_name. intros Ht Hk. destruct (Ident_cast k) as [id|]; cbn [of_option obind] in Ht; [|done].
  unfold compile_ident, resolve in Ht. cbn [bind_vars e_vars] in Ht.
  rewrite vars_find_bound in Ht by (by apply Hk). cbn [obind] in Ht. by injection Ht as <-.
Qed.

Lemma kv_targets E keys sctx i st :
  compile_kv comp (bind_vars ((λ x, (x, LetLetVar)) <$> keys) E) sctx i None = Ok st →
  (∀ k x, k ∈ match kv_key i with Some j => option_list (head (key_path j)) | None => [] end →
     cast_name k = Some x → x ∈ keys) →
  ∃ k, match kv_key i with Some j => head (key_path j) | None => None end = Some k
    ∧ stmt_targets st = [cast_name k] ∧ is_Some (cast_name k).
Proof.
  unfold compile_kv. cbv zeta. intros Hst Hk.
  destruct (kv_key i) as [[[|k ks]]|]; cbn [obind] in Hst; try discriminate Hst.
  destruct (kv_value i) as [v|]; cbn [of_option obind] in Hst; [|discriminate Hst].
  exists k. split; [done|]. destruct ks; outcome_inv; cbn [stmt_targets];
    (edestruct compile_target_var as [-> ?]; [done|intros x; apply Hk; by left|done]).
Qed.

(** The targets of a list of statements, from the names of the parts. *)
Lemma otraverse_names {X B} (f : X → outcome string B) (tg : B → list (option string)) (nm : X → list (option string)) l ys :
  otraverse f l = Ok ys →
  (∀ x y, x ∈ l → f x = Ok y → tg y = nm x ∧ Forall is_Some (nm x)) →
  mjoin (tg <$> ys) = mjoin (nm <$> l) ∧ Forall is_Some (mjoin (nm <$> l)).
Proof.
  intros Hl Hf. revert ys Hl. induction l as [|x l IH]; intros ys Hl; cbn [otraverse] in Hl.
  { injection Hl as <-. split; [done|constructor]. }
  outcome_inv. destruct (Hf x a) as [Ht Hs]; [by left|done|].
  destruct (IH ltac:(intros; apply Hf; [by right|done]) _ eq_refl) as [IHt IHs].
  rewrite !fmap_cons, !mjoin_cons, Ht, IHt. split; [done|]. by apply Forall_app.
Qed.

Lemma inherit_targets E keys sctx i tmp sts :
  compile_inherit comp (bind_vars ((λ x, (x, LetLetVar)) <$> keys) E) sctx i None tmp = Ok sts →
  (∀ id x, id ∈ inh_idents i → cast_name (ident_node id) = Some x → x ∈ keys) →
  targets sts = (λ id, cast_name (ident_node id)) <$> inh_idents i
  ∧ Forall is_Some ((λ id, cast_name (ident_node id)) <$> inh_idents i).
Proof.
  unfold compile_inherit, targets. intros Hi Hk.
  assert (∀ (ids : list (Ident NixNode)) t id, (∀ id x, id ∈ ids → cast_name (ident_node id) = Some x → x ∈ keys) → id ∈ ids →
    compile_target comp (bind_vars ((λ x, (x, LetLetVar)) <$> keys) E) (ident_node id) None = Ok t →
    [target_var t] = [cast_name (ident_node id)] ∧ Forall is_Some [cast_name (ident_node id)]) as Htarget.
  { intros ids t id Hids Hin Ht. edestruct compile_target_var as [-> ?]; [done|intros x; by apply Hids|].
    split; [done|]. by constructor. }
  destruct (inh_from i) as [inhf|]; cbv zeta in Hi.
  - assert (∀ (ids : list (Ident NixNode)) sts, (∀ id x, id ∈ ids → cast_name (ident_node id) = Some x → x ∈ keys) →
      (olet e := compile_opt comp (bind_vars ((λ x, (x, LetLetVar)) <$> keys) E)
                   (inner_ctx (mksctx Nothing Want) Forward Flush Front) (node_text_range (inhf_node inhf))
                   (inhf_inner inhf) "inner for inherit-from" in
       olet ts := otraverse (λ id,
         olet t := compile_target comp (bind_vars ((λ x, (x, LetLetVar)) <$> keys) E) (ident_node id) None in
         Ok (t, ident_as_str id)) ids in
       Ok [SInherit tmp (wrap (mksctx Nothing Want) Forward Flush Front (BExpr e)) ts]) = Ok sts →
      mjoin (stmt_targets <$> sts) = (λ id, cast_name (ident_node id)) <$> ids
      ∧ Forall is_Some ((λ id, cast_name (ident_node id)) <$> ids)) as Hmany.
    { clear Hi sts Hk. intros ids sts Hk Hi. outcome_inv. cbn [fmap list_fmap stmt_targets mjoin list_join].
      rewrite app_nil_r, <- (mjoin_singletons (λ t, target_var t.1)),
        <- (mjoin_singletons (λ id, cast_name (ident_node id))).
      eapply otraverse_names; [done|]. intros id [t x] Hin Ht. outcome_inv. by eapply Htarget. }
    destruct (inh_idents i) as [|id [|id2 ids]]; [by apply (Hmany [])| |by apply (Hmany (id :: id2 :: ids))].
    outcome_inv. cbn [fmap list_fmap stmt_targets mjoin list_join app].
    eapply (Htarget [id]); [done|by left|done].
  - rewrite <- (mjoin_singletons (λ id, cast_name (ident_node id))). eapply otraverse_names; [done|]. intros id st Hin Hst. outcome_inv.
    by eapply Htarget.
Qed.

Definition head_key (i : KeyValue NixNode) : option NixNode :=
  match kv_key i with Some j => head (key_path j) | None => None end.

Lemma omap_head_keys (f : NixNode → option string) (l : list (KeyValue NixNode)) :
  f <$> omap head_key l = mjoin ((λ i, f <$> option_list (head_key i)) <$> l).
Proof.
  induction l as [|i l IH]; [done|]. rewrite fmap_cons, mjoin_cons, <- IH. simpl.
  by destruct (head_key i).
Qed.

Lemma enumerate_snd {A B} (g : A → B) l : (λ p, g p.2) <$> enumerate l = g <$> l.
Proof.
  unfold enumerate. generalize 0. induction l as [|x l IH]; intros n; [done|]. simpl. by rewrite IH.
Qed.

Lemma mjoin_names (l : list (Inherit NixNode)) :
  cast_name <$> (ident_node <$> mjoin (inh_idents <$> l))
  = mjoin ((λ i, (λ id, cast_name (ident_node id)) <$> inh_idents i) <$> l).
Proof.
  induction l as [|i l IH]; [done|]. rewrite !fmap_cons, !mjoin_cons, !fmap_app, IH.
  by rewrite <- list_fmap_compose.
Qed.

Lemma targets_app a b : targets (a ++ b) = targets a ++ targets b.
Proof. unfold targets. by rewrite fmap_app, join_app. Qed.

Lemma targets_join l : targets (mjoin l) = mjoin (targets <$> l).
Proof. induction l as [|x l IH]; [done|]. by rewrite fmap_cons, !mjoin_cons, targets_app, IH. Qed.

Lemma let_targets E keys sctx h sts inhs :
  (∀ k x, k ∈ key_nodes h → cast_name k = Some x → x ∈ keys) →
  let E' := bind_vars ((λ x, (x, LetLetVar)) <$> keys) E in
  otraverse (λ i, compile_kv comp E' sctx i None) (entries h) = Ok sts →
  compile_inherits comp E' sctx h None = Ok inhs →
  targets (sts ++ inhs) = cast_name <$> key_nodes h ∧ Forall is_Some (cast_name <$> key_nodes h).
Proof.
  cbv zeta. intros Hk Hs Hi.
  assert (targets sts = cast_name <$> omap head_key (entries h)
    ∧ Forall is_Some (cast_name <$> omap head_key (entries h))) as [Hs1 Hs2].
  { rewrite omap_head_keys. eapply otraverse_names; [exact Hs|]. intros i st Hin Hst.
    apply kv_targets in Hst as (k & Hkey & Ht & Hsome).
    - unfold head_key. rewrite Hkey, Ht. split; [done|]. by constructor.
    - intros k x Hkx. apply Hk, elem_of_app. left. apply list_elem_of_omap. exists i. split; [done|].
      destruct (kv_key i) as [j|]; [|by apply elem_of_nil in Hkx]. destruct (head (key_path j)); [|by apply elem_of_nil in Hkx].
      by apply list_elem_of_singleton in Hkx as ->. }
  unfold compile_inherits in Hi. outcome_inv.
  assert (mjoin (targets <$> a) = mjoin ((λ p, (λ id, cast_name (ident_node id)) <$> inh_idents p.2) <$> enumerate (inherits h))
    ∧ Forall is_Some (mjoin ((λ p, (λ id, cast_name (ident_node id)) <$> inh_idents p.2) <$> enumerate (inherits h)))) as [Hi1 Hi2].
  { eapply otraverse_names; [done|]. intros [n i] st Hin Hst. eapply inherit_targets; [exact Hst|].
    intros id x Hid. apply Hk, elem_of_app. right. apply list_elem_of_fmap_2, list_elem_of_join.
    exists (inh_idents i). split; [done|]. apply list_elem_of_fmap_2. unfold enumerate in Hin.
    by apply elem_of_zip_r in Hin. }
  rewrite (enumerate_snd (λ i, (λ id, cast_name (ident_node id)) <$> inh_idents i)), <- mjoin_names in Hi1, Hi2. rewrite targets_app, targets_join, Hs1, Hi1.
  change (key_nodes h) with (omap head_key (entries h) ++ (ident_node <$> mjoin (inh_idents <$> inherits h))).
  rewrite fmap_app. split; [done|]. by apply Forall_app.
Qed.

Lemma key_node_child (h : EntryHolder NixNode) k : k ∈ key_nodes h → k ∈ holder_children h.
Proof.
  intros [Hk|Hk]%elem_of_app; apply elem_of_app.
  - left. apply list_elem_of_omap in Hk as (i & Hi & Hk). apply list_elem_of_join.
    exists (kv_children i). split; [|by apply list_elem_of_fmap_2]. unfold kv_children.
    apply elem_of_app. left. destruct (kv_key i) as [j|]; [|done].
    destruct (key_path j); [done|]. injection Hk as ->. by left.
  - right. apply list_elem_of_fmap in Hk as (id & -> & Hid). apply list_elem_of_join in Hid as (l & Hid & Hl).
    apply list_elem_of_fmap in Hl as (i & -> & Hi). apply list_elem_of_join. exists (inherit_children i).
    split; [|by apply list_elem_of_fmap_2]. unfold inherit_children. apply elem_of_app. left.
    by apply list_elem_of_fmap_2.
Qed.

(** The names of a block can be told apart. *)
Lemma keys_safe `{!StdSortLaws} (h : EntryHolder NixNode) :
  (∀ m, m ∈ holder_children h → ok m) → Forall name_safe (snd <$> getkeys h).
Proof.
  intros Hok. apply Forall_forall. intros x Hx. apply getkeys_elem in Hx.
  apply list_elem_of_fmap in Hx as (k & Hc & Hk). unfold cast_name in Hc.
  destruct (Ident_cast k) as [id|] eqn:Hid; [|done]. injection Hc as ->.
  eapply ok_name; [|done]. by apply Hok, key_node_child.
Qed.

Lemma wf_let_block `{!StdSortLaws} E sctx h sts inhs :
  let keys := snd <$> getkeys h in
  let E' := bind_vars ((λ x, (x, LetLetVar)) <$> keys) E in
  (∀ m, m ∈ holder_children h → ok m) →
  otraverse (λ i, compile_kv comp E' sctx i None) (entries h) = Ok sts →
  compile_inherits comp E' sctx h None = Ok inhs →
  block_ok keys (sts ++ inhs) = true.
Proof.
  cbv zeta. intros Hok Hs Hi.
  destruct (let_targets E (snd <$> getkeys h) sctx h sts inhs) as [Ht Hsome]; [|done|done|].
  { intros k x Hin Hx. apply getkeys_elem. rewrite <- Hx. by apply list_elem_of_fmap_2. }
  unfold block_ok. rewrite Ht, declared_once_safe by (by apply keys_safe || apply getkeys_nodup).
  rewrite !andb_true_iff, !forallb_forall. split_and!; [done| |].
  - intros t Hin%list_elem_of_In. rewrite Forall_forall in Hsome. destruct (Hsome t Hin) as [x ->].
    apply bool_decide_eq_true. by apply getkeys_elem.
  - intros x Hx%list_elem_of_In. apply bool_decide_eq_true. by apply getkeys_elem.
Qed.

Lemma wf_let_variables `{!StdSortLaws} async E vs body_sctx sctx h b scope e :
  compile_let_variables comp E body_sctx sctx h b scope = Ok e →
  (∀ m, m ∈ holder_children h → ok m) → (∀ n, b = LbNix n → ok n) → ctx_ok async body_sctx →
  lazy_st sctx ≠ Did → covers E vs → well_formed async vs e = true.
Proof.
  unfold compile_let_variables. cbv zeta. intros He Hok Hb Hs Hl Hc. outcome_inv.
  apply wf_wrap_force; [done| |by left]. cbn [well_formed_body].
  assert (covers (bind_vars ((λ x, (x, LetLetVar)) <$> (snd <$> getkeys h)) E) ((snd <$> getkeys h) ++ vs)) as Hc'.
  { apply covers_bind; [done|by apply keys_safe|]. rewrite <- list_fmap_compose. by rewrite list_fmap_id. }
  erewrite wf_let_block by done. cbn [andb].
  apply andb_true_iff. split; [|by eapply wf_return].
  apply forallb_app_true; [by eapply wf_entries|by eapply wf_inherits].
Qed.

Lemma wf_let_scope async E vs body_sctx sctx h b scope e :
  compile_let_scope comp E body_sctx sctx h b scope = Ok e →
  (∀ m, m ∈ holder_children h → ok m) → (∀ n, b = LbNix n → ok n) → ctx_ok async body_sctx →
  lazy_st sctx ≠ Did → covers E vs → well_formed async vs e = true.
Proof.
  unfold compile_let_scope. cbv zeta. intros He Hok Hb Hs Hl Hc. outcome_inv.
  apply wf_wrap_scope; [done|]. cbn [well_formed].
  set (E' := if bool_decide _ then _ else E) in *.
  assert (covers E' vs) as Hc'.
  { subst E'. case_bool_decide; [|done]. apply covers_members; [done|].
    apply Forall_forall. intros v Hv. by apply list_elem_of_fmap in Hv as (k & -> & _). }
  apply andb_true_iff. split; [|by eapply wf_return].
  apply forallb_app_true; [by eapply wf_entries|by eapply wf_inherits].
Qed.

(** The condition of [starts_sync] on a [let]. *)
Definition let_sync (h : EntryHolder NixNode) (b : LetBody NixNode) (scope : string) : Prop :=
  (entries h = [] → inherits h = [] → ∀ n, b = LbNix n → sync n)
  ∧ (let_is_object h b scope = true → ∀ i v, i ∈ entries h → kv_value i = Some v → sync v).

Lemma wf_let `{!StdSortLaws} async E vs body_sctx h b scope e :
  compile_let comp E body_sctx true h b scope = Ok e →
  (∀ m, m ∈ holder_children h → ok m) → (∀ n, b = LbNix n → ok n) → ctx_ok async body_sctx →
  (async = false → let_sync h b scope) → covers E vs → well_formed async vs e = true.
Proof.
  intros He Hok Hb Hs Ha Hc. unfold compile_let in He. cbv zeta in He.
  assert ((if let_is_object h b scope then compile_let_object comp E body_sctx (mksctx Nothing Want) h
      else if let_is_variables h b scope
           then compile_let_variables comp E body_sctx (mksctx Nothing Want) h b scope
           else compile_let_scope comp E body_sctx (mksctx Nothing Want) h b scope) = Ok e →
    well_formed async vs e = true) as Hlet.
  { destruct (let_is_object h b scope) eqn:Hobj; [|destruct (let_is_variables h b scope)]; intros Hx.
    - eapply wf_let_object; [done..| |done]. intros Hf. by apply Ha.
    - by eapply wf_let_variables.
    - by eapply wf_let_scope. }
  destruct (entries h) as [|x l] eqn:Hen, (inherits h) as [|y l'] eqn:Hin; auto.
  destruct b as [n|]; [|by injection He as <-].
  eapply comp_wf; [done|by apply Hb|done| |done]. intros Hf. by apply Ha.
Qed.

(** ** The kinds of nodes *)

Local Ltac in_async := first [by left | by right].
Local Ltac wrapped := apply wf_wrap_expr; [assumption|discriminate| |in_async]; cbn [well_formed forallb].
Local Ltac conj := repeat (apply andb_true_iff; split); try reflexivity.
Local Ltac sub Hc := eapply wf_opt_async; [eassumption|by_child Hc|discriminate|assumption].

Lemma wf_apply async E vs sctx rng app e :
  compile_apply comp E sctx rng app = Ok e → (∀ m, m ∈ pt_children (PtApply app) → ok m) →
  ctx_ok async sctx → covers E vs → well_formed async vs e = true.
Proof. unfold compile_apply. intros He Hok Hs Hc. outcome_inv. wrapped. conj; sub Hok. Qed.

Lemma wf_assert async E vs sctx rng art e :
  compile_assert comp E sctx rng art = Ok e → (∀ m, m ∈ pt_children (PtAssert art) → ok m) →
  ctx_ok async sctx → covers E vs → well_formed async vs e = true.
Proof.
  unfold compile_assert. intros He Hok Hs Hc. destruct (art_condition art) as [cond|] eqn:Hcond; [|done].
  cbn [of_option obind] in He. cbv zeta in He. outcome_inv. apply wf_wrap_force; [done| |by right].
  cbn [well_formed_body]. conj; [|sub Hok].
  eapply comp_wf; [done| |by apply ctx_ok_async|done|done]. apply Hok. cbn. rewrite Hcond. by left.
Qed.

Lemma wf_binop async E vs sctx rng bo e :
  compile_binop comp E sctx rng bo = Ok e → (∀ m, m ∈ pt_children (PtBinOp bo) → ok m) →
  ctx_ok async sctx → covers E vs →
  (async = false → bo_operator bo = Some IsSet →
     opt_all is_atomic (bo_lhs bo) = true
     ∧ opt_all (λ m, is_atomic m || is_identifier m) (bo_rhs bo) = true) →
  well_formed async vs e = true.
Proof.
  unfold compile_binop. intros He Hok Hs Hc Ha.
  destruct (bo_operator bo) as [[|dbg]|]; cbn [of_option obind] in He; [| |done].
  - assert (∀ m e, ok m → comp E (mksctx Want Nothing) m = Ok e →
      (async = false → is_atomic m = true) → well_formed async vs e = true) as Hop.
    { intros m e' Hmem He' Hat. destruct async.
      - eapply comp_wf; [done|done|by apply ctx_ok_async|done|done].
      - eapply comp_atomic; [done|done|by apply Hat|done]. }
    destruct (bo_lhs bo) as [l|] eqn:Hl; [|done]. cbn [compile_opt] in He.
    destruct (bo_rhs bo) as [r|] eqn:Hr; cbn [of_option] in He; outcome_inv.
    cbn [well_formed forallb]. conj.
    + eapply Hop; [|done|by intros Hf; apply Ha]. apply Hok. cbn. rewrite Hl. by left.
    + destruct (Ident_cast r) eqn:Hid; [by outcome_inv|].
      eapply Hop; [|done|]. { apply Hok. cbn. rewrite Hl, Hr. right. by left. }
      intros Hf. destruct (Ha Hf eq_refl) as [_ Hat]. simpl in Hat. unfold is_identifier in Hat.
      rewrite Hid, orb_false_r in Hat. done.
  - outcome_inv. wrapped. conj; sub Hok.
Qed.

Lemma wf_ifelse async E vs sctx rng ie e :
  compile_ifelse comp E sctx rng ie = Ok e → (∀ m, m ∈ pt_children (PtIfElse ie) → ok m) →
  ctx_ok async sctx → covers E vs → well_formed async vs e = true.
Proof.
  unfold compile_ifelse. cbv zeta. intros He Hok Hs Hc. outcome_inv. wrapped.
  assert (lazy_st (inner_ctx sctx Flush Flush Front) ≠ Did)
    by (destruct Hs as [Hs _], sctx as [[] []]; done).
  conj; (eapply wf_opt_async; [eassumption|by_child Hok|done|assumption]).
Qed.

Lemma wf_list async E vs sctx l e :
  compile_list comp E sctx l = Ok e → (∀ m, m ∈ pt_children (PtList l) → ok m) →
  ctx_ok async sctx → covers E vs → well_formed async vs e = true.
Proof.
  unfold compile_list. intros He Hok Hs Hc. outcome_inv. wrapped. eapply otraverse_forallb; [done|].
  intros x y Hx Hy. eapply comp_wf; [done|by apply Hok|by apply ctx_ok_async|done|done].
Qed.

Lemma wf_or_default async E vs sctx rng od e :
  compile_or_default comp E sctx rng od = Ok e → (∀ m, m ∈ pt_children (PtOrDefault od) → ok m) →
  ctx_ok async sctx → covers E vs → well_formed async vs e = true.
Proof. unfold compile_or_default. intros He Hok Hs Hc. outcome_inv. wrapped. conj; sub Hok. Qed.

Lemma wf_elem_sync async E vs k x :
  compile_elem comp E k = Ok x → ok k → covers E vs →
  (async = false → is_atomic k || is_identifier k = true) → well_formed_elem async vs x = true.
Proof.
  intros Hx Hk Hc Ha. destruct async; [by eapply wf_elem|]. specialize (Ha eq_refl).
  unfold compile_elem in Hx. unfold is_identifier in Ha. destruct (Ident_cast k); outcome_inv; [done|].
  rewrite orb_false_r in Ha. simpl. by eapply comp_atomic.
Qed.

Lemma wf_select async E vs sctx rng sel e :
  compile_select comp E sctx rng sel = Ok e → (∀ m, m ∈ pt_children (PtSelect sel) → ok m) →
  ctx_ok async sctx → covers E vs →
  (async = false → opt_all (λ m, is_atomic m || is_identifier m) (sel_index sel) = true) →
  well_formed async vs e = true.
Proof.
  unfold compile_select. intros He Hok Hs Hc Ha. cbn in Hok.
  destruct (sel_index sel) as [idx|]; cbn [of_option obind] in He; [|done].
  destruct (sel_set sel) as [set|]; cbn [of_option obind] in He; [|done].
  assert (ok set) as Hset by (apply Hok; left). assert (ok idx) as Hidx by (apply Hok; right; left).
  destruct (is_global E set) eqn:Hg; cbv beta iota in He; outcome_inv.
  - apply wf_wrap_forward; [done|]. cbn [well_formed]. conj; [|by eapply wf_elem_sync].
    eapply comp_variable; [done|done| |done]. apply ok_ident; [done|]. unfold is_global in Hg.
    unfold is_identifier. by destruct (Ident_cast set).
  - wrapped. conj; [|by eapply wf_elem]. eapply comp_wf; [done|done|by apply ctx_ok_async|done|done].
Qed.

Lemma wf_str async E vs sctx s e :
  compile_str comp E sctx s = Ok e → (∀ m, m ∈ pt_children (PtStr s) → ok m) →
  ctx_ok async sctx → covers E vs → well_formed async vs e = true.
Proof.
  intros He Hok Hs Hc. unfold compile_str in He.
  assert (∀ parts, (∀ m p, p ∈ parts → m ∈ str_part_children p → ok m) →
    (olet es := otraverse (λ p,
        match p with
        | SpLiteral lit => Ok (EText (escape_str lit))
        | SpAst ast =>
            omap_ EParen (compile_opt comp E (mksctx Want Nothing) (node_text_range (si_node ast))
              (si_inner ast) "inner for str-interpolate")
        end) (List.filter part_nonempty parts) in
      Ok (wrap sctx Forward Need Front (BExpr (EConcat es)))) = Ok e →
    well_formed async vs e = true) as Hparts.
  { clear He. intros parts Hp He. outcome_inv. wrapped. eapply otraverse_forallb; [done|].
    intros p y Hx Hy. cbv beta in Hy. destruct p as [lit|ast]; outcome_inv; [done|]. cbn [well_formed].
    eapply wf_opt_async; [done| |done|done]. intros m Hmem. apply (Hp m (SpAst ast)); [|done].
    apply list_elem_of_In, filter_In in Hx as [Hx _]. by apply list_elem_of_In. }
  assert (∀ m p, p ∈ s_parts s → m ∈ str_part_children p → ok m) as Hp.
  { intros m p Hp Hm. apply Hok. cbn. apply list_elem_of_join. exists (str_part_children p).
    split; [done|]. by apply list_elem_of_fmap_2. }
  destruct (s_parts s) as [|[lit|ast] [|p2 ps]]; [by injection He as <-..| | |]; by eapply Hparts.
Qed.

Lemma wf_value async E vs rng v e : compile_value E rng v = Ok e → well_formed async vs e = true.
Proof.
  unfold compile_value. intros He. destruct (v_to_value v) as [[flt|?|?|?]|?]; [|by injection He as <-..|done].
  destruct (JsNumber_from_f64 flt); [by injection He as <-|done].
Qed.

Lemma wf_with async E vs rng w e :
  compile_with comp E rng w = Ok e → (∀ m, m ∈ pt_children (PtWith w) → ok m) → covers E vs →
  (async = false → opt_all is_atomic (with_namespace w) = true) → well_formed async vs e = true.
Proof.
  unfold compile_with. intros He Hok Hc Ha. outcome_inv. cbn [well_formed]. conj.
  - destruct async; [sub Hok|]. destruct (with_namespace w) as [ns|] eqn:Hns; [|done].
    eapply comp_atomic; [done| |by apply Ha|done]. apply Hok. cbn. rewrite Hns. apply elem_of_app. right. by left.
  - eapply wf_opt_async; [eassumption|by_child Hok|done|by apply covers_with].
Qed.

(** ** Functions *)

Lemma pattern_entries_spec dbg (l : list (PatEntry NixNode)) ents :
  pattern_entries dbg l = Ok ents →
  ents.*1 = mjoin ((λ e, option_list (pe_name e)) <$> l)
  ∧ ∀ e d, e ∈ ents → e.2 = Some d → d ∈ mjoin ((λ e, option_list (pe_default e)) <$> l).
Proof.
  revert ents. induction l as [|i l IH]; intros ents; cbn [pattern_entries].
  { intros [= <-]. split; [done|]. by intros e d ?%elem_of_nil. }
  destruct (pe_name i) as [z|] eqn:Hz; cbn [of_option obind]; [|done].
  destruct (pattern_entries dbg l) as [r|?|?|]; cbn [obind]; [|done..]. intros [= <-].
  destruct (IH r eq_refl) as [Hn Hd']. split.
  - rewrite !fmap_cons. cbn [mjoin list_join]. rewrite Hz, Hn. done.
  - intros e d [->|He]%elem_of_cons Hd; rewrite fmap_cons; cbn; apply elem_of_app; [left|right; eauto].
    simpl in Hd. rewrite Hd. by left.
Qed.

Lemma covers_args E vs (ids : list (Ident NixNode)) :
  covers E vs → Forall name_safe (ident_as_str <$> ids) →
  covers (bind_vars (lambda_args ids) E) ((ident_as_str <$> ids) ++ vs).
Proof. intros Hc Hs. apply covers_bind; [done..|]. unfold lambda_args. by rewrite <- list_fmap_compose. Qed.

Lemma wf_lambda_pattern async E vs rng lam y e :
  compile_lambda_pattern comp E rng lam y = Ok e → (∀ m, m ∈ option_list (lam_body lam) → ok m) →
  (∀ m, m ∈ pattern_children y → ok m) → NoDup (ident_as_str <$> pattern_idents y) →
  Forall name_safe (ident_as_str <$> pattern_idents y) →
  covers E vs → well_formed async vs e = true.
Proof.
  unfold compile_lambda_pattern. intros He Hok Hdfl Hnd Hsafe Hc.
  destruct (pattern_entries _ _) as [ents|?|?|] eqn:Hents; cbn [obind] in He; [|done..].
  apply pattern_entries_spec in Hents as [Hnames Hdefaults].
  set (ids := option_list (pat_at y) ++ ents.*1) in *.
  assert (ids = pattern_idents y) as Hpat by (subst ids; by rewrite Hnames). rewrite <- Hpat in Hnd, Hsafe.
  assert (covers (bind_vars (lambda_args ids) E) ((ident_as_str <$> ids) ++ vs)) as Hc' by (by apply covers_args).
  cbv zeta in He. outcome_inv.
  assert (option_list (ident_as_str <$> pat_at y) ++ a.*1 = ident_as_str <$> ids) as Hids.
  { subst ids. rewrite fmap_app. f_equal; [by destruct (pat_at y)|].
    rewrite <- list_fmap_compose. eapply otraverse_fmap; [done|]. intros x w Hx. by outcome_inv. }
  cbn [well_formed]. rewrite Hids. conj.
  - by apply declared_once_safe.
  - eapply otraverse_forallb; [done|]. intros x [k d] Hx Hd. destruct (x.2) as [dn|] eqn:Hd2; outcome_inv; [|done].
    eapply comp_wf; [done| |by apply ctx_ok_async|done|done]. apply Hdfl. by eapply Hdefaults.
  - eapply wf_opt_async; [done|done|done|done].
Qed.

Lemma wf_lambda async E vs rng lam e :
  compile_lambda comp E rng lam = Ok e → (∀ m, m ∈ option_list (lam_body lam) → ok m) →
  (∀ y, lam_arg lam ≫= Ident_cast = Some y → name_safe (ident_as_str y)) →
  (∀ y, lam_arg lam ≫= Pattern_cast = Some y →
     (∀ m, m ∈ pattern_children y → ok m) ∧ NoDup (ident_as_str <$> pattern_idents y)
     ∧ Forall name_safe (ident_as_str <$> pattern_idents y)) →
  covers E vs → well_formed async vs e = true.
Proof.
  unfold compile_lambda. intros He Hok Hid Hpat Hc.
  destruct (lam_arg lam) as [argx|]; cbn [of_option obind] in He; [|done]. simpl in Hid, Hpat.
  destruct (Ident_cast argx) as [y|].
  - cbv zeta in He. outcome_inv. cbn [well_formed].
    eapply wf_opt_async; [done|done|done|]. apply (covers_args E vs [y]); [done|].
    constructor; [by apply Hid|constructor].
  - destruct (Pattern_cast argx) as [y|]; [|done]. destruct (Hpat y eq_refl) as (? & ? & ?). by eapply wf_lambda_pattern.
Qed.

Lemma wf_legacy_let `{!StdSortLaws} async E vs sctx l e :
  compile_legacy_let comp E sctx l = Ok e → (∀ m, m ∈ pt_children (PtLegacyLet l) → ok m) →
  ctx_ok async sctx → covers E vs →
  (async = false → ∀ b, List.find entry_is_body (entries (ll_holder l)) ≫= kv_value = Some b →
     let_sync (ll_holder l) (LbNix b) NIX_IN_SCOPE) →
  well_formed async vs e = true.
Proof.
  unfold compile_legacy_let. intros He Hok Hs Hc Ha.
  destruct (List.find entry_is_body (entries (ll_holder l)) ≫= kv_value) as [b|] eqn:Hb;
    cbn [of_option obind] in He; [|done].
  eapply wf_let; [done|done| |done|by intros; apply Ha|done].
  intros m [= <-]. apply Hok. by apply legacy_body_child.
Qed.

Lemma wf_let_in `{!StdSortLaws} async E vs sctx l e :
  compile_let_in comp E sctx l = Ok e → (∀ m, m ∈ pt_children (PtLetIn l) → ok m) →
  ctx_ok async sctx → covers E vs →
  (async = false → ∀ b, li_body l = Some b → let_sync (li_holder l) (LbNix b) NIX_IN_SCOPE) →
  well_formed async vs e = true.
Proof.
  unfold compile_let_in. intros He Hok Hs Hc Ha. cbn in Hok.
  destruct (li_body l) as [b|]; cbn [of_option obind] in He; [|done].
  eapply wf_let; [done| | |done|by intros; apply Ha|done].
  - intros m Hm. apply Hok, elem_of_app. by left.
  - intros m [= <-]. apply Hok, elem_of_app. right. by left.
Qed.

Lemma wf_str_interpol async E vs rng x desc e :
  compile_opt comp E (mksctx Want Nothing) rng x desc = Ok e → (∀ m, m ∈ option_list x → ok m) →
  covers E vs → (async = false → opt_all is_atomic x = true) → well_formed async vs e = true.
Proof.
  destruct x as [m|]; [|done]. intros He Hok Hc Ha. destruct async.
  - by eapply wf_opt_async.
  - eapply comp_atomic; [done|by apply Hok; left|by apply Ha|done].
Qed.

Lemma wf_unary_op async E vs rng uo e :
  compile_unary_op comp E rng uo = Ok e → (∀ m, m ∈ option_list (uo_value uo) → ok m) →
  covers E vs →
  (async = false → opt_all (λ m, is_atomic m || is_variable m) (uo_value uo) = true) →
  well_formed async vs e = true.
Proof.
  unfold compile_unary_op. intros He Hok Hc Ha. outcome_inv. cbn [well_formed forallb]. rewrite andb_true_r.
  destruct async; [by eapply wf_opt_async|]. specialize (Ha eq_refl).
  destruct (uo_value uo) as [m|]; [|done]. assert (ok m) by (apply Hok; by left).
  simpl in Ha. apply orb_true_iff in Ha as [Ha|Ha]; [by eapply comp_atomic|by eapply comp_variable].
Qed.
End cases.

(** * The recursion *)

Section recursion.
Context `{Rnix, SerdeJson, StdSort, !StdSortLaws}.

(** What the parser promises, and names that can be told apart. *)
Definition well_shaped : NixNode → Prop := everywhere (λ n, node_shape n && names_apart n = true).

Lemma well_shaped_names n id : well_shaped n → id ∈ node_idents n → name_safe (ident_as_str id).
Proof.
  intros [Hn _] Hid. apply andb_true_iff in Hn as [_ Hn]. unfold names_apart in Hn.
  rewrite forallb_forall in Hn. by apply Hn, list_elem_of_In.
Qed.

Lemma well_shaped_name n id : well_shaped n → Ident_cast n = Some id → name_safe (ident_as_str id).
Proof.
  intros Hn Hid. eapply well_shaped_names; [done|]. unfold node_idents. rewrite Hid. by left.
Qed.

Lemma well_shaped_ident n : well_shaped n → is_identifier n = true → is_variable n = true.
Proof.
  intros [Hn _] Hi. unfold node_shape in Hn. apply andb_true_iff in Hn as [[Hn _]%andb_true_iff _].
  unfold ident_agrees, is_identifier, is_variable in *. destruct (Ident_cast n); [|done].
  by destruct (ParsedType_try_from n) as [[]|].
Qed.

(** What the cases use of the recursive calls: code in a context for its place,
    an atomic node anywhere, and a variable where nothing is wanted. *)
Definition context_wf (fuel : nat) : Prop :=
  ∀ async E vs sctx n e,
    compile fuel E sctx n = Ok e → well_shaped n → ctx_ok async sctx →
    (async = false → starts_sync fuel n = true) → covers E vs → well_formed async vs e = true.
Definition atomic_wf (fuel : nat) : Prop :=
  ∀ async E vs sctx n e,
    compile fuel E sctx n = Ok e → well_shaped n → is_atomic n = true → covers E vs →
    well_formed async vs e = true.
Definition variable_wf (fuel : nat) : Prop :=
  ∀ async E vs n e,
    compile fuel E (mksctx Nothing Nothing) n = Ok e → well_shaped n → is_variable n = true →
    covers E vs → well_formed async vs e = true.

Lemma let_sync_holder fuel (h : EntryHolder NixNode) b scope :
  match entries h, inherits h with
  | [], [] => match b with LbNix b => starts_sync fuel b | ExtractScope => true end
  | _, _ => negb (let_is_object h b scope)
            || forallb (λ i, opt_all (starts_sync fuel) (kv_value i)) (entries h)
  end = true →
  let_sync (λ n, starts_sync fuel n = true) h b scope.
Proof.
  intros Hh. split.
  - intros He Hi n ->. by rewrite He, Hi in Hh.
  - intros Ho i v Hi Hv. destruct (entries h) as [|x l] eqn:He; [by apply elem_of_nil in Hi|].
    rewrite Ho in Hh. simpl in Hh. change (forallb (λ i, opt_all (starts_sync fuel) (kv_value i)) (x :: l) = true) in Hh.
    rewrite forallb_forall in Hh. specialize (Hh i (proj1 (list_elem_of_In _ _) Hi)). by rewrite Hv in Hh.
Qed.

Lemma variable_wf_step fuel : variable_wf (S fuel).
Proof.
  intros async E vs n e He _ Hv Hc. cbn [compile] in He. unfold compile_body in He.
  destruct (node_is_trivia n); [by injection He as <-|]. cbv zeta in He. unfold is_variable in Hv.
  destruct (ParsedType_try_from n) as [[]|]; try done. eapply wf_ident; [done|done|by intros s [= <-]].
Qed.

Lemma wf_lambda_node fuel async E vs n lam rng e :
  context_wf fuel → ParsedType_try_from n = inl (PtLambda lam) → well_shaped n → covers E vs →
  compile_lambda (compile fuel) E rng lam = Ok e → well_formed async vs e = true.
Proof.
  intros IH Hpt Hok Hc He. pose proof (λ id, well_shaped_names n id Hok) as Hnames. destruct Hok as [Hn Hch].
  unfold node_shape in Hn. apply andb_true_iff in Hn as [[_ Hn]%andb_true_iff _].
  unfold node_children in Hch. unfold node_idents in Hnames. rewrite Hpt in Hn, Hch, Hnames.
  eapply (wf_lambda _ well_shaped _ IH); [done| | | |done].
  - intros m Hm. apply Hch, elem_of_app. by left.
  - intros y Hy. apply Hnames. rewrite Hy. apply elem_of_app. right. by left.
  - intros y Hy. rewrite Hy in Hn, Hch. apply bool_decide_eq_true in Hn.
    split_and!; [|done|].
    + intros m Hm. apply Hch, elem_of_app. by right.
    + rewrite Hy in Hnames. apply Forall_fmap, Forall_forall. intros id Hid. apply Hnames.
      rewrite !elem_of_app. auto.
Qed.

Lemma atomic_wf_step fuel : context_wf fuel → atomic_wf (S fuel).
Proof.
  intros IH async E vs sctx n e He Hn Ha Hc. cbn [compile] in He. unfold compile_body in He.
  destruct (node_is_trivia n); [by injection He as <-|]. cbv zeta in He. unfold is_atomic in Ha.
  destruct (ParsedType_try_from n) as [[]|] eqn:Hpt; try done; [by eapply wf_lambda_node| |by eapply wf_value].
  unfold compile_str in He. destruct (s_parts _) as [|[lit|ast] [|p2 ps]]; try done; by injection He as <-.
Qed.

Lemma context_wf_step fuel :
  context_wf fuel → atomic_wf fuel → variable_wf fuel → context_wf (S fuel).
Proof.
  intros Hwf Hatomic Hvariable async E vs sctx n e He Hn Hs Ha Hc. pose proof Hn as [Hshape Hch].
  cbn [compile] in He. unfold compile_body in He. destruct (node_is_trivia n); [by injection He as <-|].
  cbv zeta in He. unfold node_children in Hch. apply andb_true_iff in Hshape as [Hshape _]. unfold node_shape in Hshape. cbn [starts_sync] in Ha.
  destruct (ParsedType_try_from n) as [pt|kind] eqn:Hpt; [|done].
  assert (∀ x desc, compile_opt (compile fuel) E sctx (node_text_range n) x desc = Ok e →
    (∀ m, m ∈ option_list x → well_shaped m) →
    (async = false → opt_all (starts_sync fuel) x = true) → well_formed async vs e = true) as Hopt.
  { intros x desc Hx Hok Hx'. eapply (wf_opt _ well_shaped (λ n, starts_sync fuel n = true)); [done..| |done].
    intros Hf m ->. by apply Hx'. }
  destruct pt as [app|art|ars|bo|d| |id|ie|inh|inhf|?|?|lam|l|l|l|od|p|?|?|?|?|r|sel|s|si|uo|v|w];
    try discriminate He; try (by rewrite andb_false_r in Hshape); try (by eapply Hopt).
  - by eapply (wf_apply _ well_shaped _ Hwf).
  - by eapply (wf_assert _ well_shaped _ Hwf).
  - eapply (wf_let _ well_shaped _ Hwf well_shaped_name); [done|done|done|done| |done].
    intros Hf. apply let_sync_holder. by apply Ha.
  - eapply (wf_binop _ well_shaped _ Hwf Hatomic); [done..|]. intros Hf Ho. specialize (Ha Hf).
    rewrite Ho in Ha. by apply andb_true_iff in Ha.
  - by eapply wf_ident_ctx.
  - by eapply (wf_ifelse _ well_shaped _ Hwf).
  - by eapply wf_lambda_node.
  - eapply (wf_legacy_let _ well_shaped _ Hwf well_shaped_name); [done..|]. intros Hf b Hb. specialize (Ha Hf).
    rewrite Hb in Ha. by apply let_sync_holder.
  - eapply (wf_let_in _ well_shaped _ Hwf well_shaped_name); [done..|]. intros Hf b Hb. specialize (Ha Hf).
    rewrite Hb in Ha. by apply let_sync_holder.
  - by eapply (wf_list _ well_shaped _ Hwf).
  - by eapply (wf_or_default _ well_shaped _ Hwf).
  - by eapply (wf_select _ well_shaped _ Hwf Hatomic Hvariable well_shaped_ident).
  - by eapply (wf_str _ well_shaped _ Hwf).
  - by eapply (wf_str_interpol _ well_shaped _ Hwf Hatomic).
  - by eapply (wf_unary_op _ well_shaped _ Hwf Hatomic Hvariable).
  - by eapply wf_value.
  - by eapply (wf_with _ well_shaped _ Hwf Hatomic).
Qed.

Lemma compile_well_formed fuel : context_wf fuel ∧ atomic_wf fuel ∧ variable_wf fuel.
Proof.
  induction fuel as [|fuel (IHc & IHa & IHv)]; [done|].
  split_and!; [by apply context_wf_step|by apply atomic_wf_step|apply variable_wf_step].
Qed.
End recursion.

(** * The theorem *)

Section theorem.
Context `{Rnix, Linetrack, Vlq, SerdeJson, StdSort, !StdSortLaws}.

(** No global name is printed as a variable. *)
Lemma covers_globals s : covers (mkEnv s DFL_VARS 0) [].
Proof.
  split; [constructor|]. intros vn k Hf Hk. exfalso. apply vars_find_in in Hf.
  assert (forallb (λ v, match v.2 with Literal _ | AlBuiltin _ => true | _ => false end) DFL_VARS = true)
    as Hall by (by vm_compute).
  rewrite forallb_forall in Hall. apply list_elem_of_In, Hall in Hf. by destruct Hk; subst.
Qed.

End theorem.
