(* ===== verification/Accept.v ===== *)
(** Which programs the translator accepts: a static semantics of its input,
    without output, contexts and categories, and the proof that the reference
    compiler succeeds on exactly these programs. *)
From S2P Require Import Prelude Text Externs Consts Context Helpers Idents Let Node Translate Tree Lazyness Names JsAst Compile.
Local Open Scope nix2js_scope.

(** * The programs that are accepted

    [sc] are the names in scope; [w] says whether a [with] surrounds the code, so
    that no name is unknown. *)

Section accepts.
Context `{Rnix, SerdeJson, StdSort}.

Definition known (sc : list string) (w : bool) (id : Ident NixNode) : bool :=
  bool_decide (ident_as_str id ∈ sc) || w.

Section cases.
Context (accepts : list string → bool → NixNode → bool).

Definition accepts_opt (sc : list string) (w : bool) (x : option NixNode) : bool :=
  match x with Some n => accepts sc w n | None => false end.

(** An element of an attribute path. *)
Definition accepts_elem (sc : list string) (w : bool) (k : NixNode) : bool :=
  match Ident_cast k with Some _ => true | None => accepts sc w k end.

(** What is assigned to: a member of a scope object, or a variable. *)
Definition accepts_target (sc : list string) (w obj : bool) (k : NixNode) : bool :=
  if obj then accepts_elem sc w k
  else match Ident_cast k with Some id => known sc w id | None => false end.

Definition accepts_entry (sc : list string) (w obj : bool) (i : KeyValue NixNode) : bool :=
  match kv_key i, kv_value i with
  | Some (mkKey (k :: ks)), Some v =>
      accepts_target sc w obj k && accepts sc w v && forallb (accepts_elem sc w) ks
  | _, _ => false
  end.

Definition accepts_inherit (sc : list string) (w obj : bool) (i : Inherit NixNode) : bool :=
  forallb (λ id, accepts_target sc w obj (ident_node id)) (inh_idents i)
  && match inh_from i with
     | Some inhf => accepts_opt sc w (inhf_inner inhf)
     | None => forallb (known sc w) (inh_idents i)
     end.

(** The entries of an object literal. *)
Definition accepts_object (sc : list string) (w : bool) (h : EntryHolder NixNode) : bool :=
  forallb (λ i, accepts_opt sc w (kv_value i)) (entries h)
  && forallb (λ i, match inh_from i with
                   | Some inhf => accepts_opt sc w (inhf_inner inhf)
                   | None => forallb (known sc w) (inh_idents i)
                   end) (inherits h).

Definition accepts_let (sc : list string) (w : bool) (h : EntryHolder NixNode) (b : LetBody NixNode)
    (scope : string) : bool :=
  let body sc := match b with LbNix n => accepts sc w n | ExtractScope => true end in
  match entries h, inherits h with
  | [], [] => body sc
  | _, _ =>
      if let_is_object h b scope then accepts_object sc w h
      else
        let obj := negb (let_is_variables h b scope) in
        let sc := if bool_decide (scope = NIX_IN_SCOPE) then sc ++ (snd <$> getkeys h) else sc in
        forallb (accepts_entry sc w obj) (entries h)
        && forallb (accepts_inherit sc w obj) (inherits h)
        && body sc
  end.

Definition accepts_lambda (sc : list string) (w : bool) (lam : Lambda NixNode) : bool :=
  match lam_arg lam with
  | None => false
  | Some argx =>
      match Ident_cast argx, Pattern_cast argx with
      | Some y, _ => accepts_opt (sc ++ [ident_as_str y]) w (lam_body lam)
      | None, Some p =>
          let sc := sc ++ (ident_as_str <$> pattern_idents p) in
          forallb (λ i, bool_decide (is_Some (pe_name i))) (pat_entries p)
          && forallb (accepts sc w) (pattern_children p)
          && accepts_opt sc w (lam_body lam)
      | None, None => false
      end
  end.

Definition accepts_value (v : Value) : bool :=
  match v_to_value v with
  | inl (NvFloat f) => bool_decide (is_Some (JsNumber_from_f64 f))
  | inl _ => true
  | inr _ => false
  end.

Definition accepts_body (sc : list string) (w : bool) (n : NixNode) : bool :=
  if node_is_trivia n then true else
  match ParsedType_try_from n with
  | inr _ => false
  | inl pt =>
      match pt with
      | PtApply app => accepts_opt sc w (app_lambda app) && accepts_opt sc w (app_value app)
      | PtAssert art => accepts_opt sc w (art_condition art) && accepts_opt sc w (art_body art)
      | PtAttrSet ars =>
          accepts_let sc w (ars_holder ars) ExtractScope
            (if ars_recursive ars then NIX_IN_SCOPE else "nixAttrsScope")
      | PtBinOp bo =>
          match bo_operator bo with
          | None => false
          | Some IsSet =>
              accepts_opt sc w (bo_lhs bo)
              && match bo_rhs bo with Some x => accepts_elem sc w x | None => false end
          | Some (OtherOp _) => accepts_opt sc w (bo_lhs bo) && accepts_opt sc w (bo_rhs bo)
          end
      | PtDynamic d => accepts_opt sc w (d_inner d)
      | PtIdent id => known sc w id
      | PtIfElse ie =>
          accepts_opt sc w (ie_condition ie) && accepts_opt sc w (ie_body ie)
          && accepts_opt sc w (ie_else_body ie)
      | PtInherit inh => accepts_inherit sc w true inh
      | PtInheritFrom inhf => accepts_opt sc w (inhf_inner inhf)
      | PtLambda lam => accepts_lambda sc w lam
      | PtLegacyLet l =>
          match List.find entry_is_body (entries (ll_holder l)) ≫= kv_value with
          | Some b => accepts_let sc w (ll_holder l) (LbNix b) NIX_IN_SCOPE
          | None => false
          end
      | PtLetIn l =>
          match li_body l with
          | Some b => accepts_let sc w (li_holder l) (LbNix b) NIX_IN_SCOPE
          | None => false
          end
      | PtList l => forallb (accepts sc w) (l_items l)
      | PtOrDefault od =>
          accepts_opt sc w (sel_node <$> od_index od) && accepts_opt sc w (od_default od)
      | PtParen p => accepts_opt sc w (p_inner p)
      | PtRoot r => accepts_opt sc w (r_inner r)
      | PtSelect sel =>
          accepts_opt sc w (sel_set sel)
          && match sel_index sel with Some k => accepts_elem sc w k | None => false end
      | PtStr s =>
          forallb (λ p, match p with
                        | SpLiteral _ => true
                        | SpAst ast => accepts_opt sc w (si_inner ast)
                        end) (s_parts s)
      | PtStrInterpol si => accepts_opt sc w (si_inner si)
      | PtUnaryOp uo => accepts_opt sc w (uo_value uo)
      | PtValue v => accepts_value v
      | PtWith x => accepts_opt sc true (with_body x) && accepts_opt sc w (with_namespace x)
      | PtError | PtKey _ | PtKeyValue _ | PtPathWithInterpol _ | PtPattern _ | PtPatBind _
      | PtPatEntry _ => false
      end
  end.
End cases.
End accepts.

Fixpoint accepts `{Rnix, SerdeJson, StdSort} (fuel : nat) (sc : list string) (w : bool) (n : NixNode) : bool :=
  match fuel with
  | O => false
  | S fuel => accepts_body (accepts fuel) sc w n
  end.

(** * Success of outcomes *)

Definition succeeds {A} (o : outcome string A) : bool := match o with Ok _ => true | _ => false end.

Lemma succeeds_bind {A B} (m : outcome string A) (k : A → outcome string B) b :
  (∀ a, m = Ok a → succeeds (k a) = b) → succeeds (obind m k) = succeeds m && b.
Proof. intros Hk. destruct m; simpl; [by apply Hk|done..]. Qed.

Lemma succeeds_omap {A B} (f : A → B) (m : outcome string A) : succeeds (omap_ f m) = succeeds m.
Proof. by destruct m. Qed.

Lemma succeeds_otraverse {A B} (f : A → outcome string B) (P : A → bool) l :
  (∀ x, x ∈ l → succeeds (f x) = P x) → succeeds (otraverse f l) = forallb P l.
Proof.
  induction l as [|x l IH]; intros Hf; [done|]. simpl. rewrite <- (Hf x) by left.
  rewrite <- IH by (intros y Hy; apply Hf; by right).
  destruct (f x); simpl; [|done..]. by destruct (otraverse f l).
Qed.

Lemma succeeds_of_option {A} e (o : option A) : succeeds (of_option e o) = bool_decide (is_Some o).
Proof. by destruct o. Qed.

(** * Scopes *)

Definition names_of (E : env) : list string := (e_vars E).*1.
Definition in_with (E : env) : bool := 0 <? e_with E.

Lemma names_of_bind vs E : names_of (bind_vars vs E) = names_of E ++ vs.*1.
Proof. apply fmap_app. Qed.

Lemma vars_find_is_Some vs vn : is_Some (vars_find vs vn) ↔ vn ∈ vs.*1.
Proof.
  induction vs as [|[x k] vs IH] using rev_ind.
  { split; [by intros []|by intros ?%elem_of_nil]. }
  rewrite vars_find_snoc, fmap_app, elem_of_app. cbn [fmap list_fmap fst]. rewrite list_elem_of_singleton.
  case_bool_decide as Hv; [subst; split; eauto|]. rewrite IH. intuition congruence.
Qed.

Section cases.
Context `{Rnix, SerdeJson, StdSort}.
Context (comp : env → StackCtx → NixNode → outcome string expr).
Context (acc : list string → bool → NixNode → bool).
Context (comp_acc : ∀ E sctx n, succeeds (comp E sctx n) = acc (names_of E) (in_with E) n).

Lemma succeeds_resolve E id : succeeds (resolve E id) = known (names_of E) (in_with E) id.
Proof.
  unfold resolve, known, in_with, names_of. pose proof (vars_find_is_Some (e_vars E) (ident_as_str id)) as Hv.
  destruct (vars_find _ _) as [k|].
  - rewrite bool_decide_eq_true_2; [done|]. by apply Hv.
  - rewrite bool_decide_eq_false_2; [by destruct (0 <? _)|]. intros Hin. by apply Hv in Hin as [].
Qed.

Lemma succeeds_ident E sctx id : succeeds (compile_ident E sctx id) = known (names_of E) (in_with E) id.
Proof.
  unfold compile_ident. rewrite (succeeds_bind _ _ true); [|done]. by rewrite succeeds_resolve, andb_true_r.
Qed.

Lemma succeeds_opt E sctx rng x desc :
  succeeds (compile_opt comp E sctx rng x desc) = accepts_opt acc (names_of E) (in_with E) x.
Proof. destruct x; [apply comp_acc|done]. Qed.

Lemma succeeds_elem E k : succeeds (compile_elem comp E k) = accepts_elem acc (names_of E) (in_with E) k.
Proof.
  unfold compile_elem, accepts_elem. destruct (Ident_cast k); [done|]. by rewrite succeeds_omap.
Qed.

Lemma succeeds_target E k scope :
  succeeds (compile_target comp E k scope)
  = accepts_target acc (names_of E) (in_with E) (bool_decide (is_Some scope)) k.
Proof.
  unfold compile_target, accepts_target. destruct scope as [s|]; simpl.
  - by rewrite succeeds_omap, succeeds_elem.
  - destruct (Ident_cast k); [|done]. apply succeeds_ident.
Qed.

(** Success of a sequence of calls. *)
Local Ltac calls :=
  repeat first
  [ rewrite succeeds_omap | rewrite comp_acc | rewrite succeeds_opt | rewrite succeeds_elem
  | rewrite succeeds_target | rewrite succeeds_ident | rewrite succeeds_of_option
  | erewrite succeeds_bind by (intros; calls; reflexivity) ]; cbn [succeeds].

(** ** Bindings *)

Lemma succeeds_path E l :
  succeeds (otraverse (compile_elem comp E) l) = forallb (accepts_elem acc (names_of E) (in_with E)) l.
Proof. apply succeeds_otraverse. intros. apply succeeds_elem. Qed.

Lemma succeeds_kv E sctx i scope :
  succeeds (compile_kv comp E sctx i scope)
  = accepts_entry acc (names_of E) (in_with E) (bool_decide (is_Some scope)) i.
Proof.
  unfold compile_kv, accepts_entry. cbv zeta. destruct (kv_key i) as [[[|k ks]]|]; cbn [obind]; [done| |done].
  destruct (kv_value i) as [v|]; cbn [of_option obind]; [|done].
  destruct ks as [|k2 ks]; [|destruct scope as [s|]]; cbn [forallb].
  - calls. by rewrite !andb_true_r.
  - calls. rewrite succeeds_path. cbn [forallb accepts_target bool_decide decide_rel].
    by rewrite !andb_true_r, !andb_assoc.
  - calls. rewrite succeeds_path. cbn [forallb]. by rewrite !andb_true_r, !andb_assoc.
Qed.

Lemma succeeds_inherit E sctx i scope tmp :
  succeeds (compile_inherit comp E sctx i scope tmp)
  = accepts_inherit acc (names_of E) (in_with E) (bool_decide (is_Some scope)) i.
Proof.
  unfold compile_inherit, accepts_inherit. destruct (inh_from i) as [inhf|]; cbv zeta.
  - assert (∀ ids, succeeds
      (olet e := compile_opt comp E (inner_ctx (mksctx Nothing Want) Forward Flush Front)
                   (node_text_range (inhf_node inhf)) (inhf_inner inhf) "inner for inherit-from" in
       olet ts := otraverse (λ id, olet t := compile_target comp E (ident_node id) scope in
                                   Ok (t, ident_as_str id)) ids in
       Ok [SInherit tmp (wrap (mksctx Nothing Want) Forward Flush Front (BExpr e)) ts])
      = forallb (λ id, accepts_target acc (names_of E) (in_with E) (bool_decide (is_Some scope)) (ident_node id)) ids
        && accepts_opt acc (names_of E) (in_with E) (inhf_inner inhf)) as Hmany.
    { intros ids. calls. rewrite andb_true_r, andb_comm. f_equal.
      apply succeeds_otraverse. intros id _. calls. by rewrite andb_true_r. }
    destruct (inh_idents i) as [|id [|id2 ids]]; [apply Hmany| |apply Hmany].
    calls. cbn [forallb]. by rewrite !andb_true_r.
  - rewrite <- forallb_andb. apply succeeds_otraverse. intros id _. calls. by rewrite andb_true_r.
Qed.

Lemma forallb_enumerate {A} (P : A → bool) (l : list A) :
  forallb (λ '(_, x), P x) (enumerate l) = forallb P l.
Proof.
  unfold enumerate. generalize 0. induction l as [|x l IH]; intros n; [done|]. simpl. by rewrite IH.
Qed.

Lemma succeeds_inherits E sctx h scope :
  succeeds (compile_inherits comp E sctx h scope)
  = forallb (accepts_inherit acc (names_of E) (in_with E) (bool_decide (is_Some scope))) (inherits h).
Proof.
  unfold compile_inherits. calls. rewrite <- forallb_enumerate. apply succeeds_otraverse.
  intros [n i] _. apply succeeds_inherit.
Qed.

Lemma succeeds_entries E sctx h scope :
  succeeds (otraverse (λ i, compile_kv comp E sctx i scope) (entries h))
  = forallb (accepts_entry acc (names_of E) (in_with E) (bool_decide (is_Some scope))) (entries h).
Proof. apply succeeds_otraverse. intros i _. apply succeeds_kv. Qed.

Definition accepts_return (sc : list string) (w : bool) (b : LetBody NixNode) : bool :=
  match b with LbNix n => acc sc w n | ExtractScope => true end.

Lemma succeeds_return E b scope :
  succeeds (compile_return comp E b scope) = accepts_return (names_of E) (in_with E) b.
Proof. destruct b; [apply comp_acc|done]. Qed.

Lemma succeeds_let_object E body_sctx sctx h b scope :
  let_is_object h b scope = true →
  succeeds (compile_let_object comp E body_sctx sctx h)
  = accepts_object acc (names_of E) (in_with E) h.
Proof.
  unfold let_is_object. rewrite !andb_true_iff, !forallb_forall. intros [[_ Hen] Hin].
  unfold compile_let_object, accepts_object. calls. rewrite andb_true_r. f_equal.
  - apply succeeds_otraverse. intros i Hi%list_elem_of_In. specialize (Hen i Hi).
    unfold entry_is_field in Hen. unfold compile_field.
    destruct (kv_value i) as [v|]; [|done]. destruct (kv_key i) as [[[|k [|]]]|]; try done.
    cbn [key_path head ounwrap obind] in *. destruct (Ident_cast k); [|done]. cbn [ounwrap obind accepts_opt]. calls.
    by rewrite andb_true_r.
  - erewrite succeeds_otraverse by (intros; reflexivity). rewrite forallb_mjoin, forallb_fmap.
    apply forallb_ext_in. intros i Hi%list_elem_of_In. specialize (Hin i Hi). unfold inherit_is_simple in Hin.
    rewrite forallb_fmap. unfold compile_inherited_field. destruct (inh_from i) as [inhf|]; simpl.
    + destruct (inh_idents i) as [|id [|]]; try done. simpl. calls. by rewrite !andb_true_r.
    + apply forallb_ext_in. intros id _. simpl. calls. by rewrite andb_true_r.
Qed.

Lemma succeeds_let_variables E body_sctx sctx h b scope :
  let sc := names_of E ++ (snd <$> getkeys h) in
  succeeds (compile_let_variables comp E body_sctx sctx h b scope)
  = forallb (accepts_entry acc sc (in_with E) false) (entries h)
    && forallb (accepts_inherit acc sc (in_with E) false) (inherits h)
    && accepts_return sc (in_with E) b.
Proof.
  cbv zeta. unfold compile_let_variables. cbv zeta. set (E' := bind_vars _ E).
  assert (names_of E' = names_of E ++ (snd <$> getkeys h)) as Hsc.
  { subst E'. by rewrite names_of_bind, <- list_fmap_compose, list_fmap_id. }
  rewrite <- Hsc. change (in_with E) with (in_with E').
  rewrite (succeeds_bind _ _ (forallb (accepts_inherit acc (names_of E') (in_with E') false) (inherits h)
    && accepts_return (names_of E') (in_with E') b)); [by rewrite succeeds_entries, andb_assoc|].
  intros sts _. rewrite (succeeds_bind _ _ (accepts_return (names_of E') (in_with E') b));
    [by rewrite succeeds_inherits|].
  intros inhs _. rewrite (succeeds_bind _ _ true); [|done]. by rewrite succeeds_return, andb_true_r.
Qed.

Lemma succeeds_let_scope E body_sctx sctx h b scope :
  let sc := if bool_decide (scope = NIX_IN_SCOPE) then names_of E ++ (snd <$> getkeys h) else names_of E in
  succeeds (compile_let_scope comp E body_sctx sctx h b scope)
  = forallb (accepts_entry acc sc (in_with E) true) (entries h)
    && forallb (accepts_inherit acc sc (in_with E) true) (inherits h)
    && accepts_return sc (in_with E) b.
Proof.
  cbv zeta. unfold compile_let_scope. cbv zeta. set (E' := if bool_decide _ then _ else E).
  assert (names_of E' = (if bool_decide (scope = NIX_IN_SCOPE) then names_of E ++ (snd <$> getkeys h) else names_of E)
    ∧ in_with E' = in_with E) as [Hsc Hw].
  { subst E'. case_bool_decide; [|done]. split; [|done]. by rewrite names_of_bind, <- list_fmap_compose. }
  rewrite <- Hsc, <- Hw.
  rewrite (succeeds_bind _ _ (forallb (accepts_inherit acc (names_of E') (in_with E') true) (inherits h)
    && accepts_return (names_of E') (in_with E') b)); [by rewrite succeeds_entries, andb_assoc|].
  intros sts _. rewrite (succeeds_bind _ _ (accepts_return (names_of E') (in_with E') b));
    [by rewrite succeeds_inherits|].
  intros inhs _. rewrite (succeeds_bind _ _ true); [|done]. by rewrite succeeds_return, andb_true_r.
Qed.

Lemma succeeds_let E body_sctx values_lazy h b scope :
  succeeds (compile_let comp E body_sctx values_lazy h b scope)
  = accepts_let acc (names_of E) (in_with E) h b scope.
Proof.
  unfold compile_let, accepts_let. cbv zeta.
  assert (∀ sctx, succeeds
    (if let_is_object h b scope then compile_let_object comp E body_sctx sctx h
     else if let_is_variables h b scope then compile_let_variables comp E body_sctx sctx h b scope
     else compile_let_scope comp E body_sctx sctx h b scope)
    = if let_is_object h b scope then accepts_object acc (names_of E) (in_with E) h
      else
        let sc := if bool_decide (scope = NIX_IN_SCOPE) then names_of E ++ (snd <$> getkeys h) else names_of E in
        forallb (accepts_entry acc sc (in_with E) (negb (let_is_variables h b scope))) (entries h)
        && forallb (accepts_inherit acc sc (in_with E) (negb (let_is_variables h b scope))) (inherits h)
        && accepts_return sc (in_with E) b) as Hlet.
  { intros sctx. cbv zeta. destruct (let_is_object h b scope) eqn:Ho; [by apply (succeeds_let_object _ _ _ _ b scope)|].
    destruct (let_is_variables h b scope) eqn:Hv; [|apply succeeds_let_scope].
    rewrite succeeds_let_variables. unfold let_is_variables in Hv. rewrite !andb_true_iff in Hv.
    destruct Hv as [[[Hv _] _] _]. by rewrite Hv. }
  destruct (entries h) as [|x l], (inherits h) as [|y l']; try apply Hlet.
  destruct b; [apply comp_acc|done].
Qed.

(** ** The kinds of nodes *)

Lemma succeeds_apply E sctx rng app :
  succeeds (compile_apply comp E sctx rng app)
  = accepts_opt acc (names_of E) (in_with E) (app_lambda app)
    && accepts_opt acc (names_of E) (in_with E) (app_value app).
Proof. unfold compile_apply. calls. by rewrite andb_true_r. Qed.

Lemma succeeds_assert E sctx rng art :
  succeeds (compile_assert comp E sctx rng art)
  = accepts_opt acc (names_of E) (in_with E) (art_condition art)
    && accepts_opt acc (names_of E) (in_with E) (art_body art).
Proof.
  unfold compile_assert. destruct (art_condition art); cbn [of_option obind]; [|done]. cbv zeta. calls.
  by rewrite andb_true_r.
Qed.

Lemma succeeds_binop E sctx rng bo :
  succeeds (compile_binop comp E sctx rng bo)
  = match bo_operator bo with
    | None => false
    | Some IsSet =>
        accepts_opt acc (names_of E) (in_with E) (bo_lhs bo)
        && match bo_rhs bo with Some x => accepts_elem acc (names_of E) (in_with E) x | None => false end
    | Some (OtherOp _) =>
        accepts_opt acc (names_of E) (in_with E) (bo_lhs bo)
        && accepts_opt acc (names_of E) (in_with E) (bo_rhs bo)
    end.
Proof.
  unfold compile_binop. destruct (bo_operator bo) as [[|dbg]|]; cbn [of_option obind]; [| |done].
  - destruct (bo_rhs bo) as [x|]; cbn [of_option obind].
    + rewrite (succeeds_bind _ _ (accepts_elem acc (names_of E) (in_with E) x)); [by rewrite succeeds_opt|].
      intros l _. unfold accepts_elem. destruct (Ident_cast x); [done|]. calls. by rewrite andb_true_r.
    + rewrite (succeeds_bind _ _ false); [by rewrite succeeds_opt|done].
  - calls. by rewrite andb_true_r.
Qed.

Lemma succeeds_ifelse E sctx rng ie :
  succeeds (compile_ifelse comp E sctx rng ie)
  = accepts_opt acc (names_of E) (in_with E) (ie_condition ie)
    && accepts_opt acc (names_of E) (in_with E) (ie_body ie)
    && accepts_opt acc (names_of E) (in_with E) (ie_else_body ie).
Proof. unfold compile_ifelse. cbv zeta. calls. by rewrite andb_true_r, andb_assoc. Qed.

Lemma succeeds_select E sctx rng sel :
  succeeds (compile_select comp E sctx rng sel)
  = accepts_opt acc (names_of E) (in_with E) (sel_set sel)
    && match sel_index sel with Some k => accepts_elem acc (names_of E) (in_with E) k | None => false end.
Proof.
  unfold compile_select. destruct (sel_index sel) as [idx|]; cbn [of_option obind]; [|by rewrite andb_false_r].
  destruct (sel_set sel) as [set|]; cbn [of_option obind]; [|done].
  destruct (is_global E set); cbv beta iota; calls; by rewrite andb_true_r.
Qed.

Lemma succeeds_str E sctx s :
  succeeds (compile_str comp E sctx s)
  = forallb (λ p, match p with
                  | SpLiteral _ => true
                  | SpAst ast => accepts_opt acc (names_of E) (in_with E) (si_inner ast)
                  end) (s_parts s).
Proof.
  unfold compile_str.
  assert (∀ parts, succeeds
    (olet es := otraverse (λ p,
        match p with
        | SpLiteral lit => Ok (EText (escape_str lit))
        | SpAst ast =>
            omap_ EParen (compile_opt comp E (mksctx Want Nothing) (node_text_range (si_node ast))
              (si_inner ast) "inner for str-interpolate")
        end) (List.filter part_nonempty parts) in
      Ok (wrap sctx Forward Need Front (BExpr (EConcat es))))
    = forallb (λ p, match p with
                    | SpLiteral _ => true
                    | SpAst ast => accepts_opt acc (names_of E) (in_with E) (si_inner ast)
                    end) parts) as Hparts.
  { intros parts. rewrite (succeeds_bind _ _ true); [|done]. rewrite andb_true_r.
    erewrite succeeds_otraverse.
    2: { intros p _. instantiate (1 := λ p, match p with
           | SpLiteral _ => true
           | SpAst ast => accepts_opt acc (names_of E) (in_with E) (si_inner ast) end).
         destruct p; [done|]. by calls. }
    induction parts as [|[lit|ast] parts IH]; [done| |]; simpl; [|by rewrite IH].
    by case_bool_decide. }
  destruct (s_parts s) as [|[lit|ast] [|p2 ps]]; [done..|apply Hparts|apply Hparts|apply Hparts].
Qed.

Lemma succeeds_value E rng v : succeeds (compile_value E rng v) = accepts_value v.
Proof.
  unfold compile_value, accepts_value. destruct (v_to_value v) as [[flt|?|?|?]|?]; try done.
  by destruct (JsNumber_from_f64 flt).
Qed.

Lemma pattern_entries_all dbg (l : list (PatEntry NixNode)) :
  match pattern_entries dbg l with
  | Ok ents =>
      forallb (λ i, bool_decide (is_Some (pe_name i))) l = true
      ∧ ents.*1 = mjoin ((λ e, option_list (pe_name e)) <$> l)
      ∧ ents.*2 = pe_default <$> l
  | _ => forallb (λ i, bool_decide (is_Some (pe_name i))) l = false
  end.
Proof.
  induction l as [|i l IH]; [done|]. cbn [pattern_entries forallb].
  destruct (pe_name i) as [z|] eqn:Hz; cbn [of_option obind]; [|done].
  destruct (pattern_entries dbg l) as [ents|?|?|]; cbn [obind]; [|done..].
  destruct IH as (-> & Hn & Hd). split; [done|]. rewrite !fmap_cons. cbn. by rewrite Hz, Hn, Hd.
Qed.

Lemma succeeds_lambda E rng lam :
  succeeds (compile_lambda comp E rng lam) = accepts_lambda acc (names_of E) (in_with E) lam.
Proof.
  unfold compile_lambda, accepts_lambda. destruct (lam_arg lam) as [argx|]; cbn [of_option obind]; [|done].
  destruct (Ident_cast argx) as [y|].
  - cbv zeta. calls. rewrite andb_true_r, names_of_bind. done.
  - destruct (Pattern_cast argx) as [y|]; [|done]. unfold compile_lambda_pattern. cbv zeta.
    pose proof (pattern_entries_all (pat_debug y) (pat_entries y)) as Hp.
    destruct (pattern_entries _ _) as [ents|?|?|]; cbn [obind]; [|by rewrite Hp..].
    destruct Hp as (-> & Hn & Hd). cbn [andb].
    set (E' := bind_vars _ E).
    assert (names_of E' = names_of E ++ (ident_as_str <$> pattern_idents y)) as <-.
    { subst E'. rewrite names_of_bind. f_equal. unfold lambda_args, pattern_idents.
      rewrite <- list_fmap_compose. by rewrite Hn. }
    change (in_with E) with (in_with E').
    rewrite (succeeds_bind _ _ (accepts_opt acc (names_of E') (in_with E') (lam_body lam)));
      [|intros; calls; by rewrite andb_true_r]. f_equal.
    unfold pattern_children. rewrite forallb_mjoin, forallb_fmap.
    transitivity (forallb (λ d, forallb (acc (names_of E') (in_with E')) (option_list d)) (ents.*2)).
    + rewrite forallb_fmap. apply succeeds_otraverse. intros [z [d|]] _; [|done]. simpl. calls. by rewrite andb_true_r.
    + by rewrite Hd, forallb_fmap.
Qed.

Lemma succeeds_body E sctx n :
  succeeds (compile_body comp E sctx n) = accepts_body acc (names_of E) (in_with E) n.
Proof.
  unfold compile_body, accepts_body. destruct (node_is_trivia n); [done|]. cbv zeta.
  destruct (ParsedType_try_from n) as [pt|kind]; [|done].
  destruct pt as [app|art|ars|bo|d| |id|ie|inh|inhf|?|?|lam|l|l|l|od|p|?|?|?|?|r|sel|s|si|uo|v|w]; try done;
    try apply succeeds_opt.
  - apply succeeds_apply.
  - apply succeeds_assert.
  - apply succeeds_let.
  - apply succeeds_binop.
  - apply succeeds_ident.
  - apply succeeds_ifelse.
  - calls. apply succeeds_inherit.
  - apply succeeds_lambda.
  - unfold compile_legacy_let. destruct (_ ≫= _); [|done]. apply succeeds_let.
  - unfold compile_let_in. destruct (li_body l); [|done]. apply succeeds_let.
  - unfold compile_list. rewrite (succeeds_bind _ _ true); [|done]. rewrite andb_true_r.
    apply succeeds_otraverse. intros. apply comp_acc.
  - unfold compile_or_default. calls. by rewrite andb_true_r.
  - apply succeeds_select.
  - apply succeeds_str.
  - unfold compile_unary_op. calls. by rewrite andb_true_r.
  - apply succeeds_value.
  - unfold compile_with. calls. by rewrite andb_true_r.
Qed.
End cases.

(** The compiler succeeds exactly on the accepted nodes, whatever the context. *)
Lemma compile_accepts `{Rnix, SerdeJson, StdSort} fuel E sctx n :
  succeeds (compile fuel E sctx n) = accepts fuel (names_of E) (in_with E) n.
Proof.
  revert E sctx n. induction fuel as [|fuel IH]; intros E sctx n; [done|]. apply succeeds_body, IH.
Qed.
