(* ===== verification/Awaited.v ===== *)
(** Where a value is wanted at once: which constructs print an expression that is
    not a promise, and which forget to await one. *)
From S2P Require Import Prelude Text Externs Consts Context Helpers Idents Let Node Translate Tree Lazyness Names JsAst Compile Refine RefineNode JsScope.
Local Open Scope nix2js_scope.

(** * Promises in the generated code *)

(** The expression evaluates to a value that is no promise: what is awaited, a
    constant or a member of a global, a literal, a function, and the call of
    [hasOwnProperty], which is the only one that answers at once.  Variables and
    members of the scope may hold promises, a call of an async function returns
    one, and so does [nixRt.export] for a path that has to be looked up
    (src/mock-runtime.mjs, the anchor [Store]). *)
Definition settled (e : expr) : bool :=
  match e with
  | EText _ | EAwait _ | EList _ | EObj _ | EConcat _ | EFun _ _ | EFunPat _ _ _ => true
  | EIndex (EText t) _ => negb (bool_decide (t = NIX_IN_SCOPE))
  | ECall f _ => bool_decide (f = "Object.prototype.hasOwnProperty.call")
  | _ => false
  end.

Section sources.
Context `{Rnix, StdSort}.

Definition is_path (v : Value) : bool :=
  match v_to_value v with inl (NvPath _ _) => true | _ => false end.

(** The nodes that print what may be a promise although a value is wanted: the two
    unary operators, [with], a path, and a [let] whose bindings are plain
    variables. *)
Fixpoint leaves_promise (fuel : nat) (n : NixNode) : bool :=
  match fuel with
  | O => false
  | S fuel =>
      let opt o := match o with Some m => leaves_promise fuel m | None => false end in
      let holder h b :=
        match entries h, inherits h with
        | [], [] => leaves_promise fuel b
        | _, _ => let_is_variables h (LbNix b) NIX_IN_SCOPE
        end in
      if node_is_trivia n then false else
      match ParsedType_try_from n with
      | inl pt =>
          match pt with
          | PtUnaryOp _ | PtWith _ => true
          | PtValue v => is_path v
          | PtLegacyLet l =>
              match List.find entry_is_body (entries (ll_holder l)) ≫= kv_value with
              | Some b => holder (ll_holder l) b
              | None => false
              end
          | PtLetIn l => match li_body l with Some b => holder (li_holder l) b | None => false end
          | PtDynamic d => opt (d_inner d)
          | PtInheritFrom inhf => opt (inhf_inner inhf)
          | PtParen p => opt (p_inner p)
          | PtRoot r => opt (r_inner r)
          | PtStrInterpol si => opt (si_inner si)
          | _ => false
          end
      | inr _ => false
      end
  end.
End sources.

(** * The contexts *)

Definition WANT : StackCtx := mksctx Want Nothing.

Section awaited.
Context `{Rnix, SerdeJson, StdSort}.

Lemma settled_wrap_need lazy_tr e :
  settled (wrap WANT Need lazy_tr Front (BExpr e)) = true.
Proof. by destruct lazy_tr. Qed.

Lemma settled_wrap_flush lazy_tr b : settled (wrap WANT Flush lazy_tr Front b) = true.
Proof. by destruct lazy_tr. Qed.

(** Constants do not stand for the scope object. *)
Definition plain_literals (E : env) : Prop :=
  ∀ vn lit, vars_find (e_vars E) vn = Some (Literal lit) → lit ≠ NIX_IN_SCOPE.

Lemma var_expr_global E id k :
  plain_literals E → resolve E id = Ok k →
  match k with
  | Literal _ | AlBuiltin _ => ∃ t, var_expr (ident_as_str id) k = EText t ∧ t ≠ NIX_IN_SCOPE
  | _ => True
  end.
Proof.
  intros Hp Hr. destruct k as [lit|ablti| | | |]; try done.
  - exists lit. split; [done|]. unfold resolve in Hr.
    destruct (vars_find _ _) as [j|] eqn:Hf; [|by destruct (0 <? _)]. injection Hr as ->. by eapply Hp.
  - simpl. eexists. split; [done|]. by case_bool_decide.
Qed.

Lemma settled_ident E id e :
  compile_ident E (Some WANT) id = Ok e → settled e = true.
Proof.
  unfold compile_ident. destruct (resolve E id) as [k|?|?|]; [|done..]. intros [= <-]. by destruct k.
Qed.

(** A global name stays a constant also where nothing is awaited. *)
Lemma compile_global fuel E set e :
  plain_literals E → node_shape set = true →
  is_global E set = true → compile fuel E (mksctx Nothing Nothing) set = Ok e →
  ∃ t, e = EText t ∧ t ≠ NIX_IN_SCOPE.
Proof.
  intros Hp Hs Hg He. destruct fuel as [|fuel]; [done|]. cbn [compile] in He. unfold compile_body in He.
  destruct (node_is_trivia set); [injection He as <-; by exists EmptyString|]. cbv zeta in He. unfold node_shape in Hs. apply andb_true_iff in Hs as [Hs _].
  unfold ident_agrees in Hs. unfold is_global in Hg. destruct (Ident_cast set) as [id|]; [|done].
  destruct (ParsedType_try_from set) as [[]|]; try done. apply bool_decide_eq_true in Hs.
  unfold compile_ident in He. destruct (resolve E id0) as [k|?|?|] eqn:Hr; [|done..]. cbn [obind] in He.
  pose proof (var_expr_global E id0 k Hp Hr) as Hv.
  assert (resolve E id = Ok k) as Hr'.
  { revert Hr. unfold resolve. rewrite <- Hs. destruct (vars_find _ _); [done|]. by destruct (0 <? _). }
  rewrite Hr' in Hg. destruct k; try done; destruct Hv as (t & Hv & Hne); exists t; rewrite Hv in He;
    by injection He as <-.
Qed.

Local Ltac outcome_inv := cbv beta in *; repeat match goal with
  | Hx : obind ?m _ = Ok _ |- _ =>
      lazymatch m with Ok _ => cbn [obind] in Hx | _ =>
        let Hy := fresh "Hm" in destruct m eqn:Hy; cbn [obind] in Hx; [|discriminate Hx..] end
  | Hx : Ok _ = Ok _ |- _ => injection Hx as Hx; try subst
  end.

(** A recursive [let] or an attribute set. *)
Lemma settled_let comp E h b scope e :
  compile_let comp E WANT true h b scope = Ok e →
  settled e =
  match entries h, inherits h with
  | [], [] => match b with LbNix _ => settled e | ExtractScope => true end
  | _, _ => let_is_object h b scope || negb (let_is_variables h b scope)
  end.
Proof.
  unfold compile_let. cbv zeta. intros He.
  assert ((if let_is_object h b scope then compile_let_object comp E WANT (mksctx Nothing Want) h
      else if let_is_variables h b scope then compile_let_variables comp E WANT (mksctx Nothing Want) h b scope
      else compile_let_scope comp E WANT (mksctx Nothing Want) h b scope) = Ok e →
    settled e = let_is_object h b scope || negb (let_is_variables h b scope)) as Hlet.
  { destruct (let_is_object h b scope); [|destruct (let_is_variables h b scope)]; intros Hx.
    - unfold compile_let_object in Hx. by outcome_inv.
    - unfold compile_let_variables in Hx. cbv zeta in Hx. by outcome_inv.
    - unfold compile_let_scope in Hx. cbv zeta in Hx. outcome_inv. apply settled_wrap_need. }
  destruct (entries h), (inherits h); auto. destruct b; [done|]. by injection He as <-.
Qed.

Lemma let_not_object h b : let_is_object h (LbNix b) NIX_IN_SCOPE = false.
Proof. done. Qed.

Lemma let_set_not_variables (h : EntryHolder NixNode) scope : let_is_variables h ExtractScope scope = false.
Proof. unfold let_is_variables. by rewrite andb_false_r. Qed.

Lemma settled_str comp E s e : compile_str comp E WANT s = Ok e → settled e = true.
Proof.
  unfold compile_str. destruct (s_parts s) as [|[lit|ast] [|p2 ps]]; intros He;
    [by injection He as <-..| | |]; unfold omap_ in *; by outcome_inv.
Qed.

Lemma settled_value E rng v e : compile_value E rng v = Ok e → settled e = negb (is_path v).
Proof.
  unfold compile_value, is_path. destruct (v_to_value v) as [[flt|?|?|?]|?]; [|by intros [= <-]..|done].
  destruct (JsNumber_from_f64 flt); [by intros [= <-]|done].
Qed.

Lemma settled_lambda comp E rng lam e : compile_lambda comp E rng lam = Ok e → settled e = true.
Proof.
  unfold compile_lambda. intros He. destruct (lam_arg lam) as [argx|]; cbn [of_option obind] in He; [|done].
  destruct (Ident_cast argx) as [y|]; [cbv zeta in He; by outcome_inv|].
  destruct (Pattern_cast argx) as [y|]; [|done]. unfold compile_lambda_pattern in He. cbv zeta in He. by outcome_inv.
Qed.

Lemma settled_select fuel E rng sel e :
  compile_select (compile fuel) E WANT rng sel = Ok e → plain_literals E →
  (∀ set, sel_set sel = Some set → node_shape set = true) → settled e = true.
Proof.
  unfold compile_select. intros He Hp Hs. destruct (sel_index sel); cbn [of_option obind] in He; [|done].
  destruct (sel_set sel) as [set|]; cbn [of_option obind] in He; [|done].
  destruct (is_global E set) eqn:Hg; cbv beta iota in He; outcome_inv; [|apply settled_wrap_need].
  eapply compile_global in Hm as (t & -> & Ht); [|done|by apply Hs|done].
  simpl. by rewrite bool_decide_eq_false_2.
Qed.

Lemma settled_let_in comp E h b e (lp : bool) :
  compile_let comp E WANT true h (LbNix b) NIX_IN_SCOPE = Ok e →
  (comp E WANT b = Ok e → settled e = negb lp) →
  settled e =
  negb match entries h, inherits h with
       | [], [] => lp
       | _, _ => let_is_variables h (LbNix b) NIX_IN_SCOPE
       end.
Proof.
  intros He Hb. pose proof (settled_let _ _ _ _ _ _ He) as Hs. unfold compile_let in He. cbv zeta in He.
  destruct (entries h), (inherits h); [by apply Hb|rewrite Hs, let_not_object; done..].
Qed.

Lemma compile_settled fuel E n e :
  compile fuel E WANT n = Ok e → everywhere (λ n, node_shape n = true) n → plain_literals E →
  settled e = negb (leaves_promise fuel n).
Proof.
  revert n e. induction fuel as [|fuel IH]; intros n e He [Hn Hch] Hp; [done|].
  cbn [compile] in He. unfold compile_body in He. cbn [leaves_promise].
  destruct (node_is_trivia n); [by injection He as <-|]. cbv zeta in He.
  unfold node_children in Hch. unfold node_shape in Hn.
  assert (∀ sctx x desc, sctx = WANT → compile_opt (compile fuel) E sctx (node_text_range n) x desc = Ok e →
    (∀ m, m ∈ option_list x → everywhere (λ n, node_shape n = true) m) →
    settled e = negb match x with Some m => leaves_promise fuel m | None => false end) as Hopt.
  { intros sctx x desc -> Hx Hok. destruct x as [m|]; [|done]. apply IH; [done|by apply Hok; left|done]. }
  destruct (ParsedType_try_from n) as [pt|kind]; [|done].
  destruct pt as [app|art|ars|bo|d| |id|ie|inh|inhf|?|?|lam|l|l|l|od|p|?|?|?|?|r|sel|s|si|uo|v|w];
    try discriminate He; try (by rewrite andb_false_r in Hn); try (by eapply Hopt).
  - unfold compile_apply in He. outcome_inv. apply settled_wrap_need.
  - unfold compile_assert in He. destruct (art_condition art); cbn [of_option obind] in He; [|done].
    cbv zeta in He. outcome_inv. apply settled_wrap_flush.
  - rewrite (settled_let _ _ _ _ _ _ He), let_set_not_variables, orb_true_r.
    by destruct (entries (ars_holder ars)), (inherits (ars_holder ars)).
  - unfold compile_binop in He. destruct (bo_operator bo) as [[|dbg]|]; cbn [of_option obind] in He; [| |done].
    + by outcome_inv.
    + outcome_inv. apply settled_wrap_need.
  - by eapply settled_ident.
  - unfold compile_ifelse in He. cbv zeta in He. outcome_inv. apply settled_wrap_flush.
  - by eapply settled_lambda.
  - unfold compile_legacy_let in He. destruct (List.find entry_is_body (entries (ll_holder l)) ≫= kv_value) as [b|] eqn:Hb;
      cbn [of_option obind] in He; [|done].
    eapply settled_let_in; [done|]. intros Hx. apply IH; [done| |done]. apply Hch. cbn.
    by eapply legacy_body_child.
  - unfold compile_let_in in He. cbn in Hch. destruct (li_body l) as [b|]; cbn [of_option obind] in He; [|done].
    eapply settled_let_in; [done|]. intros Hx. apply IH; [done| |done]. apply Hch, elem_of_app. right. by left.
  - unfold compile_list in He. by outcome_inv.
  - unfold compile_or_default in He. outcome_inv. apply settled_wrap_need.
  - eapply settled_select; [done|done|]. intros set Hset. apply (Hch set). cbn. rewrite Hset. by left.
  - by eapply settled_str.
  - unfold compile_unary_op in He. outcome_inv. by destruct (uo_operator uo).
  - by eapply settled_value.
  - unfold compile_with in He. by outcome_inv.
Qed.
End awaited.

(** * The theorem *)

Section theorem.
Context `{Rnix, Linetrack, Vlq, SerdeJson, StdSort}.

End theorem.
