(* ===== verification/Errors.v ===== *)
(** The errors of the translator: on a complete program, one that would be
    accepted if every name were known, the only error is an unknown identifier. *)
From S2P Require Import Prelude Text Externs Consts Context Helpers Idents Let Node Translate Tree Lazyness Names JsAst Compile Refine RefineNode JsScope Accept.
Local Open Scope nix2js_scope.

(** * The identifiers of a program *)

Inductive below `{Rnix} : NixNode → NixNode → Prop :=
  | below_refl n : below n n
  | below_step n m k : m ∈ node_children n → below m k → below n k.

(** [id] is printed by the translation of some node of the tree. *)
Definition ident_in `{Rnix} (root : NixNode) (id : Ident NixNode) : Prop :=
  ∃ n, below root n ∧ id ∈ node_idents n.

Lemma ident_in_child `{Rnix} n m id : m ∈ node_children n → ident_in m id → ident_in n id.
Proof. intros Hm (k & Hk & Hid). exists k. split; [|done]. by eapply below_step. Qed.

Lemma ident_in_here `{Rnix} n id : id ∈ node_idents n → ident_in n id.
Proof. intros Hid. exists n. split; [constructor|done]. Qed.

(** * Outcomes *)

Definition unknown_msg (s : string) `{Rnix} (id : Ident NixNode) : string :=
  "line " +:+ fmt_usize (txtrng_to_lineno s (node_text_range (ident_node id)))
  +:+ ": unknown identifier " +:+ ident_as_str id.

(** The outcome is a result, or the report of one of the identifiers [ids] that
    is not in scope. *)
Definition only_unknown `{Rnix} {A} (s : string) (sc : list string) (ids : Ident NixNode → Prop)
    (o : outcome string A) : Prop :=
  match o with
  | Ok _ => True
  | Err e => ∃ id, ids id ∧ (ident_as_str id ∉ sc) ∧ e = unknown_msg s id
  | Panic _ | OutOfFuel => False
  end.

Section outcomes.
Context `{Rnix} (s : string) (sc : list string) (ids : Ident NixNode → Prop).
Local Abbreviation ou := (only_unknown s sc ids).

Lemma ou_ok {A} (a : A) : ou (Ok a).
Proof. done. Qed.
Lemma ou_bind {A B} (m : outcome string A) (k : A → outcome string B) :
  ou m → (∀ a, m = Ok a → ou (k a)) → ou (obind m k).
Proof. intros Hm Hk. destruct m; simpl; auto. Qed.
Lemma ou_omap {A B} (f : A → B) (m : outcome string A) : ou m → ou (omap_ f m).
Proof. by destruct m. Qed.
Lemma ou_otraverse {A B} (f : A → outcome string B) l :
  (∀ x, x ∈ l → ou (f x)) → ou (otraverse f l).
Proof.
  induction l as [|x l IH]; intros Hf; [done|]. apply ou_bind; [apply Hf; by left|intros y _].
  apply ou_bind; [|done]. apply IH. intros z Hz. apply Hf. by right.
Qed.
End outcomes.

Section cases.
Context `{Rnix, SerdeJson, StdSort}.
Context (comp : env → StackCtx → NixNode → outcome string expr).
Context (acc : list string → bool → NixNode → bool).
Context (s : string) (sc : list string) (ids : Ident NixNode → Prop).

(** The environments the cases meet: of this source, with at least the names
    [sc]. *)
Definition env_ok (E : env) : Prop := e_inp E = s ∧ sc ⊆ names_of E.
(** The identifiers of a node below are of the program. *)
Definition idents_ok (n : NixNode) : Prop := ∀ id, ident_in n id → ids id.

Context (comp_ou : ∀ E sctx n sc',
  env_ok E → idents_ok n → acc sc' true n = true → only_unknown s sc ids (comp E sctx n)).
Local Abbreviation ou := (only_unknown s sc ids).

Lemma env_ok_bind E vs : env_ok E → env_ok (bind_vars vs E).
Proof. intros [Hi Hn]. split; [done|]. rewrite names_of_bind. set_solver. Qed.

Lemma ou_resolve E id : env_ok E → ids id → ou (resolve E id).
Proof.
  intros [Hi Hn] Hid. unfold resolve. destruct (vars_find _ _) as [k|] eqn:Hf; [done|].
  destruct (0 <? _); [done|]. exists id. split; [done|]. split; [|by rewrite <- Hi].
  intros Hin%Hn. apply vars_find_is_Some in Hin as [k Hk]. by rewrite Hk in Hf.
Qed.

Lemma ou_ident E sctx id : env_ok E → ids id → ou (compile_ident E sctx id).
Proof. intros. apply ou_bind; [by apply ou_resolve|done]. Qed.

Lemma ou_opt E sctx rng x desc sc' :
  env_ok E → (∀ m, m ∈ option_list x → idents_ok m) → accepts_opt acc sc' true x = true →
  ou (compile_opt comp E sctx rng x desc).
Proof. destruct x as [m|]; [|done]. intros HE Hm Ha. eapply comp_ou; [done|by apply Hm; left|done]. Qed.

Lemma ou_elem E k sc' :
  env_ok E → idents_ok k → accepts_elem acc sc' true k = true → ou (compile_elem comp E k).
Proof.
  unfold accepts_elem, compile_elem. intros HE Hk Ha. destruct (Ident_cast k); [done|].
  apply ou_omap. by eapply comp_ou.
Qed.

Lemma idents_ok_cast k id : idents_ok k → Ident_cast k = Some id → ids id.
Proof. intros Hk Hid. apply Hk, ident_in_here, elem_of_app. left. rewrite Hid. by left. Qed.

Lemma ou_target E k scope sc' :
  env_ok E → idents_ok k → accepts_target acc sc' true (bool_decide (is_Some scope)) k = true →
  ou (compile_target comp E k scope).
Proof.
  unfold compile_target, accepts_target. intros HE Hk Ha. destruct scope as [x|]; simpl in Ha.
  - apply ou_omap. by eapply ou_elem.
  - destruct (Ident_cast k) as [id|] eqn:Hid; [|done]. apply ou_ident; [done|]. by eapply idents_ok_cast.
Qed.

(** ** Bindings *)

Local Ltac conjs := repeat match goal with Hx : _ && _ = true |- _ => apply andb_true_iff in Hx as [? ?] end.

Lemma ou_path E l sc' :
  env_ok E → (∀ m, m ∈ l → idents_ok m) → forallb (accepts_elem acc sc' true) l = true →
  ou (otraverse (compile_elem comp E) l).
Proof.
  intros HE Hl Ha. rewrite forallb_forall in Ha. apply ou_otraverse. intros k Hk.
  eapply ou_elem; [done|by apply Hl|by apply Ha, list_elem_of_In].
Qed.

Lemma ou_kv E sctx i scope sc' :
  env_ok E → (∀ m, m ∈ kv_children i → idents_ok m) →
  accepts_entry acc sc' true (bool_decide (is_Some scope)) i = true →
  ou (compile_kv comp E sctx i scope).
Proof.
  unfold compile_kv, accepts_entry, kv_children. cbv zeta. intros HE Hok Ha.
  destruct (kv_key i) as [[[|k ks]]|]; try discriminate Ha. destruct (kv_value i) as [v|]; [|discriminate Ha].
  cbn [obind of_option]. apply andb_true_iff in Ha as [[Ht Hv]%andb_true_iff Hks].
  assert (idents_ok k) by (apply Hok; left).
  assert (idents_ok v) by (apply Hok; cbn; rewrite elem_of_cons, elem_of_app; right; right; by left).
  assert (∀ m, m ∈ ks → idents_ok m) by (intros; apply Hok; cbn; rewrite elem_of_cons, elem_of_app; auto).
  assert (ou (comp E sctx v)) by (by eapply comp_ou).
  assert (ou (compile_target comp E k scope)) by (by eapply ou_target).
  assert (ou (otraverse (compile_elem comp E) ks)) by (by eapply ou_path).
  destruct ks as [|k2 ks]; [|destruct scope as [x|]].
  - apply ou_bind; [done|intros t _]. by apply ou_bind.
  - apply ou_bind; [eapply ou_elem; [done|done|exact Ht]|intros t _]. apply ou_bind; [done|intros e _]. by apply ou_bind.
  - apply ou_bind; [done|intros t _]. apply ou_bind; [done|intros e _]. by apply ou_bind.
Qed.

Lemma ou_inherit E sctx i scope tmp sc' :
  env_ok E → (∀ m, m ∈ inherit_children i → idents_ok m) → (∀ id, id ∈ inh_idents i → ids id) →
  accepts_inherit acc sc' true (bool_decide (is_Some scope)) i = true →
  ou (compile_inherit comp E sctx i scope tmp).
Proof.
  unfold compile_inherit, accepts_inherit, inherit_children. intros HE Hok Hids Ha.
  apply andb_true_iff in Ha as [Ht Ha]. rewrite forallb_forall in Ht.
  assert (∀ id, id ∈ inh_idents i → ou (compile_target comp E (ident_node id) scope)) as Htarget.
  { intros id Hid. eapply ou_target; [done| |by apply Ht, list_elem_of_In].
    apply Hok, elem_of_app. left. by apply list_elem_of_fmap_2. }
  destruct (inh_from i) as [inhf|]; cbv zeta.
  - assert (∀ sctx, ou (compile_opt comp E sctx (node_text_range (inhf_node inhf)) (inhf_inner inhf)
      "inner for inherit-from")) as Hinner.
    { intros sctx'. eapply ou_opt; [done| |done]. intros m Hm. apply Hok, elem_of_app. by right. }
    assert (∀ l, l ⊆ inh_idents i → ou
      (olet e := compile_opt comp E (inner_ctx (mksctx Nothing Want) Forward Flush Front)
                   (node_text_range (inhf_node inhf)) (inhf_inner inhf) "inner for inherit-from" in
       olet ts := otraverse (λ id, olet t := compile_target comp E (ident_node id) scope in
                                   Ok (t, ident_as_str id)) l in
       Ok [SInherit tmp (wrap (mksctx Nothing Want) Forward Flush Front (BExpr e)) ts])) as Hmany.
    { intros l Hl. apply ou_bind; [done|intros e _]. apply ou_bind; [|done]. apply ou_otraverse.
      intros id Hid. apply ou_bind; [by apply Htarget, Hl|done]. }
    destruct (inh_idents i) as [|id [|id2 l]]; [by apply Hmany| |by apply Hmany].
    apply ou_bind; [apply Htarget; by left|intros t _]. by apply ou_bind.
  - apply ou_otraverse. intros id Hid. apply ou_bind; [by apply Htarget|intros t _].
    apply ou_bind; [|done]. by apply ou_ident; [|apply Hids].
Qed.

(** The holders of bindings. *)
Definition holder_ok (h : EntryHolder NixNode) : Prop :=
  (∀ m, m ∈ holder_children h → idents_ok m) ∧ (∀ id, id ∈ holder_idents h → ids id).

Lemma holder_below_entry h i m : holder_ok h → i ∈ entries h → m ∈ kv_children i → idents_ok m.
Proof.
  intros [Hok _] Hi Hm. apply Hok, elem_of_app. left. apply list_elem_of_join. exists (kv_children i).
  split; [done|]. by apply list_elem_of_fmap_2.
Qed.

Lemma holder_below_inherit h i m : holder_ok h → i ∈ inherits h → m ∈ inherit_children i → idents_ok m.
Proof.
  intros [Hok _] Hi Hm. apply Hok, elem_of_app. right. apply list_elem_of_join. exists (inherit_children i).
  split; [done|]. by apply list_elem_of_fmap_2.
Qed.

Lemma holder_below_ident h i id : holder_ok h → i ∈ inherits h → id ∈ inh_idents i → ids id.
Proof.
  intros [_ Hok] Hi Hid. apply Hok. apply list_elem_of_join. exists (inh_idents i).
  split; [done|]. by apply list_elem_of_fmap_2.
Qed.

Lemma ou_entries E sctx h scope sc' :
  env_ok E → holder_ok h →
  forallb (accepts_entry acc sc' true (bool_decide (is_Some scope))) (entries h) = true →
  ou (otraverse (λ i, compile_kv comp E sctx i scope) (entries h)).
Proof.
  intros HE Hok Ha. rewrite forallb_forall in Ha. apply ou_otraverse. intros i Hi.
  eapply ou_kv; [done| |by apply Ha, list_elem_of_In]. intros m. by eapply holder_below_entry.
Qed.

Lemma ou_inherits E sctx h scope sc' :
  env_ok E → holder_ok h →
  forallb (accepts_inherit acc sc' true (bool_decide (is_Some scope))) (inherits h) = true →
  ou (compile_inherits comp E sctx h scope).
Proof.
  intros HE Hok Ha. rewrite forallb_forall in Ha. apply ou_omap, ou_otraverse. intros [n i] Hi.
  apply elem_of_zip_r in Hi as Hin.
  eapply ou_inherit; [done| | |by apply Ha, list_elem_of_In].
  - intros m. by eapply holder_below_inherit.
  - intros id. by eapply holder_below_ident.
Qed.

Lemma ou_return E b scope sc' :
  env_ok E → (∀ n, b = LbNix n → idents_ok n) → accepts_return acc sc' true b = true →
  ou (compile_return comp E b scope).
Proof. destruct b as [n|]; [|done]. intros HE Hb Ha. eapply comp_ou; [done|by apply Hb|done]. Qed.

Lemma ou_let_object E body_sctx sctx h b scope sc' :
  env_ok E → holder_ok h → let_is_object h b scope = true → accepts_object acc sc' true h = true →
  ou (compile_let_object comp E body_sctx sctx h).
Proof.
  unfold let_is_object, accepts_object. intros HE Hok Hform Ha. rewrite !andb_true_iff, !forallb_forall in *.
  destruct Hform as [[_ Hen] _], Ha as [Ha1 Ha2].
  apply ou_bind; [|intros fs _; apply ou_bind; [|done]]; apply ou_otraverse.
  - intros i Hi. specialize (Hen i (proj1 (list_elem_of_In _ _) Hi)). unfold entry_is_field in Hen.
    specialize (Ha1 i (proj1 (list_elem_of_In _ _) Hi)). unfold compile_field.
    destruct (kv_value i) as [v|] eqn:Hv; [|done]. destruct (kv_key i) as [[[|k [|]]]|]; try done.
    cbn [key_path head ounwrap obind] in *. destruct (Ident_cast k); [|done]. cbn [ounwrap obind].
    apply ou_bind; [|done]. eapply comp_ou; [done| |done]. eapply holder_below_entry; [done..|].
    apply elem_of_app. right. rewrite Hv. by left.
  - intros [id inhf] Hi. apply list_elem_of_join in Hi as (l & Hi & Hl).
    apply list_elem_of_fmap in Hl as (i & -> & Hin). apply list_elem_of_fmap in Hi as (id' & [= -> ->] & Hid).
    specialize (Ha2 i (proj1 (list_elem_of_In _ _) Hin)). unfold compile_inherited_field. cbn [fst snd].
    apply ou_bind; [|done]. destruct (inh_from i) as [x|] eqn:Hfrom.
    + apply ou_bind; [|done]. eapply ou_opt; [done| |done]. intros m Hm. eapply holder_below_inherit; [done..|].
      unfold inherit_children. rewrite Hfrom. apply elem_of_app. by right.
    + apply ou_ident; [done|]. by eapply holder_below_ident.
Qed.

Lemma ou_block E sctx h b scope obj sc' (r : list stmt → list stmt → expr → expr) :
  env_ok E → holder_ok h → (∀ n, b = LbNix n → idents_ok n) →
  forallb (accepts_entry acc sc' true (bool_decide (is_Some obj))) (entries h)
  && forallb (accepts_inherit acc sc' true (bool_decide (is_Some obj))) (inherits h)
  && accepts_return acc sc' true b = true →
  ou (olet sts := otraverse (λ i, compile_kv comp E sctx i obj) (entries h) in
      olet inhs := compile_inherits comp E sctx h obj in
      olet e := compile_return comp E b scope in
      Ok (r sts inhs e)).
Proof.
  intros HE Hok Hb Ha. conjs. apply ou_bind; [by eapply ou_entries|intros sts _].
  apply ou_bind; [by eapply ou_inherits|intros inhs _]. apply ou_bind; [by eapply ou_return|done].
Qed.

Lemma ou_let E body_sctx values_lazy h b scope sc' :
  env_ok E → holder_ok h → (∀ n, b = LbNix n → idents_ok n) →
  accepts_let acc sc' true h b scope = true →
  ou (compile_let comp E body_sctx values_lazy h b scope).
Proof.
  unfold compile_let, accepts_let. cbv zeta. intros HE Hok Hb Ha.
  assert (∀ sctx,
    (if let_is_object h b scope then accepts_object acc sc' true h
     else
       let sc' := if bool_decide (scope = NIX_IN_SCOPE) then sc' ++ (snd <$> getkeys h) else sc' in
       forallb (accepts_entry acc sc' true (negb (let_is_variables h b scope))) (entries h)
       && forallb (accepts_inherit acc sc' true (negb (let_is_variables h b scope))) (inherits h)
       && accepts_return acc sc' true b) = true →
    ou (if let_is_object h b scope then compile_let_object comp E body_sctx sctx h
        else if let_is_variables h b scope then compile_let_variables comp E body_sctx sctx h b scope
        else compile_let_scope comp E body_sctx sctx h b scope)) as Hlet.
  { clear Ha. intros sctx Ha. cbv zeta in Ha.
    destruct (let_is_object h b scope) eqn:Ho; [by eapply ou_let_object|].
    destruct (let_is_variables h b scope); cbn [negb] in Ha.
    - by eapply (ou_block _ sctx h b scope None); [apply env_ok_bind|..].
    - eapply (ou_block _ sctx h b scope (Some scope)); [|done..|exact Ha].
      case_bool_decide; [by apply env_ok_bind|done]. }
  destruct (entries h) as [|x l], (inherits h) as [|y l']; try by apply Hlet.
  destruct b as [n|]; [|done]. eapply comp_ou; [done|by apply Hb|done].
Qed.

(** ** Functions, strings and selections *)

Local Ltac child Hc := intros; apply Hc; cbn; rewrite ?elem_of_cons, ?elem_of_app; tauto.
Local Ltac opt Hc := eapply ou_opt; [eassumption|child Hc|eassumption].
(** A sequence of parts that may be missing. *)
Local Ltac parts Hc := repeat (apply ou_bind; [opt Hc|intros]); try apply ou_ok.

Lemma ou_select E sctx rng sel sc' :
  env_ok E → (∀ m, m ∈ pt_children (PtSelect sel) → idents_ok m) →
  accepts_opt acc sc' true (sel_set sel)
  && match sel_index sel with Some k => accepts_elem acc sc' true k | None => false end = true →
  ou (compile_select comp E sctx rng sel).
Proof.
  unfold compile_select. intros HE Hok Ha. apply andb_true_iff in Ha as [Hs Hi]. cbn in Hok.
  destruct (sel_index sel) as [idx|]; [|done]. destruct (sel_set sel) as [set|]; [|done].
  cbn [of_option obind]. destruct (is_global E set); cbv beta iota;
    (apply ou_bind; [eapply comp_ou; [done|apply Hok; by left|done]|intros e _]; apply ou_bind; [|done];
     eapply ou_elem; [done|apply Hok; right; by left|done]).
Qed.

Lemma ou_str E sctx s0 sc' :
  env_ok E → (∀ m, m ∈ pt_children (PtStr s0) → idents_ok m) →
  forallb (λ p, match p with
                | SpLiteral _ => true
                | SpAst ast => accepts_opt acc sc' true (si_inner ast)
                end) (s_parts s0) = true →
  ou (compile_str comp E sctx s0).
Proof.
  unfold compile_str. intros HE Hok Ha. rewrite forallb_forall in Ha. cbn in Hok.
  assert (∀ parts, parts ⊆ s_parts s0 → ou
    (olet es := otraverse (λ p,
        match p with
        | SpLiteral lit => Ok (EText (escape_str lit))
        | SpAst ast =>
            omap_ EParen (compile_opt comp E (mksctx Want Nothing) (node_text_range (si_node ast))
              (si_inner ast) "inner for str-interpolate")
        end) (List.filter part_nonempty parts) in
      Ok (wrap sctx Forward Need Front (BExpr (EConcat es))))) as Hparts.
  { intros parts Hsub. apply ou_bind; [|done]. apply ou_otraverse. intros p Hp.
    apply list_elem_of_In, filter_In in Hp as [Hp%list_elem_of_In _]. apply Hsub in Hp.
    specialize (Ha p (proj1 (list_elem_of_In _ _) Hp)). destruct p as [lit|ast]; [done|]. apply ou_omap.
    eapply ou_opt; [done| |done]. intros m Hm. apply Hok, list_elem_of_join. exists (str_part_children (SpAst ast)).
    split; [done|]. by apply (list_elem_of_fmap_2 str_part_children). }
  destruct (s_parts s0) as [|[lit|ast] [|p2 ps]]; [done..| | |]; by apply Hparts.
Qed.

Lemma ou_lambda E rng lam sc' :
  env_ok E → (∀ m, m ∈ option_list (lam_body lam) → idents_ok m) →
  (∀ y, lam_arg lam ≫= Pattern_cast = Some y → ∀ m, m ∈ pattern_children y → idents_ok m) →
  accepts_lambda acc sc' true lam = true → ou (compile_lambda comp E rng lam).
Proof.
  unfold compile_lambda, accepts_lambda. intros HE Hok Hpat Ha.
  destruct (lam_arg lam) as [argx|]; [|done]. cbn [of_option obind]. simpl in Hpat.
  destruct (Ident_cast argx) as [y|].
  - cbv zeta. apply ou_bind; [|done]. eapply ou_opt; [by apply env_ok_bind|done|done].
  - destruct (Pattern_cast argx) as [y|]; [|done]. specialize (Hpat y eq_refl).
    apply andb_true_iff in Ha as [[Hnames Hdfl]%andb_true_iff Hbody]. unfold compile_lambda_pattern.
    pose proof (pattern_entries_all (pat_debug y) (pat_entries y)) as Hp.
    destruct (pattern_entries _ _) as [ents|?|?|]; [|by rewrite Hnames in Hp..].
    destruct Hp as (_ & _ & Hd). cbn [obind]. cbv zeta. apply ou_bind; [|intros es _; apply ou_bind; [|done]].
    + apply ou_otraverse. intros [z [d|]] He; [|done]. cbn [fst snd]. apply ou_bind; [|done]. apply ou_omap.
      assert (d ∈ pattern_children y) as Hin.
      { unfold pattern_children. apply list_elem_of_join. exists [d]. split; [by left|].
        apply (list_elem_of_fmap_2 snd) in He. rewrite Hd in He. simpl in He.
        apply list_elem_of_fmap in He as (en & Hen & Hin). apply list_elem_of_fmap. exists en. by rewrite <- Hen. }
      eapply comp_ou; [by apply env_ok_bind|by apply Hpat|]. rewrite forallb_forall in Hdfl.
      by apply Hdfl, list_elem_of_In.
    + eapply ou_opt; [by apply env_ok_bind|done|done].
Qed.

Lemma ou_binop E sctx rng bo sc' :
  env_ok E → (∀ m, m ∈ pt_children (PtBinOp bo) → idents_ok m) →
  match bo_operator bo with
  | None => false
  | Some IsSet =>
      accepts_opt acc sc' true (bo_lhs bo)
      && match bo_rhs bo with Some x => accepts_elem acc sc' true x | None => false end
  | Some (OtherOp _) => accepts_opt acc sc' true (bo_lhs bo) && accepts_opt acc sc' true (bo_rhs bo)
  end = true →
  ou (compile_binop comp E sctx rng bo).
Proof.
  unfold compile_binop. intros HE Hok Ha. destruct (bo_operator bo) as [[|dbg]|]; [| |done]; cbn [of_option obind];
    apply andb_true_iff in Ha as [Hl Hr].
  - apply ou_bind; [opt Hok|intros l _]. cbn in Hok. destruct (bo_rhs bo) as [x|]; [|done]. cbn [of_option obind].
    apply ou_bind; [|done]. unfold accepts_elem in Hr. destruct (Ident_cast x); [done|].
    eapply comp_ou; [done| |done]. apply Hok, elem_of_app. right. by left.
  - parts Hok.
Qed.

(** ** All nodes *)

Lemma ou_body E sctx n sc' :
  env_ok E → idents_ok n → accepts_body acc sc' true n = true →
  ou (compile_body comp E sctx n).
Proof.
  unfold compile_body, accepts_body. intros HE Hn Ha. destruct (node_is_trivia n); [done|]. cbv zeta.
  assert (∀ m, m ∈ node_children n → idents_ok m) as Hok.
  { intros m Hm id Hid. apply Hn. by eapply ident_in_child. }
  assert (∀ id, id ∈ node_idents n → ids id) as Hids by (intros; by apply Hn, ident_in_here).
  unfold node_children in Hok. unfold node_idents in Hids.
  destruct (ParsedType_try_from n) as [pt|kind]; [|done].
  assert (∀ id, id ∈ pt_idents pt → (∀ lam, pt ≠ PtLambda lam) → ids id) as Hpt.
  { intros id Hid Hl. apply Hids, elem_of_app. right. destruct pt; try done. by destruct (Hl lam). }
  assert (∀ h, pt_idents pt = holder_idents h → pt_children pt = holder_children h ∨
    (∃ l, pt_children pt = holder_children h ++ l) → (∀ lam, pt ≠ PtLambda lam) → holder_ok h) as Hholder.
  { intros h Hi Hc Hl. split.
    - intros m Hm. apply Hok. assert (m ∈ pt_children pt) as Hin.
      { destruct Hc as [-> |[l ->]]; [done|]. apply elem_of_app. by left. }
      destruct pt; try done. by destruct (Hl lam).
    - intros id Hid. apply Hpt; [by rewrite Hi|done]. }
  destruct pt as [app|art|ars|bo|d| |id|ie|inh|inhf|?|?|lam|l|l|l|od|p|?|?|?|?|r|sel|s0|si|uo|v|w]; try done.
  - apply andb_true_iff in Ha as [Ha1 Ha2]. unfold compile_apply. parts Hok.
  - apply andb_true_iff in Ha as [Ha1 Ha2]. unfold compile_assert. cbn in Hok.
    destruct (art_condition art) as [cond|]; [|done]. cbn [of_option obind]. cbv zeta.
    apply ou_bind; [eapply comp_ou; [done|apply Hok; by left|done]|intros c _]. parts Hok.
  - eapply ou_let; [done|apply Hholder; auto|done|done].
  - by eapply ou_binop.
  - opt Hok.
  - apply ou_ident; [done|]. apply Hpt; [by left|done].
  - apply andb_true_iff in Ha as [[Ha1 Ha2]%andb_true_iff Ha3]. unfold compile_ifelse. cbv zeta. parts Hok.
  - apply ou_omap. eapply ou_inherit; [done|done| |exact Ha]. intros id Hid. by apply Hpt.
  - opt Hok.
  - eapply ou_lambda; [done| | |done].
    + intros m Hm. apply Hok, elem_of_app. by left.
    + intros y Hy m Hm. apply Hok, elem_of_app. right. by rewrite Hy.
  - unfold compile_legacy_let.
    destruct (List.find entry_is_body (entries (ll_holder l)) ≫= kv_value) as [b|] eqn:Hb; [|done].
    eapply ou_let; [done|apply Hholder; auto| |done]. intros m [= <-]. apply Hok. by apply legacy_body_child.
  - unfold compile_let_in. assert (∀ b, li_body l = Some b → idents_ok b) as Hbody.
    { intros b Hb. apply Hok. cbn. rewrite Hb. apply elem_of_app. right. by left. }
    destruct (li_body l) as [b|] eqn:Hb; [|done].
    eapply ou_let; [done|apply Hholder; [done|right; by eexists|done]| |done]. intros m [= <-]. by apply Hbody.
  - apply ou_bind; [|done]. apply ou_otraverse. intros m Hm. rewrite forallb_forall in Ha.
    eapply comp_ou; [done|by apply Hok|by apply Ha, list_elem_of_In].
  - apply andb_true_iff in Ha as [Ha1 Ha2]. unfold compile_or_default. parts Hok.
  - opt Hok.
  - opt Hok.
  - by eapply ou_select.
  - by eapply ou_str.
  - opt Hok.
  - unfold compile_unary_op. parts Hok.
  - unfold compile_value, accepts_value in *. destruct (v_to_value v) as [[flt|?|?|?]|?]; try done.
    by destruct (JsNumber_from_f64 flt).
  - apply andb_true_iff in Ha as [Ha1 Ha2]. unfold compile_with.
    apply ou_bind; [eapply ou_opt; [|child Hok|exact Ha1]; done|intros b _]. parts Hok.
Qed.
End cases.

Lemma compile_only_unknown `{Rnix, SerdeJson, StdSort} s sc ids fuel E sctx n sc' :
  env_ok s sc E → idents_ok ids n → accepts fuel sc' true n = true →
  only_unknown s sc ids (compile fuel E sctx n).
Proof.
  revert E sctx n sc'. induction fuel as [|fuel IH]; intros E sctx n sc' HE Hn Ha; [done|].
  by eapply (ou_body _ (accepts fuel)).
Qed.

(** * The theorem *)

Section theorem.
Context `{Rnix, Linetrack, Vlq, SerdeJson, StdSort}.

(** C10. On a program that is complete, that is, that would be accepted if every
    name were known, the only errors are unknown identifiers: if the parser
    reports nothing and [translate] fails, then with one message, which names an
    identifier of the program that is not global, and the line of it. *)
Theorem translate_errors_unknown fuel s inp_name es :
  let root := snd (rnix_parse s) in
  fst (rnix_parse s) = [] →
  accepts fuel [] true root = true →
  translate fuel s inp_name = Err es →
  ∃ id, es = [unknown_msg s id] ∧ ident_in root id ∧ ident_as_str id ∉ DFL_VARS.*1.
Proof.
  intros root Herr Ha Ht. subst root. unfold translate in Ht. destruct (rnix_parse s) as [errs root].
  simpl in *. subst errs. pose proof (translate_root_prints fuel s root) as Hp. cbv zeta in Hp.
  destruct (translate_node _ _ _ _) as [[u|e|p|] c]; [by destruct (is_utf8 _)| |done..].
  injection Ht as <-.
  pose proof (compile_only_unknown s (DFL_VARS.*1) (ident_in root) fuel (mkEnv s DFL_VARS 0)
    (mksctx Nothing Want) root [] ltac:(done) ltac:(by intros id) Ha) as Ho.
  rewrite Hp in Ho. destruct Ho as (id & Hid & Hn & ->). by exists id.
Qed.
End theorem.
