(* ===== verification/Termination.v ===== *)
(** Termination of the translator: the fuel is enough as soon as it exceeds the
    size of the tree. *)
From S2P Require Import Prelude Text Externs Consts Context Helpers Idents Let Node Tree Lazyness Keeps Traversal Translate.
Local Open Scope nix2js_scope.

(** * Enough fuel *)

Section enough.
Context `{Rnix, Linetrack, Vlq, SerdeJson, StdSort, !StdSortLaws}.

Definition fuel_exits : exits Context := mkExits (λ _, True) (λ _, True) (λ _, False).

Lemma triple_fuel {A} (m : M A) :
  (∀ c, fst (m c) ≠ OutOfFuel) → triple fuel_exits (λ _, True) m (λ _ _, True).
Proof. intros Hm c _. specialize (Hm c). by destruct (m c) as [[] ?]. Qed.

Lemma snapshot_pos_fuel pos : triple fuel_exits (λ _, True) (snapshot_pos pos) (λ _ _, True).
Proof.
  apply triple_fuel. intros c.
  unfold snapshot_pos, line_cache_run, try_i64, i64_sub, try_u32, bind, gets, modify.
  repeat (case_match; simplify_eq/=; try done).
Qed.

Lemma record_ident_fuel rng : triple fuel_exits (λ _, True) (record_ident rng) (λ _ _, True).
Proof.
  apply triple_fuel. intros c. unfold record_ident, bind, gets, unwrap, try_i64.
  repeat (case_match; simplify_eq/=; try done).
Qed.

#[local] Instance fuel_steps : Steps fuel_exits (λ _, True) (λ _, True).
Proof.
  split; try done; intros; [apply snapshot_pos_fuel|].
  eapply steps_ident_parts; eauto using snapshot_pos_fuel, record_ident_fuel.
Qed.

Lemma everywhere_any (P : NixNode → Prop) (size : NixNode → nat) n :
  (∀ m k, k ∈ node_children m → size k < size m) → (∀ m, P m) → everywhere P n.
Proof.
  intros Hs HP. remember (size n) as sz eqn:Hsz. revert n Hsz.
  induction (lt_wf sz) as [sz _ IH]. intros n ->. constructor; [done|].
  intros m Hm. by eapply IH; [apply Hs|].
Qed.

Lemma translate_node_fuel `{!RnixLaws} fuel sctx n c :
  node_size n < fuel → lazy_st sctx ≠ Did → fst (translate_node fuel sctx n c) ≠ OutOfFuel.
Proof.
  intros Hf Hs.
  assert (everywhere (node_ok fuel_exits (λ _, True) (λ _, True)) n) as Hn.
  { eapply everywhere_any; [apply node_size_child|]. intros m. split_and!; [done..|by right]. }
  pose proof (translate_node_exact _ _ _ node_size fuel sctx n Hn) as Hex.
  assert (fuel_ok fuel_exits (λ _, True) node_size fuel n) as Hfuel
    by (left; split; [done|apply node_size_child]).
  specialize (Hex Hfuel Hs (vars c) (with_stack c) c).
  destruct (translate_node fuel sctx n c) as [[] ?]; try done.
  by destruct Hex.
Qed.
End enough.

(** * The theorem *)

Section theorem.
Context `{Rnix, Linetrack, Vlq, SerdeJson, StdSort}.

(** C12. Termination: with more fuel than the size of the tree, [translate]
    returns for every source, well formed or not. *)
Theorem translate_terminates `{!RnixLaws, !StdSortLaws} fuel s inp_name :
  node_size (snd (rnix_parse s)) < fuel → translate fuel s inp_name ≠ OutOfFuel.
Proof.
  intros Hf. unfold translate. destruct (rnix_parse s) as [[|e errs] root]; [|done].
  pose proof (translate_node_fuel fuel (mksctx Nothing Want) root (initial_context s) Hf
                ltac:(done)) as Hn.
  destruct (translate_node _ _ _ _) as [[] c]; try done. by destruct (is_utf8 _).
Qed.

End theorem.
