(* ===== verification/Safety.v ===== *)
(** The translator does not panic: none of its [unwrap]s, [assert!]s, integer
    conversions, slices and [unreachable!]s fires on a well-formed tree, unless a
    buffer outgrew the integer types. *)
From S2P Require Import Prelude Text Externs Consts Context Helpers Idents Let Node Tree Lazyness Keeps Traversal Translate Termination.
From Stdlib Require Import Ascii.
Local Open Scope nix2js_scope.

(** The bytes of [mappings]. *)
Definition is_mapping_char (a : ascii) : bool :=
  is_base64 a || Ascii.eqb a ";" || Ascii.eqb a ",".

Lemma in_range_spec lo hi a : in_range lo hi a = true ↔ (lo ≤ byte_val a ≤ hi)%N.
Proof. unfold in_range. rewrite andb_true_iff, !N.leb_le. done. Qed.

Lemma is_mapping_char_ascii a : is_mapping_char a = true → in_range 0 127 a = true.
Proof.
  rewrite in_range_spec. unfold is_mapping_char, is_base64, is_alnum, is_alpha, is_upper, is_lower,
    is_digit. rewrite !orb_true_iff, !in_range_spec, !Ascii.eqb_eq.
  intros H; repeat destruct H as [H|H]; try (subst a; by vm_compute); lia.
Qed.

Lemma ascii_is_utf8 s : str_forall (in_range 0 127) s = true → is_utf8 s = true.
Proof.
  induction s as [|a s IH]; [done|]. cbn [str_forall is_utf8].
  rewrite andb_true_iff. intros [-> Hs]. by apply IH.
Qed.

Lemma str_slice_Some s lo hi t :
  str_slice s lo hi = Some t → lo ≤ hi ∧ hi ≤ String.length s.
Proof.
  unfold str_slice. destruct (_ && _) eqn:Hb; [|done]. intros _.
  rewrite !andb_true_iff, !Nat.leb_le in Hb. tauto.
Qed.

Section safety.
Context `{Rnix, Linetrack, Vlq, SerdeJson, StdSort}.
Context `{!LinetrackLaws, !VlqLaws, !StdSortLaws}.

(** A buffer is too long for the [u32] or [i64] its length is converted to. *)
Definition exhausted (c : Context) : Prop :=
  (2 ^ 32 ≤ Z.of_nat (String.length (acc c)))%Z ∨ (2 ^ 63 ≤ Z.of_nat (length (names c)))%Z.

Definition panic_exits : exits Context := mkExits (λ _, True) exhausted (λ _, False).

Definition in_source (s : string) (rng : TextRange) : Prop :=
  is_Some (str_slice s (range_start rng) (range_end rng)).

Definition safe (s : string) (c : Context) : Prop :=
  inp c = s ∧ cache_of s (line_cache c)
  ∧ fst (lp_src c) ≤ S (String.length s) ∧ snd (lp_src c) ≤ S (String.length s)
  ∧ str_forall is_mapping_char (mappings c) = true.

Lemma vlq_mapping_chars n : str_forall is_mapping_char (vlq_encode n) = true.
Proof.
  eapply str_forall_impl; [|apply vlq_base64]. intros a Ha. unfold is_mapping_char. by rewrite Ha.
Qed.

Lemma triple_mappings_push (P : Context → Prop) s t :
  (∀ c, P c → safe s c) → str_forall is_mapping_char t = true →
  triple panic_exits P (mappings_push t) (λ _, safe s).
Proof.
  intros HP Ht c (?&?&?&?&Hm)%HP. split_and!; try done. simpl.
  by rewrite str_forall_app, Hm, Ht.
Qed.

Lemma triple_try_i64 P (Q : Z → Context → Prop) n :
  (∀ c, P c → (i64_min ≤ n ≤ i64_max)%Z ∨ exhausted c) →
  (∀ c, P c → Q n c) → triple panic_exits P (try_i64 n) Q.
Proof.
  intros Hn HQ c Hc. unfold try_i64. destruct (_ && _) eqn:Hb; [by apply HQ|].
  simpl. destruct (Hn c Hc) as [[??]|]; [|done].
  rewrite andb_false_iff, !Z.leb_gt in Hb. lia.
Qed.

Lemma triple_try_u32 P (Q : Z → Context → Prop) n :
  (∀ c, P c → (0 ≤ n ≤ Z.of_nat (String.length (acc c)))%Z) →
  (∀ c, P c → Q n c) → triple panic_exits P (try_u32 n) Q.
Proof.
  intros Hn HQ c Hc. unfold try_u32. destruct (_ && _) eqn:Hb; [by apply HQ|].
  left. destruct (Hn c Hc). rewrite andb_false_iff, !Z.leb_gt in Hb. unfold u32_max in Hb. lia.
Qed.

Lemma triple_i64_sub P (Q : Z → Context → Prop) a b :
  (0 ≤ a ≤ i64_max)%Z → (0 ≤ b ≤ i64_max)%Z →
  (∀ c, P c → Q (a - b)%Z c) → triple panic_exits P (i64_sub a b) Q.
Proof.
  intros Ha Hb HQ c Hc. unfold i64_sub. destruct (_ && _) eqn:E; [by apply HQ|].
  rewrite andb_false_iff, !Z.leb_gt in E. unfold i64_min, i64_max in *. lia.
Qed.

(** The line and column of the source position are within the source. *)
Definition pos_within (s : string) (p : nat * nat) : Prop :=
  p.1 ≤ S (String.length s) ∧ p.2 ≤ S (String.length s).

Lemma triple_line_cache_run s pos :
  pos ≤ String.length s →
  triple panic_exits (safe s) (line_cache_run pos) (λ p c, pos_within s p ∧ safe s c).
Proof.
  intros Hpos c (Hi & Hlc & Hl1 & Hl2 & Hm). unfold line_cache_run, bind, gets, modify.
  pose proof (LineCache_run_of s _ pos Hlc Hpos) as Hof.
  pose proof (LineCache_run_position s _ pos Hlc Hpos) as Hp.
  destruct (LineCache_run (line_cache c) pos) as [p lc]. simpl in *. subst p.
  split; [by apply position_of_bound|by split_and!].
Qed.

Lemma within_i64 s n :
  (Z.of_nat (String.length s) < i64_max)%Z → n ≤ S (String.length s) →
  (0 ≤ Z.of_nat n ≤ i64_max)%Z.
Proof. lia. Qed.

(** The conversion of a source coordinate succeeds. *)
Lemma triple_try_coord {B} s n (k : Z → M B) (Q : B → Context → Prop) :
  (Z.of_nat (String.length s) < i64_max)%Z → n ≤ S (String.length s) →
  triple panic_exits (safe s) (k (Z.of_nat n)) Q →
  triple panic_exits (safe s) (bind (try_i64 (Z.of_nat n)) k) Q.
Proof.
  intros Hs Hn Hk. pose proof (within_i64 s n Hs Hn) as Hz.
  eapply (triple_bind _ _ (λ z c, z = Z.of_nat n ∧ safe s c)).
  - apply triple_try_i64; [|done]. intros. left. unfold i64_min. lia.
  - intros z. apply triple_pure. by intros ->.
Qed.

Lemma triple_coord_diff {B} s a b (k : Z → M B) (Q : B → Context → Prop) :
  (Z.of_nat (String.length s) < i64_max)%Z →
  a ≤ S (String.length s) → b ≤ S (String.length s) →
  triple panic_exits (safe s) (k (Z.of_nat a - Z.of_nat b)%Z) Q →
  triple panic_exits (safe s) (bind (i64_sub (Z.of_nat a) (Z.of_nat b)) k) Q.
Proof.
  intros Hs Ha Hb Hk. pose proof (within_i64 s a Hs Ha). pose proof (within_i64 s b Hs Hb).
  eapply (triple_bind _ _ (λ z c, z = (Z.of_nat a - Z.of_nat b)%Z ∧ safe s c)).
  - by apply triple_i64_sub.
  - intros z. apply triple_pure. by intros ->.
Qed.

Lemma triple_push_then {B} s t (k : unit → M B) (Q : B → Context → Prop) :
  str_forall is_mapping_char t = true → triple panic_exits (safe s) (k tt) Q →
  triple panic_exits (safe s) (bind (mappings_push t) k) Q.
Proof.
  intros Ht Hk. eapply triple_bind; [by apply triple_mappings_push with (s := s)|by intros []].
Qed.

Lemma triple_snapshot_pos s pos :
  (Z.of_nat (String.length s) < i64_max)%Z → pos ≤ String.length s →
  triple panic_exits (safe s) (snapshot_pos pos) (λ _, safe s).
Proof.
  intros Hs Hpos. unfold snapshot_pos.
  eapply (triple_bind _ _ (λ _, safe s)); [by apply triple_gets|intros dst].
  eapply triple_bind; [by apply triple_line_cache_run|intros [sl sc]].
  apply triple_pure. intros [Hsl Hsc]. simpl in Hsl, Hsc.
  eapply (triple_bind _ _ (λ p c, pos_within s p ∧ safe s c)).
  { apply triple_gets. intros c Hc. split; [|done]. split; apply Hc. }
  intros [pl pc]. apply triple_pure. intros [Hpl Hpc]. simpl in *.
  apply (triple_try_coord s); [done..|]. apply (triple_try_coord s); [done..|].
  apply (triple_coord_diff s); [done..|].
  apply (triple_try_coord s); [done..|]. apply (triple_try_coord s); [done..|].
  apply (triple_coord_diff s); [done..|].
  eapply (triple_bind _ _ (λ r c, safe s c ∧ ∀ l k, fst r = Some (l, k) →
    (0 ≤ l ≤ Z.of_nat (String.length (acc c)) ∧ 0 ≤ k ≤ Z.of_nat (String.length (acc c)))%Z)).
  { apply triple_gets. intros c Hc. split; [done|]. intros l k. by apply PosTracker_update_bound. }
  intros [[[dl dc]|] dst']; simpl; [|by apply triple_ret; intros c [? _]].
  eapply (triple_bind _ _ (λ _ c, safe s c ∧ (0 ≤ dc ≤ Z.of_nat (String.length (acc c)))%Z)).
  { apply triple_try_u32; intros c [? Hb]; [|split; [done|]]; by apply (Hb _ _ eq_refl). }
  intros z. eapply (triple_bind _ _ (λ _, safe s)).
  { apply triple_try_u32; by intros c [??]. }
  intros z'. destruct (_ && _); [by apply triple_ret|].
  apply triple_push_then; [by apply str_forall_repeat|].
  eapply (triple_bind _ _ (λ _, safe s)); [by apply triple_gets|intros m].
  eapply (triple_bind _ _ (λ _, safe s)).
  { destruct (_ && _); [by apply triple_mappings_push with (s := s)|by apply triple_ret]. }
  intros _. apply triple_push_then; [apply vlq_mapping_chars|].
  eapply (triple_bind _ _ (λ _, safe s)).
  { destruct (negb _); [|by apply triple_ret].
    do 2 (apply triple_push_then; [apply vlq_mapping_chars|]).
    apply triple_mappings_push with (s := s); [done|apply vlq_mapping_chars]. }
  intros _. eapply (triple_bind _ _ (λ _, safe s)); [|by intros; apply triple_ret].
  apply triple_modify. intros c (?&?&?&?&?). by split_and!.
Qed.

Lemma triple_record_ident s rng :
  in_source s rng → triple panic_exits (safe s) (record_ident rng) (λ _, safe s).
Proof.
  intros [t Ht]. unfold record_ident.
  eapply (triple_bind _ _ (λ i c, i = s ∧ safe s c)).
  { apply triple_gets. intros c Hc. by split; [apply Hc|]. }
  intros i. apply triple_pure. intros ->. rewrite Ht. simpl.
  eapply (triple_bind _ _ (λ _, safe s)); [by apply triple_ret|intros ident].
  eapply (triple_bind _ _ (λ ns c, ns = names c ∧ safe s c)); [by apply triple_gets|intros ns].
  eapply (triple_bind _ _ (λ idx c, idx < length (names c) ∧ safe s c)).
  { destruct (position _ ns) as [idx|] eqn:Hp.
    - apply triple_ret. intros c [-> Hc]. split; [|done].
      apply position_Some in Hp as (x & Hx & _). by eapply lookup_lt_Some.
    - eapply (triple_bind _ _ (λ _ c, length ns < length (names c) ∧ safe s c)).
      + apply triple_modify. intros c [-> Hc]. simpl. rewrite length_app. simpl.
        split; [lia|]. by destruct Hc as (?&?&?&?&?); split_and!.
      + intros _. by apply triple_ret. }
  intros idx. eapply (triple_bind _ _ (λ _, safe s)).
  { apply triple_try_i64; [|by intros c [? ?]]. intros c [Hlt _]. unfold exhausted, i64_min, i64_max. lia. }
  intros z. apply triple_mappings_push with (s := s); [done|apply vlq_mapping_chars].
Qed.

#[export] Instance safe_steps s :
  (Z.of_nat (String.length s) < i64_max)%Z → Steps panic_exits (safe s) (in_source s).
Proof.
  intros Hs. split; try done.
  - intros rng [t Ht]. apply str_slice_Some in Ht as [??]. apply triple_snapshot_pos; [done|lia].
  - intros rng m t Hr Hm. pose proof Hr as [u Hu]. apply str_slice_Some in Hu as [??].
    eapply steps_ident_parts; [apply triple_snapshot_pos; [done|lia]..| | |exact Hm];
      [by apply triple_record_ident|done].
Qed.

(** What the tree must be like: every range lies in the source, no node is of a
    kind the translator does not support, and every float is finite. *)
Definition node_safe (s : string) (n : NixNode) : Prop :=
  in_source s (node_text_range n)
  ∧ (∀ id, id ∈ node_idents n → in_source s (node_text_range (ident_node id)))
  ∧ (∀ pt, ParsedType_try_from n = inl pt →
      pt_reachable pt ∧ pt_float_ok (λ f, is_Some (JsNumber_from_f64 f)) pt).

(** The same as a boolean, for examples. *)
Definition in_sourceb (s : string) (rng : TextRange) : bool :=
  bool_decide (is_Some (str_slice s (range_start rng) (range_end rng))).
Definition node_safeb (s : string) (n : NixNode) : bool :=
  in_sourceb s (node_text_range n)
  && forallb (λ id, in_sourceb s (node_text_range (ident_node id))) (node_idents n)
  && match ParsedType_try_from n with
     | inl (PtError | PtKey _ | PtKeyValue _ | PtPathWithInterpol _ | PtPattern _
           | PtPatBind _ | PtPatEntry _) => false
     | inl (PtValue v) =>
         match v_to_value v with
         | inl (NvFloat f) => bool_decide (is_Some (JsNumber_from_f64 f))
         | _ => true
         end
     | _ => true
     end.

Lemma node_safeb_spec s n : node_safeb s n = true → node_safe s n.
Proof.
  unfold node_safeb, node_safe, in_sourceb, in_source.
  rewrite !andb_true_iff, forallb_forall, bool_decide_eq_true. intros [[Hr Hi] Hp].
  split_and!; [done| |].
  - intros id Hid%list_elem_of_In. specialize (Hi id Hid). by rewrite bool_decide_eq_true in Hi.
  - intros pt Hpt. rewrite Hpt in Hp. destruct pt; simpl in *; try done; split; try done.
    destruct (v_to_value v) as [[]|]; try done. by rewrite bool_decide_eq_true in Hp.
Qed.

Lemma node_safe_ok s n : everywhere (node_safe s) n → everywhere (node_ok panic_exits (safe s) (in_source s)) n.
Proof.
  induction 1 as [n (?&?&?) _ IH]. constructor; [|done]. split_and!; [done..|by left].
Qed.

Lemma initial_safe s : safe s (initial_context s).
Proof. split_and!; simpl; [done|apply LineCache_new_of|lia|lia|done]. Qed.

Lemma translate_node_safe `{!RnixLaws} fuel s root :
  (Z.of_nat (String.length s) < i64_max)%Z → node_size root < fuel →
  everywhere (node_safe s) root →
  match translate_node fuel (mksctx Nothing Want) root (initial_context s) with
  | (Panic _, c) => exhausted c
  | (Ok _, c) => safe s c
  | (Err _, _) => True
  | (OutOfFuel, _) => False
  end.
Proof.
  intros Hs Hf Hn. pose proof (safe_steps s Hs) as Hst.
  pose proof (translate_node_exact _ _ _ node_size fuel (mksctx Nothing Want) root
                (node_safe_ok s root Hn)) as Hex.
  assert (fuel_ok panic_exits (safe s) node_size fuel root) as Hfuel by (left; split; [done|apply node_size_child]).
  specialize (Hex Hfuel ltac:(done) DFL_VARS 0 (initial_context s)).
  assert (at_scope (safe s) DFL_VARS 0 (initial_context s)) as Hc
    by (split_and!; [apply initial_safe|done..]).
  specialize (Hex Hc). destruct (translate_node _ _ _ _) as [[] c]; try done. apply Hex.
Qed.
End safety.

(** * The theorem *)

Section total.
Context `{Rnix, Linetrack, Vlq, SerdeJson, StdSort}.
Context `{!RnixLaws, !LinetrackLaws, !VlqLaws, !StdSortLaws}.

(** C1. [translate] is total: on every source whose tree is well formed
    it returns the code and the source map, or a list of errors.  It does not
    panic and it does not run out of fuel, as long as the generated code stays
    below 4 GiB (the positions in it are converted to [u32]). *)
Theorem translate_total fuel s inp_name :
  let root := snd (rnix_parse s) in
  (Z.of_nat (String.length s) < i64_max)%Z →
  node_size root < fuel →
  everywhere (node_safe s) root →
  ¬ exhausted (snd (translate_node fuel (mksctx Nothing Want) root (initial_context s))) →
  (∃ js map, translate fuel s inp_name = Ok (js, map))
  ∨ (∃ errs, errs ≠ [] ∧ translate fuel s inp_name = Err errs).
Proof.
  intros root Hs Hf Hn Hex. unfold translate. subst root.
  destruct (rnix_parse s) as [errs root]; simpl in *.
  destruct errs as [|e errs]; [|right; by exists (e :: errs)].
  pose proof (translate_node_safe fuel s root Hs Hf Hn) as Hsafe.
  destruct (translate_node _ _ _ _) as [[] c]; simpl in *; try done.
  - destruct Hsafe as (_ & _ & _ & _ & Hm).
    rewrite ascii_is_utf8; [left; by do 2 eexists|].
    eapply str_forall_impl; [apply is_mapping_char_ascii|done].
  - right. by exists [e].
Qed.
End total.
