(* ===== verification/LetForms.v ===== *)
(** The two short forms of [translate_let], an object literal and plain variables,
    against the general form with a scope object. *)
From S2P Require Import Prelude Text Externs Consts Context Helpers Idents Let Node Translate Tree Lazyness Keeps Traversal Names Bindings JsAst Compile Refine RefineTree RefineNode Accept Safety.
Local Open Scope nix2js_scope.

Section forms.
Context `{Rnix, Linetrack, Vlq, SerdeJson, StdSort, !StdSortLaws}.

(** The inherited names are identifiers, as the parser promises. *)
Definition inherited_cast (h : EntryHolder NixNode) : Prop :=
  ∀ i id, i ∈ inherits h → id ∈ inh_idents i → is_Some (Ident_cast (ident_node id)).

Section accepts.
Context (acc : list string → bool → NixNode → bool).

Lemma accepts_object_scope sc w h b scope :
  inherited_cast h → let_is_object h b scope = true →
  accepts_object acc sc w h
  = forallb (accepts_entry acc sc w true) (entries h)
    && forallb (accepts_inherit acc sc w true) (inherits h).
Proof.
  unfold let_is_object. rewrite !andb_true_iff, !forallb_forall. intros Hid [[_ Hen] _].
  unfold accepts_object. f_equal; apply forallb_ext_in; intros i Hi.
  - specialize (Hen i (proj1 (list_elem_of_In _ _) Hi)). unfold entry_is_field in Hen. unfold accepts_entry.
    destruct (kv_value i) as [v|]; [|done]. destruct (kv_key i) as [[[|k [|]]]|]; try done.
    cbn [key_path accepts_target accepts_opt forallb] in *. unfold accepts_elem. destruct (Ident_cast k); [|done].
    by rewrite andb_true_r.
  - unfold accepts_inherit.
    assert (forallb (λ id, accepts_target acc sc w true (ident_node id)) (inh_idents i) = true) as ->; [|done].
    apply forallb_forall. intros id Hin%list_elem_of_In. destruct (Hid i id Hi Hin) as [id' Hc].
    unfold accepts_target, accepts_elem. by rewrite Hc.
Qed.

(** The target of a bound name is accepted in both forms. *)
Lemma accepts_target_bound sc w h k :
  k ∈ key_nodes h → is_Some (Ident_cast k) →
  accepts_target acc (sc ++ (snd <$> getkeys h)) w false k
  = accepts_target acc (sc ++ (snd <$> getkeys h)) w true k.
Proof.
  intros Hk [id Hid]. unfold accepts_target, accepts_elem, known. rewrite Hid.
  rewrite bool_decide_eq_true_2; [done|]. apply elem_of_app. right. apply getkeys_elem.
  apply list_elem_of_fmap. exists k. unfold cast_name. by rewrite Hid.
Qed.

Lemma accepts_variables_scope sc w h b scope :
  let sc' := sc ++ (snd <$> getkeys h) in
  inherited_cast h → let_is_variables h b scope = true →
  forallb (accepts_entry acc sc' w false) (entries h)
    && forallb (accepts_inherit acc sc' w false) (inherits h)
  = forallb (accepts_entry acc sc' w true) (entries h)
    && forallb (accepts_inherit acc sc' w true) (inherits h).
Proof.
  cbv zeta. unfold let_is_variables. rewrite !andb_true_iff, !forallb_forall. intros Hid [[_ Hen] _].
  f_equal; apply forallb_ext_in; intros i Hi.
  - specialize (Hen i (proj1 (list_elem_of_In _ _) Hi)). unfold entry_is_variable in Hen. unfold accepts_entry.
    destruct (kv_value i) as [v|]; [|done]. destruct (kv_key i) as [[[|k ks]]|] eqn:Hkey; try done.
    cbn [key_path] in Hen. rewrite andb_true_l, bool_decide_eq_true in Hen.
    rewrite accepts_target_bound; [done| |done]. apply elem_of_app. left. apply list_elem_of_omap.
    exists i. by rewrite Hkey.
  - unfold accepts_inherit. f_equal. apply forallb_ext_in. intros id Hin.
    apply accepts_target_bound; [|by eapply Hid]. apply elem_of_app. right.
    apply list_elem_of_fmap_2, list_elem_of_join. exists (inh_idents i). split; [done|].
    by apply list_elem_of_fmap_2.
Qed.
End accepts.

(** Two runs agree when both return, and either both succeed or both fail with an
    error message. *)
Definition agree {A} (o1 o2 : outcome string A) : Prop :=
  match o1, o2 with
  | Ok _, Ok _ | Err _, Err _ => True
  | _, _ => False
  end.

Definition returns {A} (o : outcome string A) : Prop :=
  match o with Ok _ | Err _ => True | Panic _ | OutOfFuel => False end.

Lemma prints_agree {A} E (m1 m2 : M A) o1 o2 E1 E2 c :
  prints E m1 o1 E1 → prints E m2 o2 E2 → succeeds o1 = succeeds o2 → env_of c = E →
  returns (fst (m1 c)) → returns (fst (m2 c)) → agree (fst (m1 c)) (fst (m2 c)).
Proof.
  intros Hp1 Hp2 Hs Hc. specialize (Hp1 c Hc). specialize (Hp2 c Hc).
  destruct (m1 c) as [[?|?|?|] c1], (m2 c) as [[?|?|?|] c2]; simpl; dsimp; done.
Qed.

Section exact_forms.
Context `{!RnixLaws, !LinetrackLaws, !VlqLaws}.
Context (s : string) (Hlen : (Z.of_nat (String.length s) < i64_max)%Z).

(** A method that keeps the invariant of Safety.v returns, or the buffers are
    exhausted. *)
Lemma exact_returns {A} (m : M A) c :
  exact panic_exits (safe s) m → safe s c → ¬ exhausted (snd (m c)) → returns (fst (m c)).
Proof.
  intros Hm Hc. specialize (Hm (vars c) (with_stack c) c ltac:(by split_and!)).
  by destruct (m c) as [[?|?|?|] c'].
Qed.

(** A node the recursive call with [fuel] can translate. *)
Definition node_fits (fuel : nat) (n : NixNode) : Prop :=
  node_size n < fuel ∧ everywhere (node_safe s) n.

Definition holder_fits (fuel : nat) (h : EntryHolder NixNode) (b : LetBody NixNode) : Prop :=
  (∀ n, n ∈ holder_children h → node_fits fuel n)
  ∧ (∀ id, id ∈ holder_idents h → in_source s (node_text_range (ident_node id)))
  ∧ (∀ n, b = LbNix n → node_fits fuel n).

Lemma exact_let_forms fuel body_sctx sctx h b scope :
  lazy_st sctx ≠ Did → holder_fits fuel h b →
  let rec := translate_node fuel in
  (forallb entry_is_field (entries h) = true →
     exact panic_exits (safe s) (translate_let_object rec body_sctx sctx h))
  ∧ exact panic_exits (safe s) (translate_let_variables rec body_sctx sctx h b scope)
  ∧ exact panic_exits (safe s) (translate_let_scope rec body_sctx sctx h b scope).
Proof.
  intros Hs (Hh & Hids & Hb) rec. pose proof (safe_steps s Hlen) as Hst.
  set (J := λ id : Ident NixNode, in_source s (node_text_range (ident_node id))).
  assert (∀ s' m, lazy_st s' ≠ Did → node_fits fuel m → exact panic_exits (safe s) (rec s' m)) as Hrec.
  { intros s' m Hs' [Hsize Hm]. apply (translate_node_exact _ _ (in_source s) node_size); [|left|done].
    - by apply node_safe_ok.
    - split; [done|apply node_size_child]. }
  assert (∀ m id, node_fits fuel m → Ident_cast m = Some id → J id) as Hcast.
  { intros m id [_ [(_ & Hi & _) _]] Hid. apply Hi. unfold node_idents. rewrite Hid. by left. }
  split_and!; [intros Hf| |].
  - by apply (exact_let_object _ _ (in_source s) rec (node_fits fuel) J).
  - by apply (exact_let_variables _ _ (in_source s) rec (node_fits fuel) J).
  - by apply (exact_let_scope _ _ (in_source s) rec (node_fits fuel) J).
Qed.

(** C9. The short forms of [let] and of attribute sets are optimisations: where
    [translate_let] chooses one of them, on bindings the translator is made for
    ([holder_fits]) and while the buffers are not exhausted, the chosen form and
    the general form with a scope object both return, and the one succeeds exactly
    when the other does.  The choice neither decides whether a program is
    translated nor leads to a panic of the [unwrap]s of the object form. *)
Theorem let_forms_agree fuel body_sctx sctx h b scope c :
  safe s c → lazy_st sctx ≠ Did → holder_fits fuel h b → inherited_cast h →
  let object := translate_let_object (translate_node fuel) body_sctx sctx h c in
  let variables := translate_let_variables (translate_node fuel) body_sctx sctx h b scope c in
  let general := translate_let_scope (translate_node fuel) body_sctx sctx h b scope c in
  ¬ exhausted (snd general) →
  (let_is_object h b scope = true → ¬ exhausted (snd object) → agree (fst object) (fst general))
  ∧ (let_is_variables h b scope = true → ¬ exhausted (snd variables) →
     agree (fst variables) (fst general)).
Proof.
  intros Hsafe Hs Hfits Hid object variables general Hg. set (E := env_of c).
  destruct (exact_let_forms fuel body_sctx sctx h b scope Hs Hfits) as (Hxo & Hxv & Hxs).
  apply exact_returns in Hg; [|done..].
  pose proof (prints_let_scope _ _ (prints_node fuel) E body_sctx sctx h b scope) as Hgen.
  pose proof (succeeds_let_scope _ _ (compile_accepts fuel) E body_sctx sctx h b scope) as Hsc. cbv zeta in Hsc.
  split; intros Hform Hx.
  - unfold let_is_object in Hform. pose proof Hform as Hparts.
    rewrite !andb_true_iff, negb_true_iff in Hparts. destruct Hparts as [[[Hscope Hb] Hfield] _].
    apply exact_returns in Hx; [|by apply Hxo|done].
    eapply prints_agree; [apply (prints_let_object _ _ (prints_node fuel) E)|exact Hgen| |done..].
    rewrite !succeeds_omap, Hsc, (succeeds_let_object _ _ (compile_accepts fuel) _ _ _ _ _ _ Hform).
    rewrite (accepts_object_scope _ _ _ _ _ _ Hid Hform), Hscope. destruct b; [done|]. by rewrite andb_true_r.
  - apply exact_returns in Hx; [|done..].
    eapply prints_agree; [apply (prints_let_variables _ _ (prints_node fuel) E)|exact Hgen| |done..].
    rewrite !succeeds_omap, Hsc, (succeeds_let_variables _ _ (compile_accepts fuel)).
    rewrite (accepts_variables_scope _ _ _ _ _ _ Hid Hform).
    unfold let_is_variables in Hform. rewrite !andb_true_iff in Hform. by destruct Hform as [[[-> _] _] _].
Qed.
End exact_forms.
End forms.
