(* ===== verification/Scope.v ===== *)
(** What a call of the translator changes: the buffers only grow, identifiers
    are listed once, and the scope is restored. *)
From S2P Require Import Prelude Text Externs Consts Context Helpers Idents Let Node Tree Lazyness Keeps Traversal Termination.
Local Open Scope nix2js_scope.

Section grow.
Context `{Rnix, Linetrack, Vlq, SerdeJson, StdSort}.

(** The code, the source map and the list of names only grow; the source stays;
    no name is listed twice. *)
Definition grow (c c' : Context) : Prop :=
  inp c' = inp c
  ∧ (∃ t, acc c' = acc c +:+ t)
  ∧ (∃ t, mappings c' = mappings c +:+ t)
  ∧ names c `prefix_of` names c'
  ∧ (NoDup (names c) → NoDup (names c')).

#[export] Instance grow_preorder : PreOrder grow.
Proof.
  split.
  - intros c. split_and!; try done; by exists EmptyString; rewrite string_app_nil_r.
  - intros c1 c2 c3 (Hi & [t1 Ha] & [u1 Hm] & Hn & Hd) (Hi' & [t2 Ha'] & [u2 Hm'] & Hn' & Hd').
    split_and!; [congruence| | |by etrans|auto].
    + exists (t1 +:+ t2). by rewrite Ha', Ha, string_app_assoc.
    + exists (u1 +:+ u2). by rewrite Hm', Hm, string_app_assoc.
Qed.

(** The steps that leave all five components alone. *)
Lemma grow_same c c' :
  inp c' = inp c → acc c' = acc c → mappings c' = mappings c → names c' = names c → grow c c'.
Proof.
  intros Hi Ha Hm Hn. unfold grow. rewrite Hi, Ha, Hm, Hn.
  split_and!; try done; by exists EmptyString; rewrite string_app_nil_r.
Qed.

Lemma grow_push x c : grow c (set_acc (λ a, a +:+ x) c).
Proof.
  split_and!; simpl; try done; [by exists x|by exists EmptyString; rewrite string_app_nil_r].
Qed.

Lemma grow_mappings x c : grow c (set_mappings (λ m, m +:+ x) c).
Proof.
  split_and!; simpl; try done; [by exists EmptyString; rewrite string_app_nil_r|by exists x].
Qed.

Lemma grow_names x c : x ∉ names c → grow c (set_names (λ ns, ns ++ [x]) c).
Proof.
  intros Hx. split_and!; simpl; try done;
    [by exists EmptyString; rewrite string_app_nil_r..|by apply prefix_app_r|].
  intros Hn. apply NoDup_app. split_and!; [done| |apply NoDup_singleton].
  intros y Hy ->%list_elem_of_singleton. done.
Qed.

Lemma grow_snapshot_pos pos : moves grow (snapshot_pos pos).
Proof.
  apply (moves_snapshot_pos grow); intros; [apply grow_mappings|by apply grow_same..].
Qed.

Lemma grow_record_ident rng : moves grow (record_ident rng).
Proof. apply (moves_record_ident grow); intros; [apply grow_mappings|by apply grow_names]. Qed.

(** Every exit, errors and panics included, keeps what was there before. *)
Definition grow_exits (c0 : Context) : exits Context := mkExits (grow c0) (grow c0) (grow c0).

Lemma triple_moves {A} c0 (m : M A) :
  moves grow m → triple (grow_exits c0) (grow c0) m (λ _, grow c0).
Proof.
  intros Hm c Hc. specialize (Hm c).
  destruct (m c) as [[] c']; exact (transitivity Hc Hm).
Qed.

#[local] Instance grow_steps c0 : Steps (grow_exits c0) (grow c0) (λ _, True).
Proof.
  split; try done.
  - intros x c Hc. exact (transitivity Hc (grow_push x c)).
  - intros x c Hc. exact (transitivity Hc (grow_push x c)).
  - intros rng _. apply triple_moves, grow_snapshot_pos.
  - intros rng m t _ Hm. eapply steps_ident_parts; try apply triple_moves;
      eauto using grow_snapshot_pos, grow_record_ident.
    intros c Hc. exact (transitivity Hc (grow_push t c)).
Qed.

Lemma translate_node_grow `{!RnixLaws, !StdSortLaws} fuel sctx n c :
  lazy_st sctx ≠ Did →
  match translate_node fuel sctx n c with
  | (Ok _, c') => grow c c' ∧ vars c' = vars c ∧ with_stack c' = with_stack c
  | (_, c') => grow c c'
  end.
Proof.
  intros Hs.
  assert (everywhere (node_ok (grow_exits c) (grow c) (λ _, True)) n) as Hn.
  { eapply everywhere_any; [apply node_size_child|]. intros m. split_and!; [done..|by right]. }
  assert (fuel_ok (grow_exits c) (grow c) node_size fuel n) as Hf by by right.
  pose proof (translate_node_exact _ _ _ node_size fuel sctx n Hn Hf Hs (vars c) (with_stack c) c) as Hex.
  assert (at_scope (grow c) (vars c) (with_stack c) c) as Hc by by split_and!.
  specialize (Hex Hc). destruct (translate_node fuel sctx n c) as [[] c']; try done.
Qed.

(** C5. A call of [translate_node] leaves the scope as it found it when it
    succeeds ([vars] and the [with] depth are restored exactly), and in every
    case, errors and panics included, it only appends to the generated code, to
    the mappings and to the list of names, and lists no name twice. *)
Theorem translate_node_frame `{!RnixLaws, !StdSortLaws} fuel sctx n c o c' :
  lazy_st sctx ≠ Did → translate_node fuel sctx n c = (o, c') →
  grow c c' ∧ (o = Ok tt → vars c' = vars c ∧ with_stack c' = with_stack c).
Proof.
  intros Hs Ho. pose proof (translate_node_grow fuel sctx n c Hs) as Hg. rewrite Ho in Hg.
  destruct o as [[]|e|p|]; try done. destruct Hg as (?&?&?). done.
Qed.
End grow.
