(* ===== verification/Progress.v ===== *)
(** What the translator does on the programs it should accept, and where its
    machine integers end. *)
From S2P Require Import Prelude Text Externs Consts Context Helpers Idents Let Node Translate Tree Lazyness Keeps Traversal Termination Safety JsAst Compile Refine RefineNode Accept.
Local Open Scope nix2js_scope.

Section progress.
Context `{Rnix, Linetrack, Vlq, SerdeJson, StdSort}.
Context `{!RnixLaws, !LinetrackLaws, !VlqLaws, !StdSortLaws}.

(** C3. Every program that should be translated is, and no other: on a source
    with a well-formed tree, whose code stays below 4 GiB, [translate] returns
    code if and only if the parser reports no error and the program is accepted
    by the static semantics: no part of a construct is missing, every number is
    representable, and every identifier is bound around its use, global, or
    inside of a [with]. *)
Theorem translate_accepts fuel s inp_name :
  let root := snd (rnix_parse s) in
  (Z.of_nat (String.length s) < i64_max)%Z →
  node_size root < fuel →
  everywhere (node_safe s) root →
  ¬ exhausted (snd (translate_node fuel (mksctx Nothing Want) root (initial_context s))) →
  (∃ js map, translate fuel s inp_name = Ok (js, map))
  ↔ fst (rnix_parse s) = [] ∧ accepts fuel (DFL_VARS.*1) false root = true.
Proof.
  intros root Hs Hf Hn Hex. subst root.
  pose proof (compile_accepts fuel (mkEnv s DFL_VARS 0) (mksctx Nothing Want) (snd (rnix_parse s))) as Hacc.
  split.
  - intros (js & map & Ht). pose proof Ht as Hc. apply translate_code in Hc as (e & He & _).
    rewrite He in Hacc. split; [|by symmetry]. unfold translate in Ht. by destruct (rnix_parse s) as [[|]].
  - intros [Herr Ha]. unfold translate. destruct (rnix_parse s) as [errs root]; simpl in *. subst errs.
    pose proof (translate_node_safe fuel s root Hs Hf Hn) as Hsafe.
    pose proof (translate_root_prints fuel s root) as Hp. cbv zeta in Hp.
    assert (succeeds (compile fuel (mkEnv s DFL_VARS 0) (mksctx Nothing Want) root) = true) as Hok
      by (rewrite Hacc; exact Ha).
    destruct (compile _ _ _ _) as [e|?|?|]; [|done..].
    destruct (translate_node _ _ _ _) as [[u|?|?|] c]; simpl in *; [|done|by destruct (Hex Hsafe)|done].
    destruct Hsafe as (_ & _ & _ & _ & Hm).
    rewrite ascii_is_utf8; [by do 2 eexists|].
    eapply str_forall_impl; [apply is_mapping_char_ascii|done].
Qed.

(** ** Machine integers *)

Lemma try_i64_ok n (c : Context) : (0 ≤ n ≤ i64_max)%Z → try_i64 n c = (Ok n, c).
Proof. intros [? ?]. unfold try_i64, i64_min. by rewrite !(proj2 (Z.leb_le _ _)) by lia. Qed.

Lemma i64_sub_ok a b (c : Context) :
  (0 ≤ a ≤ i64_max)%Z → (0 ≤ b ≤ i64_max)%Z → i64_sub a b c = (Ok (a - b)%Z, c).
Proof.
  intros [? ?] [? ?]. unfold i64_sub, i64_min, i64_max in *. by rewrite !(proj2 (Z.leb_le _ _)) by lia.
Qed.

Lemma try_u32_cases n (c : Context) :
  (0 ≤ n)%Z →
  (n ≤ u32_max)%Z ∧ try_u32 n c = (Ok n, c)
  ∨ (u32_max < n)%Z ∧ ∃ msg, try_u32 n c = (Panic msg, c).
Proof.
  intros Hn. unfold try_u32. rewrite (proj2 (Z.leb_le 0 n)) by done. simpl.
  destruct (Z.leb_spec n u32_max); [by left|right]. split; [done|by eexists].
Qed.

(** The advance in the generated code that the next segment would have. *)
Definition advance (c : Context) : option (Z * Z) :=
  fst (PosTracker_update (lp_dst c) (acc c) (String.length (acc c))).

Definition advance_fits (a : option (Z * Z)) : Prop :=
  match a with Some (l, p) => (l ≤ u32_max ∧ p ≤ u32_max)%Z | None => True end.

(** C23. The machine integers of [snapshot_pos]: on a source of less than 2^63
    bytes the conversions of the source coordinates to [i64] and their
    differences never overflow.  The only panic is the conversion of the advance
    in the generated code to [u32]: it happens exactly when the line or the
    column is 2^32 or more, so never before the code has 4 GiB; in every other
    case a result is returned, and [None] exactly when the tracker reports no
    advance. *)
Theorem snapshot_pos_overflow s pos c :
  (Z.of_nat (String.length s) < i64_max)%Z → pos ≤ String.length s → safe s c →
  match fst (snapshot_pos pos c) with
  | Ok r => advance_fits (advance c) ∧ (r = None ↔ advance c = None)
  | Panic _ => ¬ advance_fits (advance c) ∧ (2 ^ 32 ≤ Z.of_nat (String.length (acc c)))%Z
  | _ => False
  end.
Proof.
  intros Hs Hpos (Hi & Hlc & Hl1 & Hl2 & Hm).
  pose proof (LineCache_run_position s _ pos Hlc Hpos) as Hp.
  pose proof (position_of_bound s pos Hpos) as [Hb1 Hb2]. rewrite <- Hp in Hb1, Hb2.
  pose proof (PosTracker_update_bound (lp_dst c) (acc c) (String.length (acc c))) as Hupd.
  unfold advance, snapshot_pos, line_cache_run, bind, gets, modify.
  destruct (LineCache_run (line_cache c) pos) as [[sl sc] lc]. simpl in *.
  pose proof (within_i64 s _ Hs Hb1). pose proof (within_i64 s _ Hs Hb2).
  pose proof (within_i64 s _ Hs Hl1). pose proof (within_i64 s _ Hs Hl2).
  rewrite !try_i64_ok, !i64_sub_ok, !try_i64_ok, !i64_sub_ok by done. simpl.
  destruct (PosTracker_update _ _ _) as [[[l p]|] dst]; simpl in *; [|done].
  destruct (Hupd l p) as [[??] [??]]; [lia|done|].
  destruct (try_u32_cases l (set_line_cache lc c)) as [[Hl ->]|[Hl [msg ->]]]; [done| |].
  destruct (try_u32_cases p (set_line_cache lc c)) as [[Hr ->]|[Hr [msg ->]]]; [done| |].
  - repeat (case_match; simplify_eq/=; try done).
  - split; [intros []; lia|unfold u32_max in *; lia].
  - split; [intros []; lia|unfold u32_max in *; lia].
Qed.
End progress.
