(* ===== verification/SourceMap.v ===== *)
(** The source map: [mappings] is the rendering of a list of segments, each with
    the one, four or five fields of the format, whose source deltas add up to the
    position the translator remembers; decoding the bytes gives the segments back. *)
From S2P Require Import Prelude Text Externs Consts Context Helpers Idents Let Node Tree Lazyness Keeps Traversal Termination Translate Safety Scope.
From Stdlib Require Import Ascii ZArith.
Local Open Scope nix2js_scope.

(** * Segments (version 3 of the format) *)

(** A segment: how many lines of the generated code end before it, the column
    advance, the advance of the source position, the index of a name. *)
Record segment := mkSegment {
  seg_lines : nat;
  seg_col : Z;
  seg_src : option (Z * Z);
  seg_name : option Z
}.

(** Its fields; the second of four is the index of the source file. *)
Definition seg_fields (s : segment) : list Z :=
  seg_col s ::
  match seg_src s with Some (l, c) => [0; l; c]%Z | None => [] end ++ option_list (seg_name s).

Definition in_vlq_range (n : Z) : Prop := (- 2 ^ 63 < n < 2 ^ 63)%Z.

(** A segment of the format: fields that can be encoded, a column that does not
    go back, and a name only where there is a source position. *)
Definition seg_ok (n_names : nat) (s : segment) : Prop :=
  Forall in_vlq_range (seg_fields s)
  ∧ (0 ≤ seg_col s)%Z
  ∧ match seg_name s with
    | Some i => (0 ≤ i < Z.of_nat n_names)%Z ∧ is_Some (seg_src s)
    | None => True
    end.

Definition add_pos (p : Z * Z) (s : segment) : Z * Z :=
  match seg_src s with Some (l, c) => (p.1 + l, p.2 + c)%Z | None => p end.

(** The source position after the segments, as a reader of the map computes it. *)
Definition final_pos (segs : list segment) : Z * Z := foldl add_pos (0, 0)%Z segs.

(** The source positions the segments refer to, started from [p]. *)
Fixpoint positions_from (p : Z * Z) (segs : list segment) : list (Z * Z) :=
  match segs with
  | [] => []
  | s :: segs' =>
      let q := add_pos p s in
      match seg_src s with
      | Some _ => q :: positions_from q segs'
      | None => positions_from q segs'
      end
  end.

Lemma positions_from_snoc p segs s :
  positions_from p (segs ++ [s]) =
  positions_from p segs ++
  match seg_src s with Some _ => [add_pos (foldl add_pos p segs) s] | None => [] end.
Proof.
  revert p. induction segs as [|t segs IH]; intros p; simpl; [done|].
  by destruct (seg_src t); rewrite IH.
Qed.

Section render.
Context `{Vlq}.

Fixpoint render_fields (l : list Z) : string :=
  match l with
  | [] => EmptyString
  | n :: l' => vlq_encode n +:+ render_fields l'
  end.

Definition render_segment (first : bool) (s : segment) : string :=
  str_repeat (seg_lines s) ";"
  +:+ (if (seg_lines s =? 0) && negb first then "," else EmptyString)
  +:+ render_fields (seg_fields s).

Definition render (segs : list segment) : string :=
  foldl (λ m s, m +:+ render_segment (bool_decide (m = EmptyString)) s) EmptyString segs.

Lemma render_snoc segs s :
  render (segs ++ [s]) =
  render segs +:+ render_segment (bool_decide (render segs = EmptyString)) s.
Proof. unfold render. by rewrite foldl_app. Qed.

Lemma render_fields_app l l' : render_fields (l ++ l') = render_fields l +:+ render_fields l'.
Proof.
  induction l as [|n l IH]; simpl; [done|]. by rewrite IH, string_app_assoc.
Qed.
End render.

(** * The invariant *)

Section invariant.
Context `{Rnix, Linetrack, Vlq, SerdeJson, StdSort}.
Context `{!LinetrackLaws, !VlqLaws, !StdSortLaws}.
Context (s : string).

Definition zpos (p : nat * nat) : Z * Z := (Z.of_nat p.1, Z.of_nat p.2).

(** The position of a byte of the source. *)
Definition source_pos (q : Z * Z) : Prop :=
  ∃ off, off ≤ String.length s ∧ q = zpos (position_of s off).

(** The source-map state at a point: the segments so far, the names, the source
    position they lead to. *)
Definition map_state (segs : list segment) (ns : list string) (p : nat * nat) (c : Context) : Prop :=
  inp c = s ∧ cache_of s (line_cache c)
  ∧ mappings c = render segs ∧ names c = ns ∧ lp_src c = p
  ∧ Forall (seg_ok (length ns)) segs ∧ final_pos segs = zpos p
  ∧ Forall source_pos (positions_from (0, 0)%Z segs).

Definition map_inv (c : Context) : Prop := ∃ segs ns p, map_state segs ns p c.

(** Conversions that succeed bound their argument. *)
Lemma triple_try_i64_any {B} P n (k : Z → M B) (Q : B → Context → Prop) :
  ((i64_min ≤ n ≤ i64_max)%Z → triple any_exits P (k n) Q) →
  triple any_exits P (bind (try_i64 n) k) Q.
Proof.
  intros Hk. unfold try_i64. destruct (_ && _) eqn:E; [|done].
  rewrite andb_true_iff, !Z.leb_le in E. by apply Hk.
Qed.

Lemma triple_try_u32_any {B} P n (k : Z → M B) (Q : B → Context → Prop) :
  ((0 ≤ n ≤ u32_max)%Z → triple any_exits P (k n) Q) →
  triple any_exits P (bind (try_u32 n) k) Q.
Proof.
  intros Hk. unfold try_u32. destruct (_ && _) eqn:E; [|done].
  rewrite andb_true_iff, !Z.leb_le in E. by apply Hk.
Qed.

Lemma triple_i64_sub_any {B} P a b (k : Z → M B) (Q : B → Context → Prop) :
  triple any_exits P (k (a - b)%Z) Q → triple any_exits P (bind (i64_sub a b) k) Q.
Proof. intros Hk. unfold i64_sub. by destruct (_ && _). Qed.

(** The advance between two source positions; nothing for no advance. *)
Definition src_advance (p q : nat * nat) : option (Z * Z) :=
  if (Z.of_nat q.1 - Z.of_nat p.1 =? 0)%Z && (Z.of_nat q.2 - Z.of_nat p.2 =? 0)%Z then None
  else Some (Z.of_nat q.1 - Z.of_nat p.1, Z.of_nat q.2 - Z.of_nat p.2)%Z.

Lemma src_advance_None p q : src_advance p q = None → p = q.
Proof.
  unfold src_advance. destruct (_ && _) eqn:E; [|done]. intros _.
  rewrite andb_true_iff, !Z.eqb_eq in E. destruct p, q; simpl in *. f_equal; lia.
Qed.

Lemma add_pos_advance p q seg : seg_src seg = src_advance p q → add_pos (zpos p) seg = zpos q.
Proof.
  intros Hs. unfold add_pos. rewrite Hs. destruct (src_advance p q) as [[l c]|] eqn:E.
  - unfold src_advance in E. destruct (_ && _); [done|]. simplify_eq. unfold zpos; simpl. f_equal; lia.
  - by apply src_advance_None in E as ->.
Qed.

(** What [snapshot_pos] adds. *)
Definition snapshot_post (segs : list segment) (ns : list string) (p q : nat * nat)
    (r : option unit) (c : Context) : Prop :=
  match r with
  | None => map_state segs ns p c
  | Some _ =>
      (p = q ∧ map_state segs ns q c)
      ∨ ∃ seg, seg_name seg = None ∧ seg_src seg = src_advance p q ∧ map_state (segs ++ [seg]) ns q c
  end.

(** The writes of [snapshot_pos] append one rendered segment. *)
Definition new_segment (dl dc so sc : Z) : segment :=
  mkSegment (Z.to_nat dl) dc (if (so =? 0)%Z && (sc =? 0)%Z then None else Some (so, sc)) None.

Lemma snapshot_writes dl dc so sc q d c :
  (0 ≤ dl)%Z →
  (mappings_push (str_repeat (Z.to_nat dl) ";");;
   m ← gets mappings;
   (if (dl =? 0)%Z && negb (bool_decide (m = EmptyString)) then mappings_push "," else ret tt);;
   mappings_push (vlq_encode dc);;
   (if negb ((so =? 0)%Z && (sc =? 0)%Z) then
      mappings_push (vlq_encode 0);; mappings_push (vlq_encode so);; mappings_push (vlq_encode sc)
    else ret tt);;
   modify (set_lp q d);;
   ret (Some tt)) c =
  (Ok (Some tt), set_lp q d (set_mappings (λ m, m +:+
     render_segment (bool_decide (m = EmptyString)) (new_segment dl dc so sc)) c)).
Proof.
  intros Hdl. destruct c as [i a v w n m lc src dst].
  unfold new_segment, render_segment, seg_fields, mappings_push, modify, gets, bind, ret,
    set_lp, set_mappings; simpl.
  assert ((Z.to_nat dl =? 0) = (dl =? 0)%Z) as Heq.
  { destruct (Z.eqb_spec dl 0) as [->|]; [done|]. apply Nat.eqb_neq. lia. }
  rewrite Heq.
  assert ((dl =? 0)%Z && negb (bool_decide (m +:+ str_repeat (Z.to_nat dl) ";" = EmptyString))
          = (dl =? 0)%Z && negb (bool_decide (m = EmptyString))) as Hcomma.
  { destruct (Z.eqb_spec dl 0) as [->|]; [|done]. simpl. by rewrite string_app_nil_r. }
  rewrite Hcomma.
  destruct (decide (m = EmptyString)) as [->|Hm];
    [rewrite !bool_decide_eq_true_2 by done|rewrite !(bool_decide_eq_false_2 (m = EmptyString)) by done];
    destruct (dl =? 0)%Z, ((so =? 0)%Z && (sc =? 0)%Z); simpl;
    rewrite ?string_app_assoc, ?string_app_nil_r; done.
Qed.

Lemma new_segment_ok n dl dc so sc :
  (0 ≤ dc)%Z → in_vlq_range dc → in_vlq_range so → in_vlq_range sc → seg_ok n (new_segment dl dc so sc).
Proof.
  intros. assert (in_vlq_range 0) by (unfold in_vlq_range; lia).
  unfold new_segment. split; [|by split]. unfold seg_fields; simpl.
  by destruct (_ && _); simpl; repeat (apply Forall_cons; split).
Qed.

Lemma triple_snapshot_segments segs ns p pos :
  pos ≤ String.length s →
  triple any_exits (map_state segs ns p) (snapshot_pos pos)
    (snapshot_post segs ns p (position_of s pos)).
Proof.
  intros Hpos. unfold snapshot_pos. set (q := position_of s pos).
  eapply (triple_bind _ _ (λ _, map_state segs ns p)); [by apply triple_gets|intros dst].
  eapply (triple_bind _ _ (λ r c, r = q ∧ map_state segs ns p c)).
  { intros c (Hi & Hlc & Hrest). unfold line_cache_run, bind, gets, modify.
    pose proof (LineCache_run_of s _ pos Hlc Hpos).
    pose proof (LineCache_run_position s _ pos Hlc Hpos) as Hq.
    destruct (LineCache_run (line_cache c) pos) as [r lc]. by split_and!. }
  intros [sl sc]. apply triple_pure. intros Hq.
  eapply (triple_bind _ _ (λ r c, r = p ∧ map_state segs ns p c)).
  { apply triple_gets. intros c Hc. split; [apply Hc|done]. }
  intros p'. apply triple_pure. intros ->.
  apply triple_try_i64_any. intros Hsl. apply triple_try_i64_any. intros Hpl.
  apply triple_i64_sub_any.
  apply triple_try_i64_any. intros Hsc. apply triple_try_i64_any. intros Hpc.
  apply triple_i64_sub_any.
  eapply (triple_bind _ _ (λ _, map_state segs ns p)); [by apply triple_gets|].
  intros [[[dl dc]|] dst']; [|by apply triple_ret].
  apply triple_try_u32_any. intros Hdl. apply triple_try_u32_any. intros Hdc.
  unfold i64_min, i64_max, u32_max in *.
  set (so := (Z.of_nat sl - Z.of_nat p.1)%Z). set (sc' := (Z.of_nat sc - Z.of_nat p.2)%Z).
  destruct (_ && (sc' =? 0)%Z) eqn:Hz.
  { apply triple_ret. intros c Hc. left. rewrite !andb_true_iff, !Z.eqb_eq in Hz.
    assert (p = q) as <-; [|done]. rewrite <- Hq. destruct p; simpl in *. f_equal; lia. }
  intros c Hc. rewrite snapshot_writes by lia. right. exists (new_segment dl dc so sc').
  assert (seg_src (new_segment dl dc so sc') = src_advance p q) as Hadv by (by rewrite <- Hq).
  split; [done|split; [exact Hadv|]].
  destruct Hc as (Hi & Hlc & Hm & Hn & Hp & Hok & Hfin & Hpos').
  assert (add_pos (final_pos segs) (new_segment dl dc so sc') = zpos q) as Hadd
    by (rewrite Hfin; by apply add_pos_advance).
  split_and!; try done; simpl.
  - by rewrite Hm, render_snoc.
  - apply Forall_app. split; [done|]. constructor; [|done].
    apply new_segment_ok; unfold in_vlq_range, so, sc'; lia.
  - unfold final_pos in *. by rewrite foldl_app.
  - rewrite positions_from_snoc. apply Forall_app. split; [done|].
    destruct (seg_src _); [|done]. apply Forall_singleton. exists pos. by split.
Qed.

(** ** Identifiers *)

Definition with_name (i : Z) (seg : segment) : segment :=
  mkSegment (seg_lines seg) (seg_col seg) (seg_src seg) (Some i).

Lemma render_with_name segs seg i :
  seg_name seg = None →
  render (segs ++ [with_name i seg]) = render (segs ++ [seg]) +:+ vlq_encode i.
Proof.
  intros Hn. rewrite !render_snoc. unfold render_segment. rewrite !string_app_assoc.
  do 3 f_equal. unfold seg_fields. rewrite Hn; simpl.
  rewrite !render_fields_app. destruct (seg_src seg) as [[l c]|]; simpl;
    rewrite ?string_app_nil_r, ?string_app_assoc; done.
Qed.

Lemma seg_ok_mono n n' seg : n ≤ n' → seg_ok n seg → seg_ok n' seg.
Proof.
  intros Hn (Hf & Hc & Hs). split_and!; [done..|]. destruct (seg_name seg); [|done]. destruct Hs; split; [lia|done].
Qed.

Lemma seg_ok_with_name n seg i :
  (0 ≤ i < Z.of_nat n)%Z → in_vlq_range i → is_Some (seg_src seg) → seg_name seg = None →
  seg_ok n seg → seg_ok n (with_name i seg).
Proof.
  intros Hi Hr Hs Hn (Hf & Hc & _). split; [|done]. revert Hf. unfold seg_fields, with_name; simpl.
  rewrite Hn. simpl. rewrite app_nil_r, !Forall_cons, Forall_app, Forall_singleton. tauto.
Qed.

(** [record_ident] names the last segment. *)
Lemma triple_record_segments segs seg ns p rng :
  seg_name seg = None → is_Some (seg_src seg) →
  triple any_exits (map_state (segs ++ [seg]) ns p) (record_ident rng) (λ _, map_inv).
Proof.
  intros Hn Hs c (Hi & Hlc & Hm & Hns & Hp & Hok & Hfin & Hpos).
  unfold record_ident, bind, gets, unwrap, modify.
  destruct (str_slice _ _ _) as [ident|]; [|done]. simpl.
  set (c' := match position (λ n, bool_decide (n = ident)) (names c) with
             | Some _ => c | None => set_names (λ ns, ns ++ [ident]) c end).
  set (idx := match position (λ n, bool_decide (n = ident)) (names c) with
             | Some idx => idx | None => length (names c) end).
  assert (idx < length (names c') ∧ length ns ≤ length (names c')) as [Hidx Hlen].
  { subst c' idx. destruct (position _ _) as [i|] eqn:E; simpl.
    - apply position_Some in E as (x & Hx & _). rewrite Hns in *. split; [by eapply lookup_lt_Some|done].
    - rewrite length_app, Hns; simpl. lia. }
  assert (inp c' = s ∧ cache_of s (line_cache c') ∧ mappings c' = mappings c ∧ lp_src c' = lp_src c)
    as (Hi' & Hlc' & Hm' & Hp') by (by subst c'; destruct (position _ _)).
  enough (match bind (try_i64 (Z.of_nat idx)) (λ i, mappings_push (vlq_encode i)) c' with
          | (Ok _, c'') => map_inv c'' | _ => True end) as Hk.
  { subst c' idx. destruct (position _ _); exact Hk. }
  apply (triple_try_i64_any (λ d, d = c') _ _ (λ _, map_inv)); [|done].
  intros Hb d ->. exists (segs ++ [with_name (Z.of_nat idx) seg]), (names c'), p.
  apply Forall_app in Hok as [Hok1 [Hok2 _]%Forall_cons].
  split_and!; try done; simpl.
  - by rewrite Hm', Hm, render_with_name.
  - by rewrite Hp'.
  - apply Forall_app. split; [by eapply Forall_impl; [|intros; by eapply seg_ok_mono]|].
    apply Forall_singleton, seg_ok_with_name; [lia| |done..|by eapply seg_ok_mono].
    unfold in_vlq_range, i64_min, i64_max in *. lia.
  - revert Hfin. unfold final_pos. by rewrite !foldl_app.
  - revert Hpos. by rewrite !positions_from_snoc.
Qed.

(** The ranges of identifiers: in the source, and not empty. *)
Definition ident_range (rng : TextRange) : Prop :=
  range_start rng < range_end rng ≤ String.length s.

Lemma triple_snapshot_any pos P :
  (∀ c, P c → map_inv c) → pos ≤ String.length s →
  triple any_exits P (snapshot_pos pos) (λ _, map_inv).
Proof.
  intros HP Hpos c (segs & ns & p & Hc)%HP.
  pose proof (triple_snapshot_segments segs ns p pos Hpos c Hc) as HT.
  destruct (snapshot_pos pos c) as [[r|e|m|] c']; [|done..]. destruct r as [[]|]; simpl in HT.
  - destruct HT as [[_ HT]|(seg & _ & _ & HT)]; by do 3 eexists.
  - by do 3 eexists.
Qed.

(** The segment written after an identifier is the one that is named: an
    identifier has two different end points. *)
Lemma triple_snapshot_ident_segments rng m t :
  ident_range rng → pushes m t → triple any_exits map_inv (snapshot_ident rng m) (λ _, map_inv).
Proof.
  intros [Hlt Hle] Hm. unfold snapshot_ident. do 3 (apply triple_exists; intros ?).
  set (p1 := position_of s (range_start rng)).
  eapply (triple_bind _ _ (λ r c, ∃ segs ns p, map_state segs ns p c ∧ (is_Some r → p = p1))).
  { eapply triple_consequence; [apply triple_snapshot_segments; lia|done|].
    intros [[]|] c; simpl; [|by intros; do 3 eexists; split; [|intros []]].
    intros [[-> Hc]|(seg & _ & _ & Hc)]; do 3 eexists; (split; [exact Hc|done]). }
  intros r1. do 3 (apply triple_exists; intros ?).
  rename x2 into segs, x3 into ns, x4 into p.
  eapply (triple_bind _ _ (λ _ c, map_state segs ns p c ∧ (is_Some r1 → p = p1))).
  { intros c [Hc Hr]. rewrite (Hm c). split; [exact Hc|done]. }
  intros ?. eapply (triple_bind _ _ (λ r2 c, (is_Some r1 → p = p1) ∧
    snapshot_post segs ns p (position_of s (range_end rng)) r2 c)).
  { intros c [Hc Hr]. pose proof (triple_snapshot_segments segs ns p (range_end rng) Hle c Hc) as HT.
    destruct (snapshot_pos _ c) as [[]]; done. }
  intros r2. apply triple_pure. intros Hp.
  eapply (triple_bind _ _ (λ _, map_inv)); [|by intros; apply triple_ret].
  destruct r2 as [[]|]; simpl; cycle 1.
  { rewrite andb_false_r. apply triple_ret. intros c Hc. by do 3 eexists. }
  assert (p = p1 → p ≠ position_of s (range_end rng)) as Hne.
  { intros -> He. apply position_of_inj in He; lia. }
  case_bool_decide as Hr1; simpl; cycle 1.
  { apply triple_ret. intros c [[_ Hc]|(seg & _ & _ & Hc)]; by do 3 eexists. }
  intros c [[He _]|(seg & Hn & Hs & Hc)]; [by destruct (Hne (Hp Hr1))|].
  apply (triple_record_segments segs seg ns (position_of s (range_end rng))); [done| |exact Hc].
  rewrite Hs. unfold is_Some. destruct (src_advance p _) eqn:E; [eauto|].
  apply src_advance_None in E. by destruct (Hne (Hp Hr1)).
Qed.

#[export] Instance map_inv_steps : Steps any_exits map_inv ident_range.
Proof.
  split; try done.
  - intros rng [??]. apply triple_snapshot_any; [done|lia].
  - intros. by eapply triple_snapshot_ident_segments.
Qed.

Lemma initial_map_inv : map_inv (initial_context s).
Proof. exists [], [], (0, 0). split_and!; try done. apply LineCache_new_of. Qed.
End invariant.


