(* ===== verification/MapDecode.v ===== *)
(** Reading a source map back: the decoder of the [mappings] string (version 3 of
    the format), its round trip with the rendering of SourceMap, and what a
    reader of the maps of [translate] finds. *)
From S2P Require Import Prelude Text Externs Consts Context Helpers Idents Let Node Tree Lazyness Keeps Traversal Translate Termination Safety Scope SourceMap.
From Stdlib Require Import Ascii ZArith.
Local Open Scope nix2js_scope.

(** * Splitting *)

(** [split] at every occurrence of a byte. *)
Fixpoint str_split (sep : ascii) (s : string) : list string :=
  match s with
  | EmptyString => [EmptyString]
  | String a s' =>
      if Ascii.eqb a sep then EmptyString :: str_split sep s'
      else match str_split sep s' with
           | h :: l => String a h :: l
           | [] => [String a EmptyString]
           end
  end.

Definition without (sep : ascii) (s : string) : Prop :=
  str_forall (λ a, negb (Ascii.eqb a sep)) s = true.

Lemma str_split_without sep s : without sep s → str_split sep s = [s].
Proof.
  unfold without. induction s as [|a s IH]; simpl; [done|].
  rewrite andb_true_iff. intros [Ha Hs]. apply negb_true_iff in Ha. by rewrite Ha, IH.
Qed.

Lemma str_split_app sep s t :
  without sep s → str_split sep (s +:+ String sep t) = s :: str_split sep t.
Proof.
  unfold without. induction s as [|a s IH]; rewrite ?string_app_cons; simpl.
  - intros _. by rewrite Ascii.eqb_refl.
  - rewrite andb_true_iff. intros [Ha Hs]. apply negb_true_iff in Ha. by rewrite Ha, IH.
Qed.

Lemma str_split_join sep l :
  l ≠ [] → Forall (without sep) l → str_split sep (str_join (String sep EmptyString) l) = l.
Proof.
  intros Hl HF. induction HF as [|x l Hx HF IH]; [done|]. destruct l as [|y l]; simpl.
  - by apply str_split_without.
  - rewrite string_app_cons. rewrite str_split_app by done. f_equal. by apply IH.
Qed.

(** * Joining at the end *)

Lemma str_join_snoc sep l x :
  l ≠ [] → str_join sep (l ++ [x]) = str_join sep l +:+ sep +:+ x.
Proof.
  induction l as [|y l IH]; [done|]. intros _. destruct l as [|z l]; [done|].
  change ((y :: z :: l) ++ [x]) with (y :: z :: (l ++ [x])).
  change (str_join sep (y :: z :: (l ++ [x]))) with (y +:+ sep +:+ str_join sep ((z :: l) ++ [x])).
  rewrite IH by done. simpl. by rewrite !string_app_assoc.
Qed.

Lemma str_join_last sep l x t : str_join sep (l ++ [x +:+ t]) = str_join sep (l ++ [x]) +:+ t.
Proof.
  destruct (decide (l = [])) as [->|Hl]; [done|].
  by rewrite !str_join_snoc, !string_app_assoc by done.
Qed.

Lemma str_join_blank sep l x n t :
  str_join sep (l ++ x :: replicate n EmptyString ++ [t]) =
  str_join sep (l ++ [x]) +:+ str_repeat (S n) sep +:+ t.
Proof.
  revert l x. induction n as [|n IH]; intros l x; simpl.
  - rewrite (cons_middle x l [t]), app_assoc, str_join_snoc, string_app_nil_r; [done|].
    by destruct l.
  - rewrite (cons_middle x l), app_assoc, IH. simpl.
    rewrite str_join_snoc by (by destruct l). by rewrite string_app_nil_r, !string_app_assoc.
Qed.

(** * The decoder *)

Section decode.
Context `{VlqLaws}.

Lemma vlq_nonempty n : in_vlq_range n → vlq_encode n ≠ EmptyString.
Proof.
  unfold in_vlq_range. intros Hn He.
  assert (∀ rest, vlq_decode rest = Some (n, rest)) as Hd.
  { intros rest. rewrite <- (vlq_decode_encode n rest Hn). by rewrite He. }
  assert (∀ m, in_vlq_range m → m = n) as Hm.
  { intros m Hm. pose proof (vlq_decode_encode m EmptyString Hm) as Hm'.
    rewrite Hd in Hm'. by simplify_eq. }
  pose proof (Hm 0%Z ltac:(done)). pose proof (Hm 1%Z ltac:(done)). lia.
Qed.

(** The integers of a segment; [fuel] bounds their number. *)
Fixpoint decode_fields (fuel : nat) (s : string) : option (list Z) :=
  match s, fuel with
  | EmptyString, _ => Some []
  | _, O => None
  | _, S fuel' =>
      match vlq_decode s with
      | Some (n, rest) => cons n <$> decode_fields fuel' rest
      | None => None
      end
  end.

Definition decode_segment (s : string) : option (list Z) := decode_fields (String.length s) s.

Definition decode_line (s : string) : option (list (list Z)) :=
  match s with
  | EmptyString => Some []
  | _ => mapM decode_segment (str_split "," s)
  end.

(** A segment list per line of the generated code. *)
Definition decode_mappings (s : string) : option (list (list (list Z))) :=
  mapM decode_line (str_split ";" s).

Lemma decode_fields_render l fuel :
  Forall in_vlq_range l → length l ≤ fuel → decode_fields fuel (render_fields l) = Some l.
Proof.
  intros Hl. revert fuel. induction Hl as [|n l Hn Hl IH]; intros [|fuel] Hf; simpl in *; [done..|lia|].
  pose proof (vlq_decode_encode n (render_fields l) Hn) as Hd.
  destruct (vlq_encode n +:+ render_fields l) eqn:E.
  - destruct (vlq_encode n) eqn:E'; [by apply vlq_nonempty in Hn|done].
  - rewrite Hd, IH by lia. done.
Qed.

Lemma render_fields_length l :
  Forall in_vlq_range l → length l ≤ String.length (render_fields l).
Proof.
  induction 1 as [|n l Hn Hl IH]; simpl; [lia|]. rewrite string_length_app.
  destruct (vlq_encode n) eqn:E; [by apply vlq_nonempty in Hn|simpl; lia].
Qed.

Lemma decode_segment_render l :
  Forall in_vlq_range l → decode_segment (render_fields l) = Some l.
Proof. intros. by apply decode_fields_render, render_fields_length. Qed.

Lemma render_fields_nonempty n l : in_vlq_range n → render_fields (n :: l) ≠ EmptyString.
Proof.
  intros Hn. simpl. destruct (vlq_encode n) eqn:E; [by apply vlq_nonempty in Hn|done].
Qed.

Lemma render_fields_without sep l : is_base64 sep = false → without sep (render_fields l).
Proof.
  intros Hs. unfold without. induction l as [|n l IH]; simpl; [done|].
  rewrite str_forall_app, IH, andb_true_r.
  eapply str_forall_impl; [|apply vlq_base64]. intros a Ha.
  destruct (Ascii.eqb_spec a sep) as [->|]; [congruence|done].
Qed.

(** ** Lines *)

(** The segments grouped by line: the finished lines and the current one. *)
Definition add_segment (ls : list (list (list Z)) * list (list Z)) (s : segment)
    : list (list (list Z)) * list (list Z) :=
  match seg_lines s with
  | O => (ls.1, ls.2 ++ [seg_fields s])
  | S n => (ls.1 ++ ls.2 :: replicate n [], [seg_fields s])
  end.

Definition segment_lines (segs : list segment) : list (list (list Z)) :=
  let ls := foldl add_segment ([], []) segs in ls.1 ++ [ls.2].

Definition render_line (l : list (list Z)) : string := str_join "," (render_fields <$> l).
Definition render_lines (ls : list (list (list Z))) : string := str_join ";" (render_line <$> ls).

Lemma seg_fields_nonempty n seg : seg_ok n seg → render_fields (seg_fields seg) ≠ EmptyString.
Proof. intros [Hf _]. apply Forall_cons in Hf as [? _]. by apply render_fields_nonempty. Qed.

Lemma render_empty n segs :
  Forall (seg_ok n) segs → render segs = EmptyString ↔ segs = [].
Proof.
  intros Hok. split; [|by intros ->]. destruct segs as [|seg segs _] using rev_ind; [done|].
  apply Forall_app in Hok as [_ [Hs _]%Forall_cons]. apply seg_fields_nonempty in Hs.
  rewrite render_snoc. unfold render_segment. intros He.
  destruct (render segs), (str_repeat _ _), (if _ : bool then _ else _); done.
Qed.

Lemma render_lines_last l cur f :
  cur ≠ [] →
  render_lines (l ++ [cur ++ [f]]) = render_lines (l ++ [cur]) +:+ "," +:+ render_fields f.
Proof.
  intros Hc. unfold render_lines, render_line. rewrite !fmap_app. simpl. rewrite !fmap_app. simpl.
  rewrite (str_join_snoc ",") by (by destruct cur). apply str_join_last.
Qed.

Lemma render_lines_blank l cur k f :
  render_lines ((l ++ cur :: replicate k []) ++ [[f]]) =
  render_lines (l ++ [cur]) +:+ str_repeat (S k) ";" +:+ render_fields f.
Proof.
  unfold render_lines. rewrite <- app_assoc, !fmap_app. simpl. rewrite fmap_replicate.
  apply str_join_blank.
Qed.

(** What the translator writes is the lines joined by semicolons. *)
Lemma render_segment_lines n segs :
  Forall (seg_ok n) segs →
  render segs = render_lines (segment_lines segs)
  ∧ ((foldl add_segment ([], []) segs).2 = [] → segs = []).
Proof.
  unfold segment_lines. induction segs as [|seg segs IH] using rev_ind; [done|].
  intros [Hok _]%Forall_app. destruct (IH Hok) as [IH1 IH2]. clear IH.
  pose proof (render_empty n segs Hok) as Hempty.
  rewrite foldl_app, render_snoc. simpl. unfold render_segment.
  destruct (decide (segs = [])) as [->|Hne].
  - unfold add_segment. simpl. destruct (seg_lines seg) as [|k]; simpl; [done|].
    split; [|done]. symmetry. exact (render_lines_blank [] [] k (seg_fields seg)).
  - rewrite bool_decide_eq_false_2 by (by rewrite Hempty).
    destruct (foldl add_segment ([], []) segs) as [l cur]. simpl in *. rewrite IH1.
    unfold add_segment. destruct (seg_lines seg) as [|k]; simpl.
    + split; [|by destruct cur]. rewrite render_lines_last; [done|]. by intros ->; apply Hne, IH2.
    + split; [|done]. by rewrite (render_lines_blank l cur k).
Qed.

Definition line_ok (l : list (list Z)) : Prop := Forall (λ f, f ≠ [] ∧ Forall in_vlq_range f) l.

Lemma segment_lines_ok n segs : Forall (seg_ok n) segs → Forall line_ok (segment_lines segs).
Proof.
  unfold segment_lines. induction segs as [|seg segs IH] using rev_ind; [by repeat constructor|].
  intros [[IHl [IHc _]%Forall_cons]%IH%Forall_app [[Hf _] _]%Forall_cons]%Forall_app.
  assert (line_ok [seg_fields seg]) as Hseg by (by apply Forall_singleton).
  rewrite foldl_app. simpl. unfold add_segment. destruct (seg_lines seg) as [|k]; simpl.
  - apply Forall_app. split; [done|]. apply Forall_singleton, Forall_app. by split.
  - apply Forall_app. split; [|by apply Forall_singleton]. apply Forall_app. split; [done|].
    constructor; [done|]. apply Forall_replicate. constructor.
Qed.

Lemma str_join_without sep sep' l :
  without sep sep' → Forall (without sep) l → without sep (str_join sep' l).
Proof.
  intros Hs. induction 1 as [|x l Hx HF IH]; [done|]. destruct l as [|y l]; [done|].
  unfold without in *. change (str_join sep' (x :: y :: l)) with (x +:+ sep' +:+ str_join sep' (y :: l)).
  by rewrite !str_forall_app, Hx, Hs, IH.
Qed.

Lemma render_line_without l : without ";" (render_line l).
Proof.
  apply str_join_without; [done|]. apply Forall_fmap, Forall_true. intros f.
  by apply render_fields_without.
Qed.

Lemma decode_line_render l : line_ok l → decode_line (render_line l) = Some l.
Proof.
  intros Hl. unfold decode_line. destruct (decide (l = [])) as [->|Hne]; [done|].
  assert (mapM decode_segment (str_split "," (render_line l)) = Some l) as Hm.
  { unfold render_line. rewrite str_split_join.
    - apply mapM_fmap_Forall_Some. eapply Forall_impl; [exact Hl|].
      intros f [_ Hf]. by apply decode_segment_render.
    - by destruct l.
    - apply Forall_fmap, Forall_true. intros f. by apply render_fields_without. }
  destruct (render_line l) eqn:E; [|done].
  exfalso. destruct Hl as [|f l [Hf Hr] Hl]; [done|].
  destruct f as [|z f]; [done|]. apply Forall_cons in Hr as [Hz _].
  pose proof (render_fields_nonempty z f Hz) as Hz'. unfold render_line in E.
  destruct l; [done|]. simpl in E, Hz'. by destruct (vlq_encode z +:+ render_fields f).
Qed.

(** Decoding gives back the segments, line by line. *)
Lemma decode_render n segs :
  Forall (seg_ok n) segs → decode_mappings (render segs) = Some (segment_lines segs).
Proof.
  intros Hok. pose proof (segment_lines_ok n segs Hok) as Hl.
  destruct (render_segment_lines n segs Hok) as [-> _].
  unfold decode_mappings, render_lines. rewrite str_split_join.
  - apply mapM_fmap_Forall_Some. eapply Forall_impl; [exact Hl|]. apply decode_line_render.
  - unfold segment_lines. by destruct (foldl _ _ _) as [[]].
  - apply Forall_fmap, Forall_true, render_line_without.
Qed.

(** ** What a reader computes *)

Lemma segment_lines_concat segs : mjoin (segment_lines segs) = seg_fields <$> segs.
Proof.
  unfold segment_lines. induction segs as [|seg segs IH] using rev_ind; [done|].
  rewrite foldl_app, fmap_app, <- IH. simpl. unfold add_segment.
  destruct (foldl _ _ segs) as [l cur]; simpl. destruct (seg_lines seg) as [|k]; simpl;
    rewrite !join_app; simpl; rewrite !app_nil_r; [by rewrite app_assoc|].
  do 2 f_equal. rewrite <- app_nil_r. f_equal. by induction k.
Qed.

(** The source positions the decoded segments refer to: the third and the fourth
    field advance the line and the column. *)
Fixpoint source_positions (p : Z * Z) (fs : list (list Z)) : list (Z * Z) :=
  match fs with
  | [] => []
  | (_ :: _ :: l :: c :: _) :: fs' =>
      (p.1 + l, p.2 + c)%Z :: source_positions (p.1 + l, p.2 + c)%Z fs'
  | _ :: fs' => source_positions p fs'
  end.

Lemma source_positions_fields p segs :
  source_positions p (seg_fields <$> segs) = positions_from p segs.
Proof.
  revert p. induction segs as [|[n c [[l k]|] nm] segs IH]; intros p; [done|..];
    cbn -[source_positions]; rewrite <- IH; [done|].
  by destruct nm.
Qed.

(** The number of fields is one, four or five; the column advance is not negative,
    the source is the only one, and the fifth field is a number below the number of
    names.  It is the absolute index of the name, as [record_ident] writes it: a
    reader of version 3, which the map declares, takes this field for a difference
    and may leave the list (Findings.v). *)
Definition fields_ok (n_names : nat) (f : list Z) : Prop :=
  match f with
  | [c] => (0 ≤ c)%Z
  | [c; src; _; _] => (0 ≤ c)%Z ∧ src = 0%Z
  | [c; src; _; _; i] => (0 ≤ c)%Z ∧ src = 0%Z ∧ (0 ≤ i < Z.of_nat n_names)%Z
  | _ => False
  end.

Lemma seg_ok_fields n seg : seg_ok n seg → fields_ok n (seg_fields seg).
Proof.
  destruct seg as [k c [[l p]|] [i|]]; intros (_ & Hc & Hi); simpl in *; try done;
    [by destruct Hi|by destruct Hi as [_ []]].
Qed.
End decode.

Lemma segment_lines_fields n segs :
  Forall (seg_ok n) segs → Forall (Forall (fields_ok n)) (segment_lines segs).
Proof.
  rewrite !Forall_forall. intros Hok l Hl. apply Forall_forall. intros f Hf.
  assert (f ∈ seg_fields <$> segs) as (seg & -> & Hs)%list_elem_of_fmap.
  { rewrite <- segment_lines_concat. apply list_elem_of_join. by exists l. }
  by apply seg_ok_fields, Hok.
Qed.

(** * The theorem *)

Section map.
Context `{Rnix, Linetrack, Vlq, SerdeJson, StdSort}.
Context `{!RnixLaws, !LinetrackLaws, !VlqLaws, !StdSortLaws}.

(** Every node and every identifier of the tree is a non-empty range of the
    source. *)
Definition node_ranged (s : string) (n : NixNode) : Prop :=
  ident_range s (node_text_range n)
  ∧ ∀ id, id ∈ node_idents n → ident_range s (node_text_range (ident_node id)).

Definition ident_rangeb (s : string) (rng : TextRange) : bool :=
  (range_start rng <? range_end rng) && (range_end rng <=? String.length s).
Definition node_rangedb (s : string) (n : NixNode) : bool :=
  ident_rangeb s (node_text_range n)
  && forallb (λ id, ident_rangeb s (node_text_range (ident_node id))) (node_idents n).

Lemma ident_rangeb_spec s rng : ident_rangeb s rng = true → ident_range s rng.
Proof. unfold ident_rangeb. by rewrite andb_true_iff, Nat.ltb_lt, Nat.leb_le. Qed.

Lemma node_rangedb_spec s n : node_rangedb s n = true → node_ranged s n.
Proof.
  unfold node_rangedb. rewrite andb_true_iff, forallb_forall. intros [Hn Hi].
  split; [by apply ident_rangeb_spec|]. intros id Hid%list_elem_of_In.
  by apply ident_rangeb_spec, Hi.
Qed.

Lemma translate_node_map_inv fuel s sctx root c :
  everywhere (node_ranged s) root → lazy_st sctx ≠ Did → map_inv s c →
  match translate_node fuel sctx root c with (Ok _, c') => map_inv s c' | _ => True end.
Proof.
  intros Hn Hs Hc.
  assert (everywhere (node_ok any_exits (map_inv s) (ident_range s)) root) as Hok.
  { induction Hn as [n [Hr Hi] _ IH]. constructor; [|done]. split_and!; [done..|by right]. }
  pose proof (translate_node_exact _ _ _ node_size fuel sctx root Hok
                ltac:(by right) Hs (vars c) (with_stack c) c) as Hex.
  specialize (Hex ltac:(done)). destruct (translate_node _ _ _ _) as [[] c']; try done. apply Hex.
Qed.

(** C6. The source map is well formed: its [mappings] decode, every decoded
    segment has one, four or five fields, with a column that does not go back;
    the fifth field, read as an absolute index, is within [names], and no name is
    listed twice; and every source position a reader computes by adding up the
    deltas is the position of a byte of the source.  Nothing is said of the names a
    version 3 reader finds, which takes the fifth field for a difference. *)
Theorem translate_map_decodes fuel s inp_name js map :
  let root := snd (rnix_parse s) in
  everywhere (node_ranged s) root →
  translate fuel s inp_name = Ok (js, map) →
  ∃ names mappings lines,
    map = source_map inp_name names mappings
    ∧ NoDup names
    ∧ decode_mappings mappings = Some lines
    ∧ Forall (Forall (fields_ok (length names))) lines
    ∧ Forall (source_pos s) (source_positions (0, 0)%Z (mjoin lines)).
Proof.
  intros root Hn. unfold translate. subst root. destruct (rnix_parse s) as [errs root]; simpl in *.
  destruct errs; [|done].
  pose proof (translate_node_map_inv fuel s (mksctx Nothing Want) root (initial_context s) Hn
                ltac:(done) (initial_map_inv s)) as Hmap.
  pose proof (translate_node_grow fuel (mksctx Nothing Want) root (initial_context s) ltac:(done)) as Hg.
  destruct (translate_node _ _ _ _) as [[u|e|p|] c]; [|done..].
  destruct Hmap as (segs & ns & p & _ & _ & Hm & Hns & _ & Hok & _ & Hpos).
  destruct Hg as [(_ & _ & _ & _ & Hnd) _].
  destruct (is_utf8 _); [|done]. intros [= <- <-].
  exists (names c), (mappings c), (segment_lines segs). split_and!; [done| | | |].
  - apply Hnd. constructor.
  - rewrite Hm. by eapply decode_render.
  - rewrite Hns. by apply segment_lines_fields.
  - by rewrite segment_lines_concat, source_positions_fields.
Qed.
End map.
