(* ===== verification/Concrete.v ===== *)
(** Concrete functions for every parameter of the development: an arena of
    syntax nodes, position tracking, base64 VLQ, JSON printing and a merge sort.
    They are used to run the translator on examples and to show that the named
    hypotheses can hold; no theorem about the translator depends on them. *)
From S2P Require Import Prelude Text JsLexer Externs Context Helpers Tree.
From Stdlib Require Import Ascii ZArith SpecFloat Sorted.
From stdpp Require Import sorting.
Local Open Scope nix2js_scope.

(** * An arena of nodes

    A node is an index; children come before their parents. *)
Record arena_node := mkArenaNode {
  an_range : TextRange;
  an_trivia : bool;
  an_text : string;
  an_type : ParsedType nat + string;
  an_pattern : option (Pattern nat)
}.

Definition arena_default : arena_node :=
  mkArenaNode (mkTextRange 0 0) true EmptyString (inr EmptyString) None.

Definition arena_get (tbl : list arena_node) (n : nat) : arena_node :=
  default arena_default (tbl !! n).

Definition arena_rnix (tbl : list arena_node) : Rnix := {|
  NixNode := nat;
  node_text_range n := an_range (arena_get tbl n);
  node_is_trivia n := an_trivia (arena_get tbl n);
  node_text n := an_text (arena_get tbl n);
  Ident_cast n := match an_type (arena_get tbl n) with inl (PtIdent id) => Some id | _ => None end;
  Pattern_cast n := an_pattern (arena_get tbl n);
  ParsedType_try_from n := an_type (arena_get tbl n);
  TextRange_debug r := fmt_usize (range_start r) +:+ ".." +:+ fmt_usize (range_end r);
  rnix_parse _ := ([], pred (length tbl))
|}.

(** Building an arena bottom-up. *)
Definition builder (A : Type) : Type := ST (list arena_node) unit A.

Definition add_node (lo hi : nat) (text : string) (pt : ParsedType nat) : builder nat := λ tbl,
  (Ok (length tbl), tbl ++ [mkArenaNode (mkTextRange lo hi) false text (inl pt) None]).

Definition add_ident (lo : nat) (name : string) : builder (Ident nat) := λ tbl,
  let id := mkIdent (length tbl) name in
  (Ok id, tbl ++ [mkArenaNode (mkTextRange lo (lo + String.length name)) false name
                    (inl (PtIdent id)) None]).

Definition add_int (lo hi : nat) (text : string) (n : Z) : builder nat :=
  add_node lo hi text (PtValue (mkValue (inl (NvInteger n)))).

(** [name = value;] *)
Definition add_entry (lo : nat) (name : string) (value : nat) : builder (KeyValue nat) :=
  id ← add_ident lo name;
  n ← add_node lo lo name (PtKeyValue name);
  ret (mkKeyValue n (Some (mkKey [ident_node id])) (Some value)).

Definition build {A} (b : builder A) : list arena_node := snd (b []).

(** * Positions *)

(** Line and column of the end of a text. *)
Fixpoint end_pos (s : string) (line col : nat) : nat * nat :=
  match s with
  | EmptyString => (line, col)
  | String a s' => if Ascii.eqb a newline then end_pos s' (S line) 0 else end_pos s' line (S col)
  end.

#[export] Instance concrete_linetrack : Linetrack := {|
  LineCache := string;
  LineCache_new s := s;
  LineCache_run s off := (end_pos (str_take off s) 0 0, s);
  PosTracker := nat;
  PosTracker_default := 0;
  PosTracker_update off dat new :=
    if new <? off then (None, off)
    else let '(l, c) := end_pos (str_take (new - off) (str_drop off dat)) 0 0 in
         (Some (Z.of_nat l, Z.of_nat c), new)
|}.

(** * Base64 VLQ *)

Definition base64_digit (n : Z) : ascii :=
  if (n <? 26)%Z then ascii_of_N (Z.to_N (65 + n))
  else if (n <? 52)%Z then ascii_of_N (Z.to_N (97 + (n - 26)))
  else if (n <? 62)%Z then ascii_of_N (Z.to_N (48 + (n - 52)))
  else if (n =? 62)%Z then "+"%char else "/"%char.

(** Five bits per digit, least significant first, bit 5 set on all but the last. *)
Fixpoint vlq_digits (fuel : nat) (n : Z) : string :=
  match fuel with
  | O => EmptyString
  | S fuel =>
      if (n <? 32)%Z then String (base64_digit n) EmptyString
      else String (base64_digit (32 + Z.land n 31)) (vlq_digits fuel (Z.shiftr n 5))
  end.

#[export] Instance concrete_vlq : Vlq := {|
  vlq_encode n := vlq_digits 14 (if (n <? 0)%Z then 2 * - n + 1 else 2 * n)%Z
|}.

(** * JSON *)

Definition hex_digit (n : N) : ascii :=
  if (n <? 10)%N then ascii_of_N (48 + n) else ascii_of_N (87 + n).

Definition json_escape_char (a : ascii) : string :=
  if Ascii.eqb a dquote then String backslash (String dquote EmptyString)
  else if Ascii.eqb a backslash then String backslash (String backslash EmptyString)
  else if (byte_val a =? 10)%N then String backslash "n"
  else if (byte_val a =? 13)%N then String backslash "r"
  else if (byte_val a =? 9)%N then String backslash "t"
  else if (byte_val a =? 8)%N then String backslash "b"
  else if (byte_val a =? 12)%N then String backslash "f"
  else if (byte_val a <? 32)%N then
    String backslash ("u00" +:+ String (hex_digit (byte_val a / 16))
      (String (hex_digit (byte_val a mod 16)) EmptyString))
  else String a EmptyString.

Fixpoint json_escape (s : string) : string :=
  match s with
  | EmptyString => EmptyString
  | String a s' => json_escape_char a +:+ json_escape s'
  end.

Definition json_string (s : string) : string :=
  String dquote (json_escape s +:+ String dquote EmptyString).

(** The printer of the value type; numbers are kept as their text. *)
Fixpoint json_print (v : JsVal string) : string :=
  match v with
  | JsNum n => n
  | JsString s => json_string s
  | JsArray l => "[" +:+ str_join "," (json_print <$> l) +:+ "]"
  | JsObject l =>
      "{" +:+ str_join "," ((λ '(k, x), json_string k +:+ ":" +:+ json_print x) <$> l) +:+ "}"
  end.

#[export] Instance concrete_serde : SerdeJson := {|
  JsNumber := string;
  JsNumber_from_f64 f :=
    match f with
    | S754_zero _ => Some "0.0"
    | S754_finite _ m _ => Some (pretty (Npos m))
    | _ => None
    end;
  JsNumber_from_i64 n := pretty n;
  JsVal_to_string := json_print
|}.

(** * Sorting *)

Definition key_le {A} (key : A → string) (x y : A) : Prop := str_leb (key x) (key y) = true.
#[export] Instance key_le_dec {A} (key : A → string) : RelDecision (key_le key).
Proof. intros x y. unfold key_le. apply _. Defined.

#[export] Instance concrete_sort : StdSort := {|
  sort_unstable_by_key A key l := merge_sort (key_le key) l
|}.

(** * The laws hold *)

(** ** The arena *)

(** Children come first. *)
Definition arena_wf (tbl : list arena_node) : bool :=
  forallb (λ n, forallb (λ m, m <? n) (@node_children (arena_rnix tbl) n)) (seq 0 (length tbl)).

Lemma arena_out_of_range tbl n : length tbl ≤ n → @node_children (arena_rnix tbl) n = [].
Proof.
  intros Hn. unfold node_children; simpl. unfold arena_get. by rewrite lookup_ge_None_2.
Qed.

Definition arena_laws (tbl : list arena_node) (Hwf : arena_wf tbl = true) :
  @RnixLaws (arena_rnix tbl).
Proof.
  refine (@Build_RnixLaws (arena_rnix tbl) (λ n, n) _). intros n m Hm.
  destruct (decide (n < length tbl)) as [Hn|Hn];
    [|rewrite arena_out_of_range in Hm by lia; by apply elem_of_nil in Hm].
  unfold arena_wf in Hwf. rewrite forallb_forall in Hwf. specialize (Hwf n).
  rewrite in_seq, forallb_forall in Hwf. specialize (Hwf ltac:(lia) m).
  apply Nat.ltb_lt, Hwf. by apply list_elem_of_In.
Defined.

(** ** Positions *)

Lemma end_pos_bound s line col l c :
  end_pos s line col = (l, c) → l ≤ line + String.length s ∧ c ≤ col + String.length s.
Proof.
  revert line col. induction s as [|a s IH]; intros line col; simpl; [intros [= <- <-]; lia|].
  destruct (Ascii.eqb a newline); intros [??]%IH; lia.
Qed.

Lemma str_take_length n s : String.length (str_take n s) ≤ n.
Proof. revert s. induction n; intros [|a s]; simpl; try lia. specialize (IHn s). lia. Qed.

(** The position after a text tells its length, given where the lines start. *)
Lemma end_pos_take_lt s n m line col :
  n < m → m ≤ String.length s →
  let p := end_pos (str_take n s) line col in
  let q := end_pos (str_take m s) line col in
  p.1 < q.1 ∨ (p.1 = q.1 ∧ p.2 < q.2).
Proof.
  revert n m line col. induction s as [|a s IH]; intros n m line col Hnm Hm; simpl in Hm; [lia|].
  destruct m as [|m]; [lia|]. destruct n as [|n].
  - cbn [str_take end_pos]. destruct (Ascii.eqb a newline); clear.
    + left. simpl. enough (∀ t l k, l ≤ fst (end_pos t l k)) as Hle
        by (specialize (Hle (str_take m s) (S line) 0); lia).
      induction t as [|b t IHt]; intros l k; simpl; [done|].
      destruct (Ascii.eqb b newline); [specialize (IHt (S l) 0)|specialize (IHt l (S k))]; lia.
    + simpl. generalize (S col), (Nat.lt_succ_diag_r col). intros k Hk.
      generalize (str_take m s). intros t. revert k Hk. revert line.
      induction t as [|b t IHt]; intros l k Hk; simpl; [by right|].
      destruct (Ascii.eqb b newline); [|apply IHt; lia].
      left. enough (∀ t l k, l ≤ fst (end_pos t l k)) as Hle
        by (specialize (Hle t (S l) 0); lia).
      clear. induction t as [|b t IHt]; intros l k; simpl; [done|].
      destruct (Ascii.eqb b newline); [specialize (IHt (S l) 0)|specialize (IHt l (S k))]; lia.
  - cbn [str_take end_pos]. destruct (Ascii.eqb a newline); apply IH; lia.
Qed.

#[export] Instance concrete_linetrack_laws : LinetrackLaws.
Proof.
  refine (Build_LinetrackLaws _ (λ s lc, lc = s) (λ s off, end_pos (str_take off s) 0 0) _ _ _ _ _ _);
    simpl.
  - done.
  - done.
  - by intros s lc off ->.
  - intros s off Hoff. pose proof (str_take_length off s).
    destruct (end_pos _ 0 0) as [line col] eqn:Hp. apply end_pos_bound in Hp. simpl. lia.
  - intros s off off' H1 H2 Heq. destruct (Nat.lt_trichotomy off off') as [Hlt|[?|Hlt]]; [|done|];
      [pose proof (end_pos_take_lt s off off' 0 0 Hlt H2)|pose proof (end_pos_take_lt s off' off 0 0 Hlt H1)];
      simpl in *; rewrite Heq in *; lia.
  - intros t dat n l c Hn. destruct (n <? t); [done|].
    destruct (end_pos _ 0 0) as [l' c'] eqn:Hp. intros [= <- <-].
    pose proof (str_take_length (n - t) (str_drop t dat)). apply end_pos_bound in Hp. lia.
Defined.

(** ** VLQ *)

Definition base64_val (a : ascii) : Z :=
  let n := Z.of_N (byte_val a) in
  if is_upper a then n - 65
  else if is_lower a then n - 97 + 26
  else if is_digit a then n - 48 + 52
  else if Ascii.eqb a "+" then 62 else 63.

Lemma base64_digit_spec n :
  (0 ≤ n < 64)%Z → is_base64 (base64_digit n) = true ∧ base64_val (base64_digit n) = n.
Proof.
  intros Hn.
  assert (forallb (λ k, is_base64 (base64_digit (Z.of_nat k))
            && (base64_val (base64_digit (Z.of_nat k)) =? Z.of_nat k)%Z) (seq 0 64) = true) as Hall
    by by vm_compute.
  rewrite forallb_forall in Hall. specialize (Hall (Z.to_nat n)).
  rewrite in_seq, Z2Nat.id, andb_true_iff, Z.eqb_eq in Hall by lia. apply Hall. lia.
Qed.

Lemma land_31_bound n : (0 ≤ n → 0 ≤ Z.land n 31 < 32)%Z.
Proof.
  intros Hn. change 31%Z with (Z.ones 5). rewrite Z.land_ones by lia.
  apply Z.mod_pos_bound. lia.
Qed.

Lemma vlq_digits_base64 fuel n : (0 ≤ n)%Z → str_forall is_base64 (vlq_digits fuel n) = true.
Proof.
  revert n. induction fuel as [|fuel IH]; intros n Hn; simpl; [done|].
  destruct (Z.ltb_spec n 32); simpl.
  - rewrite (proj1 (base64_digit_spec n ltac:(lia))). done.
  - pose proof (land_31_bound n Hn).
    rewrite (proj1 (base64_digit_spec (32 + Z.land n 31) ltac:(lia))). simpl.
    apply IH. apply Z.shiftr_nonneg. lia.
Qed.

Fixpoint vlq_undigits (s : string) : option (Z * string) :=
  match s with
  | EmptyString => None
  | String a s' =>
      let d := base64_val a in
      if (d <? 32)%Z then Some (d, s')
      else match vlq_undigits s' with
           | Some (m, rest) => Some (d - 32 + 32 * m, rest)%Z
           | None => None
           end
  end.

Lemma vlq_digits_S fuel n :
  vlq_digits (S fuel) n =
  if (n <? 32)%Z then String (base64_digit n) EmptyString
  else String (base64_digit (32 + Z.land n 31)) (vlq_digits fuel (Z.shiftr n 5)).
Proof. done. Qed.

Lemma vlq_undigits_digits fuel n rest :
  (0 ≤ n < 32 * 32 ^ Z.of_nat fuel)%Z →
  vlq_undigits (vlq_digits (S fuel) n +:+ rest) = Some (n, rest).
Proof.
  revert n. induction fuel as [|fuel IH]; intros n Hn; rewrite vlq_digits_S;
    destruct (Z.ltb_spec n 32) as [Hlt|Hge]; rewrite string_app_cons; cbn [vlq_undigits].
  1,3: rewrite (proj2 (base64_digit_spec n ltac:(lia))); destruct (Z.ltb_spec n 32); [done|lia].
  { change (32 ^ Z.of_nat 0)%Z with 1%Z in Hn. lia. }
  pose proof (land_31_bound n ltac:(lia)).
  rewrite (proj2 (base64_digit_spec (32 + Z.land n 31) ltac:(lia))).
  destruct (Z.ltb_spec (32 + Z.land n 31) 32); [lia|].
  change 31%Z with (Z.ones 5). rewrite Z.land_ones, Z.shiftr_div_pow2 by lia.
  change (2 ^ 5)%Z with 32%Z.
  rewrite IH; [do 2 f_equal; pose proof (Z.div_mod n 32); lia|].
  rewrite Nat2Z.inj_succ, Z.pow_succ_r in Hn by lia.
  split; [apply Z.div_pos; lia|apply Z.div_lt_upper_bound; lia].
Qed.

#[export] Instance concrete_vlq_laws : VlqLaws.
Proof.
  refine (Build_VlqLaws _ _ (λ s, match vlq_undigits s with
    | Some (n, rest) => Some (if Z.even n then n / 2 else - (n / 2), rest)%Z
    | None => None end) _);
    cbn [vlq_encode concrete_vlq].
  - intros n. apply vlq_digits_base64. destruct (Z.ltb_spec n 0); lia.
  - intros n rest Hn. assert (32 * 32 ^ Z.of_nat 13 = 2 ^ 70)%Z as Hp by done.
    destruct (Z.ltb_spec n 0); rewrite (vlq_undigits_digits 13) by (rewrite Hp; lia).
    + replace (Z.even (2 * - n + 1)) with false by (by rewrite Z.even_add, Z.even_mul).
      do 2 f_equal. pose proof (Z.div_mod (2 * - n + 1) 2).
      pose proof (Z.mod_pos_bound (2 * - n + 1) 2). lia.
    + replace (Z.even (2 * n)) with true by (by rewrite Z.even_mul).
      do 2 f_equal. pose proof (Z.div_mod (2 * n) 2).
      pose proof (Z.mod_pos_bound (2 * n) 2). lia.
Defined.

(** ** JSON *)

Lemma json_body_app s t : json_body s = true → json_body (s +:+ t) = json_body t.
Proof.
  remember (String.length s) as n eqn:Hn. revert s Hn.
  induction (lt_wf n) as [n _ IH]. intros [|a s] ->; [done|].
  rewrite string_app_cons. cbn [json_body]. destruct (Ascii.eqb a backslash).
  - destruct s as [|b s]; [done|]. rewrite string_app_cons, andb_true_iff. intros [-> Hs].
    eapply IH; [|done|done]. simpl; lia.
  - rewrite andb_true_iff. intros [-> Hs]. eapply IH; [|done|done]. simpl; lia.
Qed.

Lemma json_escape_char_body a : json_body (json_escape_char a) = true.
Proof. destruct a as [[] [] [] [] [] [] [] []]; vm_compute; done. Qed.

Lemma json_escape_body s : json_body (json_escape s) = true.
Proof.
  induction s as [|a s IH]; simpl; [done|].
  by rewrite json_body_app by apply json_escape_char_body.
Qed.

Lemma code_digits s : str_forall is_digit s = true → str_forall code_byte s = true.
Proof.
  apply str_forall_impl. intros a Ha. unfold code_byte, is_alnum. by rewrite Ha, orb_true_r.
Qed.

Lemma pretty_N_code (n : N) : str_forall code_byte (pretty n) = true.
Proof. rewrite <- (N2Nat.id n). apply code_digits, (pretty_nat_digits (N.to_nat n)). Qed.

#[export] Instance concrete_serde_laws : SerdeLaws.
Proof.
  split; simpl.
  - intros s. exists (json_escape s). split; [done|]. apply json_escape_body.
  - intros [|p|p]; [done|apply (pretty_N_code (Npos p))|].
    change (str_forall code_byte ("-" +:+ pretty (Npos p)) = true).
    rewrite str_forall_app. by rewrite pretty_N_code.
  - intros [ | | |sg m e] n; simpl; intros [= <-]; [done|]. apply (pretty_N_code (Npos m)).
Qed.

(** ** Base64 *)

Definition digit6 (b5 b4 b3 b2 b1 b0 : bool) : ascii :=
  base64_digit (32 * Z.b2z b5 + 16 * Z.b2z b4 + 8 * Z.b2z b3 + 4 * Z.b2z b2 + 2 * Z.b2z b1 + Z.b2z b0).

Fixpoint base64_text (s : string) : string :=
  match s with
  | EmptyString => EmptyString
  | String (Ascii x0 x1 x2 x3 x4 x5 x6 x7) s1 =>
      let d1 := digit6 x7 x6 x5 x4 x3 x2 in
      match s1 with
      | EmptyString => String d1 (String (digit6 x1 x0 false false false false) "==")
      | String (Ascii y0 y1 y2 y3 y4 y5 y6 y7) s2 =>
          let d2 := digit6 x1 x0 y7 y6 y5 y4 in
          match s2 with
          | EmptyString => String d1 (String d2 (String (digit6 y3 y2 y1 y0 false false) "="))
          | String (Ascii z0 z1 z2 z3 z4 z5 z6 z7) s3 =>
              String d1 (String d2 (String (digit6 y3 y2 y1 y0 z7 z6)
                (String (digit6 z5 z4 z3 z2 z1 z0) (base64_text s3))))
          end
      end
  end.

#[export] Instance concrete_base64 : Base64 := {| base64_encode := base64_text |}.

Definition undigit6 (a : ascii) (k : Z) : bool := Z.testbit (base64_val a) k.

Fixpoint base64_untext (s : string) : option string :=
  match s with
  | EmptyString => Some EmptyString
  | String a (String b (String c (String d r))) =>
      let x := Ascii (undigit6 b 4) (undigit6 b 5) (undigit6 a 0) (undigit6 a 1)
                 (undigit6 a 2) (undigit6 a 3) (undigit6 a 4) (undigit6 a 5) in
      let y := Ascii (undigit6 c 2) (undigit6 c 3) (undigit6 c 4) (undigit6 c 5)
                 (undigit6 b 0) (undigit6 b 1) (undigit6 b 2) (undigit6 b 3) in
      let z := Ascii (undigit6 d 0) (undigit6 d 1) (undigit6 d 2) (undigit6 d 3)
                 (undigit6 d 4) (undigit6 d 5) (undigit6 c 0) (undigit6 c 1) in
      if Ascii.eqb c "=" then Some (String x EmptyString)
      else if Ascii.eqb d "=" then Some (String x (String y EmptyString))
      else (λ t, String x (String y (String z t))) <$> base64_untext r
  | _ => None
  end.

Lemma undigit6_digit6 b5 b4 b3 b2 b1 b0 :
  let a := digit6 b5 b4 b3 b2 b1 b0 in
  (undigit6 a 5 = b5 ∧ undigit6 a 4 = b4 ∧ undigit6 a 3 = b3)
  ∧ (undigit6 a 2 = b2 ∧ undigit6 a 1 = b1 ∧ undigit6 a 0 = b0)
  ∧ Ascii.eqb a "=" = false ∧ Ascii.eqb a newline = false.
Proof. by destruct b5, b4, b3, b2, b1, b0. Qed.

(** Strings in steps of three. *)
Lemma string_ind3 (P : string → Prop) :
  P EmptyString → (∀ x, P (String x EmptyString)) → (∀ x y, P (String x (String y EmptyString))) →
  (∀ x y z s, P s → P (String x (String y (String z s)))) → ∀ s, P s.
Proof.
  intros H0 H1 H2 H3. refine (fix IH s := _).
  destruct s as [|x [|y [|z s]]]; [exact H0|apply H1|apply H2|apply H3, IH].
Qed.

Local Ltac digits :=
  repeat match goal with
  | |- context [digit6 ?a ?b ?c ?d ?e ?f] =>
      let H := fresh in pose proof (undigit6_digit6 a b c d e f) as H; cbv zeta in H;
      generalize dependent (digit6 a b c d e f); intros
  end;
  repeat match goal with H : _ ∧ _ |- _ => destruct H end.

Lemma base64_untext_text s : base64_untext (base64_text s) = Some s.
Proof.
  induction s as [|[]|[] []|[] [] [] s IH] using string_ind3; [done|..];
    cbn [base64_text]; digits; cbn [base64_untext];
    repeat match goal with H : _ = _ |- _ => rewrite H; clear H end; done.
Qed.

Lemma base64_text_line s : str_forall (λ a, negb (Ascii.eqb a newline)) (base64_text s) = true.
Proof.
  induction s as [|[]|[] []|[] [] [] s IH] using string_ind3; [done|..];
    cbn [base64_text]; digits; cbn [str_forall];
    repeat match goal with H : Ascii.eqb _ newline = _ |- _ => rewrite H; clear H end; done.
Qed.

#[export] Instance concrete_base64_laws : Base64Laws.
Proof.
  exact (Build_Base64Laws _ base64_untext base64_untext_text base64_text_line).
Defined.

(** ** Sorting *)

Lemma str_leb_total s t : str_leb s t = true ∨ str_leb t s = true.
Proof.
  revert t. induction s as [|a s IH]; intros [|b t]; simpl; [auto..|].
  destruct (Ascii.eqb_spec a b) as [->|Hab].
  - rewrite Ascii.eqb_refl. apply IH.
  - rewrite (proj2 (Ascii.eqb_neq b a)) by congruence. rewrite !N.leb_le. lia.
Qed.

#[export] Instance concrete_sort_laws : StdSortLaws.
Proof.
  split; intros A key l; simpl.
  - apply merge_sort_Permutation.
  - assert (Total (key_le key)) as Ht by (intros x y; apply str_leb_total).
    apply (Sorted_merge_sort (key_le key)).
Defined.
