(* ===== verification/Samples.v ===== *)
(** Small Nix programs as syntax trees, and the witnesses: for every property
    with hypotheses, an instance at a concrete input where they hold. *)
From S2P Require Import Prelude Text JsLexer Externs Consts Context Helpers Idents Let Node Translate Main Tree Lazyness Keeps Traversal Termination Safety Scope Brackets Wasm Names Bindings JsAst Compile Refine RefineNode JsScope JsScopeNode Accept Awaited LetForms Errors Progress SourceMap MapDecode Concrete.
From Stdlib Require Import Ascii ZArith Sorted.
From stdpp Require Import gmap.
Local Open Scope nix2js_scope.

(** * Programs *)

Definition with_root (len : nat) (b : builder nat) : list arena_node :=
  build (n ← b; add_node 0 len "root" (PtRoot (mkRoot (Some n)))).

(** [let a = 1; in a] *)
Definition let_src : string := "let a = 1; in a".
Definition let_tbl : list arena_node := with_root 15 (
  v ← add_int 8 9 "1" 1;
  e ← add_entry 4 "a" v;
  b ← add_ident 14 "a";
  add_node 0 15 let_src
    (PtLetIn (mkLetIn 0 (mkEntryHolder [e] []) (Some (ident_node b))))).

(** [x: x] *)
Definition id_src : string := "x: x".
Definition id_tbl : list arena_node := with_root 4 (
  x ← add_ident 0 "x";
  y ← add_ident 3 "x";
  add_node 0 4 id_src (PtLambda (mkLambda (Some (ident_node x)) (Some (ident_node y)) "x: x"))).

Definition run (tbl : list arena_node) (src : string) : outcome (list string) (string * string) :=
  @translate (arena_rnix tbl) _ _ _ _ (length tbl) src "in.nix".

(** The generated expression, without the fixed header. *)
Definition run_js (tbl : list arena_node) (src : string) : option string :=
  match run tbl src with
  | Ok (js, _) => Some (str_drop (String.length translate_header) js)
  | _ => None
  end.

(** * More programs *)

(** [if let x = false; in x then 1 else 2] *)
Definition if_let_src : string := "if let x = false; in x then 1 else 2".
Definition if_let_tbl : list arena_node := with_root 36 (
  f ← add_ident 11 "false";
  e ← add_entry 7 "x" (ident_node f);
  x ← add_ident 21 "x";
  l ← add_node 3 22 "let x = false; in x"
        (PtLetIn (mkLetIn 0 (mkEntryHolder [e] []) (Some (ident_node x))));
  a ← add_int 28 29 "1" 1;
  b ← add_int 35 36 "2" 2;
  add_node 0 36 if_let_src (PtIfElse (mkIfElse (Some l) (Some a) (Some b)))).

(** [__foldl'] *)
Definition foldl_src : string := "__foldl'".
Definition foldl_tbl : list arena_node := with_root 8 (
  x ← add_ident 0 "__foldl'"; ret (ident_node x)).

(** [x: y: y] *)
Definition names_src : string := "x: y: y".
Definition names_tbl : list arena_node := with_root 7 (
  x ← add_ident 0 "x";
  y ← add_ident 3 "y";
  z ← add_ident 6 "y";
  i ← add_node 3 7 "y: y"
        (PtLambda (mkLambda (Some (ident_node y)) (Some (ident_node z)) "y: y"));
  add_node 0 7 names_src (PtLambda (mkLambda (Some (ident_node x)) (Some i) "x: y: y"))).

(** [let a = b; b = 1; in a] *)
Definition order_src : string := "let a = b; b = 1; in a".
Definition order_tbl : list arena_node := with_root 22 (
  b ← add_ident 8 "b";
  e1 ← add_entry 4 "a" (ident_node b);
  v ← add_int 15 16 "1" 1;
  e2 ← add_entry 11 "b" v;
  a ← add_ident 21 "a";
  add_node 0 22 order_src
    (PtLetIn (mkLetIn 0 (mkEntryHolder [e1; e2] []) (Some (ident_node a))))).

(** [let a.b = 1; in a] *)
Definition path_src : string := "let a.b = 1; in a".
Definition path_tbl : list arena_node := with_root 17 (
  v ← add_int 10 11 "1" 1;
  k1 ← add_ident 4 "a";
  k2 ← add_ident 6 "b";
  n ← add_node 4 12 "a.b = 1;" (PtKeyValue "a.b");
  a ← add_ident 16 "a";
  add_node 0 17 path_src
    (PtLetIn (mkLetIn 0 (mkEntryHolder
       [mkKeyValue n (Some (mkKey [ident_node k1; ident_node k2])) (Some v)] [])
       (Some (ident_node a))))).

(** [toString 1 ? a], the application in parentheses. *)
Definition isset_src : string := "toString 1 ? a".
Definition isset_tbl : list arena_node := with_root 14 (
  f ← add_ident 0 "toString";
  v ← add_int 9 10 "1" 1;
  ap ← add_node 0 10 "toString 1" (PtApply (mkApply (Some (ident_node f)) (Some v)));
  a ← add_ident 13 "a";
  add_node 0 14 isset_src (PtBinOp (mkBinOp (Some IsSet) (Some ap) (Some (ident_node a))))).

(** [./a/${x}], which the parser reads as a path with interpolation. *)
Definition interpol_src : string := "./a/${x}".
Definition interpol_tbl : list arena_node := with_root 8 (
  add_node 0 8 interpol_src (PtPathWithInterpol "path")).

(** [assert true; 1] *)
Definition assert_src : string := "assert true; 1".
Definition assert_tbl : list arena_node := with_root 14 (
  t ← add_ident 7 "true";
  v ← add_int 13 14 "1" 1;
  add_node 0 14 assert_src (PtAssert (mkAssert (Some (ident_node t)) (Some v)))).

(** [if !true then 1 else 2] *)
Definition not_src : string := "if !true then 1 else 2".
Definition not_tbl : list arena_node := with_root 22 (
  t ← add_ident 4 "true";
  u ← add_node 3 8 "!true" (PtUnaryOp (mkUnaryOp Invert (Some (ident_node t))));
  a ← add_int 14 15 "1" 1;
  b ← add_int 21 22 "2" 2;
  add_node 0 22 not_src (PtIfElse (mkIfElse (Some u) (Some a) (Some b)))).

(** [if <nixpkgs> then 1 else 2] *)
Definition if_path_src : string := "if <nixpkgs> then 1 else 2".
Definition if_path_tbl : list arena_node := with_root 26 (
  p ← add_node 3 12 "<nixpkgs>" (PtValue (mkValue (inl (NvPath "Store" "nixpkgs"))));
  a ← add_int 18 19 "1" 1;
  b ← add_int 25 26 "2" 2;
  add_node 0 26 if_path_src (PtIfElse (mkIfElse (Some p) (Some a) (Some b)))).

(** [let a-b = 1; a'_b = 2; in 1] *)
Definition clash_src : string := "let a-b = 1; a'_b = 2; in 1".
Definition clash_tbl : list arena_node := with_root 27 (
  v ← add_int 10 11 "1" 1;
  e1 ← add_entry 4 "a-b" v;
  w ← add_int 20 21 "2" 2;
  e2 ← add_entry 13 "a'_b" w;
  b ← add_int 26 27 "1" 1;
  add_node 0 27 clash_src (PtLetIn (mkLetIn 0 (mkEntryHolder [e1; e2] []) (Some b)))).

(** [z], which is not bound. *)
Definition unknown_src : string := "z".
Definition unknown_tbl : list arena_node := with_root 1 (x ← add_ident 0 "z"; ret (ident_node x)).

(** * Witnesses *)

Definition let_laws : @RnixLaws (arena_rnix let_tbl) := arena_laws let_tbl eq_refl.

Lemma translate_total_witness :
  (∃ js map, run let_tbl let_src = Ok (js, map))
  ∨ (∃ errs, errs ≠ [] ∧ run let_tbl let_src = Err errs).
Proof.
  apply (@translate_total (arena_rnix let_tbl) _ _ _ _ let_laws _ _ _
           (length let_tbl) let_src "in.nix").
  - vm_compute. done.
  - vm_compute. lia.
  - apply (everywhereb_spec (node_safeb let_src) _ (length let_tbl)); [apply node_safeb_spec|].
    by vm_compute.
  - vm_compute. intros [Hx|Hx]; by apply Hx.
Defined.

Lemma translate_terminates_witness : run let_tbl let_src ≠ OutOfFuel.
Proof.
  apply (@translate_terminates (arena_rnix let_tbl) _ _ _ _ let_laws _).
  vm_compute. lia.
Defined.

Lemma translate_node_frame_witness :
  let c := @initial_context _ let_src in
  let r := @translate_node (arena_rnix let_tbl) _ _ _ _ 100 (mksctx Nothing Want) (pred (length let_tbl)) c in
  grow c (snd r) ∧ (fst r = Ok tt → vars (snd r) = vars c ∧ with_stack (snd r) = with_stack c).
Proof.
  apply (@translate_node_frame (arena_rnix let_tbl) _ _ _ _ let_laws _ 100 (mksctx Nothing Want)
           (pred (length let_tbl))); [done|]. by destruct (translate_node _ _ _ _).
Defined.

Definition result_js (o : outcome (list string) (string * string)) : string :=
  match o with Ok (js, _) => js | _ => EmptyString end.
Definition result_map (o : outcome (list string) (string * string)) : string :=
  match o with Ok (_, map) => map | _ => EmptyString end.

Lemma translate_map_decodes_witness :
  ∃ names mappings lines,
    result_map (run let_tbl let_src) = source_map "in.nix" names mappings
    ∧ NoDup names
    ∧ decode_mappings mappings = Some lines
    ∧ Forall (Forall (fields_ok (length names))) lines
    ∧ Forall (source_pos let_src) (source_positions (0, 0)%Z (mjoin lines)).
Proof.
  apply (@translate_map_decodes (arena_rnix let_tbl) _ _ _ _ let_laws _ _ _
           (length let_tbl) let_src "in.nix" (result_js (run let_tbl let_src))).
  - apply (everywhereb_spec (node_rangedb let_src) _ (length let_tbl)); [apply node_rangedb_spec|].
    by vm_compute.
  - by vm_compute.
Defined.

(** The test of [node_lexical]. *)
Definition node_lexicalb {R : Rnix} (n : @NixNode R) : bool :=
  forallb (λ id, str_forall nix_ident_byte (ident_as_str id)
                 && negb (bool_decide (ident_as_str id = foldl'))) (node_idents n)
  && match ParsedType_try_from n with
     | inl (PtBinOp bo) =>
         match bo_operator bo with Some (OtherOp dbg) => str_forall is_alnum dbg | _ => true end
     | _ => true
     end.

Lemma node_lexicalb_spec {R : Rnix} n : node_lexicalb n = true → node_lexical n.
Proof.
  unfold node_lexicalb, node_lexical. rewrite andb_true_iff, forallb_forall. intros [Hi Ho]. split.
  - intros id Hid%list_elem_of_In. specialize (Hi id Hid).
    by rewrite andb_true_iff, negb_true_iff, bool_decide_eq_false in Hi.
  - intros pt Hpt. rewrite Hpt in Ho. destruct pt; simpl in *; try done.
    by destruct (bo_operator bo) as [[]|].
Qed.

Lemma order_lexical : everywhere (@node_lexical (arena_rnix order_tbl))
  (snd (@rnix_parse (arena_rnix order_tbl) order_src)).
Proof.
  apply (everywhereb_spec node_lexicalb _ (length order_tbl)); [apply node_lexicalb_spec|].
  by vm_compute.
Qed.

Lemma translate_well_lexed_witness :
  let js := result_js (run order_tbl order_src) in
  well_lexed js = true ∧ str_forall (λ a, negb (Ascii.eqb a newline)) js = true.
Proof.
  apply (@translate_well_lexed (arena_rnix order_tbl) _ _ _ _ _ _
           (length order_tbl) order_src "in.nix" _ (result_map (run order_tbl order_src))).
  - apply order_lexical.
  - by vm_compute.
Defined.

Definition raw_sample : outcome string string * Context :=
  @translate_node_ident_raw _ _ _ (Some (mksctx Want Nothing)) (mkTextRange 0 1) "a" LambdaArg
    (initial_context let_src).

Lemma translate_node_ident_raw_text_witness :
  "nix__a" = @ident_text _ "a" LambdaArg
  ∧ acc (snd raw_sample) = translate_header +:+ "(await " +:+ "nix__a" +:+ ")".
Proof.
  apply (translate_node_ident_raw_text (Some (mksctx Want Nothing)) (mkTextRange 0 1) "a" LambdaArg
           (initial_context let_src) "nix__a" (snd raw_sample)).
  by vm_compute.
Defined.

Lemma mangle_inj_witness : mangle_safe "a-b" = true ∧ mangle_safe "c'd" = true
  ∧ (mangle "a-b" = mangle "c'd" → "a-b" = "c'd").
Proof. split; [done|split; [done|]]. by apply (mangle_inj "a-b" "c'd"). Defined.

Definition two_lines : string := "x:" +:+ newline_str +:+ "y".

Lemma txtrng_to_lineno_count_witness :
  txtrng_to_lineno two_lines (mkTextRange 3 4) = 1.
Proof.
  rewrite (txtrng_to_lineno_count two_lines (mkTextRange 3 4)); [by vm_compute|by vm_compute].
Defined.

Definition order_holder : EntryHolder nat :=
  match an_type (arena_get order_tbl 7) with
  | inl (PtLetIn l) => li_holder l
  | _ => mkEntryHolder [] []
  end.

Lemma getkeys_spec_witness :
  let ks := snd <$> @getkeys (arena_rnix order_tbl) _ order_holder in
  StronglySorted str_lt ks ∧ NoDup ks ∧ ∀ x, x ∈ ks ↔ @binds_name (arena_rnix order_tbl) order_holder x.
Proof. apply (@getkeys_spec (arena_rnix order_tbl) _ _ order_holder). Defined.

(** ** The front ends *)

Definition sample_world (src : string) : World :=
  mkWorld EmptyString EmptyString EmptyString {[ "in.nix" := src ]}
    (λ p, negb (bool_decide (p = "read-only"))).

Definition run_main (tbl : list arena_node) (src : string) (args : list string) :
    outcome io_error unit * World :=
  @main (arena_rnix tbl) _ _ _ _ 100 args (sample_world src).

Lemma main_files_frame_witness :
  files (snd (run_main let_tbl let_src ["in.nix"; "out.js"; "out.map"])) !! "in.nix" = Some let_src.
Proof.
  apply (@main_files_frame (arena_rnix let_tbl) _ _ _ _ 100 ["in.nix"; "out.js"; "out.map"]
           (sample_world let_src) "in.nix").
  apply (bool_decide_unpack (_ ∉ _)). by vm_compute.
Defined.

Lemma main_writes_map_first_witness :
  let '(o, w') := run_main let_tbl let_src ["in.nix"; "out.js"; "read-only"] in
  o = Err PermissionDenied ∧ files w' !! "out.js" = None.
Proof.
  pose proof (@main_writes_map_first (arena_rnix let_tbl) _ _ _ _ 100 "in.nix" "out.js" "read-only" []
    (sample_world let_src) let_src (result_js (run let_tbl let_src)) (result_map (run let_tbl let_src))
    ltac:(done) ltac:(done) ltac:(done) ltac:(by vm_compute)) as Hm.
  unfold run_main. destruct (main _ _ _) as [o w'].
  destruct Hm as (_ & _ & _ & Hf & Hok). apply Hf. intros Ho. by apply Hok in Ho as [? _].
Defined.

Lemma main_reports_errors_witness :
  (let '(o, w') := run_main unknown_tbl unknown_src ["in.nix"; "out.js"] in
   o = Ok tt ∧ stderr w' = "line 0: unknown identifier z" +:+ newline_str
   ∧ files w' = files (sample_world unknown_src))
  ∧ (let '(o, w') := @main (arena_rnix unknown_tbl) _ _ _ _ 100 [] (set_stdin unknown_src (sample_world unknown_src)) in
     o = Ok tt ∧ stderr w' = "line 0: unknown identifier z" +:+ newline_str ∧ stdout w' = EmptyString).
Proof.
  unfold run_main. split.
  - destruct (@main_reports_errors (arena_rnix unknown_tbl) _ _ _ _ 100 (sample_world unknown_src)
      ["line 0: unknown identifier z"]) as [Hfile _].
    rewrite (Hfile "in.nix" ["out.js"] unknown_src ltac:(done) ltac:(done) ltac:(by vm_compute)). done.
  - destruct (@main_reports_errors (arena_rnix unknown_tbl) _ _ _ _ 100
      (set_stdin unknown_src (sample_world unknown_src)) ["line 0: unknown identifier z"]) as [_ Hstdin].
    rewrite (Hstdin ltac:(done) ltac:(by vm_compute)). done.
Defined.

Lemma translate_inline_roundtrip_witness :
  match @translate_wasm (arena_rnix order_tbl) _ _ _ _ 100 order_src "in.nix" with
  | Ok (js, map) =>
      ∃ t, @translate_inline_srcmap (arena_rnix order_tbl) _ _ _ _ _ 100 order_src "in.nix" = Ok t
           ∧ read_inline t = Some (js, map)
  | _ => False
  end.
Proof.
  pose proof (@translate_inline_roundtrip (arena_rnix order_tbl) _ _ _ _ _ _ _ _ 100 order_src "in.nix"
    order_lexical) as Hr.
  assert (∃ x, @translate_wasm (arena_rnix order_tbl) _ _ _ _ 100 order_src "in.nix" = Ok x) as [[js map] Hx].
  { eexists. by vm_compute. }
  rewrite Hx in *. exact Hr.
Defined.

Lemma force_opens_function_witness :
  ∃ pre post,
    lazyness_incoming (mksctx Want Want) Flush Force Front (λ _, push "{}") (initial_context let_src)
    = Lazyness.between (pre ++ ["nixBlti.PLazy.from(async ()=>"]) post (push "{}") (initial_context let_src)
    ∧ post = replicate (S (length pre)) ")" ∧ (pre = [] ∨ pre = ["(await "]).
Proof.
  apply (force_opens_function (mksctx Want Want) Flush (λ _, push "{}") (initial_context let_src));
    [done|by right].
Defined.

(** ** The generated program *)

Lemma let_shaped : well_shaped (H := arena_rnix let_tbl) (snd (@rnix_parse (arena_rnix let_tbl) let_src)).
Proof.
  apply (everywhereb_spec (λ n, node_shape n && names_apart n) _ (length let_tbl)); [done|]. by vm_compute.
Qed.


Lemma translate_accepts_witness :
  (∃ js map, run let_tbl let_src = Ok (js, map))
  ↔ fst (@rnix_parse (arena_rnix let_tbl) let_src) = []
    ∧ @accepts (arena_rnix let_tbl) _ _ (length let_tbl) (DFL_VARS.*1) false
        (snd (@rnix_parse (arena_rnix let_tbl) let_src)) = true.
Proof.
  apply (@translate_accepts (arena_rnix let_tbl) _ _ _ _ let_laws _ _ _
           (length let_tbl) let_src "in.nix").
  - vm_compute. done.
  - vm_compute. lia.
  - apply (everywhereb_spec (node_safeb let_src) _ (length let_tbl)); [apply node_safeb_spec|].
    by vm_compute.
  - vm_compute. intros [Hx|Hx]; by apply Hx.
Defined.

Lemma snapshot_pos_overflow_witness :
  match fst (snapshot_pos 4 (initial_context let_src)) with
  | Ok r => advance_fits (advance (initial_context let_src)) ∧ (r = None ↔ advance (initial_context let_src) = None)
  | Panic _ => ¬ advance_fits (advance (initial_context let_src))
      ∧ (2 ^ 32 ≤ Z.of_nat (String.length (acc (initial_context let_src))))%Z
  | _ => False
  end.
Proof.
  apply (snapshot_pos_overflow let_src 4 (initial_context let_src)).
  - vm_compute. done.
  - vm_compute. lia.
  - apply initial_safe.
Defined.


Definition order_laws : @RnixLaws (arena_rnix order_tbl) := arena_laws order_tbl eq_refl.

(** Check of [holder_fits]. *)
Lemma holder_fits_check {R : Rnix} {L : RnixLaws} s fuel (h : EntryHolder NixNode) n :
  forallb (λ m, (node_size m <? fuel) && everywhereb (node_safeb s) fuel m) (n :: holder_children h)
    && forallb (λ id, in_sourceb s (node_text_range (ident_node id))) (holder_idents h) = true →
  holder_fits s fuel h (LbNix n).
Proof.
  rewrite andb_true_iff, !forallb_forall. intros [Hn Hi].
  assert (∀ m, m ∈ n :: holder_children h → node_fits s fuel m) as Hfits.
  { intros m Hm%list_elem_of_In. apply Hn, andb_true_iff in Hm as [Hlt Hm].
    split; [by apply Nat.ltb_lt|]. eapply everywhereb_spec; [apply node_safeb_spec|exact Hm]. }
  split_and!.
  - intros m Hm. apply Hfits. by right.
  - intros id Hid%list_elem_of_In. apply Hi in Hid. by apply bool_decide_eq_true in Hid.
  - intros m [= <-]. apply Hfits. by left.
Qed.

Lemma let_forms_agree_witness :
  let R := arena_rnix order_tbl in
  let run_form m := fst (m (initial_context order_src)) in
  let val := mksctx Nothing Want in
  let body := LbNix 8 in
  @let_is_variables R order_holder body NIX_IN_SCOPE = true
  ∧ agree (run_form (@translate_let_variables R _ _ _ _ (translate_node 12) val val order_holder body NIX_IN_SCOPE))
      (run_form (@translate_let_scope R _ _ _ _ (translate_node 12) val val order_holder body NIX_IN_SCOPE)).
Proof.
  cbv zeta. split; [by vm_compute|].
  apply (@let_forms_agree (arena_rnix order_tbl) _ _ _ _ _ order_laws _ _ order_src ltac:(by vm_compute)
    12 (mksctx Nothing Want) (mksctx Nothing Want) order_holder (LbNix 8) NIX_IN_SCOPE (initial_context order_src)).
  - apply initial_safe.
  - done.
  - apply (@holder_fits_check (arena_rnix order_tbl) order_laws order_src 12 order_holder 8). by vm_compute.
  - intros i id Hi Hid. by apply elem_of_nil in Hi.
  - vm_compute. intros [Hx|Hx]; by apply Hx.
  - by vm_compute.
  - vm_compute. intros [Hx|Hx]; by apply Hx.
Defined.

Lemma translate_errors_unknown_witness :
  let R := arena_rnix unknown_tbl in
  ∃ id, run unknown_tbl unknown_src = Err [@unknown_msg unknown_src R id]
    ∧ @ident_in R (snd (@rnix_parse R unknown_src)) id ∧ ident_as_str id ∉ DFL_VARS.*1.
Proof.
  destruct (@translate_errors_unknown (arena_rnix unknown_tbl) _ _ _ _ (length unknown_tbl) unknown_src "in.nix"
    ["line 0: unknown identifier z"]) as (id & He & Hid & Hn); [done|by vm_compute|by vm_compute|].
  exists id. split_and!; [|done|done]. rewrite <- He. by vm_compute.
Defined.
