(* ===== verification/Findings.v ===== *)
(** Behaviour of the translator that differs from what the code, its comments or
    its counterparts expect, each shown by evaluation on a small program. *)
From S2P Require Import Prelude Text JsLexer Externs Consts Context Helpers Idents Let Node Translate Tree Lazyness Brackets Names JsAst JsScope SourceMap MapDecode Concrete Samples.
From Stdlib Require Import Ascii ZArith.
Local Open Scope nix2js_scope.

(** The condition of an [if] is wanted as a value, yet a [let .. in ..] there is
    printed as a promise that nothing awaits, and a promise is always truthy. *)
Lemma let_in_condition_is_a_promise :
  run_js if_let_tbl if_let_src =
  Some ("nixBlti.PLazy.from(async ()=>((nixBlti.PLazy.from(async ()=>{let nix__x;nix__x=false;"
        +:+ "return (await nix__x);}))?(1):(2)));").
Proof. by vm_compute. Qed.

(** The reason: a forwarded await is dropped where a promise starts. *)
Lemma forwarded_await_is_dropped :
  lazyness_plan (mksctx Want Nothing) Forward Force Front =
  (["nixBlti.PLazy.from(async ()=>"], mksctx Want Nothing, [")"]).
Proof. done. Qed.

(** [__foldl'] is printed as a member access with a quote in it, which no
    JavaScript lexer accepts. *)
Lemma foldl_is_not_javascript :
  run_js foldl_tbl foldl_src = Some "nixBltiRT.foldl';" ∧ well_lexed "nixBltiRT.foldl';" = false.
Proof. split; by vm_compute. Qed.

(** The binding of [a] reads the variable of [b] before it is assigned: the values
    of a [let] of plain variables are not lazy when they are identifiers. *)
Lemma let_reads_before_assignment :
  run_js order_tbl order_src =
  Some ("nixBlti.PLazy.from(async ()=>{let nix__a,nix__b;nix__a=nix__b;nix__b=1;"
        +:+ "return (await nix__a);});").
Proof. by vm_compute. Qed.

(** A nested key in a [let] of plain variables merges into a variable that is
    still undefined. *)
Lemma let_path_merges_into_undefined :
  run_js path_tbl path_src =
  Some ("nixBlti.PLazy.from(async ()=>{let nix__a;await nixOp._deepMerge(nix__a,1,"
        +:+ String dquote ("b" +:+ String dquote ");return (await nix__a);});")).
Proof. by vm_compute. Qed.

(** At the top level [?] prints an [await] outside of any async function. *)
Lemma isset_awaits_at_top_level :
  run_js isset_tbl isset_src =
  Some ("Object.prototype.hasOwnProperty.call((await (nixBltiRT.toString)(1)),"
        +:+ String dquote ("a" +:+ String dquote ");")).
Proof. by vm_compute. Qed.

(** A path with interpolation, which is valid Nix, ends in a panic. *)
Lemma path_with_interpolation_panics :
  run interpol_tbl interpol_src = Panic "standalone path-with-interpolation not supported: path".
Proof. by vm_compute. Qed.

(** The text and the condition of an [assert] are the two arguments of one call. *)
Lemma assert_is_called_with_two_arguments :
  run_js assert_tbl assert_src =
  Some ("nixBlti.PLazy.from(async ()=>{await nixBltiRT.assert(" +:+ String dquote
        ("line 0: true" +:+ String dquote ",true); return (1); });")).
Proof. by vm_compute. Qed.

(** The indices of names are not relative to the previous one, as the format wants
    them: a reader that adds them up leaves the list of names. *)
Fixpoint name_indices (i : Z) (fs : list (list Z)) : list Z :=
  match fs with
  | [] => []
  | [_; _; _; _; n] :: fs' => (i + n)%Z :: name_indices (i + n)%Z fs'
  | _ :: fs' => name_indices i fs'
  end.

Definition names_mappings : string :=
  mappings (snd (@translate_node (arena_rnix names_tbl) _ _ _ _ 100 (mksctx Nothing Want)
    (pred (length names_tbl)) (initial_context names_src))).

Lemma name_indices_leave_the_names :
  ∃ lines, decode_mappings names_mappings = Some lines
    ∧ name_indices 0 (mjoin lines) = [0; 1; 2]%Z
    ∧ result_map (run names_tbl names_src) = source_map "in.nix" ["x"; "y"] names_mappings.
Proof. eexists. split; [by vm_compute|split; by vm_compute]. Qed.

(** The unary operators are async functions of the runtime and their calls are not
    awaited: the condition of [if !true ..] is a promise, which is always true. *)
Lemma negation_is_a_promise :
  run_js not_tbl not_src =
  Some "nixBlti.PLazy.from(async ()=>((nixOp.u_Invert(true))?(1):(2)));".
Proof. by vm_compute. Qed.

(** A path is printed as a bare call of [nixRt.export], also as a condition; the
    runtime of the repository returns a promise for a path it has to look up. *)
Lemma path_condition_is_not_awaited :
  run_js if_path_tbl if_path_src =
  Some ("nixBlti.PLazy.from(async ()=>((nixRt.export(" +:+ String dquote ("Store" +:+ String dquote ","
        +:+ String dquote ("nixpkgs" +:+ String dquote "))?(1):(2)));"))).
Proof. by vm_compute. Qed.

(** Two names that become the same variable: the block declares it twice, which
    JavaScript rejects. *)
Lemma clashing_names_are_declared_twice :
  run_js clash_tbl clash_src =
  Some ("nixBlti.PLazy.from(async ()=>{let nix__a_$_b,nix__a_$_b;nix__a_$_b=1;nix__a_$_b=2;"
        +:+ "return 1;});")
  ∧ declared_once ["a-b"; "a'_b"] = false.
Proof. split; by vm_compute. Qed.
